(** * tacoma: temporal networks, Flockwork-P rewiring, SIRS and social trajectories

    A shallow embedding of three translation units of tacoma,

    - [_tacoma/SIRS.cpp]      (modules [SIRS], [SIRS_cache], [SIRS_rates]),
    - the social trajectories: the labels of groups and of edges and the
      interval and binned extraction from edge changes and edge lists
                              (modules [Trajectories], [Edge_labels],
                               [Graph_updates], [Group_labels],
                               [Interval_mode], [Binned_mode]),
    - [_tacoma/FW_P_varying_alpha_beta.cpp]
                              (modules [Flockwork], [Flockwork_stream]),

    together with the properties of the specification that concern them.
    Each module gives the definitions first and the lemmas after them.

    Conventions of the embedding.

    - [size_t] values that are only used as identifiers or indices (node ids,
      group labels, vector positions) are [nat]; where the source computes
      with them the 64-bit wrap-around is written out over [Z]
      ([size_t_sub]).
    - [double] is modelled by the rationals [Q], and comparisons are those
      of [Q].  Where the code truncates, compares or records what it has
      computed in doubles (the bins of the binned extraction, the clock of
      the Flockwork simulation) each operation is rounded to the nearest
      binary64 number ([Double.round]).  The rates and the observables,
      which are only handed on, are given as exact products, sums and
      quotients.  Infinities and NaN are not modelled.
    - A [std::vector] is a [list]; unchecked element access outside the
      vector is undefined in C++ and is an explicit [undefined_behaviour]
      outcome here.  A [std::set<size_t>] is a [gset nat], iterated in
      ascending order ([set_iter]); a [std::map<size_t,size_t>] is a
      [gmap Z nat].
    - An exception, a failed [assert] and undefined behaviour end a
      computation: functions that can do so return an [outcome].
    - Random draws are arguments: a handler receives the value that its
      distribution returned. *)

From Stdlib Require Import ZArith QArith Qround Qpower Lia Lqa String.
From stdpp Require Import gmap list sorting.

Set Default Proof Using "Type".

Local Open Scope Z_scope.
Local Open Scope nat_scope.

(** ** Outcomes of a C++ computation *)

Inductive error : Type :=
| domain_error (what : string)
| length_error (what : string)
| assertion_failure
| undefined_behaviour.

Inductive outcome (A : Type) : Type :=
| Ok (a : A)
| Err (e : error).
Arguments Ok {A} a.
Arguments Err {A} e.

#[global] Instance outcome_ret : MRet outcome := fun A a => Ok a.
#[global] Instance outcome_bind : MBind outcome := fun A B k c =>
  match c with
  | Ok a => k a
  | Err e => Err e
  end.

(** An exception was thrown (as opposed to a normal return or to an
    execution that C++ leaves undefined). *)
Definition throws {A : Type} (c : outcome A) : Prop :=
  match c with
  | Err (domain_error _) | Err (length_error _) => True
  | _ => False
  end.

(** ** Vectors and sets *)

(** [v[i]] without bounds check. *)
Definition at_ {A : Type} (v : list A) (i : nat) : outcome A :=
  match v !! i with
  | Some x => Ok x
  | None => Err undefined_behaviour
  end.

(** [v[i] = x] without bounds check. *)
Definition assign {A : Type} (v : list A) (i : nat) (x : A) : outcome (list A) :=
  if decide (i < length v) then Ok (<[i := x]> v) else Err undefined_behaviour.

(** [v.erase(v.begin() + i)]. *)
Definition erase_at {A : Type} (v : list A) (i : nat) : outcome (list A) :=
  if decide (i < length v) then Ok (delete i v) else Err undefined_behaviour.

(** [v.erase(remove_if(v.begin(), v.end(), p), v.end())]. *)
Definition erase_if {A : Type} (p : A -> bool) (v : list A) : list A :=
  List.filter (fun x => negb (p x)) v.

(** Iteration over a [std::set<size_t>]: ascending. *)
Definition set_iter (s : gset nat) : list nat := merge_sort Nat.le (elements s).

(** [size_t] arithmetic. *)
Definition size_t_modulus : Z := (2 ^ 64)%Z.
Definition size_t_sub (a b : Z) : Z := ((a - b) mod size_t_modulus)%Z.

(** The values [uniform_int_distribution<size_t>(a, b)] can return. *)
Definition uniform_int_distribution (a b : Z) (draw : Z) : Prop :=
  (a <= draw <= b)%Z.

Abbreviation edge := (nat * nat)%type (only parsing).
Abbreviation graph := (list (gset nat)) (only parsing).

Module EPI.
Inductive t : Type := S | I | R.
Definition eqb (a b : t) : bool :=
  match a, b with
  | S, S | I, I | R, R => true
  | _, _ => false
  end.
End EPI.

Lemma EPI_eqb_eq a b : EPI.eqb a b = true <-> a = b.
Proof. destruct a, b; simpl; split; intros; congruence. Qed.

Lemma at_Ok {A : Type} (v : list A) (i : nat) (x : A) :
  at_ v i = Ok x <-> v !! i = Some x.
Proof.
  unfold at_. destruct (v !! i); split; intros; congruence.
Qed.

Lemma assign_Ok {A : Type} (v : list A) (i : nat) (x : A) :
  i < length v -> assign v i x = Ok (<[i := x]> v).
Proof. intros H. unfold assign. by rewrite decide_True. Qed.

Lemma erase_at_Ok {A : Type} (v : list A) (i : nat) :
  i < length v -> erase_at v i = Ok (delete i v).
Proof. intros H. unfold erase_at. by rewrite decide_True. Qed.

Lemma elem_of_take_1 {A : Type} (l : list A) (n : nat) (x : A) :
  x ∈ take n l -> x ∈ l.
Proof.
  intros (i & Hi & _)%elem_of_take. by eapply list_elem_of_lookup_2.
Qed.

Lemma set_iter_elem (s : gset nat) (x : nat) : x ∈ set_iter s <-> x ∈ s.
Proof.
  unfold set_iter. rewrite merge_sort_Permutation. apply elem_of_elements.
Qed.

Lemma set_iter_sorted (s : gset nat) : Sorted Nat.le (set_iter s).
Proof. unfold set_iter. apply (Sorted_merge_sort Nat.le). Qed.

Lemma set_iter_NoDup (s : gset nat) : NoDup (set_iter s).
Proof.
  unfold set_iter. rewrite merge_sort_Permutation. apply NoDup_elements.
Qed.

Lemma erase_if_elem {A : Type} (p : A -> bool) (v : list A) (x : A) :
  x ∈ erase_if p v <-> x ∈ v /\ p x = false.
Proof.
  unfold erase_if. rewrite !list_elem_of_In, List.filter_In.
  rewrite negb_true_iff. tauto.
Qed.

(** ** SIRS.cpp *)

Module SIRS.

(** The members of [class SIRS] that the handlers read and write.  [G] is a
    pointer to the caller's graph: the record holds the value it pointed to
    when the last member function returned, and [update_network] receives
    the value after the caller's changes.  The observables [R0] and
    [mean_degree] are floating-point quotients that no handler reads back;
    they are not tracked. *)
Record t : Type := mk {
  N : nat;
  G : graph;
  node_status : list EPI.t;
  infected : list nat;
  recovered : list nat;
  SI_edges : list edge;
  SI : list nat;
  I : list nat;
  R : list nat;
  time : list Q
}.

Definition update_observables (s : t) (now : Q) : t :=
  {| N := N s; G := G s; node_status := node_status s;
     infected := infected s; recovered := recovered s;
     SI_edges := SI_edges s;
     SI := SI s ++ [length (SI_edges s)];
     I := I s ++ [length (infected s)];
     R := R s ++ [length (recovered s)];
     time := time s ++ [now] |}.

(** [for (neighbor : nbrs) if (node_status[neighbor] == want)
       SI_edges.push_back(mk(neighbor));] *)
Fixpoint push_neighbors (status : list EPI.t) (want : EPI.t)
    (mk : nat -> edge) (nbrs : list nat) (acc : list edge) : outcome (list edge) :=
  match nbrs with
  | [] => Ok acc
  | neighbor :: rest =>
      st ← at_ status neighbor;
      push_neighbors status want mk rest
        (if EPI.eqb st want then acc ++ [mk neighbor] else acc)
  end.

(** The loop of the first overload of [update_network]: for each infected,
    its susceptible neighbors. *)
Fixpoint scan_infected (g : graph) (status : list EPI.t)
    (infs : list nat) (acc : list edge) : outcome (list edge) :=
  match infs with
  | [] => Ok acc
  | inf :: rest =>
      nbrs ← at_ g inf;
      acc' ← push_neighbors status EPI.S (fun nb => (inf, nb)) (set_iter nbrs) acc;
      scan_infected g status rest acc'
  end.

(** [SIRS::update_network(_G, t)]: recomputation from scratch. *)
Definition update_network_scan (s : t) (_G : graph) (now : Q) : outcome t :=
  si ← scan_infected _G (node_status s) (infected s) [];
  Ok (update_observables
        {| N := N s; G := _G; node_status := node_status s;
           infected := infected s; recovered := recovered s;
           SI_edges := si;
           SI := SI s; I := I s; R := R s; time := time s |} now).

(** The predicate of the [remove_if] in the second overload: the entry is
    put in ascending order and looked up, as it is, in the set of the
    edges leaving. *)
Definition leaves (edges_out : list edge) (e : edge) : bool :=
  let u := e.1 in
  let v := e.2 in
  let '(u, v) := if v <? u then (v, u) else (u, v) in
  bool_decide ((u, v) ∈ edges_out).

(** The loop over [edges_in] in the second overload. *)
Fixpoint push_edges_in (status : list EPI.t) (edges_in : list edge)
    (acc : list edge) : outcome (list edge) :=
  match edges_in with
  | [] => Ok acc
  | (u, v) :: rest =>
      su ← at_ status u;
      sv ← at_ status v;
      push_edges_in status rest
        (if EPI.eqb su EPI.S && EPI.eqb sv EPI.I then acc ++ [(v, u)]
         else if EPI.eqb sv EPI.S && EPI.eqb su EPI.I then acc ++ [(u, v)]
         else acc)
  end.

(** [SIRS::update_network(_G, edges_in, edges_out, t)]: incremental. *)
Definition update_network (s : t) (_G : graph)
    (edges_in edges_out : list edge) (now : Q) : outcome t :=
  let kept := erase_if (leaves edges_out) (SI_edges s) in
  si ← push_edges_in (node_status s) edges_in kept;
  Ok (update_observables
        {| N := N s; G := _G; node_status := node_status s;
           infected := infected s; recovered := recovered s;
           SI_edges := si;
           SI := SI s; I := I s; R := R s; time := time s |} now).

(** The bounds of the uniform draw over a collection of [n] elements:
    [uniform_int_distribution<size_t>(0, n - 1)] in [size_t] arithmetic. *)
Definition draw_over (n : nat) (draw : Z) : Prop :=
  uniform_int_distribution 0 (size_t_sub (Z.of_nat n) 1) draw.

(** [SIRS::infection_event()], [this_susceptible_index] being the draw. *)
Definition infection_event (s : t) (this_susceptible_index : Z) : outcome t :=
  e ← at_ (SI_edges s) (Z.to_nat this_susceptible_index);
  let this_susceptible := e.2 in
  let infected' := infected s ++ [this_susceptible] in
  node_status' ← assign (node_status s) this_susceptible EPI.I;
  let kept := erase_if (fun edge => edge.2 =? this_susceptible) (SI_edges s) in
  let this_infected := this_susceptible in
  nbrs ← at_ (G s) this_infected;
  si ← push_neighbors node_status' EPI.S (fun neighbor => (this_infected, neighbor))
         (set_iter nbrs) kept;
  Ok {| N := N s; G := G s; node_status := node_status';
        infected := infected'; recovered := recovered s;
        SI_edges := si;
        SI := SI s; I := I s; R := R s; time := time s |}.

(** [SIRS::recovery_event()], [this_infected_index] being the draw. *)
Definition recovery_event (s : t) (this_infected_index : Z) : outcome t :=
  let i := Z.to_nat this_infected_index in
  this_infected ← at_ (infected s) i;
  infected' ← erase_at (infected s) i;
  let recovered' := recovered s ++ [this_infected] in
  node_status' ← assign (node_status s) this_infected EPI.R;
  let kept := erase_if (fun edge => edge.1 =? this_infected) (SI_edges s) in
  Ok {| N := N s; G := G s; node_status := node_status';
        infected := infected'; recovered := recovered';
        SI_edges := kept;
        SI := SI s; I := I s; R := R s; time := time s |}.

(** [SIRS::susceptible_event()], [this_recovered_index] being the draw. *)
Definition susceptible_event (s : t) (this_recovered_index : Z) : outcome t :=
  let i := Z.to_nat this_recovered_index in
  this_recovered ← at_ (recovered s) i;
  recovered' ← erase_at (recovered s) i;
  node_status' ← assign (node_status s) this_recovered EPI.S;
  let this_susceptible := this_recovered in
  nbrs ← at_ (G s) this_susceptible;
  si ← push_neighbors node_status' EPI.I (fun neighbor => (neighbor, this_susceptible))
         (set_iter nbrs) (SI_edges s);
  Ok {| N := N s; G := G s; node_status := node_status';
        infected := infected s; recovered := recovered';
        SI_edges := si;
        SI := SI s; I := I s; R := R s; time := time s |}.

(** [SIRS::make_event(event, t)]; [draw] is the value of the one uniform
    draw of the handler. *)
Definition make_event (s : t) (event : nat) (draw : Z) (now : Q) : outcome t :=
  s' ← (if event =? 0 then infection_event s draw
        else if event =? 1 then recovery_event s draw
        else if event =? 2 then susceptible_event s draw
        else Err (length_error
               "SIRS: chose event larger than rate vector which should not happen."));
  Ok (update_observables s' now).

End SIRS.

#[global] Instance EPI_eq_dec : EqDecision EPI.t.
Proof. solve_decision. Defined.

(** *** The S-I frontier as a derived cache *)

Module SIRS_cache.
Import SIRS.

(** [j] is in the adjacency set of [i]. *)
Definition is_edge (g : graph) (i j : nat) : Prop :=
  exists nb, g !! i = Some nb /\ j ∈ nb.

(** The undirected edge [{i, j}] is listed, in either order. *)
Definition listed (l : list edge) (i j : nat) : Prop :=
  (i, j) ∈ l \/ (j, i) ∈ l.

Definition ascending (e : edge) : Prop := e.1 < e.2.

(** The set the cache stands for. *)
Definition SI_pair (s : t) (i j : nat) : Prop :=
  node_status s !! i = Some EPI.I /\
  node_status s !! j = Some EPI.S /\
  is_edge (G s) i j.

Definition SI_consistent (s : t) : Prop :=
  forall i j, (i, j) ∈ SI_edges s <-> SI_pair s i j.

(** The recomputation from scratch, as the first overload of
    [update_network] does it on the current graph. *)
Definition recompute (s : t) : outcome (list edge) :=
  scan_infected (G s) (node_status s) (infected s) [].

Definition same_edges (l1 l2 : list edge) : Prop :=
  forall e, e ∈ l1 <-> e ∈ l2.

(** The cache is exact: it is the S-I frontier, and the recomputation from
    scratch returns the same collection of pairs. *)
Definition cache_exact (s : t) : Prop :=
  SI_consistent s /\
  exists r, recompute s = Ok r /\ same_edges (SI_edges s) r.

Record graph_ok (n : nat) (g : graph) : Prop := {
  graph_length : length g = n;
  graph_range : forall i j, is_edge g i j -> j < n;
  graph_sym : forall i j, is_edge g i j -> is_edge g j i
}.

(** The bookkeeping that the handlers rely on: [infected] and [recovered]
    list the nodes of status I and R, once each. *)
Record wf (s : t) : Prop := {
  wf_status : length (node_status s) = N s;
  wf_graph : graph_ok (N s) (G s);
  wf_infected : forall i, i ∈ infected s <-> node_status s !! i = Some EPI.I;
  wf_recovered : forall i, i ∈ recovered s <-> node_status s !! i = Some EPI.R;
  wf_infected_nodup : NoDup (infected s);
  wf_recovered_nodup : NoDup (recovered s)
}.

(** What a run of the epidemic is made of. *)
Inductive operation : Type :=
| NetworkChange (_G : graph) (edges_in edges_out : list edge) (now : Q)
| Event (event : nat) (draw : Z) (now : Q).

Definition apply (s : t) (o : operation) : outcome t :=
  match o with
  | NetworkChange _G edges_in edges_out now =>
      update_network s _G edges_in edges_out now
  | Event event draw now => make_event s event draw now
  end.

Fixpoint run (s : t) (ops : list operation) : outcome t :=
  match ops with
  | [] => Ok s
  | o :: rest => s' ← apply s o; run s' rest
  end.

(** The operations a driver may issue in state [s]: a network change whose
    lists describe how the new graph differs from the old one, with the
    leaving edges in ascending order; an event whose channel has something
    to draw from, with a draw the distribution can return. *)
Inductive admissible (s : t) : operation -> Prop :=
| adm_network _G edges_in edges_out now :
    graph_ok (N s) _G ->
    Forall ascending edges_out ->
    (forall i j, is_edge _G i j <->
       (is_edge (G s) i j /\ ~ listed edges_out i j) \/ listed edges_in i j) ->
    admissible s (NetworkChange _G edges_in edges_out now)
| adm_infection draw now :
    SI_edges s <> [] -> draw_over (length (SI_edges s)) draw ->
    admissible s (Event 0 draw now)
| adm_recovery draw now :
    infected s <> [] -> draw_over (length (infected s)) draw ->
    admissible s (Event 1 draw now)
| adm_susceptible draw now :
    recovered s <> [] -> draw_over (length (recovered s)) draw ->
    admissible s (Event 2 draw now).

(** A run each operation of which satisfies [P] in the state it is
    issued in. *)
Inductive run_of (P : t -> operation -> Prop) : t -> list operation -> Prop :=
| run_nil s : run_of P s []
| run_cons s o rest :
    P s o ->
    (forall s', apply s o = Ok s' -> run_of P s' rest) ->
    run_of P s (o :: rest).

Definition admissible_run : t -> list operation -> Prop := run_of admissible.

(** An entry of the cache with the smaller id first. *)
Definition sorted_pair (e : edge) : edge := (Nat.min e.1 e.2, Nat.max e.1 e.2).

(** A network change lists each entering edge once, and none that was in
    the graph and stays: what makes the entries of the cache distinct. *)
Definition adds_new (s : t) (o : operation) : Prop :=
  match o with
  | NetworkChange _G edges_in edges_out _ =>
      NoDup (sorted_pair <$> edges_in) /\
      forall u v, (u, v) ∈ edges_in ->
        ~ (is_edge (G s) u v /\ ~ listed edges_out u v)
  | Event _ _ _ => True
  end.

(** The handlers end in a normal return or in undefined behaviour: none of
    them raises an exception. *)
Definition no_exception {A : Type} (c : outcome A) : Prop :=
  match c with
  | Ok _ | Err undefined_behaviour => True
  | Err _ => False
  end.


(** Two linked nodes, node 1 infected: the state of the examples. *)
Definition two_linked : graph := [{[1]}; {[0]}].
Definition two_apart : graph := [∅; ∅].
Definition one_infected : t :=
  {| N := 2; G := two_linked; node_status := [EPI.S; EPI.I];
     infected := [1]; recovered := []; SI_edges := [(1, 0)];
     SI := []; I := []; R := []; time := [] |}.
(** Nobody infected: no S-I pair to draw from. *)
Definition all_susceptible : t :=
  {| N := 2; G := two_linked; node_status := [EPI.S; EPI.S];
     infected := []; recovered := []; SI_edges := [];
     SI := []; I := []; R := []; time := [] |}.

(** The handler of channel [event] has nothing to draw from. *)
Definition draws_from_empty (s : t) (event : nat) : Prop :=
  (event = 0 /\ SI_edges s = []) \/
  (event = 1 /\ infected s = []) \/
  (event = 2 /\ recovered s = []).

Lemma draw_in_range (n : nat) (draw : Z) :
  n <> 0 -> draw_over n draw -> Z.to_nat draw < n.
Proof.
  unfold draw_over, uniform_int_distribution, size_t_sub, size_t_modulus.
  intros Hn [H0 H1].
  assert (((Z.of_nat n - 1) mod 2 ^ 64 <= Z.of_nat n - 1)%Z).
  { apply Z.mod_le; lia. }
  lia.
Qed.

Lemma push_neighbors_spec status want mk nbrs acc :
  (forall n, n ∈ nbrs -> n < length status) ->
  exists r, push_neighbors status want mk nbrs acc = Ok r /\
    forall e, e ∈ r <->
      e ∈ acc \/ exists n, n ∈ nbrs /\ status !! n = Some want /\ e = mk n.
Proof.
  revert acc. induction nbrs as [|n rest IH]; intros acc Hr.
  - exists acc. split; [done|]. intros e. split; [auto|].
    intros [? | (n & Hn & _)]; [done|]. by apply elem_of_nil in Hn.
  - destruct (lookup_lt_is_Some_2 status n) as [st Hst].
    { apply Hr. left. }
    simpl. unfold at_. rewrite Hst. simpl.
    destruct (IH (if EPI.eqb st want then acc ++ [mk n] else acc)) as (r & -> & Hmem).
    { intros m Hm. apply Hr. by right. }
    exists r. split; [done|]. intros e. rewrite Hmem. clear Hmem IH.
    destruct (EPI.eqb st want) eqn:E.
    + apply EPI_eqb_eq in E. subst st. rewrite elem_of_app, list_elem_of_singleton.
      split.
      * intros [[? | ->] | (m & Hm & ? & ->)]; [by left| |].
        -- right. exists n. split; [left|done].
        -- right. exists m. split; [by right|done].
      * intros [? | (m & Hm & Hs & ->)]; [by left; left|].
        apply elem_of_cons in Hm as [->|Hm]; [by left; right|].
        right. by exists m.
    + assert (st <> want) as Hne.
      { intros ->. destruct want; discriminate. }
      split.
      * intros [? | (m & Hm & ? & ->)]; [by left|].
        right. exists m. split; [by right|done].
      * intros [? | (m & Hm & Hs & ->)]; [by left|].
        apply elem_of_cons in Hm as [->|Hm]; [congruence|].
        right. by exists m.
Qed.

Lemma scan_infected_spec n g status infs acc :
  graph_ok n g -> length status = n ->
  (forall i, i ∈ infs -> i < n) ->
  exists r, scan_infected g status infs acc = Ok r /\
    forall e, e ∈ r <->
      e ∈ acc \/ exists i j, i ∈ infs /\ is_edge g i j /\
                              status !! j = Some EPI.S /\ e = (i, j).
Proof.
  intros Hg Hlen. revert acc.
  induction infs as [|inf rest IH]; intros acc Hr.
  - exists acc. split; [done|]. intros e. split; [auto|].
    intros [? | (i & j & Hi & _)]; [done|]. by apply elem_of_nil in Hi.
  - destruct (lookup_lt_is_Some_2 g inf) as [nbrs Hnb].
    { rewrite (graph_length _ _ Hg). apply Hr. left. }
    simpl. unfold at_ at 1. rewrite Hnb. simpl.
    destruct (push_neighbors_spec status EPI.S (fun nb => (inf, nb)) (set_iter nbrs) acc)
      as (acc' & -> & Hacc').
    { intros m Hm. rewrite Hlen. apply (graph_range _ _ Hg inf).
      exists nbrs. split; [done|]. by apply set_iter_elem. }
    simpl. destruct (IH acc') as (r & -> & Hmem).
    { intros m Hm. apply Hr. by right. }
    exists r. split; [done|]. intros e. rewrite Hmem, Hacc'. clear Hmem Hacc' IH.
    split.
    + intros [[? | (m & Hm & Hs & ->)] | (i & j & Hi & He & Hs & ->)].
      * by left.
      * right. exists inf, m. split; [left|]. split; [|done].
        exists nbrs. split; [done|]. by apply set_iter_elem.
      * right. exists i, j. split; [by right|done].
    + intros [? | (i & j & Hi & He & Hs & ->)]; [by left; left|].
      apply elem_of_cons in Hi as [-> | Hi].
      * left. right. exists j. split; [|done].
        destruct He as (nb & Hnb' & Hj). rewrite Hnb in Hnb'.
        injection Hnb' as <-. by apply set_iter_elem.
      * right. by exists i, j.
Qed.

Lemma lookup_status_lt (status : list EPI.t) (i : nat) (x : EPI.t) :
  status !! i = Some x -> i < length status.
Proof. intros H. by apply lookup_lt_Some in H. Qed.

(** With the bookkeeping in order, a consistent cache is exact. *)
Lemma consistent_exact s : wf s -> SI_consistent s -> cache_exact s.
Proof.
  intros Hwf Hc. split; [done|].
  destruct (scan_infected_spec (N s) (G s) (node_status s) (infected s) [])
    as (r & Hr & Hmem).
  - apply Hwf.
  - apply Hwf.
  - intros i Hi. apply (wf_infected _ Hwf) in Hi.
    rewrite <- (wf_status _ Hwf). by eapply lookup_status_lt.
  - exists r. split; [done|]. intros [i j]. rewrite Hmem, (Hc i j).
    unfold SI_pair. split.
    + intros (Hi & Hj & He). right. exists i, j.
      split; [by apply (wf_infected _ Hwf)|done].
    + intros [Hn | (i' & j' & Hi & He & Hs & Heq)]; [by apply elem_of_nil in Hn|].
      injection Heq as -> ->. split; [by apply (wf_infected _ Hwf)|done].
Qed.

Lemma lookup_assign (status : list EPI.t) (k i : nat) (x : EPI.t) :
  k < length status ->
  <[k := x]> status !! i = if decide (i = k) then Some x else status !! i.
Proof.
  intros Hk. destruct (decide (i = k)) as [-> | Hne].
  - by apply list_lookup_insert_eq.
  - by apply list_lookup_insert_ne.
Qed.

(** Removing the element at position [k] of a duplicate-free list removes
    that element and nothing else. *)
Lemma elem_of_delete_nodup (l : list nat) (k x y : nat) :
  NoDup l -> l !! k = Some x ->
  (y ∈ delete k l <-> y ∈ l /\ y <> x).
Proof.
  intros Hnd Hk.
  pose proof (take_drop_middle l k x Hk) as Hsplit.
  assert (y ∈ l <-> y ∈ take k l \/ y = x \/ y ∈ drop (S k) l) as Hy.
  { rewrite <- Hsplit at 1. by rewrite elem_of_app, elem_of_cons. }
  rewrite <- Hsplit in Hnd.
  apply NoDup_app in Hnd as (Hnd1 & Hdis & Hnd2).
  apply NoDup_cons in Hnd2 as (Hx2 & _).
  rewrite delete_take_drop, Hy, elem_of_app.
  split.
  - intros [H1 | H2].
    + split; [by left|]. intros ->. apply (Hdis x H1). left.
    + split; [by right; right|]. by intros ->.
  - intros ([H1 | [-> | H2]] & Hne); [by left|done|by right].
Qed.

Lemma NoDup_delete (l : list nat) (k : nat) : NoDup l -> NoDup (delete k l).
Proof.
  intros H. exact (sublist_NoDup _ _ H (sublist_delete l k)).
Qed.

Lemma is_edge_lookup (g : graph) (i j : nat) (nb : gset nat) :
  g !! i = Some nb -> (is_edge g i j <-> j ∈ nb).
Proof.
  intros H. unfold is_edge. split.
  - intros (nb' & H' & Hj). congruence.
  - intros Hj. by exists nb.
Qed.

Lemma infection_event_preserves s draw :
  wf s -> SI_consistent s ->
  SI_edges s <> [] -> draw_over (length (SI_edges s)) draw ->
  exists s', infection_event s draw = Ok s' /\ wf s' /\ SI_consistent s'.
Proof.
  intros Hwf Hc Hne Hdraw.
  assert (Z.to_nat draw < length (SI_edges s)) as Hidx.
  { apply draw_in_range; [|done]. by destruct (SI_edges s). }
  destruct (lookup_lt_is_Some_2 _ _ Hidx) as [[i0 s0] He].
  assert (SI_pair s i0 s0) as (Hi0 & Hs0 & Hedge).
  { apply Hc. by eapply list_elem_of_lookup_2. }
  pose proof (lookup_status_lt _ _ _ Hs0) as Hlt.
  destruct (lookup_lt_is_Some_2 (G s) s0) as [nbrs Hnb].
  { rewrite (graph_length _ _ (wf_graph _ Hwf)), <- (wf_status _ Hwf). done. }
  destruct (push_neighbors_spec (<[s0 := EPI.I]> (node_status s)) EPI.S
              (fun neighbor => (s0, neighbor)) (set_iter nbrs)
              (erase_if (fun edge => edge.2 =? s0) (SI_edges s)))
    as (si & Hsi & Hmem).
  { intros m Hm. rewrite length_insert, (wf_status _ Hwf).
    apply (graph_range _ _ (wf_graph _ Hwf) s0).
    exists nbrs. split; [done|]. by apply set_iter_elem. }
  eexists. split.
  { unfold infection_event, at_. rewrite He. simpl.
    rewrite (assign_Ok _ _ _ Hlt). simpl. rewrite Hnb. simpl.
    rewrite Hsi. simpl. reflexivity. }
  split.
  - constructor; simpl.
    + rewrite length_insert. apply Hwf.
    + apply Hwf.
    + intros i. rewrite elem_of_app, list_elem_of_singleton, (wf_infected _ Hwf).
      rewrite (lookup_assign _ _ _ _ Hlt). case_decide; [tauto|].
      tauto.
    + intros i. rewrite (wf_recovered _ Hwf).
      rewrite (lookup_assign _ _ _ _ Hlt). case_decide; [|done].
      subst i. rewrite Hs0. split; discriminate.
    + apply NoDup_app. split; [apply Hwf|]. split; [|apply NoDup_singleton].
      intros i Hi ->%list_elem_of_singleton.
      apply (wf_infected _ Hwf) in Hi. congruence.
    + apply Hwf.
  - intros i j. unfold SI_pair. simpl. rewrite Hmem, erase_if_elem, (Hc i j).
    unfold SI_pair. simpl. rewrite Nat.eqb_neq.
    rewrite !(lookup_assign _ _ _ _ Hlt).
    setoid_rewrite set_iter_elem.
    setoid_rewrite (lookup_assign _ _ _ _ Hlt).
    destruct (decide (i = s0)) as [-> | Hi]; destruct (decide (j = s0)) as [-> | Hj].
    + split; [|intros (_ & ? & _); discriminate].
      intros [(_ & ?) | (n & Hn & Hst & Heq)]; [done|].
      injection Heq as <-. rewrite decide_True in Hst by done. discriminate.
    + rewrite (is_edge_lookup _ _ _ _ Hnb). split.
      * intros [((? & _) & _) | (n & Hn & Hst & Heq)]; [congruence|].
        injection Heq as <-. rewrite decide_False in Hst by done. done.
      * intros (_ & Hst & Hn). right. exists j.
        rewrite decide_False by done. done.
    + split; [|intros (_ & ? & _); discriminate].
      intros [(_ & ?) | (n & _ & _ & Heq)]; [done|]. congruence.
    + split; [|intros (? & ? & ?); by left].
      intros [(? & _) | (n & _ & _ & Heq)]; [done|]. congruence.
Qed.

Lemma recovery_event_preserves s draw :
  wf s -> SI_consistent s ->
  infected s <> [] -> draw_over (length (infected s)) draw ->
  exists s', recovery_event s draw = Ok s' /\ wf s' /\ SI_consistent s'.
Proof.
  intros Hwf Hc Hne Hdraw.
  assert (Z.to_nat draw < length (infected s)) as Hidx.
  { apply draw_in_range; [|done]. by destruct (infected s). }
  destruct (lookup_lt_is_Some_2 _ _ Hidx) as [i0 He].
  assert (node_status s !! i0 = Some EPI.I) as Hi0.
  { apply (wf_infected _ Hwf). by eapply list_elem_of_lookup_2. }
  pose proof (lookup_status_lt _ _ _ Hi0) as Hlt.
  eexists. split.
  { unfold recovery_event, at_. rewrite He. simpl.
    rewrite (erase_at_Ok _ _ Hidx). simpl.
    rewrite (assign_Ok _ _ _ Hlt). simpl. reflexivity. }
  split.
  - constructor; simpl.
    + rewrite length_insert. apply Hwf.
    + apply Hwf.
    + intros i. rewrite (elem_of_delete_nodup _ _ _ _ (wf_infected_nodup _ Hwf) He).
      rewrite (wf_infected _ Hwf), (lookup_assign _ _ _ _ Hlt).
      case_decide; [|tauto]. split; [tauto|discriminate].
    + intros i. rewrite elem_of_app, list_elem_of_singleton, (wf_recovered _ Hwf).
      rewrite (lookup_assign _ _ _ _ Hlt). case_decide; [tauto|]. tauto.
    + apply NoDup_delete, Hwf.
    + apply NoDup_app. split; [apply Hwf|]. split; [|apply NoDup_singleton].
      intros i Hi ->%list_elem_of_singleton.
      apply (wf_recovered _ Hwf) in Hi. congruence.
  - intros i j. unfold SI_pair. simpl. rewrite erase_if_elem, (Hc i j).
    unfold SI_pair. simpl. rewrite Nat.eqb_neq.
    rewrite !(lookup_assign _ _ _ _ Hlt).
    destruct (decide (i = i0)) as [-> | Hi]; destruct (decide (j = i0)) as [-> | Hj].
    + split; [tauto|]. intros (? & _). discriminate.
    + split; [tauto|]. intros (? & _). discriminate.
    + split; [|intros (_ & ? & _); discriminate].
      intros ((_ & ? & _) & _). congruence.
    + tauto.
Qed.

Lemma susceptible_event_preserves s draw :
  wf s -> SI_consistent s ->
  recovered s <> [] -> draw_over (length (recovered s)) draw ->
  exists s', susceptible_event s draw = Ok s' /\ wf s' /\ SI_consistent s'.
Proof.
  intros Hwf Hc Hne Hdraw.
  assert (Z.to_nat draw < length (recovered s)) as Hidx.
  { apply draw_in_range; [|done]. by destruct (recovered s). }
  destruct (lookup_lt_is_Some_2 _ _ Hidx) as [r0 He].
  assert (node_status s !! r0 = Some EPI.R) as Hr0.
  { apply (wf_recovered _ Hwf). by eapply list_elem_of_lookup_2. }
  pose proof (lookup_status_lt _ _ _ Hr0) as Hlt.
  destruct (lookup_lt_is_Some_2 (G s) r0) as [nbrs Hnb].
  { rewrite (graph_length _ _ (wf_graph _ Hwf)), <- (wf_status _ Hwf). done. }
  destruct (push_neighbors_spec (<[r0 := EPI.S]> (node_status s)) EPI.I
              (fun neighbor => (neighbor, r0)) (set_iter nbrs) (SI_edges s))
    as (si & Hsi & Hmem).
  { intros m Hm. rewrite length_insert, (wf_status _ Hwf).
    apply (graph_range _ _ (wf_graph _ Hwf) r0).
    exists nbrs. split; [done|]. by apply set_iter_elem. }
  eexists. split.
  { unfold susceptible_event, at_. rewrite He. simpl.
    rewrite (erase_at_Ok _ _ Hidx). simpl.
    rewrite (assign_Ok _ _ _ Hlt). simpl. rewrite Hnb. simpl.
    rewrite Hsi. simpl. reflexivity. }
  split.
  - constructor; simpl.
    + rewrite length_insert. apply Hwf.
    + apply Hwf.
    + intros i. rewrite (wf_infected _ Hwf), (lookup_assign _ _ _ _ Hlt).
      case_decide; [|done]. subst i. rewrite Hr0. split; discriminate.
    + intros i. rewrite (elem_of_delete_nodup _ _ _ _ (wf_recovered_nodup _ Hwf) He).
      rewrite (wf_recovered _ Hwf), (lookup_assign _ _ _ _ Hlt).
      case_decide; [|tauto]. split; [tauto|discriminate].
    + apply Hwf.
    + apply NoDup_delete, Hwf.
  - assert (forall i, i ∈ nbrs <-> is_edge (G s) i r0) as Hsym.
    { intros i. rewrite <- (is_edge_lookup _ _ _ _ Hnb).
      split; apply (graph_sym _ _ (wf_graph _ Hwf)). }
    intros i j. unfold SI_pair. simpl. rewrite Hmem, (Hc i j).
    unfold SI_pair. simpl.
    rewrite !(lookup_assign _ _ _ _ Hlt).
    setoid_rewrite set_iter_elem.
    setoid_rewrite (lookup_assign _ _ _ _ Hlt).
    destruct (decide (j = r0)) as [-> | Hj]; destruct (decide (i = r0)) as [-> | Hi].
    + split; [|intros (? & _); discriminate].
      intros [(? & _) | (n & Hn & Hst & Heq)]; [congruence|].
      injection Heq as <-. rewrite decide_True in Hst by done. discriminate.
    + split.
      * intros [(_ & ? & _) | (n & Hn & Hst & Heq)]; [congruence|].
        injection Heq as <-. rewrite decide_False in Hst by done.
        split; [done|]. split; [done|]. by apply Hsym.
      * intros (Hst & _ & Hedge). right. exists i.
        rewrite decide_False by done. split; [by apply Hsym|done].
    + split; [|intros (? & _); discriminate].
      intros [(? & _) | (n & _ & _ & Heq)]; [congruence|]. congruence.
    + split; [|intros (? & ? & ?); by left].
      intros [? | (n & _ & _ & Heq)]; [done|]. congruence.
Qed.

Lemma wf_update_observables s now : wf s -> wf (update_observables s now).
Proof. intros H. constructor; apply H. Qed.

Lemma make_event_preserves s event draw now :
  wf s -> SI_consistent s -> admissible s (Event event draw now) ->
  exists s', make_event s event draw now = Ok s' /\ wf s' /\ SI_consistent s'.
Proof.
  intros Hwf Hc Hadm. unfold make_event. inversion Hadm; subst; simpl.
  - destruct (infection_event_preserves s draw) as (s' & -> & Hwf' & Hc'); try done.
    simpl. eexists. split; [done|]. split; [by apply wf_update_observables|exact Hc'].
  - destruct (recovery_event_preserves s draw) as (s' & -> & Hwf' & Hc'); try done.
    simpl. eexists. split; [done|]. split; [by apply wf_update_observables|exact Hc'].
  - destruct (susceptible_event_preserves s draw) as (s' & -> & Hwf' & Hc'); try done.
    simpl. eexists. split; [done|]. split; [by apply wf_update_observables|exact Hc'].
Qed.

(** The lookup of the [remove_if]: the entry, smaller id first, as a
    literal member of [edges_out]. *)
Lemma leaves_spec (edges_out : list edge) (i j : nat) :
  leaves edges_out (i, j) = true <-> (Nat.min i j, Nat.max i j) ∈ edges_out.
Proof.
  unfold leaves. simpl. destruct (Nat.ltb_spec j i).
  - rewrite Nat.min_r, Nat.max_l by lia. apply bool_decide_eq_true.
  - rewrite Nat.min_l, Nat.max_r by lia. apply bool_decide_eq_true.
Qed.

Lemma leaves_ascending (edges_out : list edge) (i j : nat) :
  Forall ascending edges_out ->
  (leaves edges_out (i, j) = true <-> listed edges_out i j).
Proof.
  intros Hasc. rewrite leaves_spec. unfold listed.
  rewrite Forall_forall in Hasc. split.
  - intros H. destruct (Nat.le_ge_cases i j).
    + rewrite Nat.min_l, Nat.max_r in H by lia. by left.
    + rewrite Nat.min_r, Nat.max_l in H by lia. by right.
  - intros [H | H]; pose proof (Hasc _ H) as Hlt; unfold ascending in Hlt;
      simpl in Hlt.
    + rewrite Nat.min_l, Nat.max_r by lia. done.
    + rewrite Nat.min_r, Nat.max_l by lia. done.
Qed.

Lemma leaves_descending (edges_out : list edge) (i j : nat) :
  i <> j -> (forall e, e ∈ edges_out -> e.2 < e.1) ->
  leaves edges_out (i, j) = false.
Proof.
  intros Hij Hdesc. apply not_true_is_false. rewrite leaves_spec. intros H.
  apply Hdesc in H. simpl in H. lia.
Qed.

Lemma push_edges_in_spec status edges_in acc :
  (forall u v, (u, v) ∈ edges_in -> u < length status /\ v < length status) ->
  exists r, push_edges_in status edges_in acc = Ok r /\
    forall e, e ∈ r <->
      e ∈ acc \/
      exists u v, (u, v) ∈ edges_in /\
        ((status !! u = Some EPI.S /\ status !! v = Some EPI.I /\ e = (v, u)) \/
         (status !! v = Some EPI.S /\ status !! u = Some EPI.I /\ e = (u, v))).
Proof.
  revert acc. induction edges_in as [|[u v] rest IH]; intros acc Hr.
  - exists acc. split; [done|]. intros e. split; [auto|].
    intros [? | (u & v & H & _)]; [done|]. by apply elem_of_nil in H.
  - destruct (Hr u v) as (Hu & Hv); [left|].
    destruct (lookup_lt_is_Some_2 _ _ Hu) as [su Hsu].
    destruct (lookup_lt_is_Some_2 _ _ Hv) as [sv Hsv].
    simpl. unfold at_. rewrite Hsu. simpl. rewrite Hsv. simpl.
    match goal with |- context [push_edges_in status rest ?a] =>
      destruct (IH a) as (r & -> & Hmem) end.
    { intros u' v' H. apply Hr. by right. }
    exists r. split; [done|]. intros e. rewrite Hmem. clear Hmem IH.
    assert (forall P : nat -> nat -> Prop,
      (exists u' v', (u', v') ∈ (u, v) :: rest /\ P u' v') <->
      P u v \/ exists u' v', (u', v') ∈ rest /\ P u' v') as Hcons.
    { intros P. split.
      - intros (u' & v' & [H | H]%elem_of_cons & HP).
        + injection H as -> ->. by left.
        + right. by exists u', v'.
      - intros [HP | (u' & v' & H & HP)].
        + exists u, v. split; [left|done].
        + exists u', v'. split; [by right|done]. }
    rewrite (Hcons (fun u v =>
      (status !! u = Some EPI.S /\ status !! v = Some EPI.I /\ e = (v, u)) \/
      (status !! v = Some EPI.S /\ status !! u = Some EPI.I /\ e = (u, v)))).
    rewrite Hsu, Hsv.
    destruct su, sv; simpl; rewrite ?elem_of_app, ?list_elem_of_singleton;
      split; intros H; decompose [or and] H; clear H;
      try discriminate; try (by auto); try (right; left; by auto).
    all: try (subst e; by auto).
Qed.

Lemma update_network_preserves s _G edges_in edges_out now :
  wf s -> SI_consistent s ->
  admissible s (NetworkChange _G edges_in edges_out now) ->
  exists s', update_network s _G edges_in edges_out now = Ok s' /\
             wf s' /\ SI_consistent s'.
Proof.
  intros Hwf Hc Hadm. inversion Hadm as [? ? ? ? Hg Hasc Hdiff | | |]; subst.
  destruct (push_edges_in_spec (node_status s) edges_in
              (erase_if (leaves edges_out) (SI_edges s))) as (si & Hsi & Hmem).
  { intros u v Huv. rewrite (wf_status _ Hwf).
    assert (is_edge _G u v) as He.
    { apply Hdiff. right. by left. }
    split.
    - destruct He as (nb & Hnb & _). apply lookup_lt_Some in Hnb.
      by rewrite (graph_length _ _ Hg) in Hnb.
    - by apply (graph_range _ _ Hg u). }
  eexists. split.
  { unfold update_network. rewrite Hsi. simpl. reflexivity. }
  split.
  - constructor; simpl; try apply Hwf. exact Hg.
  - intros i j. unfold SI_pair. simpl. rewrite Hmem, erase_if_elem, (Hc i j), Hdiff.
    unfold SI_pair.
    assert (leaves edges_out (i, j) = false <-> ~ listed edges_out i j) as ->.
    { rewrite <- (leaves_ascending _ _ _ Hasc). by destruct (leaves edges_out (i, j)). }
    split.
    + intros [((Hi & Hj & He) & Hout) | (u & v & Huv & [(Hu & Hv & Heq) | (Hv & Hu & Heq)])].
      * split; [done|]. split; [done|]. by left.
      * injection Heq as -> ->. split; [done|]. split; [done|]. right. by right.
      * injection Heq as -> ->. split; [done|]. split; [done|]. right. by left.
    + intros (Hi & Hj & [(He & Hout) | [Hin | Hin]]).
      * by left.
      * right. exists i, j. split; [done|]. by right.
      * right. exists j, i. split; [done|]. by left.
Qed.

Lemma apply_preserves s o :
  wf s -> SI_consistent s -> admissible s o ->
  exists s', apply s o = Ok s' /\ wf s' /\ SI_consistent s'.
Proof.
  intros Hwf Hc Hadm. destruct o as [g ein eout now | event draw now]; simpl.
  - by apply update_network_preserves.
  - by apply make_event_preserves.
Qed.

Lemma run_preserves s ops :
  wf s -> SI_consistent s -> admissible_run s ops ->
  forall k, exists s', run s (take k ops) = Ok s' /\ wf s' /\ SI_consistent s'.
Proof.
  intros Hwf Hc Hrun. revert Hwf Hc.
  induction Hrun as [s | s o rest Hadm Hrest IH]; intros Hwf Hc k.
  - rewrite take_nil. by exists s.
  - destruct k as [|k]; [by exists s|]. simpl.
    destruct (apply_preserves s o Hwf Hc Hadm) as (s1 & Happ & Hwf1 & Hc1).
    rewrite Happ. simpl. by apply IH.
Qed.

(** *** The entries of the cache are distinct *)

Lemma erase_if_NoDup {A : Type} (p : A -> bool) (v : list A) :
  NoDup v -> NoDup (erase_if p v).
Proof.
  unfold erase_if. induction 1 as [|x l Hx Hl IH]; simpl; [constructor|].
  destruct (negb (p x)); [|done].
  constructor; [|done]. rewrite list_elem_of_In, List.filter_In.
  rewrite <- list_elem_of_In. tauto.
Qed.

Lemma push_neighbors_sub status want mk nbrs acc r :
  push_neighbors status want mk nbrs acc = Ok r ->
  forall e, e ∈ r -> e ∈ acc \/ exists n, n ∈ nbrs /\ e = mk n.
Proof.
  revert acc. induction nbrs as [|n rest IH]; intros acc; simpl.
  - intros [= <-] e He. by left.
  - destruct (at_ status n) as [st|]; [|done]. simpl.
    intros Hrest e He. destruct (IH _ Hrest e He) as [Hacc | (m & Hm & ->)].
    + destruct (EPI.eqb st want); [|by left].
      apply elem_of_app in Hacc as [? | ->%list_elem_of_singleton]; [by left|].
      right. exists n. split; [left|done].
    + right. exists m. split; [by right|done].
Qed.

Lemma push_neighbors_NoDup status want mk nbrs acc r :
  push_neighbors status want mk nbrs acc = Ok r ->
  NoDup acc -> NoDup nbrs ->
  (forall a b, mk a = mk b -> a = b) ->
  (forall n, n ∈ nbrs -> mk n ∉ acc) ->
  NoDup r.
Proof.
  intros Hrun Hacc Hnbrs Hinj. revert acc Hrun Hacc.
  induction Hnbrs as [|n rest Hn Hrest IH]; intros acc Hrun Hacc Hfresh;
    simpl in Hrun.
  - by injection Hrun as <-.
  - destruct (at_ status n) as [st|]; [|done]. simpl in Hrun.
    apply (IH _ Hrun).
    + destruct (EPI.eqb st want); [|done].
      apply NoDup_app. split; [done|]. split; [|apply NoDup_singleton].
      intros e He ->%list_elem_of_singleton. revert He. apply Hfresh. left.
    + intros m Hm. destruct (EPI.eqb st want); [|apply Hfresh; by right].
      rewrite elem_of_app, list_elem_of_singleton.
      intros [He | He]; [revert He; apply Hfresh; by right|].
      apply Hinj in He. by subst m.
Qed.

Lemma scan_infected_NoDup g status infs acc r :
  scan_infected g status infs acc = Ok r ->
  NoDup infs -> NoDup acc ->
  (forall e, e ∈ acc -> e.1 ∉ infs) ->
  NoDup r.
Proof.
  intros Hrun Hinfs. revert acc Hrun.
  induction Hinfs as [|inf rest Hinf Hrest IH]; intros acc Hrun Hacc Hfirst;
    simpl in Hrun.
  - by injection Hrun as <-.
  - destruct (at_ g inf) as [nbrs|]; [|done]. simpl in Hrun.
    destruct (push_neighbors status EPI.S (fun nb => (inf, nb)) (set_iter nbrs) acc)
      as [acc'|] eqn:Hpush; [|done].
    simpl in Hrun. apply (IH _ Hrun).
    + apply (push_neighbors_NoDup _ _ _ _ _ _ Hpush); [done|apply set_iter_NoDup| |].
      * by intros a b [= ->].
      * intros n _ He. apply (Hfirst _ He). left.
    + intros e He Hin.
      destruct (push_neighbors_sub _ _ _ _ _ _ Hpush e He) as [? | (n & _ & ->)].
      * apply (Hfirst e); [done|by right].
      * done.
Qed.

Lemma sorted_pair_swap (u v : nat) : sorted_pair (v, u) = sorted_pair (u, v).
Proof. unfold sorted_pair. simpl. f_equal; lia. Qed.

Lemma push_edges_in_NoDup status edges_in acc r :
  push_edges_in status edges_in acc = Ok r ->
  NoDup acc -> NoDup (sorted_pair <$> edges_in) ->
  (forall u v, (u, v) ∈ edges_in -> ((u, v) ∉ acc) /\ ((v, u) ∉ acc)) ->
  NoDup r.
Proof.
  revert acc. induction edges_in as [|[u v] rest IH]; intros acc Hrun Hacc Hin Hfresh;
    simpl in Hrun.
  - by injection Hrun as <-.
  - destruct (at_ status u) as [su|]; [|done]. simpl in Hrun.
    destruct (at_ status v) as [sv|]; [|done]. simpl in Hrun.
    rewrite fmap_cons in Hin. apply NoDup_cons in Hin as (Hnew & Hin).
    destruct (Hfresh u v) as (Huv & Hvu); [left|].
    assert (forall e, sorted_pair e = sorted_pair (u, v) ->
            forall u' v', (u', v') ∈ rest -> e <> (u', v') /\ e <> (v', u')) as Hother.
    { intros e He u' v' Hr. split; intros ->; apply Hnew.
      - rewrite <- He. apply list_elem_of_fmap. by exists (u', v').
      - rewrite <- He, sorted_pair_swap. apply list_elem_of_fmap. by exists (u', v'). }
    apply (IH _ Hrun); [|done|].
    + destruct (EPI.eqb su EPI.S && EPI.eqb sv EPI.I);
        [|destruct (EPI.eqb sv EPI.S && EPI.eqb su EPI.I)]; [| |done];
        (apply NoDup_app; split; [done|]; split; [|apply NoDup_singleton]);
        intros e He ->%list_elem_of_singleton; done.
    + intros u' v' Hr. destruct (Hfresh u' v') as (H1 & H2); [by right|].
      destruct (EPI.eqb su EPI.S && EPI.eqb sv EPI.I);
        [|destruct (EPI.eqb sv EPI.S && EPI.eqb su EPI.I)]; [| |done];
        rewrite !elem_of_app, !list_elem_of_singleton.
      * destruct (Hother (v, u) (sorted_pair_swap u v) u' v' Hr) as (? & ?).
        split; intros [? | ?]; done.
      * destruct (Hother (u, v) eq_refl u' v' Hr) as (? & ?).
        split; intros [? | ?]; done.
Qed.

Lemma listed_sym (l : list edge) (i j : nat) : listed l i j -> listed l j i.
Proof. unfold listed. tauto. Qed.

Lemma apply_preserves_NoDup s o s' :
  wf s -> SI_consistent s -> NoDup (SI_edges s) ->
  admissible s o -> adds_new s o ->
  apply s o = Ok s' -> NoDup (SI_edges s').
Proof.
  intros Hwf Hc Hnd Hadm Hnew Happ.
  destruct Hadm as [_G edges_in edges_out now Hg Hasc Hdiff
                   | draw now Hne Hdraw | draw now Hne Hdraw | draw now Hne Hdraw];
    simpl in Happ.
  - unfold update_network in Happ.
    destruct (push_edges_in _ _ _) as [si|] eqn:Hsi; [|done].
    simpl in Happ. injection Happ as <-. simpl.
    destruct Hnew as (Honce & Hfresh).
    apply (push_edges_in_NoDup _ _ _ _ Hsi); [by apply erase_if_NoDup|done|].
    assert (forall i j, (i, j) ∈ erase_if (leaves edges_out) (SI_edges s) ->
              is_edge (G s) i j /\ ~ listed edges_out i j) as Hkept.
    { intros i j (Hin & Hl)%erase_if_elem. apply Hc in Hin as (_ & _ & He).
      split; [done|]. rewrite <- (leaves_ascending _ _ _ Hasc). congruence. }
    intros u v Huv. split; intros Hk%Hkept.
    + by apply (Hfresh u v).
    + apply (Hfresh u v Huv). destruct Hk as (He & Hout). split.
      * by apply (graph_sym _ _ (wf_graph _ Hwf)).
      * intros Hl. by apply Hout, listed_sym.
  - unfold make_event in Happ. simpl in Happ.
    destruct (infection_event s draw) as [s1|] eqn:Hev; [|done].
    simpl in Happ. injection Happ as <-. simpl.
    unfold infection_event in Hev.
    destruct (at_ (SI_edges s) _) as [[i0 s0]|] eqn:He; [|done]. simpl in Hev.
    destruct (assign _ _ _) as [status'|]; [|done]. simpl in Hev.
    destruct (at_ (G s) s0) as [nbrs|]; [|done]. simpl in Hev.
    destruct (push_neighbors _ _ _ _ _) as [si|] eqn:Hsi; [|done].
    simpl in Hev. injection Hev as <-. simpl.
    apply at_Ok in He. pose proof (list_elem_of_lookup_2 _ _ _ He) as Hin0.
    apply Hc in Hin0 as (_ & Hs0 & _).
    apply (push_neighbors_NoDup _ _ _ _ _ _ Hsi);
      [by apply erase_if_NoDup|apply set_iter_NoDup|by intros a b [= ->]|].
    intros n _ (Hin & _)%erase_if_elem. apply Hc in Hin as (Hi & _). congruence.
  - unfold make_event in Happ. simpl in Happ.
    destruct (recovery_event s draw) as [s1|] eqn:Hev; [|done].
    simpl in Happ. injection Happ as <-. simpl.
    unfold recovery_event in Hev.
    destruct (at_ (infected s) _) as [i0|]; [|done]. simpl in Hev.
    destruct (erase_at _ _) as [infected'|]; [|done]. simpl in Hev.
    destruct (assign _ _ _) as [status'|]; [|done]. simpl in Hev.
    injection Hev as <-. simpl. by apply erase_if_NoDup.
  - unfold make_event in Happ. simpl in Happ.
    destruct (susceptible_event s draw) as [s1|] eqn:Hev; [|done].
    simpl in Happ. injection Happ as <-. simpl.
    unfold susceptible_event in Hev.
    destruct (at_ (recovered s) _) as [r0|] eqn:He; [|done]. simpl in Hev.
    destruct (erase_at _ _) as [recovered'|]; [|done]. simpl in Hev.
    destruct (assign _ _ _) as [status'|]; [|done]. simpl in Hev.
    destruct (at_ (G s) r0) as [nbrs|]; [|done]. simpl in Hev.
    destruct (push_neighbors _ _ _ _ _) as [si|] eqn:Hsi; [|done].
    simpl in Hev. injection Hev as <-. simpl.
    apply at_Ok in He. pose proof (list_elem_of_lookup_2 _ _ _ He) as Hin0.
    apply (wf_recovered _ Hwf) in Hin0.
    apply (push_neighbors_NoDup _ _ _ _ _ _ Hsi);
      [done|apply set_iter_NoDup|by intros a b [= ->]|].
    intros n _ Hin. apply Hc in Hin as (_ & Hs & _). congruence.
Qed.

Lemma run_preserves_NoDup s ops :
  wf s -> SI_consistent s -> NoDup (SI_edges s) ->
  run_of admissible s ops -> run_of adds_new s ops ->
  forall k s', run s (take k ops) = Ok s' -> NoDup (SI_edges s').
Proof.
  intros Hwf Hc Hnd Hrun. revert Hwf Hc Hnd.
  induction Hrun as [s | s o rest Hadm Hrest IH]; intros Hwf Hc Hnd Hnew k s' Hk.
  - rewrite take_nil in Hk. by injection Hk as <-.
  - destruct k as [|k]; [by injection Hk as <-|]. simpl in Hk.
    inversion Hnew as [|? ? ? Hnew1 Hnew_rest]; subst.
    destruct (apply_preserves s o Hwf Hc Hadm) as (s1 & Happ & Hwf1 & Hc1).
    rewrite Happ in Hk. simpl in Hk.
    apply (IH s1 Happ Hwf1 Hc1) with k; [|by apply Hnew_rest|exact Hk].
    by apply (apply_preserves_NoDup s o).
Qed.

(** The recomputation from scratch has no duplicates. *)
Lemma recompute_NoDup s r : wf s -> recompute s = Ok r -> NoDup r.
Proof.
  intros Hwf Hr. apply (scan_infected_NoDup _ _ _ _ _ Hr).
  - apply Hwf.
  - constructor.
  - by intros e ?%elem_of_nil.
Qed.

Lemma no_exception_bind {A B : Type} (c : outcome A) (k : A -> outcome B) :
  no_exception c -> (forall a, no_exception (k a)) -> no_exception (c ≫= k).
Proof.
  intros Hc Hk. destruct c as [a | e]; simpl; [apply Hk|].
  by destruct e.
Qed.

Lemma no_exception_at {A : Type} (v : list A) (i : nat) : no_exception (at_ v i).
Proof. unfold at_. by destruct (v !! i). Qed.

Lemma no_exception_assign {A : Type} (v : list A) (i : nat) (x : A) :
  no_exception (assign v i x).
Proof. unfold assign. by case_decide. Qed.

Lemma no_exception_erase_at {A : Type} (v : list A) (i : nat) :
  no_exception (erase_at v i).
Proof. unfold erase_at. by case_decide. Qed.

Lemma no_exception_push_neighbors status want mk nbrs acc :
  no_exception (push_neighbors status want mk nbrs acc).
Proof.
  revert acc. induction nbrs as [|n rest IH]; intros acc; simpl; [done|].
  apply no_exception_bind; [apply no_exception_at|]. intros st. apply IH.
Qed.

Lemma no_exception_throws {A : Type} (c : outcome A) :
  no_exception c -> ~ throws c.
Proof. destruct c as [a | []]; simpl; tauto. Qed.

Lemma handlers_no_exception s draw :
  no_exception (infection_event s draw) /\
  no_exception (recovery_event s draw) /\
  no_exception (susceptible_event s draw).
Proof.
  unfold infection_event, recovery_event, susceptible_event.
  repeat split;
    repeat (apply no_exception_bind;
            [first [apply no_exception_at | apply no_exception_assign
                   | apply no_exception_erase_at
                   | apply no_exception_push_neighbors] | intros ?]);
    done.
Qed.

Lemma is_edge_two_linked i j :
  is_edge two_linked i j <-> (i = 0 /\ j = 1) \/ (i = 1 /\ j = 0).
Proof.
  unfold is_edge, two_linked. split.
  - intros (nb & Hnb & Hj). destruct i as [|[|i]]; simpl in Hnb; [| |done].
    + injection Hnb as <-. apply elem_of_singleton in Hj. auto.
    + injection Hnb as <-. apply elem_of_singleton in Hj. auto.
  - intros [(-> & ->) | (-> & ->)]; eexists; (split; [reflexivity|]);
      by apply elem_of_singleton.
Qed.

Lemma is_edge_two_apart i j : ~ is_edge two_apart i j.
Proof.
  intros (nb & Hnb & Hj). destruct i as [|[|i]]; simpl in Hnb; [| |done];
    injection Hnb as <-; by apply not_elem_of_empty in Hj.
Qed.

Lemma graph_ok_two_linked : graph_ok 2 two_linked.
Proof.
  constructor; [done| |]; intros i j; rewrite !is_edge_two_linked; lia.
Qed.

Lemma graph_ok_two_apart : graph_ok 2 two_apart.
Proof.
  constructor; [done| |]; intros i j H; by apply is_edge_two_apart in H.
Qed.

Lemma wf_one_infected : wf one_infected.
Proof.
  constructor; simpl.
  - done.
  - apply graph_ok_two_linked.
  - intros i. rewrite list_elem_of_singleton.
    destruct i as [|[|i]]; simpl; split; (done || lia || discriminate).
  - intros i. split; [by intros ?%elem_of_nil|].
    destruct i as [|[|i]]; simpl; discriminate.
  - apply NoDup_singleton.
  - apply NoDup_nil_2.
Qed.

Lemma consistent_one_infected : SI_consistent one_infected.
Proof.
  intros i j. unfold SI_pair. simpl. rewrite list_elem_of_singleton, is_edge_two_linked.
  split.
  - intros [= -> ->]. simpl. auto.
  - intros (Hi & Hj & [(-> & ->) | (-> & ->)]); simpl in *; [discriminate|done].
Qed.

(** C1, as amended.  Along every run of admissible operations (network
    changes whose leaving edges are listed in ascending order and whose
    lists describe the change of the graph; events drawn from non-empty
    collections), started in a state with a consistent cache, the
    incrementally maintained [SI_edges] holds, after every operation,
    exactly the pairs (i, s) with i infected, s susceptible and s a neighbor
    of i, and the recomputation from scratch returns the same set of
    pairs.  When, moreover, the cache starts without duplicates and every
    network change lists each entering edge once and none that stays, the
    cache is the recomputed collection up to the order of its entries. *)
Theorem SI_edges_exact_along_run s ops :
  wf s -> SI_consistent s -> admissible_run s ops ->
  forall k, exists s',
    run s (take k ops) = Ok s' /\ cache_exact s' /\
    (NoDup (SI_edges s) -> run_of adds_new s ops ->
     exists r, recompute s' = Ok r /\ SI_edges s' ≡ₚ r).
Proof.
  intros Hwf Hc Hrun k.
  destruct (run_preserves s ops Hwf Hc Hrun k) as (s' & Hs' & Hwf' & Hc').
  exists s'. split; [done|].
  pose proof (consistent_exact s' Hwf' Hc') as Hexact.
  split; [done|]. intros Hnd Hnew.
  destruct Hexact as (_ & r & Hr & Hsame). exists r. split; [done|].
  apply NoDup_Permutation; [|by eapply recompute_NoDup|done].
  by apply (run_preserves_NoDup s ops Hwf Hc Hnd Hrun Hnew k).
Qed.

Lemma SI_edges_exact_along_run_witness :
  exists s',
    run one_infected (take 2 [Event 0 0 0; Event 1 1 1]) = Ok s' /\
    cache_exact s' /\
    exists r, recompute s' = Ok r /\ SI_edges s' ≡ₚ r.
Proof.
  destruct (SI_edges_exact_along_run one_infected [Event 0 0 0; Event 1 1 1]%Q)
    with (k := 2) as (s' & Hrun & Hexact & Hperm).
  - exact wf_one_infected.
  - exact consistent_one_infected.
  - apply run_cons.
    + apply adm_infection; [done|]. vm_compute. split; discriminate.
    + intros s' Hs'. vm_compute in Hs'. injection Hs' as <-.
      apply run_cons.
      * apply adm_recovery; [done|]. vm_compute. split; discriminate.
      * intros s'' _. apply run_nil.
  - exists s'. split; [exact Hrun|]. split; [exact Hexact|].
    apply Hperm.
    + apply NoDup_singleton.
    + apply run_cons; [exact Logic.I|]. intros s1 _.
      apply run_cons; [exact Logic.I|]. intros s2 _. apply run_nil.
Defined.

(** C1 as stated fails: a deletion listed with the larger id first leaves
    the S-I pair of the deleted edge in the cache.  The state is well
    formed and consistent, the new graph is the old one without the edge
    between 0 and 1, and the lists say so. *)
Lemma SI_edges_stale_after_descending_deletion :
  wf one_infected /\ SI_consistent one_infected /\
  graph_ok 2 two_apart /\
  (forall i j, is_edge two_apart i j <->
     (is_edge (G one_infected) i j /\ ~ listed [(1, 0)] i j) \/ listed [] i j) /\
  exists s', update_network one_infected two_apart [] [(1, 0)] 1 = Ok s' /\
             (1, 0) ∈ SI_edges s' /\ ~ is_edge (G s') 1 0 /\
             ~ cache_exact s'.
Proof.
  split; [exact wf_one_infected|]. split; [exact consistent_one_infected|].
  split; [exact graph_ok_two_apart|]. split.
  - intros i j. split; [by intros ?%is_edge_two_apart|].
    intros [(He & Hout) | [Hin | Hin]]; [|by apply elem_of_nil in Hin..].
    exfalso. apply Hout. simpl in He. apply is_edge_two_linked in He.
    destruct He as [(-> & ->) | (-> & ->)]; [right|left]; by apply list_elem_of_singleton.
  - eexists. split; [reflexivity|]. simpl.
    split; [by apply list_elem_of_singleton|].
    split; [apply is_edge_two_apart|].
    intros (Hc & _). specialize (Hc 1 0). simpl in Hc.
    assert (SI_pair (update_observables
       {| N := 2; G := two_apart; node_status := [EPI.S; EPI.I];
          infected := [1]; recovered := []; SI_edges := [(1, 0)];
          SI := []; I := []; R := []; time := [] |} 1) 1 0) as (_ & _ & He).
    { apply Hc. by apply list_elem_of_singleton. }
    by apply is_edge_two_apart in He.
Qed.

Lemma push_edges_in_app status edges_in acc r :
  push_edges_in status edges_in acc = Ok r -> exists added, r = acc ++ added.
Proof.
  revert acc. induction edges_in as [|[u v] rest IH]; intros acc; simpl.
  - intros [= <-]. exists []. by rewrite app_nil_r.
  - destruct (at_ status u) as [su|]; [|done]. simpl.
    destruct (at_ status v) as [sv|]; [|done]. simpl.
    intros H. apply IH in H as (added & ->).
    destruct (EPI.eqb su EPI.S && EPI.eqb sv EPI.I);
      [|destruct (EPI.eqb sv EPI.S && EPI.eqb su EPI.I)];
      rewrite <- ?app_assoc; eauto.
Qed.

Lemma leaves_sorted_pair edges_out e :
  leaves edges_out e = bool_decide (sorted_pair e ∈ edges_out).
Proof.
  destruct e as [i j]. apply eq_true_iff_eq.
  rewrite leaves_spec, bool_decide_eq_true. done.
Qed.

(** C10.  The incremental [update_network] keeps the entries of [SI_edges]
    whose pair, smaller id first, is not literally a member of [edges_out],
    removes the others, and appends the new entries.  The pairs of
    [edges_out] are not reordered: when they are listed larger id first no
    entry is removed.  When every pair of [edges_out] is ascending, the
    entries removed are exactly those of the leaving edges. *)
Theorem update_network_removes_literal_matches s _G edges_in edges_out now s' :
  update_network s _G edges_in edges_out now = Ok s' ->
  exists added,
    SI_edges s' =
      erase_if (fun e => bool_decide (sorted_pair e ∈ edges_out)) (SI_edges s)
      ++ added /\
    (forall e, e ∈ SI_edges s -> sorted_pair e ∉ edges_out -> e ∈ SI_edges s') /\
    ((forall e, e ∈ edges_out -> e.2 < e.1) ->
     forall i j, i <> j -> (i, j) ∈ SI_edges s -> (i, j) ∈ SI_edges s') /\
    (Forall ascending edges_out ->
     forall i j,
       (i, j) ∈ erase_if (fun e => bool_decide (sorted_pair e ∈ edges_out))
                  (SI_edges s) <->
       (i, j) ∈ SI_edges s /\ ~ listed edges_out i j).
Proof.
  unfold update_network. intros H.
  destruct (push_edges_in (node_status s) edges_in
              (erase_if (leaves edges_out) (SI_edges s))) as [si|] eqn:Hsi; [|done].
  simpl in H. injection H as <-. simpl.
  apply push_edges_in_app in Hsi as (added & ->).
  assert (erase_if (leaves edges_out) (SI_edges s) =
          erase_if (fun e => bool_decide (sorted_pair e ∈ edges_out)) (SI_edges s))
    as Heq.
  { unfold erase_if. apply List.filter_ext. intros e.
    by rewrite leaves_sorted_pair. }
  exists added. rewrite <- Heq. split; [done|]. split; [|split].
  - intros e He Hout. apply elem_of_app. left. apply erase_if_elem.
    split; [done|]. rewrite leaves_sorted_pair. by apply bool_decide_eq_false.
  - intros Hdesc i j Hij Hin. apply elem_of_app. left. apply erase_if_elem.
    split; [done|]. by apply leaves_descending.
  - intros Hasc i j. rewrite erase_if_elem.
    rewrite <- (leaves_ascending _ _ _ Hasc).
    destruct (leaves edges_out (i, j)); split; intros (? & ?); split;
      congruence.
Qed.

Lemma update_network_removes_literal_matches_witness :
  exists s' added,
    update_network one_infected two_apart [] [(0, 1)] 1 = Ok s' /\
    SI_edges s' =
      erase_if (fun e => bool_decide (sorted_pair e ∈ [(0, 1)]))
        (SI_edges one_infected) ++ added /\
    SI_edges s' = [].
Proof.
  eexists.
  destruct (update_network_removes_literal_matches one_infected two_apart
              [] [(0, 1)] 1%Q _ eq_refl) as (added & Heq & _).
  exists added. split; [reflexivity|]. split; [exact Heq|reflexivity].
Defined.

(** C5, as amended.  The handlers have no check for an empty collection.
    An event whose handler has nothing to draw from raises no error: the
    bounds of the draw are 0 and 2^64 - 1, the element access is outside
    the vector, and the outcome is undefined behaviour.  The one exception
    of [make_event] is the [length_error] for an event index of 3 or
    more. *)
Theorem empty_draw_is_unchecked s event draw now :
  draws_from_empty s event ->
  make_event s event draw now = Err undefined_behaviour /\
  ~ throws (make_event s event draw now) /\
  (forall n d, n = 0 -> (draw_over n d <-> (0 <= d <= 2 ^ 64 - 1)%Z)) /\
  (forall ev, throws (make_event s ev draw now) <-> 3 <= ev).
Proof.
  intros Hempty.
  assert (make_event s event draw now = Err undefined_behaviour) as Hub.
  { unfold make_event.
    destruct Hempty as [(-> & He) | [(-> & He) | (-> & He)]]; simpl.
    - unfold infection_event. by rewrite He.
    - unfold recovery_event. by rewrite He.
    - unfold susceptible_event. by rewrite He. }
  split; [done|]. split; [rewrite Hub; simpl; tauto|]. split.
  - intros n d ->. unfold draw_over, uniform_int_distribution, size_t_sub,
      size_t_modulus. by change ((Z.of_nat 0 - 1) mod 2 ^ 64)%Z with (2 ^ 64 - 1)%Z.
  - intros ev. unfold make_event.
    destruct (handlers_no_exception s draw) as (H0 & H1 & H2).
    destruct ev as [|[|[|ev]]]; simpl.
    + split; [|lia]. intros Ht. exfalso. revert Ht. apply no_exception_throws.
      apply no_exception_bind; [done|]. by intros ?.
    + split; [|lia]. intros Ht. exfalso. revert Ht. apply no_exception_throws.
      apply no_exception_bind; [done|]. by intros ?.
    + split; [|lia]. intros Ht. exfalso. revert Ht. apply no_exception_throws.
      apply no_exception_bind; [done|]. by intros ?.
    + split; [lia|done].
Qed.

Lemma empty_draw_is_unchecked_witness :
  make_event all_susceptible 0 7 1 = Err undefined_behaviour /\
  ~ throws (make_event all_susceptible 0 7 1).
Proof.
  destruct (empty_draw_is_unchecked all_susceptible 0 7 1%Q) as (H1 & H2 & _).
  - left. split; reflexivity.
  - split; [exact H1|exact H2].
Defined.

(** C5 as stated fails: with nobody infected, [SI_edges] is empty and the
    infection event raises no exception. *)
Lemma infection_on_empty_frontier_raises_nothing :
  SI_edges all_susceptible = [] /\
  ~ throws (make_event all_susceptible 0 0 0).
Proof. split; [reflexivity|]. simpl. tauto. Qed.

End SIRS_cache.

(** ** double *)

(** IEEE 754 binary64 with the rounding to nearest, ties to even, of each
    operation.  A double is a rational [m * 2 ^ e] with [|m| < 2 ^ 53] and
    [-1074 <= e]: the normal and the subnormal numbers.  The exponent is
    not bounded from above: a result beyond the largest double, which the
    hardware turns into an infinity, is rounded to 53 bits like any other.
    The inputs of the program are doubles; an operation rounds whatever it
    is given. *)
Module Double.

(** The bits of a significand, and the exponent of the last place of the
    subnormal numbers. *)
Definition prec : Z := 53%Z.
Definition emin : Z := (-1074)%Z.

(** The integer nearest to [x], the even one of two that are as near. *)
Definition nearest_even (x : Q) : Z :=
  let f := Qfloor x in
  match (x - inject_Z f ?= 1 # 2)%Q with
  | Lt => f
  | Eq => if Z.even f then f else (f + 1)%Z
  | Gt => (f + 1)%Z
  end.

(** [floor (log2 x)] of a positive [x]: the exponent of its leading
    bit. *)
Definition magnitude (x : Q) : Z :=
  let k := (Z.log2 (Qnum x) - Z.log2 (Zpos (Qden x)))%Z in
  if Qle_bool (2 ^ k) x then k else (k - 1)%Z.

(** The exponent of the last place of the doubles around a positive
    [x]. *)
Definition exponent (x : Q) : Z := Z.max emin (magnitude x - (prec - 1)).

(** The double nearest to a positive [x]. *)
Definition round_pos (x : Q) : Q :=
  let e := exponent x in (inject_Z (nearest_even (x / 2 ^ e)) * 2 ^ e)%Q.

(** The double nearest to [x], as a reduced fraction. *)
Definition round (x : Q) : Q :=
  match (x ?= 0)%Q with
  | Eq => 0%Q
  | Gt => Qred (round_pos x)
  | Lt => Qred (- round_pos (- x))
  end.

(** [x + y], [x - y], [x * y] and [x / y] on doubles, and the conversion
    of a [size_t] that an operation with a double applies to it. *)
Definition add (x y : Q) : Q := round (x + y).
Definition sub (x y : Q) : Q := round (x - y).
Definition mul (x y : Q) : Q := round (x * y).
Definition div (x y : Q) : Q := round (x / y).
Definition of_size_t (n : nat) : Q := round (inject_Z (Z.of_nat n)).


(** *** Properties of the rounding *)

Lemma inject_Z_succ (z : Z) : (inject_Z (z + 1) == inject_Z z + 1)%Q.
Proof. by rewrite inject_Z_plus. Qed.

Lemma nearest_even_bounds (x : Q) :
  (inject_Z (nearest_even x) - (1 # 2) <= x /\
   x <= inject_Z (nearest_even x) + (1 # 2))%Q.
Proof.
  unfold nearest_even.
  pose proof (Qfloor_le x) as Hlo. pose proof (Qlt_floor x) as Hhi.
  rewrite inject_Z_succ in Hhi.
  destruct (Qcompare_spec (x - inject_Z (Qfloor x)) (1 # 2)) as [He | Hl | Hg].
  - destruct (Z.even (Qfloor x)); rewrite ?inject_Z_succ; lra.
  - lra.
  - rewrite inject_Z_succ. lra.
Qed.

#[global] Instance nearest_even_comp : Proper (Qeq ==> eq) nearest_even.
Proof.
  intros x y Hxy. unfold nearest_even.
  assert (Qfloor x = Qfloor y) as -> by (by apply Qfloor_comp).
  assert ((x - inject_Z (Qfloor y) ?= 1 # 2) = (y - inject_Z (Qfloor y) ?= 1 # 2))%Q
    as ->; [|done].
  apply Qcompare_comp; [by rewrite Hxy|done].
Qed.

Lemma nearest_even_Z (z : Z) : nearest_even (inject_Z z) = z.
Proof.
  unfold nearest_even. rewrite Qfloor_Z.
  destruct (Qcompare_spec (inject_Z z - inject_Z z) (1 # 2)) as [He | Hl | Hg];
    [lra|done|lra].
Qed.

Lemma nearest_even_le (x y : Q) :
  (x <= y)%Q -> (nearest_even x <= nearest_even y)%Z.
Proof.
  intros Hxy. destruct (Z_lt_le_dec (nearest_even y) (nearest_even x)) as [Hlt|]; [|done].
  exfalso.
  pose proof (nearest_even_bounds x) as (Hx & _).
  pose proof (nearest_even_bounds y) as (_ & Hy).
  assert (inject_Z (nearest_even y) + 1 <= inject_Z (nearest_even x))%Q as Hz.
  { rewrite <- inject_Z_succ, <- Zle_Qle. lia. }
  assert (x == y)%Q as Heq by lra.
  rewrite Heq in Hlt. lia.
Qed.

Lemma nearest_even_ge_Z (z : Z) (x : Q) :
  (inject_Z z <= x)%Q -> (z <= nearest_even x)%Z.
Proof. intros H. apply nearest_even_le in H. by rewrite nearest_even_Z in H. Qed.

Lemma nearest_even_le_Z (z : Z) (x : Q) :
  (x <= inject_Z z)%Q -> (nearest_even x <= z)%Z.
Proof. intros H. apply nearest_even_le in H. by rewrite nearest_even_Z in H. Qed.

Lemma pow2_pos (e : Z) : (0 < 2 ^ e)%Q.
Proof. by apply Qpower_0_lt. Qed.

Lemma pow2_add (a b : Z) : (2 ^ (a + b) == 2 ^ a * 2 ^ b)%Q.
Proof. by apply Qpower_plus. Qed.

Lemma pow2_le (a b : Z) : (a <= b)%Z -> (2 ^ a <= 2 ^ b)%Q.
Proof. intros H. by apply Qpower_le_compat_l. Qed.

Lemma pow2_lt_inv (a b : Z) : (2 ^ a < 2 ^ b)%Q -> (a < b)%Z.
Proof. intros H. by apply (Qpower_lt_compat_l_inv 2). Qed.

Lemma pow2_Z (n : Z) : (0 <= n)%Z -> (inject_Z (2 ^ n) == 2 ^ n)%Q.
Proof. intros H. by rewrite Zpower_Qpower. Qed.

Lemma pow2_succ (a : Z) : (2 ^ (a + 1) == 2 * 2 ^ a)%Q.
Proof. rewrite pow2_add. change (2 ^ 1)%Q with 2%Q. ring. Qed.

Lemma magnitude_spec (x : Q) :
  (0 < x)%Q -> (2 ^ magnitude x <= x /\ x < 2 ^ (magnitude x + 1))%Q.
Proof.
  intros Hx. unfold magnitude.
  destruct x as [n d]. cbn [Qnum Qden].
  assert (0 < n)%Z as Hn by (unfold Qlt in Hx; simpl in Hx; lia).
  destruct (Z.log2_spec n Hn) as (Hn1 & Hn2).
  destruct (Z.log2_spec (Z.pos d) (Pos2Z.is_pos d)) as (Hd1 & Hd2).
  pose proof (Z.log2_nonneg n) as Hln. pose proof (Z.log2_nonneg (Z.pos d)) as Hld.
  set (ln := Z.log2 n) in *. set (ld := Z.log2 (Z.pos d)) in *.
  rewrite Zle_Qle, pow2_Z in Hn1, Hd1 by lia.
  rewrite Zlt_Qlt, pow2_Z in Hn2, Hd2 by lia.
  unfold Z.succ in Hn2, Hd2. rewrite pow2_succ in Hn2, Hd2.
  assert (2 ^ (ln - ld) == 2 ^ ln / 2 ^ ld)%Q as Hk by (by apply Qpower_minus).
  pose proof (pow2_pos ln) as HA. pose proof (pow2_pos ld) as HD.
  assert (n # d == inject_Z n / inject_Z (Z.pos d))%Q as Hq by apply Qmake_Qdiv.
  assert (0 < inject_Z (Z.pos d))%Q as Hdpos by lra.
  assert (2 ^ (ln - ld) < 2 * (n # d))%Q as Hlow.
  { rewrite Hk, Hq. apply Qlt_shift_div_r; [done|].
    setoid_replace (2 * (inject_Z n / inject_Z (Z.pos d)) * 2 ^ ld)%Q
      with ((2 * inject_Z n * 2 ^ ld) / inject_Z (Z.pos d))%Q using relation Qeq by (field; lra).
    apply Qlt_shift_div_l; [done|]. nra. }
  assert ((n # d) < 2 * 2 ^ (ln - ld))%Q as Hhigh.
  { rewrite Hk, Hq. apply Qlt_shift_div_r; [done|].
    setoid_replace (2 * (2 ^ ln / 2 ^ ld) * inject_Z (Z.pos d))%Q
      with ((2 * 2 ^ ln * inject_Z (Z.pos d)) / 2 ^ ld)%Q using relation Qeq by (field; lra).
    apply Qlt_shift_div_l; [done|]. nra. }
  destruct (Qle_bool (2 ^ (ln - ld)) (n # d)) eqn:Hle.
  - apply Qle_bool_iff in Hle. rewrite pow2_succ. split; [done|lra].
  - assert ((n # d) < 2 ^ (ln - ld))%Q as Hlt.
    { apply Qnot_le_lt. rewrite <- Qle_bool_iff. congruence. }
    replace (ln - ld - 1 + 1)%Z with (ln - ld)%Z by lia.
    split; [|done].
    assert (2 ^ (ln - ld) == 2 * 2 ^ (ln - ld - 1))%Q as Hs.
    { rewrite <- pow2_succ. by replace (ln - ld - 1 + 1)%Z with (ln - ld)%Z by lia. }
    lra.
Qed.

Lemma magnitude_unique (x : Q) (k : Z) :
  (2 ^ k <= x)%Q -> (x < 2 ^ (k + 1))%Q -> magnitude x = k.
Proof.
  intros Hlo Hhi.
  assert (0 < x)%Q as Hx by (pose proof (pow2_pos k); lra).
  destruct (magnitude_spec x Hx) as (Hlo' & Hhi').
  assert (magnitude x < k + 1)%Z by (apply pow2_lt_inv; lra).
  assert (k < magnitude x + 1)%Z by (apply pow2_lt_inv; lra).
  lia.
Qed.

Lemma magnitude_comp (x y : Q) : (0 < x)%Q -> (x == y)%Q -> magnitude x = magnitude y.
Proof.
  intros Hx Hxy. symmetry. destruct (magnitude_spec x Hx).
  apply magnitude_unique; by rewrite <- Hxy.
Qed.

Lemma magnitude_le (x y : Q) :
  (0 < x)%Q -> (x <= y)%Q -> (magnitude x <= magnitude y)%Z.
Proof.
  intros Hx Hxy.
  destruct (magnitude_spec x Hx) as (Hlo & _).
  destruct (magnitude_spec y) as (_ & Hhi); [lra|].
  assert (magnitude x < magnitude y + 1)%Z by (apply pow2_lt_inv; lra). lia.
Qed.

Lemma exponent_ge (x : Q) : (emin <= exponent x)%Z.
Proof. unfold exponent. lia. Qed.

Lemma exponent_le (x y : Q) :
  (0 < x)%Q -> (x <= y)%Q -> (exponent x <= exponent y)%Z.
Proof.
  intros Hx Hxy. pose proof (magnitude_le x y Hx Hxy). unfold exponent. lia.
Qed.

Lemma exponent_comp (x y : Q) : (0 < x)%Q -> (x == y)%Q -> exponent x = exponent y.
Proof. intros Hx Hxy. unfold exponent. by rewrite (magnitude_comp x y). Qed.

(** A positive [x] has at most 53 bits before its last place, and no
    fewer when it is a normal number. *)
Lemma exponent_above (x : Q) : (0 < x)%Q -> (x < 2 ^ (exponent x + prec))%Q.
Proof.
  intros Hx. destruct (magnitude_spec x Hx) as (_ & Hhi).
  eapply Qlt_le_trans; [exact Hhi|]. apply pow2_le. unfold exponent, prec. lia.
Qed.

Lemma exponent_below (x : Q) :
  (0 < x)%Q -> (emin < exponent x)%Z -> (2 ^ (exponent x + (prec - 1)) <= x)%Q.
Proof.
  intros Hx He. destruct (magnitude_spec x Hx) as (Hlo & _).
  replace (exponent x + (prec - 1))%Z with (magnitude x); [done|].
  unfold exponent in *. lia.
Qed.

Lemma scaled_le (x y : Q) (e : Z) : (x <= y)%Q -> (x / 2 ^ e <= y / 2 ^ e)%Q.
Proof.
  intros H. pose proof (pow2_pos e). apply Qle_shift_div_l; [done|].
  setoid_replace (x / 2 ^ e * 2 ^ e)%Q with x using relation Qeq by (field; lra). done.
Qed.

Lemma round_pos_nonneg (x : Q) : (0 < x)%Q -> (0 <= round_pos x)%Q.
Proof.
  intros Hx. unfold round_pos. pose proof (pow2_pos (exponent x)) as Hp.
  apply Qmult_le_0_compat; [|lra].
  change 0%Q with (inject_Z 0). rewrite <- Zle_Qle. apply nearest_even_ge_Z.
  change (inject_Z 0) with 0%Q. apply Qle_shift_div_l; lra.
Qed.

Lemma round_pos_above (x : Q) :
  (0 < x)%Q -> (round_pos x <= 2 ^ (exponent x + prec))%Q.
Proof.
  intros Hx. unfold round_pos. pose proof (pow2_pos (exponent x)) as Hp.
  rewrite pow2_add, (Qmult_comm (2 ^ exponent x)).
  apply Qmult_le_compat_r; [|lra].
  rewrite <- (pow2_Z prec) by done. rewrite <- Zle_Qle.
  apply nearest_even_le_Z. rewrite pow2_Z by done.
  apply Qle_shift_div_r; [done|]. rewrite <- pow2_add, Z.add_comm.
  apply Qlt_le_weak. by apply exponent_above.
Qed.

Lemma round_pos_below (x : Q) :
  (0 < x)%Q -> (emin < exponent x)%Z ->
  (2 ^ (exponent x + (prec - 1)) <= round_pos x)%Q.
Proof.
  intros Hx He. unfold round_pos. pose proof (pow2_pos (exponent x)) as Hp.
  rewrite pow2_add, (Qmult_comm (2 ^ exponent x)).
  apply Qmult_le_compat_r; [|lra].
  rewrite <- (pow2_Z (prec - 1)) by done. rewrite <- Zle_Qle.
  apply nearest_even_ge_Z. rewrite pow2_Z by done.
  apply Qle_shift_div_l; [done|]. rewrite <- pow2_add, Z.add_comm.
  by apply exponent_below.
Qed.

Lemma round_pos_le (x y : Q) :
  (0 < x)%Q -> (x <= y)%Q -> (round_pos x <= round_pos y)%Q.
Proof.
  intros Hx Hxy. assert (0 < y)%Q as Hy by lra.
  pose proof (exponent_le x y Hx Hxy) as He.
  destruct (Z_le_lt_eq_dec _ _ He) as [Hlt | Heq].
  - eapply Qle_trans; [by apply round_pos_above|].
    eapply Qle_trans; [|apply round_pos_below; [done|]].
    + apply pow2_le. unfold prec. lia.
    + pose proof (exponent_ge x). lia.
  - unfold round_pos. rewrite Heq. pose proof (pow2_pos (exponent y)) as Hp.
    apply Qmult_le_compat_r; [|lra].
    rewrite <- Zle_Qle. apply nearest_even_le. by apply scaled_le.
Qed.

Lemma round_pos_comp (x y : Q) :
  (0 < x)%Q -> (x == y)%Q -> (round_pos x == round_pos y)%Q.
Proof.
  intros Hx Hxy. unfold round_pos. rewrite (exponent_comp x y Hx Hxy).
  by rewrite Hxy.
Qed.

#[global] Instance round_comp : Proper (Qeq ==> eq) round.
Proof.
  intros x y Hxy. unfold round. rewrite <- Hxy.
  destruct (Qcompare_spec x 0) as [H0 | Hneg | Hpos]; [done| |].
  - apply Qred_complete. apply Qopp_comp, round_pos_comp; [lra|by rewrite Hxy].
  - apply Qred_complete. by apply round_pos_comp.
Qed.

#[global] Instance round_comp_Qeq : Proper (Qeq ==> Qeq) round.
Proof. intros x y Hxy. by rewrite (round_comp x y Hxy). Qed.

Lemma round_0 : round 0 = 0%Q.
Proof. reflexivity. Qed.

Lemma round_nonneg (x : Q) : (0 <= x)%Q -> (0 <= round x)%Q.
Proof.
  intros Hx. unfold round.
  destruct (Qcompare_spec x 0) as [H0 | Hneg | Hpos]; [done|lra|].
  rewrite Qred_correct. by apply round_pos_nonneg.
Qed.

Lemma round_nonpos (x : Q) : (x <= 0)%Q -> (round x <= 0)%Q.
Proof.
  intros Hx. unfold round.
  destruct (Qcompare_spec x 0) as [H0 | Hneg | Hpos]; [done| |lra].
  rewrite Qred_correct. pose proof (round_pos_nonneg (- x)). lra.
Qed.

(** Rounding keeps the order. *)
Lemma round_le (x y : Q) : (x <= y)%Q -> (round x <= round y)%Q.
Proof.
  intros Hxy.
  destruct (Qlt_le_dec 0 x) as [Hx | Hx].
  - unfold round.
    destruct (Qcompare_spec x 0) as [? | ? | _]; [lra..|].
    destruct (Qcompare_spec y 0) as [? | ? | _]; [lra..|].
    rewrite !Qred_correct. by apply round_pos_le.
  - destruct (Qlt_le_dec 0 y) as [Hy | Hy].
    + eapply Qle_trans; [by apply round_nonpos|]. apply round_nonneg. lra.
    + destruct (Qeq_dec y 0) as [Hy0 | Hy0].
      { rewrite Hy0. change (round 0) with 0%Q. by apply round_nonpos. }
      unfold round.
      destruct (Qcompare_spec x 0) as [? | _ | ?]; [lra| |lra].
      destruct (Qcompare_spec y 0) as [? | _ | ?]; [lra| |lra].
      rewrite !Qred_correct.
      assert (round_pos (- y) <= round_pos (- x))%Q; [|lra].
      apply round_pos_le; lra.
Qed.

(** A number of at most 53 bits before a last place that a double has is
    a double. *)
Lemma round_pos_exact (m e : Z) :
  (0 < m < 2 ^ prec)%Z -> (emin <= e)%Z ->
  (round_pos (inject_Z m * 2 ^ e) == inject_Z m * 2 ^ e)%Q.
Proof.
  intros Hm He. set (x := (inject_Z m * 2 ^ e)%Q).
  pose proof (pow2_pos e) as Hp.
  assert (1 <= inject_Z m)%Q as Hm1.
  { change 1%Q with (inject_Z 1). rewrite <- Zle_Qle. lia. }
  assert (inject_Z m < 2 ^ prec)%Q as Hm2.
  { rewrite <- pow2_Z by done. rewrite <- Zlt_Qlt. lia. }
  assert (0 < x)%Q as Hx by (unfold x; nra).
  assert (exponent x <= e)%Z as Hex.
  { destruct (magnitude_spec x Hx) as (Hlo & _).
    assert (x < 2 ^ (e + prec))%Q as Hhi.
    { unfold x. rewrite pow2_add. nra. }
    assert (magnitude x < e + prec)%Z by (apply pow2_lt_inv; lra).
    unfold exponent, prec in *. lia. }
  unfold round_pos. fold x.
  assert (x / 2 ^ exponent x == inject_Z (m * 2 ^ (e - exponent x)))%Q as Hint.
  { rewrite inject_Z_mult, pow2_Z by lia. unfold x.
    rewrite Qpower_minus by done. field.
    pose proof (pow2_pos (exponent (inject_Z m * 2 ^ e))). lra. }
  rewrite Hint, nearest_even_Z, inject_Z_mult, pow2_Z by lia.
  unfold x. rewrite Qpower_minus by done. field.
  pose proof (pow2_pos (exponent (inject_Z m * 2 ^ e))). lra.
Qed.

Lemma round_exact (m e : Z) :
  (- 2 ^ prec < m < 2 ^ prec)%Z -> (emin <= e)%Z ->
  (round (inject_Z m * 2 ^ e) == inject_Z m * 2 ^ e)%Q.
Proof.
  intros Hm He. pose proof (pow2_pos e) as Hp. unfold round.
  destruct (Qcompare_spec (inject_Z m * 2 ^ e) 0) as [H0 | Hneg | Hpos].
  - by rewrite H0.
  - assert (m < 0)%Z as Hm0.
    { apply Z.lt_nge. intros Hge. rewrite Zle_Qle in Hge.
      change (inject_Z 0) with 0%Q in Hge. nra. }
    rewrite Qred_correct.
    rewrite (round_pos_comp (- (inject_Z m * 2 ^ e)) (inject_Z (- m) * 2 ^ e));
      [|lra|rewrite inject_Z_opp; ring].
    rewrite round_pos_exact by lia. rewrite inject_Z_opp. ring.
  - assert (0 < m)%Z as Hm0.
    { apply Z.lt_nge. intros Hge. rewrite Zle_Qle in Hge.
      change (inject_Z 0) with 0%Q in Hge. nra. }
    rewrite Qred_correct. apply round_pos_exact; lia.
Qed.

(** The integers up to [2 ^ 53] are doubles. *)
Lemma round_Z (z : Z) :
  (- 2 ^ prec <= z <= 2 ^ prec)%Z -> (round (inject_Z z) == inject_Z z)%Q.
Proof.
  intros Hz.
  destruct (decide (z = 2 ^ prec)%Z) as [-> | Hhi].
  { pose proof (round_exact (2 ^ (prec - 1)) 1) as H.
    setoid_replace (inject_Z (2 ^ prec)) with (inject_Z (2 ^ (prec - 1)) * 2 ^ 1)%Q using relation Qeq
      by reflexivity.
    apply H; done. }
  destruct (decide (z = - 2 ^ prec)%Z) as [-> | Hlo].
  { pose proof (round_exact (- 2 ^ (prec - 1)) 1) as H.
    setoid_replace (inject_Z (- 2 ^ prec)) with (inject_Z (- 2 ^ (prec - 1)) * 2 ^ 1)%Q using relation Qeq
      by reflexivity.
    apply H; done. }
  pose proof (round_exact z 0) as H.
  setoid_replace (inject_Z z) with (inject_Z z * 2 ^ 0)%Q using relation Qeq
    by (change (2 ^ 0)%Q with 1%Q; ring).
  apply H; [lia|done].
Qed.

(** What a rounding returns is a double: rounding it again changes
    nothing. *)
Lemma round_pos_idem (x : Q) :
  (0 < x)%Q -> (round (round_pos x) == round_pos x)%Q.
Proof.
  intros Hx. pose proof (round_pos_above x Hx) as Habove.
  pose proof (exponent_ge x) as He.
  unfold round_pos in *. set (e := exponent x) in *.
  set (m := nearest_even (x / 2 ^ e)) in *.
  pose proof (pow2_pos e) as Hp.
  assert (m <= 2 ^ prec)%Z as Hm.
  { rewrite Zle_Qle, pow2_Z by done.
    rewrite pow2_add, (Qmult_comm (2 ^ e)) in Habove.
    apply Qmult_le_r in Habove; done. }
  assert (0 <= m)%Z as Hm0.
  { apply nearest_even_ge_Z. change (inject_Z 0) with 0%Q.
    apply Qle_shift_div_l; lra. }
  destruct (decide (m = 2 ^ prec)%Z) as [-> | Hne].
  - setoid_replace (inject_Z (2 ^ prec) * 2 ^ e)%Q
      with (inject_Z (2 ^ (prec - 1)) * 2 ^ (e + 1))%Q using relation Qeq.
    + apply round_exact; [done|lia].
    + rewrite pow2_succ. change (inject_Z (2 ^ prec)) with (2 * inject_Z (2 ^ (prec - 1)))%Q.
      ring.
  - apply round_exact; [lia|done].
Qed.

Lemma round_of_pos (x : Q) : (0 < x)%Q -> (round x == round_pos x)%Q.
Proof.
  intros Hx. unfold round.
  destruct (Qcompare_spec x 0) as [? | ? | _]; [lra..|]. apply Qred_correct.
Qed.

Lemma round_opp (x : Q) : (round (- x) == - round x)%Q.
Proof.
  unfold round.
  destruct (Qcompare_spec x 0) as [H0 | Hneg | Hpos];
    destruct (Qcompare_spec (- x) 0) as [H0' | Hneg' | Hpos']; try lra.
  - rewrite !Qred_correct. ring.
  - rewrite !Qred_correct. apply Qopp_comp, round_pos_comp; [lra|ring].
Qed.

Lemma round_idem (x : Q) : (round (round x) == round x)%Q.
Proof.
  assert (forall y, (0 < y)%Q -> round (round y) == round y)%Q as Hpos.
  { intros y Hy. rewrite (round_of_pos y Hy). by apply round_pos_idem. }
  destruct (Qcompare_spec x 0) as [H0 | Hneg | Hgt].
  - rewrite H0. reflexivity.
  - setoid_replace x with (- - x)%Q using relation Qeq by ring.
    rewrite (round_opp (- x)), round_opp, Hpos; [reflexivity|lra].
  - by apply Hpos.
Qed.

(** The integers above [2 ^ 53] are not all doubles: the odd ones fall
    between two of them. *)
Lemma round_above_prec :
  round (inject_Z (2 ^ 53 + 1)) = inject_Z (2 ^ 53) /\
  round (inject_Z (2 ^ 53 + 3)) = inject_Z (2 ^ 53 + 4).
Proof. split; vm_compute; reflexivity. Qed.

(** Adding a number that is not negative to a double does not give
    less. *)
Lemma add_ge (x y : Q) : (round x == x)%Q -> (0 <= y)%Q -> (x <= add x y)%Q.
Proof.
  intros Hx Hy. rewrite <- Hx at 1. apply round_le. lra.
Qed.

End Double.

(** ** social_trajectories.cpp *)

(** Comparisons and conversions of [double] values. *)
Definition Qlt_bool (x y : Q) : bool := negb (Qle_bool y x).

(** Truncation toward zero: the integral part that [modf] and the
    conversion to an integer type keep. *)
Definition Qtruncate (x : Q) : Z := Z.quot (Qnum x) (Zpos (Qden x)).

(** [modf(x, &intpart)]: the fractional part. *)
Definition modf (x : Q) : Q := (x - inject_Z (Qtruncate x))%Q.

(** [(size_t) x]: undefined when the truncated value is not a [size_t]. *)
Definition double_to_size_t (x : Q) : outcome nat :=
  let z := Qtruncate x in
  if decide (0 <= z < size_t_modulus)%Z then Ok (Z.to_nat z)
  else Err undefined_behaviour.

(** [x / y] followed by a conversion to [size_t]: the quotient by zero is
    an infinity or a NaN, whose conversion is undefined. *)
Definition double_div (x y : Q) : outcome Q :=
  if Qeq_bool y 0 then Err undefined_behaviour else Ok (Double.div x y).

(** [v.back()]. *)
Definition back {A : Type} (v : list A) : outcome A :=
  match last v with
  | Some x => Ok x
  | None => Err undefined_behaviour
  end.

(** [G[i].insert(j)] and [G[i].erase(j)]. *)
Definition set_insert (G : graph) (i j : nat) : outcome graph :=
  s ← at_ G i; Ok (<[i := s ∪ {[j]}]> G).
Definition set_erase (G : graph) (i j : nat) : outcome graph :=
  s ← at_ G i; Ok (<[i := s ∖ {[j]}]> G).

Module edge_changes.
Record record : Type := mk {
  N : nat;
  t0 : Q;
  tmax : Q;
  edges_initial : list edge;
  t : list Q;
  edges_in : list (list edge);
  edges_out : list (list edge)
}.
End edge_changes.

Module edge_lists.
Record record : Type := mk {
  N : nat;
  tmax : Q;
  t : list Q;
  edges : list (list edge)
}.
End edge_lists.

Module social_trajectory_entry.
Record record : Type := mk {
  size : nat;
  hash : Z;
  time_pairs : list (Q * Q)
}.
End social_trajectory_entry.

Lemma Qlt_bool_true (a b : Q) : (a < b)%Q -> Qlt_bool a b = true.
Proof.
  intros H. unfold Qlt_bool. apply negb_true_iff, not_true_is_false.
  rewrite Qle_bool_iff. by apply Qlt_not_le.
Qed.

Lemma Qlt_bool_false (a b : Q) : (b <= a)%Q -> Qlt_bool a b = false.
Proof.
  intros H. unfold Qlt_bool. apply negb_false_iff. by apply Qle_bool_iff.
Qed.

Module Trajectories.

(** [G[i].insert(j); G[j].insert(i);] for each edge. *)
Fixpoint insert_edges (G : graph) (edges : list edge) : outcome graph :=
  match edges with
  | [] => Ok G
  | (i, j) :: rest =>
      G1 ← set_insert G i j;
      G2 ← set_insert G1 j i;
      insert_edges G2 rest
  end.

(** [G[i].erase(j); G[j].erase(i);] for each edge. *)
Fixpoint erase_edges (G : graph) (edges : list edge) : outcome graph :=
  match edges with
  | [] => Ok G
  | (i, j) :: rest =>
      G1 ← set_erase G i j;
      G2 ← set_erase G1 j i;
      erase_edges G2 rest
  end.

(** The swap at the head of the two edge loops of the interval mode. *)
Definition sort_edge (e : edge) : edge :=
  if e.2 <? e.1 then (e.2, e.1) else e.

(** Modelled from the spec: [graph_from_edgelist] of Utilities, which is
    not part of the sources at hand.  The snapshot stream holds "complete
    edge sets", each replacing the graph: every adjacency set is cleared
    and the listed edges are inserted in both directions. *)
Definition graph_from_edgelist (G : graph) (edge_list : list edge) : outcome graph :=
  insert_edges (replicate (length G) ∅) edge_list.

(** The neighbors of the nodes of [s]. *)
Definition neighborhood (G : graph) (s : gset nat) : gset nat :=
  ⋃ ((fun i => default ∅ (G !! i)) <$> set_iter s).

Fixpoint grow (fuel : nat) (G : graph) (s : gset nat) : gset nat :=
  match fuel with
  | 0 => s
  | S fuel' => grow fuel' G (s ∪ neighborhood G s)
  end.

(** Modelled from the spec: [get_component_of_node] of Utilities, which is
    not part of the sources at hand.  It returns the connected component
    of the node, the node included: the nodes reached from it along edges;
    [length G] rounds of adding neighbors reach them all. *)
Definition get_component_of_node (node : nat) (G : graph) : gset nat :=
  grow (length G) G {[node]}.

(** A stand-in for [std::hash<vector<bool>>] where a run is evaluated:
    the vector read as a binary number, which tells any two vectors of
    one length apart. *)
Fixpoint binary_value (bits : list bool) : Z :=
  match bits with
  | [] => 0
  | b :: rest => (Z.b2z b + 2 * binary_value rest)%Z
  end.

(** The members of a component are nodes of the graph. *)
Definition in_range (N : nat) (component : gset nat) : Prop :=
  forall x, x ∈ component -> x < N.

(** The membership indicator of a set over [N] nodes. *)
Definition indicator (N : nat) (component : gset nat) : list bool :=
  (fun i => bool_decide (i ∈ component)) <$> seq 0 N.

(** The intervals of a trajectory, over all labels. *)
Definition all_pairs (social_trajectory : list social_trajectory_entry.record)
  : list (Q * Q) :=
  concat (social_trajectory_entry.time_pairs <$> social_trajectory).

(** Intervals that follow one another from [a] to [b]: each starts where
    the one before it ended. *)
Inductive chain : Q -> Q -> list (Q * Q) -> Prop :=
| chain_nil a : chain a a []
| chain_cons a b c l : (a <= b)%Q -> chain b c l -> chain a c ((a, b) :: l).

(** The intervals of the trajectory, put in order, tile the span from
    [t0] to [tmax]: no gap, no overlap. *)
Definition tiles (t0 tmax : Q)
    (social_trajectory : list social_trajectory_entry.record) : Prop :=
  exists l, l ≡ₚ all_pairs social_trajectory /\ chain t0 tmax l.

(** The event times ascend from [lo] and end at or before [tmax]:
    [lo < t1 < ... < tn <= tmax]. *)
Fixpoint ascending_from (lo : Q) (time : list Q) (tmax : Q) : Prop :=
  match time with
  | [] => (lo <= tmax)%Q
  | t :: rest => (lo < t)%Q /\ ascending_from t rest tmax
  end.

(** The graph after each event of an edge-diff stream, as the interval
    mode replays it. *)
Fixpoint replay (G : graph) (all_edges_in all_edges_out : list (list edge))
  : outcome (list graph) :=
  match all_edges_in, all_edges_out with
  | these_edges_in :: ins', these_edges_out :: outs' =>
      G1 ← erase_edges G (sort_edge <$> these_edges_out);
      G2 ← insert_edges G1 (sort_edge <$> these_edges_in);
      gs ← replay G2 ins' outs';
      Ok (G2 :: gs)
  | _, _ => Ok []
  end.

(** The labels of a registry are below its size. *)
Definition registry_ok (m : gmap Z nat) : Prop :=
  forall h l, m !! h = Some l -> l < size m.

(** Every neighbor is a node. *)
Definition graph_closed (G : graph) : Prop :=
  forall i s x, G !! i = Some s -> x ∈ s -> x < length G.

(** The scenario of the spec: four nodes, the edges 0-1 and 2-3, and one
    event at time 1 that adds the edge 1-2. *)
Definition meeting (t0 tmax : Q) : edge_changes.record :=
  edge_changes.mk 4 t0 tmax [(0, 1); (2, 3)] [1%Q] [[(1, 2)]] [[]].

(** Two linked nodes and a stream without events. *)
Definition static_pair : edge_changes.record :=
  edge_changes.mk 2 0 1 [(0, 1)] [] [] [].

(** Three nodes, 0 and 1 linked; at time 5/2, in the third of four bins
    of width 1, node 2 joins them.  As an edge-diff stream and as a
    snapshot stream. *)
Definition late_meeting : edge_changes.record :=
  edge_changes.mk 3 0 4 [(0, 1)] [(5 # 2)%Q] [[(1, 2)]] [[]].
Definition late_meeting_lists : edge_lists.record :=
  edge_lists.mk 3 4 [0%Q; (5 # 2)%Q] [[(0, 1)]; [(0, 1); (1, 2)]].

(** Two nodes that never meet. *)
Definition quiet_lists : edge_lists.record :=
  edge_lists.mk 2 1 [0%Q] [[]].
Definition quiet_changes : edge_changes.record :=
  edge_changes.mk 2 0 1 [] [(1 # 2)%Q] [[]] [[]].

(** An initial edge that leaves the graph. *)
Definition stray_edge : edge_changes.record :=
  edge_changes.mk 2 0 1 [(0, 5)] [(1 # 2)%Q] [[]] [[]].

Section Extraction.

(** [std::hash<vector<bool>>], of the C++ library. *)
Variable hash_calculator : list bool -> Z.
(** The two helpers of Utilities. *)
Variable component_of : nat -> graph -> gset nat.
Variable from_edgelist : graph -> list edge -> outcome graph.

(** [for (node : component) this_group[node] = true;] *)
Fixpoint mark_members (this_group : list bool) (nodes : list nat) : outcome (list bool) :=
  match nodes with
  | [] => Ok this_group
  | node :: rest => g ← assign this_group node true; mark_members g rest
  end.

(** [get_group_integer(N, component, hash_to_int, this_hash)]: the label,
    the registry after the call and the hash. *)
Definition get_group_integer (N : nat) (component : gset nat)
    (hash_to_int : gmap Z nat) : outcome (nat * gmap Z nat * Z) :=
  let N_hashes := size hash_to_int in
  this_group ← mark_members (replicate N false) (set_iter component);
  let this_hash := hash_calculator this_group in
  match hash_to_int !! this_hash with
  | Some label => Ok (label, hash_to_int, this_hash)
  | None => Ok (N_hashes, <[this_hash := N_hashes]> hash_to_int, this_hash)
  end.

(** A sequence of calls on one registry: the labels returned, in order,
    and the registry at the end. *)
Fixpoint label_sequence (N : nat) (components : list (gset nat))
    (hash_to_int : gmap Z nat) : outcome (list nat * gmap Z nat) :=
  match components with
  | [] => Ok ([], hash_to_int)
  | component :: rest =>
      '(label, hash_to_int', _) ← get_group_integer N component hash_to_int;
      '(labels, hash_to_int'') ← label_sequence N rest hash_to_int';
      Ok (label :: labels, hash_to_int'')
  end.

(** The hash of a membership set, as [get_group_integer] computes it. *)
Definition group_hash (N : nat) (component : gset nat) : Z :=
  hash_calculator (indicator N component).

(** What holds of a registry [m] that started empty and has served the
    calls [cs], returning the labels [ls]: each set is filed under its
    hash with the label it was given, each entry stems from a call, and
    the labels in use are 0, ..., size m - 1. *)
Record registry_inv (N : nat) (cs : list (gset nat)) (ls : list nat)
    (m : gmap Z nat) : Prop := {
  inv_length : length ls = length cs;
  inv_label : forall i c, cs !! i = Some c ->
    exists l, ls !! i = Some l /\ m !! group_hash N c = Some l;
  inv_origin : forall h l, m !! h = Some l ->
    exists i c, cs !! i = Some c /\ h = group_hash N c /\ ls !! i = Some l;
  inv_dense : forall l, (exists h, m !! h = Some l) <-> l < size m
}.

(** In graph [g] the focal node takes part in a component (of more than
    one node), whose members are nodes. *)
Definition component_ok (N node : nat) (g : graph) : Prop :=
  1 < size (component_of node g) /\ in_range N (component_of node g).

(** The hash tells the membership sets of [cs] apart: no two of them
    collide. *)
Definition collision_free_on (N : nat) (cs : list (gset nat)) : Prop :=
  forall c1 c2 : gset nat,
    c1 ∈ cs -> c2 ∈ cs -> group_hash N c1 = group_hash N c2 -> c1 = c2.

(** *** Interval mode *)

(** The block that both closing points of the interval mode run: label the
    component, open its entry when the label is new, and append the
    interval [(last_time_active, t)] to the entry of the label. *)
Definition close_interval (N : nat) (old_component : gset nat)
    (hash_to_int : gmap Z nat)
    (social_trajectory : list social_trajectory_entry.record)
    (last_time_active t : Q)
  : outcome (gmap Z nat * list social_trajectory_entry.record) :=
  '(this_group_int, hash_to_int', this_hash) ←
     get_group_integer N old_component hash_to_int;
  let social_trajectory' :=
    if this_group_int =? length social_trajectory
    then social_trajectory ++
           [social_trajectory_entry.mk (size old_component) this_hash []]
    else social_trajectory in
  entry ← at_ social_trajectory' this_group_int;
  Ok (hash_to_int',
      <[this_group_int :=
          social_trajectory_entry.mk
            (social_trajectory_entry.size entry)
            (social_trajectory_entry.hash entry)
            (social_trajectory_entry.time_pairs entry ++ [(last_time_active, t)])]>
        social_trajectory').

(** The [while] loop of [social_trajectory_from_edge_changes]; the three
    iterators advance together and the loop ends with the first that does. *)
Fixpoint social_loop (N node : nat) (t0 tmax : Q)
    (time : list Q) (all_edges_in all_edges_out : list (list edge))
    (G : graph) (last_time_active : Q) (old_component : gset nat)
    (hash_to_int : gmap Z nat)
    (social_trajectory : list social_trajectory_entry.record)
  : outcome (list social_trajectory_entry.record) :=
  match time, all_edges_in, all_edges_out with
  | t :: time', these_edges_in :: ins', these_edges_out :: outs' =>
      G1 ← erase_edges G (sort_edge <$> these_edges_out);
      G2 ← insert_edges G1 (sort_edge <$> these_edges_in);
      let new_component := component_of node G2 in
      let component_changed := negb (bool_decide (old_component = new_component)) in
      '(hash_to_int1, social_trajectory1) ←
         (if (1 <? size old_component) && component_changed && Qlt_bool t0 t
          then close_interval N old_component hash_to_int social_trajectory
                 last_time_active t
          else Ok (hash_to_int, social_trajectory));
      let last_time_active1 := if component_changed then t else last_time_active in
      let old_component1 := new_component in
      '(hash_to_int2, social_trajectory2, last_time_active2) ←
         (match time' with
          | [] =>
              if 1 <? size old_component1
              then '(h, s) ← close_interval N old_component1 hash_to_int1
                                social_trajectory1 last_time_active1 tmax;
                   Ok (h, s, tmax)
              else Ok (hash_to_int1, social_trajectory1, last_time_active1)
          | _ :: _ => Ok (hash_to_int1, social_trajectory1, last_time_active1)
          end);
      social_loop N node t0 tmax time' ins' outs' G2 last_time_active2
        old_component1 hash_to_int2 social_trajectory2
  | _, _, _ => Ok social_trajectory
  end.

(** [social_trajectory_from_edge_changes(list_of_edge_changes, node, verbose)].
    The trace printed under [verbose] is no part of the result. *)
Definition social_trajectory_from_edge_changes
    (list_of_edge_changes : edge_changes.record) (node : nat)
  : outcome (list social_trajectory_entry.record) :=
  let all_edges_in := edge_changes.edges_in list_of_edge_changes in
  let all_edges_out := edge_changes.edges_out list_of_edge_changes in
  let time := edge_changes.t list_of_edge_changes in
  let N := edge_changes.N list_of_edge_changes in
  G ← from_edgelist (replicate N ∅) (edge_changes.edges_initial list_of_edge_changes);
  let t0 := edge_changes.t0 list_of_edge_changes in
  let tmax := edge_changes.tmax list_of_edge_changes in
  time_back ← back time;
  if Qlt_bool tmax time_back
  then Err (domain_error
              "The value tmax is smaller than the last time in the time list.")
  else
    let last_time_active := t0 in
    let old_component := component_of node G in
    social_loop N node t0 tmax time all_edges_in all_edges_out G
      last_time_active old_component ∅ [].

(** *** Binned mode *)

(** The check of [dt] and [N_time_steps] that both binned functions run
    ("check w"), [front] being [time.front()] in the one and [t0] in the
    other: it raises, or it returns [dt] and [N_time_steps] as the function
    goes on with them. *)
Definition check_bins (front tmax dt : Q) (N_time_steps : nat) : outcome (Q * nat) :=
  if Qlt_bool 0 dt && (0 <? N_time_steps)
  then Err (domain_error
         "please provide either positive dt or positive N_time_steps, not both positive")
  else if Qeq_bool dt 0 && (N_time_steps =? 0)
  then Err (domain_error
         "please provide either positive dt or positive N_time_steps, not both zero")
  else if Qlt_bool 0 dt && (N_time_steps =? 0)
  then
    let _N_t := Double.div (Double.sub tmax front) dt in
    if negb (Qeq_bool (modf _N_t) 0)
    then Err (domain_error
           "dt does not nicely divide time interval (tmax - t0) in integer parts")
    else n ← double_to_size_t _N_t; Ok (dt, n)
  else if Qeq_bool dt 0 && (0 <? N_time_steps)
  then Ok (Double.div (Double.sub tmax front) (Double.of_size_t N_time_steps),
           N_time_steps)
  else Ok (dt, N_time_steps).

(** [size_t bin_number = (this_time-t0) / (tmax-t0) * N_time_steps;] *)
Definition bin_of (this_time t0 tmax : Q) (N_time_steps : nat) : outcome nat :=
  ratio ← double_div (Double.sub this_time t0) (Double.sub tmax t0);
  double_to_size_t (Double.mul ratio (Double.of_size_t N_time_steps)).

(** [for (bin = 1; bin <= bin_difference; bin++)]: the iterator
    [current_trajectory_bin] is a position in [trajectory];
    [bin_start_after] is the value of [t0 + bin_number * dt > this_time],
    which the loop does not change. *)
Fixpoint advance_bins (bin_difference : nat) (G : graph) (node : nat)
    (bin_start_after : bool) (current_group_integer : nat)
    (hash_to_int : gmap Z nat)
    (trajectory : list (gset nat)) (current_trajectory_bin : nat)
  : outcome (list (gset nat) * nat) :=
  match bin_difference with
  | 0 => Ok (trajectory, current_trajectory_bin)
  | S rest =>
      let current_trajectory_bin := S current_trajectory_bin in
      neighbors ← at_ G node;
      trajectory' ←
        (if (0 <? size neighbors) && bin_start_after
         then if current_group_integer <? size hash_to_int
              then set_insert trajectory current_trajectory_bin current_group_integer
              else Ok trajectory
         else Ok trajectory);
      advance_bins rest G node bin_start_after current_group_integer
        hash_to_int trajectory' current_trajectory_bin
  end.

(** The block that follows each change of the graph in the binned loops:
    label the component of the node, if it has a neighbor, and put the
    label into the current bin. *)
Definition label_current_bin (N node : nat) (G : graph)
    (current_group_integer : nat) (hash_to_int : gmap Z nat)
    (trajectory : list (gset nat)) (current_trajectory_bin : nat)
  : outcome (nat * gmap Z nat * list (gset nat)) :=
  neighbors ← at_ G node;
  if 0 <? size neighbors
  then
    '(label, hash_to_int', _) ←
       get_group_integer N (component_of node G) hash_to_int;
    trajectory' ← set_insert trajectory current_trajectory_bin label;
    Ok (label, hash_to_int', trajectory')
  else Ok (current_group_integer, hash_to_int, trajectory).

(** The step to the bin of [this_time], shared by the two loops. *)
Definition advance_to (node : nat) (t0 tmax dt : Q) (N_time_steps : nat)
    (this_time : Q) (G : graph) (current_group_integer : nat)
    (hash_to_int : gmap Z nat) (trajectory : list (gset nat))
    (current_trajectory_bin old_bin_number : nat)
  : outcome (list (gset nat) * nat * nat) :=
  bin_number ← bin_of this_time t0 tmax N_time_steps;
  let bin_difference :=
    Z.to_nat (size_t_sub (Z.of_nat bin_number) (Z.of_nat old_bin_number)) in
  let bin_start_after :=
    Qlt_bool this_time
      (Double.add t0 (Double.mul (Double.of_size_t bin_number) dt)) in
  '(trajectory', current_trajectory_bin') ←
     advance_bins bin_difference G node bin_start_after current_group_integer
       hash_to_int trajectory current_trajectory_bin;
  Ok (trajectory', current_trajectory_bin', bin_number).

(** The [while] loop of [binned_social_trajectory_from_edge_lists]. *)
Fixpoint binned_lists_loop (N node : nat) (t0 tmax dt : Q) (N_time_steps : nat)
    (time : list Q) (all_edges : list (list edge))
    (G : graph) (trajectory : list (gset nat)) (hash_to_int : gmap Z nat)
    (current_trajectory_bin old_bin_number current_group_integer : nat)
  : outcome (list (gset nat)) :=
  match time with
  | [] => Ok trajectory
  | this_time :: time' =>
      '(trajectory1, current_trajectory_bin1, old_bin_number1) ←
         advance_to node t0 tmax dt N_time_steps this_time G
           current_group_integer hash_to_int trajectory
           current_trajectory_bin old_bin_number;
      these_edges ← at_ all_edges 0;
      G' ← from_edgelist G these_edges;
      '(current_group_integer', hash_to_int', trajectory2) ←
         label_current_bin N node G' current_group_integer hash_to_int
           trajectory1 current_trajectory_bin1;
      binned_lists_loop N node t0 tmax dt N_time_steps time' (tail all_edges)
        G' trajectory2 hash_to_int'
        current_trajectory_bin1 old_bin_number1 current_group_integer'
  end.

(** [binned_social_trajectory_from_edge_lists(list_of_edge_lists, node, dt,
    N_time_steps, verbose)]. *)
Definition binned_social_trajectory_from_edge_lists
    (list_of_edge_lists : edge_lists.record) (node : nat)
    (dt : Q) (N_time_steps : nat) : outcome (list (gset nat)) :=
  let all_edges := edge_lists.edges list_of_edge_lists in
  let time := edge_lists.t list_of_edge_lists in
  t0 ← at_ time 0;
  let tmax := edge_lists.tmax list_of_edge_lists in
  time_back ← back time;
  if Qlt_bool tmax time_back
  then Err (domain_error
              "The value tmax is smaller than the last value in the time list.")
  else
    let N := edge_lists.N list_of_edge_lists in
    '(dt, N_time_steps) ← check_bins t0 tmax dt N_time_steps;
    let G := replicate N ∅ in
    let trajectory := replicate N_time_steps ∅ in
    binned_lists_loop N node t0 tmax dt N_time_steps time all_edges
      G trajectory ∅ 0 0 1.

(** The [while] loop of [binned_social_trajectory_from_edge_changes]. *)
Fixpoint binned_changes_loop (N node : nat) (t0 tmax dt : Q) (N_time_steps : nat)
    (time : list Q) (all_edges_in all_edges_out : list (list edge))
    (G : graph) (trajectory : list (gset nat)) (hash_to_int : gmap Z nat)
    (current_trajectory_bin old_bin_number current_group_integer : nat)
  : outcome (list (gset nat)) :=
  match time with
  | [] => Ok trajectory
  | this_time :: time' =>
      '(trajectory1, current_trajectory_bin1, old_bin_number1) ←
         advance_to node t0 tmax dt N_time_steps this_time G
           current_group_integer hash_to_int trajectory
           current_trajectory_bin old_bin_number;
      these_edges_in ← at_ all_edges_in 0;
      G1 ← insert_edges G these_edges_in;
      these_edges_out ← at_ all_edges_out 0;
      G2 ← erase_edges G1 these_edges_out;
      '(current_group_integer', hash_to_int', trajectory2) ←
         label_current_bin N node G2 current_group_integer hash_to_int
           trajectory1 current_trajectory_bin1;
      binned_changes_loop N node t0 tmax dt N_time_steps time'
        (tail all_edges_in) (tail all_edges_out)
        G2 trajectory2 hash_to_int'
        current_trajectory_bin1 old_bin_number1 current_group_integer'
  end.

(** [binned_social_trajectory_from_edge_changes(list_of_edge_changes, node,
    dt, N_time_steps, verbose)]. *)
Definition binned_social_trajectory_from_edge_changes
    (list_of_edge_changes : edge_changes.record) (node : nat)
    (dt : Q) (N_time_steps : nat) : outcome (list (gset nat)) :=
  let all_edges_in := edge_changes.edges_in list_of_edge_changes in
  let all_edges_out := edge_changes.edges_out list_of_edge_changes in
  let time := edge_changes.t list_of_edge_changes in
  let t0 := edge_changes.t0 list_of_edge_changes in
  let tmax := edge_changes.tmax list_of_edge_changes in
  let N := edge_changes.N list_of_edge_changes in
  G ← from_edgelist (replicate N ∅) (edge_changes.edges_initial list_of_edge_changes);
  '(dt, N_time_steps) ← check_bins t0 tmax dt N_time_steps;
  let trajectory := replicate N_time_steps ∅ in
  '(current_group_integer, hash_to_int, trajectory0) ←
     label_current_bin N node G 1 ∅ trajectory 0;
  time_back ← back time;
  if Qlt_bool tmax time_back
  then Err (domain_error
              "The value tmax is smaller than the last value in the time list.")
  else
    binned_changes_loop N node t0 tmax dt N_time_steps time
      all_edges_in all_edges_out G trajectory0 hash_to_int 0 0
      current_group_integer.

(** *** The canonicalizer *)

Lemma mark_members_spec (g : list bool) (nodes : list nat) :
  (forall x, x ∈ nodes -> x < length g) ->
  exists g', mark_members g nodes = Ok g' /\ length g' = length g /\
    forall i, i < length g ->
      g' !! i = Some (default false (g !! i) || bool_decide (i ∈ nodes)).
Proof.
  revert g. induction nodes as [|x rest IH]; intros g Hr.
  - exists g. split; [done|]. split; [done|]. intros i Hi.
    destruct (lookup_lt_is_Some_2 _ _ Hi) as [b Hb]. rewrite Hb. simpl.
    by rewrite orb_false_r.
  - assert (x < length g) as Hx by (apply Hr; left).
    simpl. rewrite (assign_Ok _ _ _ Hx). simpl.
    destruct (IH (<[x := true]> g)) as (g' & -> & Hlen & Hg').
    { intros y Hy. rewrite length_insert. apply Hr. by right. }
    rewrite length_insert in Hlen.
    exists g'. split; [done|]. split; [done|]. intros i Hi.
    rewrite Hg' by (by rewrite length_insert).
    f_equal. destruct (decide (i = x)) as [-> | Hne].
    + rewrite list_lookup_insert_eq by done. simpl.
      symmetry. rewrite orb_true_iff. right. apply bool_decide_eq_true. left.
    + rewrite list_lookup_insert_ne by done. f_equal.
      apply bool_decide_ext. rewrite elem_of_cons.
      split; [by right|]. by intros [? | ?].
Qed.

(** The loop of [get_group_integer] builds the membership indicator, in
    whichever order the members are visited. *)
Lemma mark_members_indicator (N : nat) (nodes : list nat) :
  (forall x, x ∈ nodes -> x < N) ->
  mark_members (replicate N false) nodes = Ok (indicator N (list_to_set nodes)).
Proof.
  intros Hr.
  destruct (mark_members_spec (replicate N false) nodes) as (g' & -> & Hlen & Hg').
  { intros x Hx. rewrite length_replicate. by apply Hr. }
  f_equal. rewrite length_replicate in Hlen, Hg'.
  apply list_eq_same_length with N;
    [unfold indicator; by rewrite length_fmap, length_seq|done|].
  intros i x y Hi Hx Hy. rewrite (Hg' i Hi) in Hx. injection Hx as <-.
  unfold indicator in Hy. rewrite list_lookup_fmap, lookup_seq_lt in Hy by done.
  simpl in Hy. injection Hy as <-.
  rewrite lookup_replicate_2 by done. simpl.
  apply bool_decide_ext. by rewrite elem_of_list_to_set.
Qed.

Lemma mark_members_set (N : nat) (component : gset nat) :
  in_range N component ->
  mark_members (replicate N false) (set_iter component) = Ok (indicator N component).
Proof.
  intros Hr. rewrite mark_members_indicator.
  - do 2 f_equal. apply set_eq. intros x.
    by rewrite elem_of_list_to_set, set_iter_elem.
  - intros x Hx. apply Hr. by apply set_iter_elem.
Qed.

Lemma indicator_length (N : nat) (component : gset nat) :
  length (indicator N component) = N.
Proof. unfold indicator. by rewrite length_fmap, length_seq. Qed.

Lemma indicator_inj (N : nat) (c1 c2 : gset nat) :
  in_range N c1 -> in_range N c2 ->
  indicator N c1 = indicator N c2 -> c1 = c2.
Proof.
  intros H1 H2 Heq. apply set_eq. intros x.
  destruct (decide (x < N)) as [Hx | Hx].
  - assert (indicator N c1 !! x = indicator N c2 !! x) as Hl by (by rewrite Heq).
    unfold indicator in Hl. rewrite !list_lookup_fmap, lookup_seq_lt in Hl by done.
    simpl in Hl. injection Hl as Hl.
    rewrite <- (bool_decide_eq_true (x ∈ c1)), <- (bool_decide_eq_true (x ∈ c2)).
    by rewrite Hl.
  - split; intros Hin; [apply H1 in Hin | apply H2 in Hin]; lia.
Qed.

Lemma get_group_integer_eq (N : nat) (c : gset nat) (m : gmap Z nat) :
  in_range N c ->
  get_group_integer N c m =
    match m !! group_hash N c with
    | Some l => Ok (l, m, group_hash N c)
    | None => Ok (size m, <[group_hash N c := size m]> m, group_hash N c)
    end.
Proof.
  intros Hr. unfold get_group_integer. rewrite (mark_members_set _ _ Hr).
  reflexivity.
Qed.

(** A call leaves every entry of the registry as it was, and files the
    label it returns under the hash it returns. *)
Lemma get_group_integer_keeps (N : nat) (c : gset nat) (m m' : gmap Z nat)
    (l : nat) (h : Z) :
  get_group_integer N c m = Ok (l, m', h) ->
  (forall h0 l0, m !! h0 = Some l0 -> m' !! h0 = Some l0) /\ m' !! h = Some l.
Proof.
  unfold get_group_integer.
  destruct (mark_members (replicate N false) (set_iter c)) as [g|]; [|done].
  simpl. destruct (m !! hash_calculator g) as [l1|] eqn:Hl.
  - intros [= -> -> <-]. done.
  - intros [= <- <- <-]. split; [|by rewrite lookup_insert_eq].
    intros h0 l0 H0. rewrite lookup_insert_ne; [done|]. congruence.
Qed.

Lemma label_sequence_app (N : nat) (cs1 cs2 : list (gset nat)) (m : gmap Z nat) :
  label_sequence N (cs1 ++ cs2) m =
    '(ls1, m1) ← label_sequence N cs1 m;
    '(ls2, m2) ← label_sequence N cs2 m1;
    Ok (ls1 ++ ls2, m2).
Proof.
  revert m. induction cs1 as [|c cs1 IH]; intros m; simpl.
  - by destruct (label_sequence N cs2 m) as [[ls2 m2]|].
  - destruct (get_group_integer N c m) as [[[l m'] h]|]; [|done]. simpl.
    rewrite IH. destruct (label_sequence N cs1 m') as [[ls1 m1]|]; [|done].
    simpl. by destruct (label_sequence N cs2 m1) as [[ls2 m2]|].
Qed.

Lemma registry_inv_empty (N : nat) : registry_inv N [] [] ∅.
Proof.
  constructor; [done|by intros i c ?|by intros h l ?%lookup_empty_Some|].
  intros l. rewrite map_size_empty. split; [|lia].
  by intros (h & ?%lookup_empty_Some).
Qed.

Lemma registry_inv_seen (N : nat) cs ls m c l :
  registry_inv N cs ls m -> m !! group_hash N c = Some l ->
  registry_inv N (cs ++ [c]) (ls ++ [l]) m.
Proof.
  intros Hinv Hl. pose proof (inv_length _ _ _ _ Hinv) as Hlen.
  constructor.
  - rewrite !length_app. simpl. lia.
  - intros i c' Hi. apply lookup_app_Some in Hi as [Hi | (Hge & Hi)].
    + destruct (inv_label _ _ _ _ Hinv i c' Hi) as (l' & Hl' & Hm).
      exists l'. split; [|done]. by apply lookup_app_l_Some.
    + apply list_lookup_singleton_Some in Hi as (Hi & <-).
      exists l. split; [|done]. rewrite lookup_app_r by lia.
      replace (i - length ls) with 0 by lia. done.
  - intros h l' Hm.
    destruct (inv_origin _ _ _ _ Hinv h l' Hm) as (i & c' & Hi & -> & Hl').
    exists i, c'. split; [by apply lookup_app_l_Some|].
    split; [done|]. by apply lookup_app_l_Some.
  - apply Hinv.
Qed.

Lemma registry_inv_new (N : nat) cs ls m c :
  registry_inv N cs ls m -> m !! group_hash N c = None ->
  registry_inv N (cs ++ [c]) (ls ++ [size m]) (<[group_hash N c := size m]> m).
Proof.
  intros Hinv Hnone. pose proof (inv_length _ _ _ _ Hinv) as Hlen.
  constructor.
  - rewrite !length_app. simpl. lia.
  - intros i c' Hi. apply lookup_app_Some in Hi as [Hi | (Hge & Hi)].
    + destruct (inv_label _ _ _ _ Hinv i c' Hi) as (l' & Hl' & Hm).
      exists l'. split; [by apply lookup_app_l_Some|].
      rewrite lookup_insert_ne; [done|]. congruence.
    + apply list_lookup_singleton_Some in Hi as (Hi & <-).
      exists (size m). split; [|by rewrite lookup_insert_eq].
      rewrite lookup_app_r by lia.
      replace (i - length ls) with 0 by lia. done.
  - intros h l' Hm. apply lookup_insert_Some in Hm as [(<- & <-) | (Hne & Hm)].
    + exists (length cs), c. split; [|split; [done|]].
      * rewrite lookup_app_r by lia. by rewrite Nat.sub_diag.
      * rewrite lookup_app_r by lia. by rewrite Hlen, Nat.sub_diag.
    + destruct (inv_origin _ _ _ _ Hinv h l' Hm) as (i & c' & Hi & -> & Hl').
      exists i, c'. split; [by apply lookup_app_l_Some|].
      split; [done|]. by apply lookup_app_l_Some.
  - intros l. rewrite map_size_insert_None by done. split.
    + intros (h & [(_ & <-) | (_ & Hm)]%lookup_insert_Some); [lia|].
      assert (l < size m); [|lia]. apply (inv_dense _ _ _ _ Hinv). by exists h.
    + intros Hl. destruct (decide (l = size m)) as [-> | Hne].
      * exists (group_hash N c). by rewrite lookup_insert_eq.
      * destruct (proj2 (inv_dense _ _ _ _ Hinv l)) as (h & Hm); [lia|].
        exists h. rewrite lookup_insert_ne; [done|]. congruence.
Qed.

Lemma label_sequence_inv (N : nat) (cs : list (gset nat)) :
  (forall c, c ∈ cs -> in_range N c) ->
  exists ls m, label_sequence N cs ∅ = Ok (ls, m) /\
    registry_inv N cs ls m /\
    (collision_free_on N cs -> size m = size (list_to_set cs : gset (gset nat))).
Proof.
  induction cs as [|c cs IH] using rev_ind; intros Hr.
  - exists [], ∅. split; [done|]. split; [apply registry_inv_empty|].
    intros _. by rewrite map_size_empty, list_to_set_nil, size_empty.
  - destruct IH as (ls & m & Hrun & Hinv & Hsize).
    { intros c' Hc'. apply Hr, elem_of_app. by left. }
    assert (collision_free_on N (cs ++ [c]) -> collision_free_on N cs) as Hsub.
    { intros Hfree c1 c2 H1 H2. apply Hfree; apply elem_of_app; by left. }
    assert (in_range N c) as Hc.
    { apply Hr, elem_of_app. right. by apply list_elem_of_singleton. }
    rewrite label_sequence_app, Hrun. simpl.
    rewrite (get_group_integer_eq _ _ _ Hc).
    destruct (m !! group_hash N c) as [l|] eqn:Hl; simpl.
    + exists (ls ++ [l]), m. split; [done|].
      split; [by apply registry_inv_seen|].
      intros Hfree. rewrite (Hsize (Hsub Hfree)).
      destruct (inv_origin _ _ _ _ Hinv _ _ Hl) as (i & c' & Hi & Hh & _).
      assert (c' = c) as ->.
      { apply Hfree; [| |done].
        - apply elem_of_app. left. by eapply list_elem_of_lookup_2.
        - apply elem_of_app. right. by apply list_elem_of_singleton. }
      f_equal. apply set_eq. intros x.
      rewrite !elem_of_list_to_set, elem_of_app, list_elem_of_singleton.
      split; [by left|]. intros [? | ->]; [done|].
      by eapply list_elem_of_lookup_2.
    + exists (ls ++ [size m]), (<[group_hash N c := size m]> m).
      split; [done|]. split; [by apply registry_inv_new|].
      intros Hfree. rewrite map_size_insert_None by done.
      rewrite (Hsize (Hsub Hfree)).
      rewrite list_to_set_app_L. simpl.
      rewrite size_union, size_union, size_singleton, size_empty; [lia| |].
      * apply disjoint_empty_r.
      * apply elem_of_disjoint. intros x Hx1 Hx2.
        apply elem_of_list_to_set in Hx1.
        apply elem_of_union in Hx2 as [->%elem_of_singleton | Hx2];
          [|by apply not_elem_of_empty in Hx2].
        apply list_elem_of_lookup in Hx1 as (i & Hi).
        destruct (inv_label _ _ _ _ Hinv i c Hi) as (l & _ & Hm). congruence.
Qed.

(** C4.  Within one registry lifetime, that is along any sequence of calls
    of [get_group_integer] on a registry that started empty: two calls on
    the same membership set return the same label, whatever was labelled
    in between (and the label is a function of the set of members: the
    order in which they are visited does not enter the indicator); a call
    never removes or changes an entry; and, when no two of the sets that
    are labelled collide under the hash, a set not seen before receives
    the least label not in use, which is the number of distinct sets seen
    before it. *)
Theorem canonical_labels (N : nat) (cs : list (gset nat)) :
  (forall c, c ∈ cs -> in_range N c) ->
  exists ls m,
    label_sequence N cs ∅ = Ok (ls, m) /\ length ls = length cs /\
    (forall i j c, cs !! i = Some c -> cs !! j = Some c -> ls !! i = ls !! j) /\
    (forall nodes1 nodes2 : list nat,
       (forall x, x ∈ nodes1 -> x < N) -> nodes1 ≡ₚ nodes2 ->
       mark_members (replicate N false) nodes1 =
         mark_members (replicate N false) nodes2 /\
       forall m0, get_group_integer N (list_to_set nodes1) m0 =
                  get_group_integer N (list_to_set nodes2) m0) /\
    (forall c m0 l m' h, get_group_integer N c m0 = Ok (l, m', h) ->
       forall h0 l0, m0 !! h0 = Some l0 -> m' !! h0 = Some l0) /\
    (collision_free_on N cs ->
     forall j c, cs !! j = Some c -> c ∉ take j cs ->
       let k := size (list_to_set (take j cs) : gset (gset nat)) in
       ls !! j = Some k /\
       (forall i l, i < j -> ls !! i = Some l -> l < k) /\
       (forall l, l < k -> exists i, i < j /\ ls !! i = Some l)).
Proof.
  intros Hr. destruct (label_sequence_inv N cs Hr) as (ls & m & Hrun & Hinv & _).
  exists ls, m. split; [done|]. split; [apply Hinv|]. split; [|split; [|split]].
  - intros i j c Hi Hj.
    destruct (inv_label _ _ _ _ Hinv i c Hi) as (l1 & -> & H1).
    destruct (inv_label _ _ _ _ Hinv j c Hj) as (l2 & -> & H2). congruence.
  - intros nodes1 nodes2 Hr1 Hperm.
    assert (list_to_set nodes1 = (list_to_set nodes2 : gset nat)) as Hset.
    { apply set_eq. intros x. by rewrite !elem_of_list_to_set, Hperm. }
    split; [|by rewrite Hset].
    rewrite !mark_members_indicator, Hset; [done| |done].
    intros x Hx. apply Hr1. by rewrite Hperm.
  - intros c m0 l m' h Hcall. by apply (get_group_integer_keeps N c m0 m' l h).
  - intros Hfree j c Hj Hnew k.
    pose proof (take_drop_middle cs j c Hj) as Hsplit.
    destruct (label_sequence_inv N (take j cs)) as (ls1 & m1 & Hrun1 & Hinv1 & Hsize1).
    { intros c' Hc'. apply Hr. by eapply elem_of_take_1. }
    assert (collision_free_on N (take j cs)) as Hfree1.
    { intros c1 c2 H1 H2. apply Hfree; by eapply elem_of_take_1. }
    specialize (Hsize1 Hfree1).
    assert (in_range N c) as Hc by (apply Hr; by eapply list_elem_of_lookup_2).
    assert (m1 !! group_hash N c = None) as Hnone.
    { destruct (m1 !! group_hash N c) as [l|] eqn:Hl; [|done]. exfalso.
      destruct (inv_origin _ _ _ _ Hinv1 _ _ Hl) as (i & c' & Hi & Hh & _).
      apply Hnew. replace c with c'; [by eapply list_elem_of_lookup_2|].
      apply Hfree; [| |done].
      - eapply elem_of_take_1. by eapply list_elem_of_lookup_2.
      - by eapply list_elem_of_lookup_2. }
    assert (length ls1 = j) as Hlen1.
    { rewrite (inv_length _ _ _ _ Hinv1), length_take.
      apply lookup_lt_Some in Hj. lia. }
    assert (exists ls2, ls = ls1 ++ size m1 :: ls2) as (ls2 & ->).
    { rewrite <- Hsplit in Hrun. rewrite label_sequence_app, Hrun1 in Hrun.
      simpl in Hrun. rewrite (get_group_integer_eq _ _ _ Hc), Hnone in Hrun.
      simpl in Hrun.
      destruct (label_sequence N (drop (S j) cs) _) as [[ls2 m2]|]; [|done].
      simpl in Hrun. injection Hrun as <- _. by exists ls2. }
    subst k. rewrite <- Hsize1. split; [|split].
    + rewrite lookup_app_r by lia. by rewrite Hlen1, Nat.sub_diag.
    + intros i l Hi Hl. rewrite lookup_app_l in Hl by lia.
      destruct (lookup_lt_is_Some_2 (take j cs) i) as [ci Hci].
      { rewrite <- (inv_length _ _ _ _ Hinv1). lia. }
      destruct (inv_label _ _ _ _ Hinv1 i ci Hci) as (l' & Hl' & Hm).
      rewrite Hl in Hl'. injection Hl' as <-.
      apply (inv_dense _ _ _ _ Hinv1). by eexists.
    + intros l Hl. apply (inv_dense _ _ _ _ Hinv1) in Hl as (h & Hm).
      destruct (inv_origin _ _ _ _ Hinv1 _ _ Hm) as (i & c' & Hi & _ & Hli).
      exists i. apply lookup_lt_Some in Hli as Hlt.
      split; [lia|]. by apply lookup_app_l_Some.
Qed.

(** *** Interval mode: the intervals tile the run *)

Lemma chain_snoc a b c l :
  chain a b l -> (b <= c)%Q -> chain a c (l ++ [(b, c)]).
Proof.
  induction 1 as [a | a b b' l Hab Hl IH]; intros Hc; simpl.
  - apply chain_cons; [done|]. apply chain_nil.
  - apply chain_cons; [done|]. by apply IH.
Qed.

Lemma all_pairs_app traj1 traj2 :
  all_pairs (traj1 ++ traj2) = all_pairs traj1 ++ all_pairs traj2.
Proof. unfold all_pairs. by rewrite fmap_app, concat_app. Qed.

Lemma all_pairs_cons e traj :
  all_pairs (e :: traj) = social_trajectory_entry.time_pairs e ++ all_pairs traj.
Proof. reflexivity. Qed.

Lemma all_pairs_insert traj l e p :
  traj !! l = Some e ->
  all_pairs (<[l := social_trajectory_entry.mk
                      (social_trajectory_entry.size e)
                      (social_trajectory_entry.hash e)
                      (social_trajectory_entry.time_pairs e ++ [p])]> traj)
  ≡ₚ all_pairs traj ++ [p].
Proof.
  intros Hl. pose proof (lookup_lt_Some _ _ _ Hl) as Hlt.
  rewrite insert_take_drop by done.
  rewrite <- (take_drop_middle traj l e Hl) at 3.
  rewrite !all_pairs_app, !all_pairs_cons. simpl.
  rewrite <- !app_assoc. apply Permutation_app_head.
  apply Permutation_app_head. apply Permutation_app_comm.
Qed.

Lemma close_interval_spec (N : nat) (c : gset nat) (m : gmap Z nat) traj a b :
  registry_ok m -> length traj = size m -> in_range N c ->
  exists m1 traj1,
    close_interval N c m traj a b = Ok (m1, traj1) /\
    registry_ok m1 /\ length traj1 = size m1 /\
    all_pairs traj1 ≡ₚ all_pairs traj ++ [(a, b)].
Proof.
  intros Hok Hlen Hc. unfold close_interval.
  rewrite (get_group_integer_eq _ _ _ Hc).
  destruct (m !! group_hash N c) as [l|] eqn:Hl; simpl.
  - pose proof (Hok _ _ Hl) as Hlt.
    rewrite (proj2 (Nat.eqb_neq l (length traj))) by lia.
    destruct (lookup_lt_is_Some_2 traj l) as [e He]; [lia|].
    unfold at_. rewrite He. simpl.
    eexists _, _. split; [reflexivity|]. split; [done|].
    split; [by rewrite length_insert|]. by apply all_pairs_insert.
  - rewrite <- Hlen, Nat.eqb_refl.
    unfold at_. rewrite lookup_app_r, Nat.sub_diag by lia. simpl.
    eexists _, _. split; [reflexivity|]. split; [|split].
    + intros h l Hm. rewrite map_size_insert_None by done.
      apply lookup_insert_Some in Hm as [(_ & <-) | (_ & Hm)]; [lia|].
      apply Hok in Hm. lia.
    + rewrite length_insert, length_app, map_size_insert_None by done.
      simpl. lia.
    + rewrite insert_app_r_alt, Nat.sub_diag by lia. simpl.
      rewrite all_pairs_app. unfold all_pairs at 2. simpl. done.
Qed.

(** A component that the registry has not seen opens the next entry. *)
Lemma close_interval_new (N : nat) (c : gset nat) (m : gmap Z nat) traj a b :
  in_range N c -> m !! group_hash N c = None -> length traj = size m ->
  close_interval N c m traj a b =
    Ok (<[group_hash N c := size m]> m,
        traj ++ [social_trajectory_entry.mk (size c) (group_hash N c) [(a, b)]]).
Proof.
  intros Hc Hl Hlen. unfold close_interval.
  rewrite (get_group_integer_eq _ _ _ Hc), Hl. simpl.
  rewrite <- Hlen, Nat.eqb_refl.
  unfold at_. rewrite lookup_app_r, Nat.sub_diag by lia. simpl.
  by rewrite insert_app_r_alt, Nat.sub_diag by lia.
Qed.

(** The first closing point of the loop body: when the component changed
    the interval that ends at [t] is filed, and the intervals follow one
    another up to the new [last_time_active]. *)
Lemma close_on_change N t0 t last old m traj l (changed : bool) :
  1 < size old -> in_range N old -> (t0 < t)%Q -> (last <= t)%Q ->
  registry_ok m -> length traj = size m ->
  l ≡ₚ all_pairs traj -> chain t0 last l ->
  exists m1 traj1 l1,
    (if (1 <? size old) && changed && Qlt_bool t0 t
     then close_interval N old m traj last t
     else Ok (m, traj)) = Ok (m1, traj1) /\
    registry_ok m1 /\ length traj1 = size m1 /\
    l1 ≡ₚ all_pairs traj1 /\ chain t0 (if changed then t else last) l1.
Proof.
  intros Hsize Hr Ht0 Hlast Hok Hlen Hl Hchain.
  rewrite (proj2 (Nat.ltb_lt 1 (size old)) Hsize), (Qlt_bool_true _ _ Ht0).
  destruct changed; simpl.
  - destruct (close_interval_spec N old m traj last t Hok Hlen Hr)
      as (m1 & traj1 & -> & Hok1 & Hlen1 & Hp1).
    exists m1, traj1, (l ++ [(last, t)]). split; [done|]. split; [done|].
    split; [done|]. split; [by rewrite Hp1, Hl|]. by apply chain_snoc.
  - by exists m, traj, l.
Qed.

Lemma social_loop_tiles N node t0 tmax :
  forall time ins outs G gs last lo old m traj l,
    length ins = length time -> length outs = length time -> time <> [] ->
    replay G ins outs = Ok gs ->
    Forall (component_ok N node) gs ->
    1 < size old -> in_range N old ->
    ascending_from lo time tmax -> (t0 <= lo)%Q -> (last <= lo)%Q ->
    registry_ok m -> length traj = size m ->
    l ≡ₚ all_pairs traj -> chain t0 last l ->
    exists traj',
      social_loop N node t0 tmax time ins outs G last old m traj = Ok traj' /\
      tiles t0 tmax traj'.
Proof.
  induction time as [|t time' IH];
    intros ins outs G gs last lo old m traj l Hins Houts Hne Hrep Hgs
           Hsize Hr Hasc Hlo Hlast Hok Hlen Hl Hchain; [done|].
  destruct ins as [|these_in ins']; [done|].
  destruct outs as [|these_out outs']; [done|].
  simpl in Hins, Houts, Hasc. destruct Hasc as (Hlt & Hasc).
  simpl in Hrep. simpl.
  destruct (erase_edges G (sort_edge <$> these_out)) as [G1|]; [|done].
  simpl in Hrep |- *.
  destruct (insert_edges G1 (sort_edge <$> these_in)) as [G2|]; [|done].
  simpl in Hrep |- *.
  destruct (replay G2 ins' outs') as [gs'|] eqn:Hrep'; [|done].
  simpl in Hrep. injection Hrep as <-.
  apply Forall_cons in Hgs as ((Hsize2 & Hr2) & Hgs').
  assert (t0 < t)%Q as Ht0 by (by eapply Qle_lt_trans).
  assert (last <= t)%Q as Hlast_t.
  { apply Qlt_le_weak. by eapply Qle_lt_trans. }
  destruct (close_on_change N t0 t last old m traj l
              (negb (bool_decide (old = component_of node G2))))
    as (m1 & traj1 & l1 & -> & Hok1 & Hlen1 & Hl1 & Hchain1); try done.
  simpl.
  set (last1 := if negb (bool_decide (old = component_of node G2)) then t else last)
    in *.
  assert (last1 <= t)%Q as Hlast1.
  { subst last1. destruct (negb _); [apply Qle_refl|done]. }
  destruct time' as [|t' time''].
  - rewrite (proj2 (Nat.ltb_lt 1 _) Hsize2).
    destruct (close_interval_spec N (component_of node G2) m1 traj1 last1 tmax
                Hok1 Hlen1 Hr2) as (m2 & traj2 & -> & Hok2 & Hlen2 & Hp2).
    simpl. exists traj2. split; [done|].
    exists (l1 ++ [(last1, tmax)]). split; [by rewrite Hp2, Hl1|].
    apply chain_snoc; [done|]. simpl in Hasc. by eapply Qle_trans.
  - simpl (mbind _ (Ok _)).
    apply (IH ins' outs' G2 gs' last1 t (component_of node G2) m1 traj1 l1);
      try done; try lia.
    by apply Qlt_le_weak.
Qed.

Lemma ascending_last lo time tmax tb :
  ascending_from lo time tmax -> last time = Some tb -> (tb <= tmax)%Q.
Proof.
  revert lo. induction time as [|t rest IH]; intros lo Hasc Hlast; [done|].
  destruct Hasc as (_ & Hasc). destruct rest as [|t' rest'].
  - simpl in Hlast. injection Hlast as <-. exact Hasc.
  - apply (IH t Hasc). exact Hlast.
Qed.

Lemma social_trajectory_tiles (ec : edge_changes.record) (node : nat) G0 gs :
  from_edgelist (replicate (edge_changes.N ec) ∅) (edge_changes.edges_initial ec)
    = Ok G0 ->
  replay G0 (edge_changes.edges_in ec) (edge_changes.edges_out ec) = Ok gs ->
  length (edge_changes.edges_in ec) = length (edge_changes.t ec) ->
  length (edge_changes.edges_out ec) = length (edge_changes.t ec) ->
  edge_changes.t ec <> [] ->
  ascending_from (edge_changes.t0 ec) (edge_changes.t ec) (edge_changes.tmax ec) ->
  Forall (component_ok (edge_changes.N ec) node) (G0 :: gs) ->
  exists traj,
    social_trajectory_from_edge_changes ec node = Ok traj /\
    tiles (edge_changes.t0 ec) (edge_changes.tmax ec) traj.
Proof.
  intros HG0 Hrep Hins Houts Hne Hasc Hok.
  apply Forall_cons in Hok as ((Hsize0 & Hr0) & Hgs).
  unfold social_trajectory_from_edge_changes. rewrite HG0. simpl.
  destruct (last (edge_changes.t ec)) as [tb|] eqn:Hlast.
  2: { apply last_None in Hlast. done. }
  unfold back. rewrite Hlast. simpl.
  rewrite (Qlt_bool_false _ _ (ascending_last _ _ _ _ Hasc Hlast)).
  apply (social_loop_tiles _ _ _ _ _ _ _ G0 gs _ (edge_changes.t0 ec) _ _ _ []);
    try done.
  - apply Qle_refl.
  - apply Qle_refl.
  - apply chain_nil.
Qed.

End Extraction.

(** *** The helpers modelled from the spec keep components among the nodes *)

Lemma set_insert_Ok (G : graph) (i j : nat) (G' : graph) :
  set_insert G i j = Ok G' ->
  exists s, G !! i = Some s /\ G' = <[i := s ∪ {[j]}]> G.
Proof.
  unfold set_insert, at_. destruct (G !! i) as [s|]; [|done].
  simpl. intros [= <-]. by exists s.
Qed.

Lemma set_erase_Ok (G : graph) (i j : nat) (G' : graph) :
  set_erase G i j = Ok G' ->
  exists s, G !! i = Some s /\ G' = <[i := s ∖ {[j]}]> G.
Proof.
  unfold set_erase, at_. destruct (G !! i) as [s|]; [|done].
  simpl. intros [= <-]. by exists s.
Qed.

Lemma graph_closed_insert (G : graph) (i : nat) (s s' : gset nat) :
  graph_closed G -> G !! i = Some s ->
  (forall x, x ∈ s' -> x ∈ s \/ x < length G) ->
  graph_closed (<[i := s']> G).
Proof.
  intros Hc Hi Hs' k sk x Hk Hx. rewrite length_insert.
  destruct (decide (k = i)) as [-> | Hne].
  - rewrite list_lookup_insert_eq in Hk by (by eapply lookup_lt_Some).
    injection Hk as <-. destruct (Hs' x Hx) as [Hx' | Hx']; [|done].
    by apply (Hc i s).
  - rewrite list_lookup_insert_ne in Hk by done. by apply (Hc k sk).
Qed.

Lemma insert_edges_closed (G : graph) (edges : list edge) (G' : graph) :
  insert_edges G edges = Ok G' -> graph_closed G ->
  graph_closed G' /\ length G' = length G.
Proof.
  revert G. induction edges as [|[i j] rest IH]; intros G; simpl.
  - by intros [= <-].
  - destruct (set_insert G i j) as [G1|] eqn:H1; [|done]. simpl.
    destruct (set_insert G1 j i) as [G2|] eqn:H2; [|done]. simpl.
    intros Hrest Hc.
    apply set_insert_Ok in H1 as (s1 & Hs1 & ->).
    apply set_insert_Ok in H2 as (s2 & Hs2 & ->).
    pose proof (lookup_lt_Some _ _ _ Hs1) as Hi.
    pose proof (lookup_lt_Some _ _ _ Hs2) as Hj.
    rewrite length_insert in Hj.
    destruct (IH _ Hrest) as (Hc' & Hlen).
    + eapply graph_closed_insert; [|exact Hs2|].
      * eapply graph_closed_insert; [exact Hc|exact Hs1|].
        intros x [Hx | ->%elem_of_singleton]%elem_of_union; [by left|by right].
      * rewrite length_insert.
        intros x [Hx | ->%elem_of_singleton]%elem_of_union; [by left|by right].
    + split; [done|]. by rewrite Hlen, !length_insert.
Qed.

Lemma erase_edges_closed (G : graph) (edges : list edge) (G' : graph) :
  erase_edges G edges = Ok G' -> graph_closed G ->
  graph_closed G' /\ length G' = length G.
Proof.
  revert G. induction edges as [|[i j] rest IH]; intros G; simpl.
  - by intros [= <-].
  - destruct (set_erase G i j) as [G1|] eqn:H1; [|done]. simpl.
    destruct (set_erase G1 j i) as [G2|] eqn:H2; [|done]. simpl.
    intros Hrest Hc.
    apply set_erase_Ok in H1 as (s1 & Hs1 & ->).
    apply set_erase_Ok in H2 as (s2 & Hs2 & ->).
    destruct (IH _ Hrest) as (Hc' & Hlen).
    + eapply graph_closed_insert; [|exact Hs2|].
      * eapply graph_closed_insert; [exact Hc|exact Hs1|].
        intros x [Hx _]%elem_of_difference. by left.
      * intros x [Hx _]%elem_of_difference. by left.
    + split; [done|]. by rewrite Hlen, !length_insert.
Qed.

Lemma graph_closed_empty (n : nat) : graph_closed (replicate n ∅).
Proof.
  intros i s x Hi Hx. apply lookup_replicate in Hi as (-> & _).
  by apply not_elem_of_empty in Hx.
Qed.

Lemma graph_from_edgelist_closed (G : graph) (edges : list edge) (G' : graph) :
  graph_from_edgelist G edges = Ok G' ->
  graph_closed G' /\ length G' = length G.
Proof.
  unfold graph_from_edgelist. intros H.
  apply insert_edges_closed in H as (Hc & Hlen); [|apply graph_closed_empty].
  split; [done|]. by rewrite Hlen, length_replicate.
Qed.

Lemma replay_closed (G : graph) ins outs gs :
  replay G ins outs = Ok gs -> graph_closed G ->
  Forall (fun g => graph_closed g /\ length g = length G) gs.
Proof.
  revert G outs gs. induction ins as [|these_in ins' IH]; intros G outs gs; simpl.
  - intros [= <-] _. constructor.
  - destruct outs as [|these_out outs']; [intros [= <-] _; constructor|].
    destruct (erase_edges G _) as [G1|] eqn:H1; [|done]. simpl.
    destruct (insert_edges G1 _) as [G2|] eqn:H2; [|done]. simpl.
    destruct (replay G2 ins' outs') as [gs'|] eqn:H3; [|done]. simpl.
    intros [= <-] Hc.
    apply erase_edges_closed in H1 as (Hc1 & Hl1); [|done].
    apply insert_edges_closed in H2 as (Hc2 & Hl2); [|done].
    constructor; [split; [done|congruence]|].
    eapply Forall_impl; [by apply (IH G2 outs')|].
    intros g (? & ?). split; [done|]. congruence.
Qed.

Lemma neighborhood_elem (G : graph) (s : gset nat) (x : nat) :
  x ∈ neighborhood G s <-> exists i nb, i ∈ s /\ G !! i = Some nb /\ x ∈ nb.
Proof.
  unfold neighborhood. rewrite elem_of_union_list. split.
  - intros (nb & Hnb & Hx). apply list_elem_of_fmap in Hnb as (i & -> & Hi).
    apply set_iter_elem in Hi. destruct (G !! i) as [nb|] eqn:Hl.
    + by exists i, nb.
    + by apply not_elem_of_empty in Hx.
  - intros (i & nb & Hi & Hl & Hx). exists nb. split; [|done].
    apply list_elem_of_fmap. exists i. rewrite Hl. split; [done|].
    by apply set_iter_elem.
Qed.

Lemma grow_in_range (fuel : nat) (G : graph) (s : gset nat) :
  graph_closed G -> in_range (length G) s -> in_range (length G) (grow fuel G s).
Proof.
  intros Hc. revert s. induction fuel as [|fuel IH]; intros s Hs; [done|].
  simpl. apply IH. intros x [Hx | Hx]%elem_of_union; [by apply Hs|].
  apply neighborhood_elem in Hx as (i & nb & _ & Hl & Hx). by apply (Hc i nb).
Qed.

Lemma get_component_of_node_in_range (node : nat) (G : graph) :
  graph_closed G -> node < length G ->
  in_range (length G) (get_component_of_node node G).
Proof.
  intros Hc Hn. apply grow_in_range; [done|].
  by intros x ->%elem_of_singleton.
Qed.

Lemma components_ok (N node : nat) (G0 : graph) (gs : list graph) :
  node < N -> graph_closed G0 -> length G0 = N ->
  Forall (fun g => graph_closed g /\ length g = length G0) gs ->
  Forall (fun g => 1 < size (get_component_of_node node g)) (G0 :: gs) ->
  Forall (component_ok get_component_of_node N node) (G0 :: gs).
Proof.
  intros Hnode Hc0 Hlen Hcs Hsize.
  assert (Forall (fun g => graph_closed g /\ length g = N) (G0 :: gs)) as Hc.
  { constructor; [done|]. eapply Forall_impl; [exact Hcs|].
    intros g (? & ?). split; [done|congruence]. }
  clear Hcs Hc0. revert Hc Hsize. generalize (G0 :: gs) as l.
  induction l as [|g l IH]; intros Hc Hsize; [constructor|].
  apply Forall_cons in Hc as ((Hcg & Hlg) & Hc).
  apply Forall_cons in Hsize as (Hsg & Hsize).
  constructor; [|by apply IH].
  split; [done|]. rewrite <- Hlg.
  apply get_component_of_node_in_range; [done|lia].
Qed.

Lemma meeting_trajectory (hash_calculator : list bool -> Z) (t0 tmax : Q) :
  (t0 < 1)%Q -> (1 <= tmax)%Q ->
  hash_calculator [true; true; false; false]
    <> hash_calculator [true; true; true; true] ->
  social_trajectory_from_edge_changes hash_calculator get_component_of_node
    graph_from_edgelist (meeting t0 tmax) 0 =
  Ok [social_trajectory_entry.mk 2
        (hash_calculator [true; true; false; false]) [(t0, 1%Q)];
      social_trajectory_entry.mk 4
        (hash_calculator [true; true; true; true]) [(1%Q, tmax)]].
Proof.
  intros Ht0 Htmax Hhash.
  unfold social_trajectory_from_edge_changes, meeting.
  cbn [edge_changes.edges_in edge_changes.edges_out edge_changes.t
       edge_changes.N edge_changes.edges_initial edge_changes.t0
       edge_changes.tmax].
  change (graph_from_edgelist (replicate 4 ∅) [(0, 1); (2, 3)]) with
    (Ok [{[1]}; {[0]}; {[3]}; {[2]}] : outcome (list (gset nat))).
  cbn [mbind outcome_bind back last].
  rewrite (Qlt_bool_false tmax 1 Htmax).
  change (get_component_of_node 0 [{[1]}; {[0]}; {[3]}; {[2]}])
    with ({[0; 1]} : gset nat).
  cbn [social_loop fmap list_fmap erase_edges mbind outcome_bind].
  change (insert_edges [{[1]}; {[0]}; {[3]}; {[2]}] [sort_edge (1, 2)]) with
    (Ok [{[1]}; {[0; 2]}; {[1; 3]}; {[2]}] : outcome (list (gset nat))).
  cbn [mbind outcome_bind].
  change (get_component_of_node 0 [{[1]}; {[0; 2]}; {[1; 3]}; {[2]}])
    with ({[0; 1; 2; 3]} : gset nat).
  change (bool_decide (({[0; 1]} : gset nat) = {[0; 1; 2; 3]})) with false.
  rewrite (Qlt_bool_true t0 1 Ht0).
  change (1 <? size ({[0; 1]} : gset nat)) with true.
  change (1 <? size ({[0; 1; 2; 3]} : gset nat)) with true.
  cbn [negb andb].
  rewrite (close_interval_new hash_calculator 4 {[0; 1]} ∅ [] t0 1);
    [|intros x Hx; set_unfold; lia|apply lookup_empty|done].
  cbn [mbind outcome_bind app].
  rewrite map_size_empty.
  rewrite (close_interval_new hash_calculator 4 {[0; 1; 2; 3]}).
  - reflexivity.
  - intros x Hx. set_unfold. lia.
  - rewrite lookup_insert_ne; [apply lookup_empty|]. exact Hhash.
  - by rewrite map_size_insert_None, map_size_empty by apply lookup_empty.
Qed.

(** C3, as amended.  For every edge-diff stream with at least one event
    (as many entries of [edges_in] and of [edges_out] as event times, the
    times ascending from [t0] and ending at or before [tmax], every edge
    between nodes) and every focal node whose component has more than one
    node from the initial graph on and after every event, interval mode
    returns, and the intervals it returns, taken over all labels, follow
    one another from [t0] to [tmax]: no gap, no overlap.  In the scenario
    of four nodes it returns the interval (t0, 1) under the label of
    {0, 1} and then (1, tmax) under the label of {0, 1, 2, 3}. *)
Theorem interval_mode_tiles (hash_calculator : list bool -> Z) :
  (forall (ec : edge_changes.record) (node : nat) G0 gs,
     node < edge_changes.N ec ->
     graph_from_edgelist (replicate (edge_changes.N ec) ∅)
       (edge_changes.edges_initial ec) = Ok G0 ->
     replay G0 (edge_changes.edges_in ec) (edge_changes.edges_out ec) = Ok gs ->
     length (edge_changes.edges_in ec) = length (edge_changes.t ec) ->
     length (edge_changes.edges_out ec) = length (edge_changes.t ec) ->
     edge_changes.t ec <> [] ->
     ascending_from (edge_changes.t0 ec) (edge_changes.t ec) (edge_changes.tmax ec) ->
     Forall (fun g => 1 < size (get_component_of_node node g)) (G0 :: gs) ->
     exists traj,
       social_trajectory_from_edge_changes hash_calculator get_component_of_node
         graph_from_edgelist ec node = Ok traj /\
       tiles (edge_changes.t0 ec) (edge_changes.tmax ec) traj) /\
  (forall t0 tmax : Q,
     (t0 < 1)%Q -> (1 <= tmax)%Q ->
     hash_calculator [true; true; false; false]
       <> hash_calculator [true; true; true; true] ->
     social_trajectory_from_edge_changes hash_calculator get_component_of_node
       graph_from_edgelist (meeting t0 tmax) 0 =
     Ok [social_trajectory_entry.mk 2
           (hash_calculator [true; true; false; false]) [(t0, 1%Q)];
         social_trajectory_entry.mk 4
           (hash_calculator [true; true; true; true]) [(1%Q, tmax)]]).
Proof.
  split; [|apply meeting_trajectory].
  intros ec node G0 gs Hnode HG0 Hrep Hins Houts Hne Hasc Hsize.
  apply (social_trajectory_tiles hash_calculator get_component_of_node
           graph_from_edgelist ec node G0 gs); try done.
  pose proof (graph_from_edgelist_closed _ _ _ HG0) as (Hc0 & Hlen0).
  rewrite length_replicate in Hlen0.
  apply components_ok; try done.
  by apply (replay_closed G0 (edge_changes.edges_in ec)
              (edge_changes.edges_out ec) gs).
Qed.

Lemma interval_mode_tiles_witness :
  (exists traj,
     social_trajectory_from_edge_changes binary_value get_component_of_node
       graph_from_edgelist (meeting 0 5) 0 = Ok traj /\
     tiles 0 5 traj) /\
  social_trajectory_from_edge_changes binary_value get_component_of_node
    graph_from_edgelist (meeting 0 5) 0 =
  Ok [social_trajectory_entry.mk 2 3 [(0, 1)%Q];
      social_trajectory_entry.mk 4 15 [(1, 5)%Q]].
Proof.
  destruct (interval_mode_tiles binary_value) as (Htiles & Hmeeting).
  split.
  - apply (Htiles (meeting 0 5) 0 [{[1]}; {[0]}; {[3]}; {[2]}]
             [[{[1]}; {[0; 2]}; {[1; 3]}; {[2]}]]).
    + simpl. lia.
    + reflexivity.
    + reflexivity.
    + reflexivity.
    + reflexivity.
    + discriminate.
    + simpl. split; reflexivity || discriminate.
    + repeat constructor.
  - apply (Hmeeting 0 5)%Q.
    + reflexivity.
    + discriminate.
    + discriminate.
Defined.

(** C3 as stated fails for a stream without events: the two nodes are
    linked from [t0] to [tmax], and no interval is returned.  [time.back()]
    is evaluated on the empty vector; and the loop, which alone closes
    intervals, runs as often as there are events. *)
Lemma interval_mode_no_event_no_interval :
  graph_from_edgelist (replicate 2 ∅) (edge_changes.edges_initial static_pair)
    = Ok [{[1]}; {[0]}] /\
  replay [{[1]}; {[0]}] (edge_changes.edges_in static_pair)
    (edge_changes.edges_out static_pair) = Ok [] /\
  1 < size (get_component_of_node 0 [{[1]}; {[0]}]) /\
  social_trajectory_from_edge_changes binary_value get_component_of_node
    graph_from_edgelist static_pair 0 = Err undefined_behaviour /\
  social_loop binary_value get_component_of_node 2 0 0 1 [] [] []
    [{[1]}; {[0]}] 0 (get_component_of_node 0 [{[1]}; {[0]}]) ∅ [] = Ok [] /\
  ~ tiles 0 1 [] /\
  ~ exists traj,
      social_trajectory_from_edge_changes binary_value get_component_of_node
        graph_from_edgelist static_pair 0 = Ok traj /\
      tiles (edge_changes.t0 static_pair) (edge_changes.tmax static_pair) traj.
Proof.
  split; [reflexivity|]. split; [reflexivity|].
  split; [vm_compute; lia|]. split; [reflexivity|]. split; [reflexivity|].
  split.
  - intros (l & Hl & Hchain). apply Permutation_nil_r in Hl. subst l.
    inversion Hchain.
  - intros (traj & Hrun & _). discriminate Hrun.
Qed.

Lemma binary_value_inj (v1 v2 : list bool) :
  length v1 = length v2 -> binary_value v1 = binary_value v2 -> v1 = v2.
Proof.
  revert v2. induction v1 as [|b1 v1 IH]; intros [|b2 v2]; simpl; try done.
  intros [= Hlen] Hval.
  assert (b1 = b2 /\ binary_value v1 = binary_value v2) as (-> & Hrest).
  { destruct b1, b2; simpl in Hval; split; (done || lia). }
  f_equal. by apply IH.
Qed.

Lemma binary_value_collision_free (N : nat) (cs : list (gset nat)) :
  (forall c, c ∈ cs -> in_range N c) -> collision_free_on binary_value N cs.
Proof.
  intros Hr c1 c2 H1 H2 Hhash. apply (indicator_inj N); [by apply Hr..|].
  apply binary_value_inj; [by rewrite !indicator_length|done].
Qed.

Lemma canonical_labels_witness :
  exists ls m,
    label_sequence binary_value 3 [{[0; 1]}; {[2]}; {[0; 1]}] ∅ = Ok (ls, m) /\
    length ls = 3 /\ ls !! 0 = ls !! 2 /\ ls !! 1 = Some 1.
Proof.
  assert (forall c, c ∈ [({[0; 1]} : gset nat); {[2]}; {[0; 1]}] -> in_range 3 c)
    as Hr.
  { intros c Hc x Hx.
    apply elem_of_cons in Hc as [-> | Hc]; [set_unfold; lia|].
    apply elem_of_cons in Hc as [-> | Hc]; [set_unfold; lia|].
    apply list_elem_of_singleton in Hc as ->. set_unfold. lia. }
  destruct (canonical_labels binary_value 3 [{[0; 1]}; {[2]}; {[0; 1]}] Hr)
    as (ls & m & Hrun & Hlen & Hsame & _ & _ & Hnew).
  exists ls, m. split; [exact Hrun|]. split; [exact Hlen|]. split.
  - apply (Hsame 0 2 {[0; 1]}); reflexivity.
  - destruct (Hnew (binary_value_collision_free 3 _ Hr) 1 {[2]}) as (H & _).
    + reflexivity.
    + simpl. intros Hin. apply list_elem_of_singleton in Hin.
      assert (2 ∈ ({[2]} : gset nat)) as H2 by (by apply elem_of_singleton).
      rewrite Hin in H2. set_unfold. lia.
    + exact H.
Defined.

(** *** Binned mode *)

(** The check raises in three cases, and in no other. *)
Lemma check_bins_throws (front tmax dt : Q) (N_time_steps : nat) :
  throws (check_bins front tmax dt N_time_steps) <->
    ((0 < dt)%Q /\ 0 < N_time_steps) \/
    ((dt == 0)%Q /\ N_time_steps = 0) \/
    ((0 < dt)%Q /\ N_time_steps = 0 /\ ~ (modf (Double.div (Double.sub tmax front) dt) == 0)%Q).
Proof.
  unfold check_bins.
  destruct (Qlt_le_dec 0 dt) as [Hpos | Hneg].
  - rewrite (Qlt_bool_true _ _ Hpos).
    assert (Qeq_bool dt 0 = false) as ->.
    { apply not_true_is_false. rewrite Qeq_bool_iff. intros Heq.
      rewrite Heq in Hpos. by apply Qlt_irrefl in Hpos. }
    destruct N_time_steps as [|n]; simpl.
    + destruct (Qeq_bool (modf (Double.div (Double.sub tmax front) dt)) 0) eqn:Hm; simpl.
      * apply Qeq_bool_iff in Hm. split.
        -- unfold double_to_size_t. case_decide; simpl; done.
        -- intros [(_ & ?) | [(Heq & _) | (_ & _ & Hn)]]; [lia| |done].
           rewrite Heq in Hpos. by apply Qlt_irrefl in Hpos.
      * split; [|done]. intros _. right. right. split; [done|]. split; [done|].
        rewrite <- Qeq_bool_iff. congruence.
    + split; [|done]. intros _. left. split; [done|lia].
  - rewrite (Qlt_bool_false _ _ Hneg). simpl.
    assert (forall P : Prop, ~ ((0 < dt)%Q /\ P)) as Hno.
    { intros P (Hpos & _). by apply Qlt_not_le in Hpos. }
    destruct (Qeq_bool dt 0) eqn:Hz; destruct N_time_steps as [|n]; simpl.
    + split; [|done]. intros _. right. left. by apply Qeq_bool_iff in Hz.
    + split; [done|].
      intros [H | [(_ & ?) | H]]; [by apply Hno in H|done|by apply Hno in H].
    + split; [done|].
      intros [H | [(Heq & _) | H]]; [by apply Hno in H| |by apply Hno in H].
      apply Qeq_bool_iff in Heq. congruence.
    + split; [done|].
      intros [H | [(_ & ?) | H]]; [by apply Hno in H|done|by apply Hno in H].
Qed.

(** C7 fails on the code.  The check of both binned functions raises when
    [dt] and [N_time_steps] are both positive, when both are zero, and
    when a positive [dt] does not divide [tmax - t0] (the quotient of the
    doubles is not a whole number); a negative [dt]
    with [N_time_steps] zero passes it, and the functions return an empty
    trajectory.  The edge-diff variant builds the graph before the check:
    an initial edge outside the graph is met before the configuration is
    looked at. *)
Theorem binned_check_accepts_negative_dt :
  (forall front tmax dt N_time_steps,
     throws (check_bins front tmax dt N_time_steps) <->
       ((0 < dt)%Q /\ 0 < N_time_steps) \/
       ((dt == 0)%Q /\ N_time_steps = 0) \/
       ((0 < dt)%Q /\ N_time_steps = 0 /\
        ~ (modf (Double.div (Double.sub tmax front) dt) == 0)%Q)) /\
  binned_social_trajectory_from_edge_lists binary_value get_component_of_node
    graph_from_edgelist quiet_lists 0 (-1) 0 = Ok [] /\
  binned_social_trajectory_from_edge_changes binary_value get_component_of_node
    graph_from_edgelist quiet_changes 0 (-1) 0 = Ok [] /\
  binned_social_trajectory_from_edge_changes binary_value get_component_of_node
    graph_from_edgelist stray_edge 0 1 1 = Err undefined_behaviour.
Proof.
  split; [apply check_bins_throws|]. split; [reflexivity|].
  split; [reflexivity|]. reflexivity.
Qed.

(** C6 fails on the code.  Nodes 0 and 1 are linked from [t0 = 0] on and
    node 2 joins them at 5/2: with four bins of width 1 the component of
    node 0 is {0, 1}, of label 0, throughout the bins 0 and 1 and until
    5/2 in bin 2, and {0, 1, 2}, of label 1, from then on.  Both binned
    functions return the label 0 for bin 0 and the label 1 for bin 2, and
    nothing for the bins 1 and 3: here a bin gets a label only from an
    event in it. *)
Theorem binned_mode_leaves_spanned_bins_empty :
  get_component_of_node 0 [{[1]}; {[0]}; ∅] = {[0; 1]} /\
  get_component_of_node 0 [{[1]}; {[0; 2]}; {[1]}] = {[0; 1; 2]} /\
  label_sequence binary_value 3 [{[0; 1]}; {[0; 1; 2]}] ∅
    = Ok ([0; 1], {[3%Z := 0; 7%Z := 1]}) /\
  binned_social_trajectory_from_edge_changes binary_value get_component_of_node
    graph_from_edgelist late_meeting 0 0 4 = Ok [{[0]}; ∅; {[1]}; ∅] /\
  binned_social_trajectory_from_edge_lists binary_value get_component_of_node
    graph_from_edgelist late_meeting_lists 0 0 4 = Ok [{[0]}; ∅; {[1]}; ∅].
Proof.
  split; [reflexivity|]. split; [reflexivity|]. split; [reflexivity|].
  split; reflexivity.
Qed.

End Trajectories.

(** ** FW_P_varying_alpha_beta.cpp *)

Module Flockwork.

(** The event loop of the four simulations, between two tests of
    [while (t < t_run_total)]. *)
Record simulation (mt19937_64 : Type) : Type := mk {
  t : Q;
  i_t : nat;
  G : graph;
  generator : mt19937_64;
  time : list Q;
  edges_out : list (list edge);
  edges_in : list (list edge)
}.
Arguments mk {mt19937_64}.
Arguments t {mt19937_64}.
Arguments i_t {mt19937_64}.
Arguments G {mt19937_64}.
Arguments generator {mt19937_64}.
Arguments time {mt19937_64}.
Arguments edges_out {mt19937_64}.
Arguments edges_in {mt19937_64}.

(** [Alpha += *it_alpha] over a rate vector, from [0.0]. *)
Definition sum_rates (rates : list Q) : Q := fold_left Qplus rates 0%Q.

(** The loop that prepares the rates of the two global-rate variants. *)
Fixpoint global_rates (N : nat) (reconnection_rate : list (Q * Q))
    (disconnection_rate : list Q)
  : outcome (list (Q * list Q) * list (Q * Q)) :=
  match reconnection_rate with
  | [] => Ok ([], [])
  | it_alpha :: rest =>
      it_beta ← at_ disconnection_rate 0;
      let alpha := (it_alpha.2 * inject_Z (Z.of_nat N))%Q in
      let beta := (it_beta * inject_Z (Z.of_nat N))%Q in
      let this_vec := [alpha; beta] in
      '(single_rates, total_rate) ← global_rates N rest (tail disconnection_rate);
      Ok ((it_alpha.1, this_vec) :: single_rates,
          (it_alpha.1, (alpha + beta)%Q) :: total_rate)
  end.

(** The loop that prepares the rates of the two per-node variants. *)
Fixpoint node_rates (reconnection_rates : list (Q * list Q))
    (disconnection_rates : list (list Q))
  : outcome (list (Q * list Q) * list (Q * Q)) :=
  match reconnection_rates with
  | [] => Ok ([], [])
  | it_alphas :: rest =>
      it_betas ← at_ disconnection_rates 0;
      let this_t := it_alphas.1 in
      let Alpha := sum_rates it_alphas.2 in
      let Beta := sum_rates it_betas in
      let this_vec := it_alphas.2 ++ it_betas in
      '(single_rates, total_rate) ← node_rates rest (tail disconnection_rates);
      Ok ((this_t, this_vec) :: single_rates,
          (this_t, (Alpha + Beta)%Q) :: total_rate)
  end.

(** The record that every variant returns. *)
Definition result_of {mt19937_64 : Type} (E : list edge) (N : nat)
    (t_run_total : Q) (s : simulation mt19937_64) : edge_changes.record :=
  {| edge_changes.t := time s;
     edge_changes.tmax := t_run_total;
     edge_changes.t0 := 0;
     edge_changes.edges_initial := E;
     edge_changes.edges_out := edges_out s;
     edge_changes.edges_in := edges_in s;
     edge_changes.N := N |}.

(** The times are strictly increasing. *)
Definition increasing (l : list Q) : Prop :=
  forall i j a b, i < j -> l !! i = Some a -> l !! j = Some b -> (a < b)%Q.

(** The times do not decrease. *)
Definition non_decreasing (l : list Q) : Prop :=
  forall i j a b, i < j -> l !! i = Some a -> l !! j = Some b -> (a <= b)%Q.

(** For the examples: an engine that counts its draws; a scheduler that
    waits one unit of time and lets the channels 1 and 2 alternate; and a
    rewiring between the nodes 0 and 1, which links them on reconnection
    (P = 1) and parts them on disconnection, and returns the edges removed
    and the edges added. *)
Definition ticking (rates : list Q) (total_rate : list (Q * Q))
    (single_rates : list (Q * list Q)) (t tmax : Q) (i_t : nat) (generator : nat)
  : outcome (Q * nat * nat * nat) :=
  Ok (1%Q, 1 + generator mod 2, i_t, S generator).

(** For the counterexample to C9: a scheduler that waits one unit of time,
    then [2 ^ -60], then five units. *)
Definition absorbed (rates : list Q) (total_rate : list (Q * Q))
    (single_rates : list (Q * list Q)) (t tmax : Q) (i_t : nat) (generator : nat)
  : outcome (Q * nat * nat * nat) :=
  let tau :=
    match generator with
    | 0 => 1%Q
    | 1 => (1 # 1152921504606846976)%Q
    | _ => 5%Q
    end in
  Ok (tau, 1 + generator mod 2, i_t, S generator).

Definition toggle (G : graph) (P : Q) (generator : nat)
  : outcome (list edge * list edge * graph * nat) :=
  let linked := bool_decide (1 ∈ default ∅ (G !! 0)) in
  if Qeq_bool P 1
  then if linked then Ok ([], [], G, generator)
       else Ok ([], [(0, 1)], [{[1]}; {[0]}], generator)
  else if linked then Ok ([(0, 1)], [], [∅; ∅], generator)
       else Ok ([], [], G, generator).

Definition toggle_node (node : nat) (G : graph) (P : Q) (generator : nat)
  : outcome (list edge * list edge * graph * nat) :=
  toggle G P generator.

Definition toggle_affinity (node : nat) (G : graph) (P : Q)
    (neighbor_affinity : list (list nat * list Q)) (generator : nat)
  : outcome (list edge * list edge * graph * nat) :=
  toggle G P generator.

Definition first_node (N : nat) (generator : nat) : nat * nat := (0, generator).

(** Two linked nodes at time 0, before the first draw. *)
Definition linked_start : simulation nat :=
  {| t := 0; i_t := 0; G := [{[1]}; {[0]}]; generator := 0;
     time := []; edges_out := []; edges_in := [] |}.

Section Simulation.

(** The random engine, and what the sources at hand call without defining
    it: the seeding, the scheduler of Events, the rewiring functions of
    Flockwork and [graph_from_edgelist] of Utilities.  Each takes the state
    it reads and returns the state it leaves: the waiting time, the
    channel, the cursor and the engine for the scheduler; the edges
    removed, the edges added, the graph and the engine for a rewiring.
    [random_node N] is the draw of [uniform_int_distribution(0, N - 1)]. *)
Variable mt19937_64 : Type.
Variable seed_engine : nat -> mt19937_64.
Variable get_gillespie_tau_and_event_with_varying_gamma_for_each_node :
  list Q -> list (Q * Q) -> list (Q * list Q) -> Q -> Q -> nat -> mt19937_64 ->
  outcome (Q * nat * nat * mt19937_64).
Variable rewire_P_without_SI_checking :
  graph -> Q -> mt19937_64 ->
  outcome (list edge * list edge * graph * mt19937_64).
Variable rewire_P_without_SI_checking_single_node :
  nat -> graph -> Q -> mt19937_64 ->
  outcome (list edge * list edge * graph * mt19937_64).
Variable rewire_P_without_SI_checking_single_node_neighbor_affinity :
  nat -> graph -> Q -> list (list nat * list Q) -> mt19937_64 ->
  outcome (list edge * list edge * graph * mt19937_64).
Variable random_node : nat -> mt19937_64 -> nat * mt19937_64.
Variable graph_from_edgelist : graph -> list edge -> outcome graph.

(** What a variant does with the channel that the scheduler chose. *)
Definition handler : Type :=
  nat -> graph -> mt19937_64 ->
  outcome (list edge * list edge * graph * mt19937_64).

Definition other_event : error :=
  length_error
    "There was an event chosen other than rewiring, this should not happen.".

(** Global rates: channel 1 reconnects, channel 2 disconnects. *)
Definition rewire_global : handler := fun event G generator =>
  if (event =? 1) || (event =? 2)
  then
    let P := if event =? 1 then 1%Q else 0%Q in
    rewire_P_without_SI_checking G P generator
  else Err other_event.

(** Per-node rates: [2N] channels, [channel > 0 and channel < 2*N+1]. *)
Definition rewire_for_each_node (N : nat) : handler := fun channel G generator =>
  if (0 <? channel) &&
     (Z.of_nat channel <? (2 * Z.of_nat N + 1) mod size_t_modulus)%Z
  then
    let node := (channel - 1) mod N in
    let event := (channel - 1) / N in
    let P := if event =? 0 then 1%Q else 0%Q in
    rewire_P_without_SI_checking_single_node node G P generator
  else Err other_event.

(** Global rates with neighbor affinity: the node is drawn first. *)
Definition rewire_global_affinity (N : nat)
    (neighbor_affinity : list (list nat * list Q)) : handler :=
  fun event G generator =>
  if (event =? 1) || (event =? 2)
  then
    let P := if event =? 1 then 1%Q else 0%Q in
    let '(node, generator') := random_node N generator in
    rewire_P_without_SI_checking_single_node_neighbor_affinity
      node G P neighbor_affinity generator'
  else Err other_event.

(** Per-node rates with neighbor affinity. *)
Definition rewire_for_each_node_affinity (N : nat)
    (neighbor_affinity : list (list nat * list Q)) : handler :=
  fun channel G generator =>
  if (0 <? channel) &&
     (Z.of_nat channel <? (2 * Z.of_nat N + 1) mod size_t_modulus)%Z
  then
    let node := (channel - 1) mod N in
    let event := (channel - 1) / N in
    let P := if event =? 0 then 1%Q else 0%Q in
    rewire_P_without_SI_checking_single_node_neighbor_affinity
      node G P neighbor_affinity generator
  else Err other_event.

(** The body of [while (t < t_run_total)]. *)
Definition step (apply_event : handler)
    (total_rate : list (Q * Q)) (single_rates : list (Q * list Q))
    (t_run_total tmax : Q) (s : simulation mt19937_64)
  : outcome (simulation mt19937_64) :=
  let rates := [0%Q] in
  '(tau, event, i_t', generator') ←
     get_gillespie_tau_and_event_with_varying_gamma_for_each_node
       rates total_rate single_rates (t s) tmax (i_t s) (generator s);
  let t' := Double.add (t s) tau in
  if Qlt_bool t' t_run_total
  then
    '(curr_first, curr_second, G', generator'') ←
       apply_event event (G s) generator';
    if (0 <? length curr_first) || (0 <? length curr_second)
    then Ok {| t := t'; i_t := i_t'; G := G'; generator := generator'';
               time := time s ++ [t'];
               edges_out := edges_out s ++ [curr_first];
               edges_in := edges_in s ++ [curr_second] |}
    else Ok {| t := t'; i_t := i_t'; G := G'; generator := generator'';
               time := time s;
               edges_out := edges_out s;
               edges_in := edges_in s |}
  else Ok {| t := t'; i_t := i_t'; G := G s; generator := generator';
             time := time s;
             edges_out := edges_out s;
             edges_in := edges_in s |}.

(** The loop, for at most [fuel] iterations: [None] when it has not ended
    by then. *)
Fixpoint simulate (fuel : nat) (apply_event : handler)
    (total_rate : list (Q * Q)) (single_rates : list (Q * list Q))
    (t_run_total tmax : Q) (s : simulation mt19937_64)
  : option (outcome (simulation mt19937_64)) :=
  if Qlt_bool (t s) t_run_total
  then
    match fuel with
    | 0 => None
    | S fuel' =>
        match step apply_event total_rate single_rates t_run_total tmax s with
        | Ok s' =>
            simulate fuel' apply_event total_rate single_rates t_run_total tmax s'
        | Err e => Some (Err e)
        end
    end
  else Some (Ok s).

(** What the four functions share: the graph, the prepared rates, the
    loop from the first breakpoint on, and the record. *)
Definition run (fuel : nat) (apply_event : handler) (E : list edge) (N : nat)
    (prepared : outcome (list (Q * list Q) * list (Q * Q)))
    (first_breakpoint : outcome Q) (t_run_total tmax : Q) (seed : nat)
  : option (outcome edge_changes.record) :=
  let generator := seed_engine seed in
  match graph_from_edgelist (replicate N ∅) E with
  | Err e => Some (Err e)
  | Ok G =>
      match prepared with
      | Err e => Some (Err e)
      | Ok (single_rates, total_rate) =>
          match first_breakpoint with
          | Err e => Some (Err e)
          | Ok t =>
              match simulate fuel apply_event total_rate single_rates
                      t_run_total tmax
                      {| t := t; i_t := 0; G := G; generator := generator;
                         time := []; edges_out := []; edges_in := [] |} with
              | None => None
              | Some (Err e) => Some (Err e)
              | Some (Ok s) => Some (Ok (result_of E N t_run_total s))
              end
          end
      end
  end.

(** [reconnection_rate[0].first]. *)
Definition first_time {A : Type} (rate : list (Q * A)) : outcome Q :=
  r ← at_ rate 0; Ok r.1.

(** [assert(reconnection_rate.size() == disconnection_rate.size())]. *)
Definition assert_same_size {A B C : Type} (a : list A) (b : list B)
    (k : option (outcome C)) : option (outcome C) :=
  if length a =? length b then k else Some (Err assertion_failure).

Definition flockwork_alpha_beta_varying_rates
    (E : list edge) (N : nat)
    (reconnection_rate : list (Q * Q)) (disconnection_rate : list Q)
    (t_run_total tmax : Q) (use_random_rewiring : bool) (seed : nat)
    (fuel : nat) : option (outcome edge_changes.record) :=
  assert_same_size reconnection_rate disconnection_rate
    (run fuel rewire_global E N
       (global_rates N reconnection_rate disconnection_rate)
       (first_time reconnection_rate) t_run_total tmax seed).

Definition flockwork_alpha_beta_varying_rates_for_each_node
    (E : list edge) (N : nat)
    (reconnection_rates : list (Q * list Q)) (disconnection_rates : list (list Q))
    (t_run_total tmax : Q) (use_random_rewiring : bool) (seed : nat)
    (fuel : nat) : option (outcome edge_changes.record) :=
  assert_same_size reconnection_rates disconnection_rates
    (run fuel (rewire_for_each_node N) E N
       (node_rates reconnection_rates disconnection_rates)
       (first_time reconnection_rates) t_run_total tmax seed).

Definition flockwork_alpha_beta_varying_rates_with_neighbor_affinity
    (E : list edge) (N : nat)
    (reconnection_rate : list (Q * Q)) (disconnection_rate : list Q)
    (neighbor_affinity : list (list nat * list Q))
    (t_run_total tmax : Q) (use_random_rewiring : bool) (seed : nat)
    (fuel : nat) : option (outcome edge_changes.record) :=
  assert_same_size reconnection_rate disconnection_rate
    (run fuel (rewire_global_affinity N neighbor_affinity) E N
       (global_rates N reconnection_rate disconnection_rate)
       (first_time reconnection_rate) t_run_total tmax seed).

Definition flockwork_alpha_beta_varying_rates_for_each_node_with_neighbor_affinity
    (E : list edge) (N : nat)
    (reconnection_rates : list (Q * list Q)) (disconnection_rates : list (list Q))
    (neighbor_affinity : list (list nat * list Q))
    (t_run_total tmax : Q) (use_random_rewiring : bool) (seed : nat)
    (fuel : nat) : option (outcome edge_changes.record) :=
  assert_same_size reconnection_rates disconnection_rates
    (run fuel (rewire_for_each_node_affinity N neighbor_affinity) E N
       (node_rates reconnection_rates disconnection_rates)
       (first_time reconnection_rates) t_run_total tmax seed).

(** Modelled from the spec: the scheduler of Events, which is not part of
    the sources at hand, draws the hazard [h = -ln(u)] for a uniform [u]
    and returns the time that the piecewise constant total rate takes to
    accumulate it: each waiting time is positive. *)
Definition waits_positive : Prop :=
  forall rates total_rate single_rates t tmax i_t generator tau event i_t' generator',
    get_gillespie_tau_and_event_with_varying_gamma_for_each_node
      rates total_rate single_rates t tmax i_t generator
      = Ok (tau, event, i_t', generator') ->
    (0 < tau)%Q.

(** Each draw for the rates [total_rate] and [single_rates] of a run, at a
    clock from [t_first] on and before [t_run_total], moves the clock by
    [delta] at least: [t = t + tau] is a sum of doubles, so that a waiting
    time has to be large enough for the clock at hand. *)
Definition clock_moves (total_rate : list (Q * Q)) (single_rates : list (Q * list Q))
    (t_first t_run_total tmax delta : Q) : Prop :=
  forall t i_t generator tau event i_t' generator',
    (t_first <= t)%Q -> (t < t_run_total)%Q ->
    get_gillespie_tau_and_event_with_varying_gamma_for_each_node
      [0%Q] total_rate single_rates t tmax i_t generator
      = Ok (tau, event, i_t', generator') ->
    (t + delta <= Double.add t tau)%Q.

(** The states of the loop from a state on: the state itself, and those of
    the loop from the state that a pass through the body leaves. *)
Inductive visits (apply_event : handler)
    (total_rate : list (Q * Q)) (single_rates : list (Q * list Q))
    (t_run_total tmax : Q)
  : simulation mt19937_64 -> simulation mt19937_64 -> Prop :=
| visits_here s :
    visits apply_event total_rate single_rates t_run_total tmax s s
| visits_next s s1 s2 :
    (t s < t_run_total)%Q ->
    step apply_event total_rate single_rates t_run_total tmax s = Ok s1 ->
    visits apply_event total_rate single_rates t_run_total tmax s1 s2 ->
    visits apply_event total_rate single_rates t_run_total tmax s s2.

(** Each draw of the loop from [s0] on moves the clock by [delta] at
    least. *)
Definition clock_moves_from (apply_event : handler)
    (total_rate : list (Q * Q)) (single_rates : list (Q * list Q))
    (t_run_total tmax delta : Q) (s0 : simulation mt19937_64) : Prop :=
  forall s tau event i_t' generator',
    visits apply_event total_rate single_rates t_run_total tmax s0 s ->
    (t s < t_run_total)%Q ->
    get_gillespie_tau_and_event_with_varying_gamma_for_each_node
      [0%Q] total_rate single_rates (t s) tmax (i_t s) (generator s)
      = Ok (tau, event, i_t', generator') ->
    (t s + delta <= Double.add (t s) tau)%Q.

(** Each draw of a run moves the clock by [delta] at least: no waiting
    time of the run is absorbed by the double sum [t + tau]. *)
Definition run_moves (apply_event : handler) (E : list edge) (N : nat)
    (prepared : outcome (list (Q * list Q) * list (Q * Q)))
    (first_breakpoint : outcome Q) (t_run_total tmax : Q) (seed : nat)
    (delta : Q) : Prop :=
  forall G0 single_rates total_rate t_first,
    graph_from_edgelist (replicate N ∅) E = Ok G0 ->
    prepared = Ok (single_rates, total_rate) ->
    first_breakpoint = Ok t_first ->
    clock_moves_from apply_event total_rate single_rates t_run_total tmax delta
      {| t := t_first; i_t := 0; G := G0; generator := seed_engine seed;
         time := []; edges_out := []; edges_in := [] |}.

(** A function returns or raises, and the times of a record that it
    returns increase. *)
Definition ends_increasing
    (variant : nat -> option (outcome edge_changes.record)) : Prop :=
  (exists fuel res, variant fuel = Some res) /\
  forall fuel r, variant fuel = Some (Ok r) -> increasing (edge_changes.t r).

(** The clock is not before [lo]; the recorded times increase, each is
    after [lo], not after the clock and before [t_run_total]. *)
Definition ascending_inv (lo t_run_total : Q) (s : simulation mt19937_64) : Prop :=
  (lo <= t s)%Q /\ increasing (time s) /\
  Forall (fun x => (lo < x)%Q /\ (x <= t s)%Q /\ (x < t_run_total)%Q) (time s).

(** The record that a simulation of [N] nodes from the edges [E] until
    [t_run_total] returns: the fields of the run, and times that do not
    decrease and stay before [t_run_total]. *)
Definition record_ok (E : list edge) (N : nat) (t_run_total : Q)
    (r : edge_changes.record) : Prop :=
  edge_changes.t0 r = 0%Q /\
  edge_changes.tmax r = t_run_total /\
  edge_changes.N r = N /\
  edge_changes.edges_initial r = E /\
  non_decreasing (edge_changes.t r) /\
  Forall (fun x => (x < t_run_total)%Q) (edge_changes.t r) /\
  forall x, last (edge_changes.t r) = Some x -> (x <= edge_changes.tmax r)%Q.

(** What the loop keeps: the recorded times do not decrease, none is later
    than the clock, each is before [t_run_total]; and the clock is a
    double once an event is recorded. *)
Definition loop_inv (t_run_total : Q) (s : simulation mt19937_64) : Prop :=
  non_decreasing (time s) /\
  Forall (fun x => (x <= t s)%Q /\ (x < t_run_total)%Q) (time s) /\
  (time s = [] \/ (Double.round (t s) == t s)%Q).

(** The entries that the loop has recorded in [s'] after those of [s]. *)
Definition recorded_after (s s' : simulation mt19937_64)
    (later : list (Q * list edge * list edge)) : Prop :=
  time s' = time s ++ later.*1.*1 /\
  edges_out s' = edges_out s ++ later.*1.*2 /\
  edges_in s' = edges_in s ++ later.*2.

(** *** The rates *)

Lemma global_rates_spec (N : nat) (reconnection_rate : list (Q * Q))
    (disconnection_rate : list Q) :
  length reconnection_rate = length disconnection_rate ->
  global_rates N reconnection_rate disconnection_rate =
    Ok (zip_with (fun a b =>
                    (a.1, [(a.2 * inject_Z (Z.of_nat N))%Q;
                           (b * inject_Z (Z.of_nat N))%Q]))
          reconnection_rate disconnection_rate,
        zip_with (fun a b =>
                    (a.1, (a.2 * inject_Z (Z.of_nat N)
                           + b * inject_Z (Z.of_nat N))%Q))
          reconnection_rate disconnection_rate).
Proof.
  revert disconnection_rate.
  induction reconnection_rate as [|a rest IH]; intros [|b dr]; simpl; try done.
  intros [= Hlen]. rewrite (IH dr Hlen). reflexivity.
Qed.

Lemma node_rates_spec (reconnection_rates : list (Q * list Q))
    (disconnection_rates : list (list Q)) :
  length reconnection_rates = length disconnection_rates ->
  node_rates reconnection_rates disconnection_rates =
    Ok (zip_with (fun a b => (a.1, a.2 ++ b))
          reconnection_rates disconnection_rates,
        zip_with (fun a b => (a.1, (sum_rates a.2 + sum_rates b)%Q))
          reconnection_rates disconnection_rates).
Proof.
  revert disconnection_rates.
  induction reconnection_rates as [|a rest IH]; intros [|b dr]; simpl; try done.
  intros [= Hlen]. rewrite (IH dr Hlen). reflexivity.
Qed.

(** *** One event *)

Lemma step_applied (apply_event : handler) total_rate single_rates
    t_run_total tmax (s : simulation mt19937_64)
    tau event i_t' generator' curr_first curr_second G' generator'' :
  get_gillespie_tau_and_event_with_varying_gamma_for_each_node
    [0%Q] total_rate single_rates (t s) tmax (i_t s) (generator s)
    = Ok (tau, event, i_t', generator') ->
  (Double.add (t s) tau < t_run_total)%Q ->
  apply_event event (G s) generator'
    = Ok (curr_first, curr_second, G', generator'') ->
  exists s',
    step apply_event total_rate single_rates t_run_total tmax s = Ok s' /\
    t s' = Double.add (t s) tau /\ i_t s' = i_t' /\
    G s' = G' /\ generator s' = generator'' /\
    (curr_first = [] /\ curr_second = [] -> recorded_after s s' []) /\
    (~ (curr_first = [] /\ curr_second = []) ->
       recorded_after s s' [(Double.add (t s) tau, curr_first, curr_second)]).
Proof.
  intros Hdraw Hlt Happly. unfold step. rewrite Hdraw. simpl.
  rewrite (Qlt_bool_true _ _ Hlt), Happly. simpl. unfold recorded_after.
  destruct curr_first as [|e1 r1]; destruct curr_second as [|e2 r2]; simpl;
    eexists; (split; [reflexivity|]); simpl;
    repeat (split; [reflexivity|]); split; intros H;
    rewrite ?app_nil_r; try done; try (by destruct H); exfalso; by apply H.
Qed.

(** An iteration appends one entry to each array, or none. *)
Lemma step_extends (apply_event : handler) total_rate single_rates
    t_run_total tmax (s s' : simulation mt19937_64) :
  step apply_event total_rate single_rates t_run_total tmax s = Ok s' ->
  exists later, recorded_after s s' later.
Proof.
  unfold step, recorded_after.
  destruct (get_gillespie_tau_and_event_with_varying_gamma_for_each_node _ _ _ _ _ _ _)
    as [[[[tau event] i_t'] generator']|]; [|done].
  simpl. destruct (Qlt_bool _ t_run_total).
  - destruct (apply_event event (G s) generator')
      as [[[[curr_first curr_second] G'] generator'']|]; [|done].
    simpl.
    destruct ((0 <? length curr_first) || (0 <? length curr_second));
      intros [= <-]; simpl.
    + by exists [(Double.add (t s) tau, curr_first, curr_second)].
    + exists []. simpl. by rewrite !app_nil_r.
  - intros [= <-]. exists []. simpl. by rewrite !app_nil_r.
Qed.

Lemma simulate_extends (apply_event : handler) total_rate single_rates
    t_run_total tmax (fuel : nat) :
  forall s s_end : simulation mt19937_64,
    simulate fuel apply_event total_rate single_rates t_run_total tmax s
      = Some (Ok s_end) ->
    exists later, recorded_after s s_end later.
Proof.
  assert (forall s : simulation mt19937_64, recorded_after s s []) as Hrefl.
  { intros s. unfold recorded_after. simpl. by rewrite !app_nil_r. }
  induction fuel as [|fuel IH]; intros s s_end Hsim; simpl in Hsim.
  - destruct (Qlt_bool (t s) t_run_total); [done|].
    injection Hsim as <-. by exists [].
  - destruct (Qlt_bool (t s) t_run_total); [|injection Hsim as <-; by exists []].
    destruct (step apply_event total_rate single_rates t_run_total tmax s)
      as [s1|] eqn:Hstep; [|done].
    apply step_extends in Hstep as (l1 & H1 & H2 & H3).
    apply IH in Hsim as (l2 & H4 & H5 & H6).
    exists (l1 ++ l2). unfold recorded_after.
    rewrite !fmap_app, !app_assoc, <- H1, <- H2, <- H3. done.
Qed.

(** *** The record *)

Lemma non_decreasing_snoc (l : list Q) (x : Q) :
  non_decreasing l -> Forall (fun y => (y <= x)%Q) l -> non_decreasing (l ++ [x]).
Proof.
  intros Hinc Hall i j a b Hij Hi Hj.
  apply lookup_app_Some in Hj as [Hj | (Hge & Hj)].
  - assert (i < length l) as Hil.
    { apply lookup_lt_Some in Hj. lia. }
    rewrite lookup_app_l in Hi by done. by apply (Hinc i j).
  - apply list_lookup_singleton_Some in Hj as (Hj & <-).
    rewrite lookup_app_l in Hi by lia.
    apply (proj1 (Forall_forall _ _) Hall). by eapply list_elem_of_lookup_2.
Qed.

Lemma step_inv (apply_event : handler) total_rate single_rates
    t_run_total tmax (s s' : simulation mt19937_64) :
  waits_positive ->
  step apply_event total_rate single_rates t_run_total tmax s = Ok s' ->
  loop_inv t_run_total s -> loop_inv t_run_total s'.
Proof.
  intros Hwait Hstep (Hinc & Hall & Hdouble). unfold step in Hstep.
  destruct (get_gillespie_tau_and_event_with_varying_gamma_for_each_node _ _ _ _ _ _ _)
    as [[[[tau event] i_t'] generator']|] eqn:Hdraw; [|done].
  apply Hwait in Hdraw. simpl in Hstep.
  assert (Forall (fun x => (x <= Double.add (t s) tau)%Q /\ (x < t_run_total)%Q)
            (time s)) as Hall'.
  { destruct Hdouble as [Hnil | Hdouble]; [rewrite Hnil; constructor|].
    eapply Forall_impl; [exact Hall|]. intros x (? & ?). split; [|done].
    eapply Qle_trans; [eassumption|]. apply Double.add_ge; [done|lra]. }
  assert (Double.round (Double.add (t s) tau) == Double.add (t s) tau)%Q as Hd'
    by apply Double.round_idem.
  destruct (Qlt_bool (Double.add (t s) tau) t_run_total) eqn:Hlt.
  - destruct (apply_event event (G s) generator')
      as [[[[curr_first curr_second] G'] generator'']|]; [|done].
    simpl in Hstep.
    destruct ((0 <? length curr_first) || (0 <? length curr_second));
      injection Hstep as <-; (split; [|split]); simpl; auto.
    + apply non_decreasing_snoc; [done|].
      eapply Forall_impl; [exact Hall'|]. by intros x (? & ?).
    + apply Forall_app. split; [done|]. constructor; [|constructor].
      split; [lra|]. unfold Qlt_bool in Hlt. apply negb_true_iff in Hlt.
      apply Qnot_le_lt. rewrite <- Qle_bool_iff. congruence.
  - injection Hstep as <-. (split; [|split]); simpl; auto.
Qed.

Lemma simulate_inv (apply_event : handler) total_rate single_rates
    t_run_total tmax (fuel : nat) :
  waits_positive ->
  forall s s' : simulation mt19937_64,
    simulate fuel apply_event total_rate single_rates t_run_total tmax s
      = Some (Ok s') ->
    loop_inv t_run_total s -> loop_inv t_run_total s'.
Proof.
  intros Hwait. induction fuel as [|fuel IH]; intros s s' Hsim Hinv; simpl in Hsim.
  - destruct (Qlt_bool (t s) t_run_total); [done|]. by injection Hsim as <-.
  - destruct (Qlt_bool (t s) t_run_total); [|by injection Hsim as <-].
    destruct (step apply_event total_rate single_rates t_run_total tmax s)
      as [s1|] eqn:Hstep; [|done].
    apply (IH s1 s' Hsim).
    by apply (step_inv apply_event total_rate single_rates t_run_total tmax s s1).
Qed.

Lemma run_record_ok (apply_event : handler) (E : list edge) (N : nat)
    prepared first_breakpoint t_run_total tmax seed fuel r :
  waits_positive ->
  run fuel apply_event E N prepared first_breakpoint t_run_total tmax seed
    = Some (Ok r) ->
  record_ok E N t_run_total r.
Proof.
  intros Hwait. unfold run.
  destruct (graph_from_edgelist (replicate N ∅) E) as [G0|]; [|done].
  destruct prepared as [[single_rates total_rate]|]; [|done].
  destruct first_breakpoint as [t_first|]; [|done].
  destruct (simulate fuel apply_event total_rate single_rates t_run_total tmax _)
    as [[s'|]|] eqn:Hsim; [|done..].
  intros [= <-].
  apply simulate_inv in Hsim as (Hinc & Hall & _); [|done|].
  2: { split; [by intros i j a b _ ?|]. split; [constructor|by left]. }
  assert (Forall (fun x => (x < t_run_total)%Q) (time s')) as Hbefore.
  { eapply Forall_impl; [exact Hall|]. by intros x (_ & ?). }
  repeat (split; [done|]). simpl.
  intros x Hx. apply last_Some_elem_of in Hx.
  apply Qlt_le_weak. by apply (proj1 (Forall_forall _ _) Hbefore).
Qed.

(** *** The loop ends *)

Lemma step_advances (apply_event : handler) total_rate single_rates
    t_run_total tmax (delta : Q) (s s' : simulation mt19937_64) :
  clock_moves_from apply_event total_rate single_rates t_run_total tmax delta s ->
  (t s < t_run_total)%Q ->
  step apply_event total_rate single_rates t_run_total tmax s = Ok s' ->
  (t s + delta <= t s')%Q.
Proof.
  intros Hmoves Hlt Hstep. unfold step in Hstep.
  destruct (get_gillespie_tau_and_event_with_varying_gamma_for_each_node _ _ _ _ _ _ _)
    as [[[[tau event] i_t'] generator']|] eqn:Hdraw; [|done].
  apply Hmoves in Hdraw; [|apply visits_here|done]. simpl in Hstep.
  destruct (Qlt_bool (Double.add (t s) tau) t_run_total).
  - destruct (apply_event event (G s) generator')
      as [[[[curr_first curr_second] G'] generator'']|]; [|done].
    simpl in Hstep.
    destruct ((0 <? length curr_first) || (0 <? length curr_second));
      by injection Hstep as <-.
  - by injection Hstep as <-.
Qed.

Lemma clock_moves_from_next (apply_event : handler) total_rate single_rates
    t_run_total tmax (delta : Q) (s s' : simulation mt19937_64) :
  clock_moves_from apply_event total_rate single_rates t_run_total tmax delta s ->
  (t s < t_run_total)%Q ->
  step apply_event total_rate single_rates t_run_total tmax s = Ok s' ->
  clock_moves_from apply_event total_rate single_rates t_run_total tmax delta s'.
Proof.
  intros Hmoves Hlt Hstep s2 tau event i_t' generator' Hvisits.
  apply Hmoves. by eapply visits_next.
Qed.

Lemma Qlt_bool_true_lt (x y : Q) : Qlt_bool x y = true -> (x < y)%Q.
Proof.
  unfold Qlt_bool. intros H. apply negb_true_iff in H.
  apply Qnot_le_lt. rewrite <- Qle_bool_iff. congruence.
Qed.

Lemma simulate_ends_within (apply_event : handler) total_rate single_rates
    t_run_total tmax (delta : Q) :
  (0 < delta)%Q ->
  forall (k : nat) (s : simulation mt19937_64),
    clock_moves_from apply_event total_rate single_rates t_run_total tmax delta s ->
    (t_run_total - t s <= inject_Z (Z.of_nat k) * delta)%Q ->
    exists res,
      simulate k apply_event total_rate single_rates t_run_total tmax s
        = Some res.
Proof.
  intros Hdelta. induction k as [|k IH]; intros s Hmoves Hk; simpl.
  - destruct (Qlt_bool (t s) t_run_total) eqn:Hlt; [|by eexists].
    exfalso. apply Qlt_bool_true_lt in Hlt.
    change (inject_Z (Z.of_nat 0)) with 0%Q in Hk. lra.
  - destruct (Qlt_bool (t s) t_run_total) eqn:Hlt; [|by eexists].
    apply Qlt_bool_true_lt in Hlt.
    destruct (step apply_event total_rate single_rates t_run_total tmax s)
      as [s1|] eqn:Hstep; [|by eexists].
    pose proof (step_advances _ _ _ _ _ _ _ _ Hmoves Hlt Hstep) as Hup.
    apply IH; [by eapply clock_moves_from_next|].
    rewrite Nat2Z.inj_succ in Hk. unfold Z.succ in Hk.
    rewrite inject_Z_plus in Hk. change (inject_Z 1) with 1%Q in Hk.
    revert Hk. generalize (inject_Z (Z.of_nat k)). intros K HK. lra.
Qed.

Lemma simulate_ends (apply_event : handler) total_rate single_rates
    t_run_total tmax (delta : Q) (s : simulation mt19937_64) :
  (0 < delta)%Q ->
  clock_moves_from apply_event total_rate single_rates t_run_total tmax delta s ->
  exists fuel res,
    simulate fuel apply_event total_rate single_rates t_run_total tmax s
      = Some res.
Proof.
  intros Hdelta Hmoves.
  exists (Z.to_nat (Qceiling ((t_run_total - t s) / delta))).
  apply (simulate_ends_within _ _ _ _ _ delta); [done..|].
  assert (t_run_total - t s == delta * ((t_run_total - t s) / delta))%Q as Heq.
  { symmetry. apply Qmult_div_r. intros H0. rewrite H0 in Hdelta.
    by apply Qlt_irrefl in Hdelta. }
  rewrite Heq at 1. rewrite (Qmult_comm _ delta).
  apply Qmult_le_l; [done|].
  eapply Qle_trans; [apply Qle_ceiling|].
  rewrite <- Zle_Qle. lia.
Qed.

Lemma run_ends (apply_event : handler) (E : list edge) (N : nat)
    prepared first_breakpoint t_run_total tmax seed (delta : Q) :
  (0 < delta)%Q ->
  run_moves apply_event E N prepared first_breakpoint t_run_total tmax seed
    delta ->
  exists fuel res,
    run fuel apply_event E N prepared first_breakpoint t_run_total tmax seed
      = Some res.
Proof.
  intros Hdelta Hmoves. unfold run. unfold run_moves in Hmoves.
  destruct (graph_from_edgelist (replicate N ∅) E) as [G0|]; [|by exists 0; eexists].
  destruct prepared as [[single_rates total_rate]|]; [|by exists 0; eexists].
  destruct first_breakpoint as [t_first|]; [|by exists 0; eexists].
  destruct (simulate_ends apply_event total_rate single_rates t_run_total tmax
              delta
              {| t := t_first; i_t := 0; G := G0; generator := seed_engine seed;
                 time := []; edges_out := []; edges_in := [] |} Hdelta)
    as (fuel & res & Hsim); [by apply Hmoves|].
  exists fuel. rewrite Hsim. destruct res; by eexists.
Qed.

(** *** The recorded times increase while the clock moves *)

Lemma increasing_snoc (l : list Q) (x : Q) :
  increasing l -> Forall (fun y => (y < x)%Q) l -> increasing (l ++ [x]).
Proof.
  intros Hinc Hall i j a b Hij Hi Hj.
  apply lookup_app_Some in Hj as [Hj | (Hge & Hj)].
  - assert (i < length l) as Hil.
    { apply lookup_lt_Some in Hj. lia. }
    rewrite lookup_app_l in Hi by done. by apply (Hinc i j).
  - apply list_lookup_singleton_Some in Hj as (Hj & <-).
    rewrite lookup_app_l in Hi by lia.
    apply (proj1 (Forall_forall _ _) Hall). by eapply list_elem_of_lookup_2.
Qed.

Lemma step_ascending (apply_event : handler) total_rate single_rates
    t_run_total tmax (lo delta : Q) (s s' : simulation mt19937_64) :
  (0 < delta)%Q ->
  clock_moves_from apply_event total_rate single_rates t_run_total tmax delta s ->
  (t s < t_run_total)%Q ->
  step apply_event total_rate single_rates t_run_total tmax s = Ok s' ->
  ascending_inv lo t_run_total s -> ascending_inv lo t_run_total s'.
Proof.
  intros Hdelta Hmoves Hnow Hstep (Hlo & Hinc & Hall). unfold step in Hstep.
  destruct (get_gillespie_tau_and_event_with_varying_gamma_for_each_node _ _ _ _ _ _ _)
    as [[[[tau event] i_t'] generator']|] eqn:Hdraw; [|done].
  apply Hmoves in Hdraw; [|apply visits_here|done]. simpl in Hstep.
  assert (Forall (fun x => (lo < x)%Q /\ (x <= Double.add (t s) tau)%Q /\
                           (x < t_run_total)%Q) (time s)) as Hall'.
  { eapply Forall_impl; [exact Hall|]. intros x (? & ? & ?).
    split; [done|]. split; [lra|done]. }
  destruct (Qlt_bool (Double.add (t s) tau) t_run_total) eqn:Hlt.
  - destruct (apply_event event (G s) generator')
      as [[[[curr_first curr_second] G'] generator'']|]; [|done].
    simpl in Hstep.
    destruct ((0 <? length curr_first) || (0 <? length curr_second));
      injection Hstep as <-; (split; [|split]); simpl; try done; try lra.
    + apply increasing_snoc; [done|].
      eapply Forall_impl; [exact Hall|]. intros x (? & ? & ?). simpl. lra.
    + apply Forall_app. split; [done|]. constructor; [|constructor].
      split; [lra|]. split; [lra|]. by apply Qlt_bool_true_lt.
  - injection Hstep as <-. (split; [|split]); simpl; try done. lra.
Qed.

Lemma simulate_ascending (apply_event : handler) total_rate single_rates
    t_run_total tmax (lo delta : Q) (fuel : nat) :
  (0 < delta)%Q ->
  forall s s' : simulation mt19937_64,
    clock_moves_from apply_event total_rate single_rates t_run_total tmax delta s ->
    simulate fuel apply_event total_rate single_rates t_run_total tmax s
      = Some (Ok s') ->
    ascending_inv lo t_run_total s -> ascending_inv lo t_run_total s'.
Proof.
  intros Hdelta.
  induction fuel as [|fuel IH]; intros s s' Hmoves Hsim Hinv; simpl in Hsim.
  - destruct (Qlt_bool (t s) t_run_total); [done|]. by injection Hsim as <-.
  - destruct (Qlt_bool (t s) t_run_total) eqn:Hlt; [|by injection Hsim as <-].
    apply Qlt_bool_true_lt in Hlt.
    destruct (step apply_event total_rate single_rates t_run_total tmax s)
      as [s1|] eqn:Hstep; [|done].
    apply (IH s1 s'); [by eapply clock_moves_from_next|done|].
    by eapply step_ascending.
Qed.

Lemma run_ascending (apply_event : handler) (E : list edge) (N : nat)
    prepared first_breakpoint t_run_total tmax seed fuel r (delta : Q) :
  (0 < delta)%Q ->
  run_moves apply_event E N prepared first_breakpoint t_run_total tmax seed
    delta ->
  run fuel apply_event E N prepared first_breakpoint t_run_total tmax seed
    = Some (Ok r) ->
  edge_changes.t0 r = 0%Q /\ edge_changes.tmax r = t_run_total /\
  increasing (edge_changes.t r) /\
  exists t_first, first_breakpoint = Ok t_first /\
    Forall (fun x => (t_first < x)%Q /\ (x < t_run_total)%Q) (edge_changes.t r).
Proof.
  intros Hdelta Hmoves. unfold run. unfold run_moves in Hmoves.
  destruct (graph_from_edgelist (replicate N ∅) E) as [G0|]; [|done].
  destruct prepared as [[single_rates total_rate]|]; [|done].
  destruct first_breakpoint as [t_first|]; [|done].
  destruct (simulate fuel apply_event total_rate single_rates t_run_total tmax _)
    as [[s'|]|] eqn:Hsim; [|done..].
  intros [= <-]. simpl.
  apply (simulate_ascending _ _ _ _ _ t_first delta) in Hsim
    as (_ & Hinc & Hall); [|done|by apply Hmoves|].
  2: { split; [apply Qle_refl|]. split; [by intros i j a b _ ?|constructor]. }
  repeat (split; [done|]). exists t_first. split; [done|].
  eapply Forall_impl; [exact Hall|]. by intros x (? & _ & ?).
Qed.

(** A scheduler that moves every clock before [t_run_total] for the rates
    of a run moves the clock of the run. *)
Lemma visits_clock (apply_event : handler) total_rate single_rates
    t_first t_run_total tmax (delta : Q) (s0 s : simulation mt19937_64) :
  (0 <= delta)%Q ->
  clock_moves total_rate single_rates t_first t_run_total tmax delta ->
  visits apply_event total_rate single_rates t_run_total tmax s0 s ->
  (t_first <= t s0)%Q -> (t_first <= t s)%Q.
Proof.
  intros Hdelta Hmoves Hvisits.
  induction Hvisits as [s|s s1 s2 Hlt Hstep _ IH]; intros Hfirst; [done|].
  apply IH. unfold step in Hstep.
  destruct (get_gillespie_tau_and_event_with_varying_gamma_for_each_node _ _ _ _ _ _ _)
    as [[[[tau event] i_t'] generator']|] eqn:Hdraw; [|done].
  apply Hmoves in Hdraw; [|done..]. simpl in Hstep.
  destruct (Qlt_bool (Double.add (t s) tau) t_run_total).
  - destruct (apply_event event (G s) generator')
      as [[[[curr_first curr_second] G'] generator'']|]; [|done].
    simpl in Hstep.
    destruct ((0 <? length curr_first) || (0 <? length curr_second));
      injection Hstep as <-; simpl; lra.
  - injection Hstep as <-. simpl. lra.
Qed.

Lemma clock_moves_run_moves (apply_event : handler) (E : list edge) (N : nat)
    prepared first_breakpoint t_run_total tmax seed (delta : Q) :
  (0 <= delta)%Q ->
  (forall single_rates total_rate t_first,
     prepared = Ok (single_rates, total_rate) -> first_breakpoint = Ok t_first ->
     clock_moves total_rate single_rates t_first t_run_total tmax delta) ->
  run_moves apply_event E N prepared first_breakpoint t_run_total tmax seed
    delta.
Proof.
  intros Hdelta Hmoves G0 single_rates total_rate t_first _ Hprepared Hfirst
    s tau event i_t' generator' Hvisits Hlt Hdraw.
  specialize (Hmoves _ _ _ Hprepared Hfirst).
  apply (Hmoves _ _ _ _ _ _ _) in Hdraw; [done| |done].
  apply (visits_clock _ _ _ _ _ _ _ _ _ Hdelta Hmoves Hvisits). apply Qle_refl.
Qed.

(** *** The claims on the four simulations *)

Lemma assert_same_size_Ok {A B C : Type} (a : list A) (b : list B)
    (k : option (outcome C)) (r : C) :
  assert_same_size a b k = Some (Ok r) -> k = Some (Ok r).
Proof. unfold assert_same_size. by destruct (length a =? length b). Qed.

Lemma assert_same_size_ends {A B C : Type} (a : list A) (b : list B)
    (k : nat -> option (outcome C)) :
  (exists fuel res, k fuel = Some res) ->
  exists fuel res, assert_same_size a b (k fuel) = Some res.
Proof.
  intros (fuel & res & Hk). unfold assert_same_size. exists fuel.
  destruct (length a =? length b); [by exists res|by eexists].
Qed.

Lemma assert_same_size_pass {A B C : Type} (a : list A) (b : list B)
    (k : option (outcome C)) :
  length a = length b -> assert_same_size a b k = k.
Proof. intros H. unfold assert_same_size. by rewrite H, Nat.eqb_refl. Qed.

(** C2, as amended.  The two global-rate variants hand the scheduler, for
    each breakpoint, the reconnection and the disconnection rate multiplied
    by [N], and their sum as the total rate.  The two per-node variants
    hand it the [2N] supplied rates as they are, not multiplied by [N], and
    the sum of them as the total rate. *)
Theorem rates_handed_to_scheduler (E : list edge) (N : nat)
    (reconnection_rate : list (Q * Q)) (disconnection_rate : list Q)
    (reconnection_rates : list (Q * list Q)) (disconnection_rates : list (list Q))
    (neighbor_affinity : list (list nat * list Q))
    (t_run_total tmax : Q) (use_random_rewiring : bool) (seed fuel : nat) :
  length reconnection_rate = length disconnection_rate ->
  length reconnection_rates = length disconnection_rates ->
  let scaled :=
    (zip_with (fun a b => (a.1, [(a.2 * inject_Z (Z.of_nat N))%Q;
                                 (b * inject_Z (Z.of_nat N))%Q]))
       reconnection_rate disconnection_rate,
     zip_with (fun a b => (a.1, (a.2 * inject_Z (Z.of_nat N)
                                 + b * inject_Z (Z.of_nat N))%Q))
       reconnection_rate disconnection_rate) in
  let as_supplied :=
    (zip_with (fun a b => (a.1, a.2 ++ b))
       reconnection_rates disconnection_rates,
     zip_with (fun a b => (a.1, (sum_rates a.2 + sum_rates b)%Q))
       reconnection_rates disconnection_rates) in
  global_rates N reconnection_rate disconnection_rate = Ok scaled /\
  node_rates reconnection_rates disconnection_rates = Ok as_supplied /\
  flockwork_alpha_beta_varying_rates E N reconnection_rate disconnection_rate
    t_run_total tmax use_random_rewiring seed fuel =
    run fuel rewire_global E N (Ok scaled) (first_time reconnection_rate)
      t_run_total tmax seed /\
  flockwork_alpha_beta_varying_rates_with_neighbor_affinity E N
    reconnection_rate disconnection_rate neighbor_affinity
    t_run_total tmax use_random_rewiring seed fuel =
    run fuel (rewire_global_affinity N neighbor_affinity) E N (Ok scaled)
      (first_time reconnection_rate) t_run_total tmax seed /\
  flockwork_alpha_beta_varying_rates_for_each_node E N
    reconnection_rates disconnection_rates
    t_run_total tmax use_random_rewiring seed fuel =
    run fuel (rewire_for_each_node N) E N (Ok as_supplied)
      (first_time reconnection_rates) t_run_total tmax seed /\
  flockwork_alpha_beta_varying_rates_for_each_node_with_neighbor_affinity E N
    reconnection_rates disconnection_rates neighbor_affinity
    t_run_total tmax use_random_rewiring seed fuel =
    run fuel (rewire_for_each_node_affinity N neighbor_affinity) E N
      (Ok as_supplied) (first_time reconnection_rates) t_run_total tmax seed.
Proof.
  intros Hglobal Hnode scaled as_supplied.
  pose proof (global_rates_spec N _ _ Hglobal) as Hg.
  pose proof (node_rates_spec _ _ Hnode) as Hn.
  split; [exact Hg|]. split; [exact Hn|].
  unfold flockwork_alpha_beta_varying_rates,
    flockwork_alpha_beta_varying_rates_with_neighbor_affinity,
    flockwork_alpha_beta_varying_rates_for_each_node,
    flockwork_alpha_beta_varying_rates_for_each_node_with_neighbor_affinity.
  rewrite !(assert_same_size_pass _ _ _ Hglobal),
    !(assert_same_size_pass _ _ _ Hnode), Hg, Hn.
  done.
Qed.

(** C8.  Take any pass through the loop of a variant ([simulate], at the
    handler of the variant) at which the scheduled time is before
    [t_run_total] and the rewiring returns.  The event is consumed and no
    error is raised: the loop goes on from the state with the clock at the
    scheduled time and the cursor, the graph and the engine as the
    scheduler and the rewiring left them.  When the rewiring returns no
    edge removed and no edge added, [time], [edges_in] and [edges_out] stay
    as they are; otherwise each gets one entry.  And what the loop returns
    in the end holds the arrays of that state followed by the entries of
    later events: an empty diff has no entry in the result. *)
Theorem empty_diff_is_consumed_unrecorded (apply_event : handler)
    total_rate single_rates t_run_total tmax (s : simulation mt19937_64)
    tau event i_t' generator' curr_first curr_second G' generator'' :
  (t s < t_run_total)%Q ->
  get_gillespie_tau_and_event_with_varying_gamma_for_each_node
    [0%Q] total_rate single_rates (t s) tmax (i_t s) (generator s)
    = Ok (tau, event, i_t', generator') ->
  (Double.add (t s) tau < t_run_total)%Q ->
  apply_event event (G s) generator'
    = Ok (curr_first, curr_second, G', generator'') ->
  exists s',
    (forall fuel,
       simulate (S fuel) apply_event total_rate single_rates t_run_total tmax s
       = simulate fuel apply_event total_rate single_rates t_run_total tmax s') /\
    t s' = Double.add (t s) tau /\ i_t s' = i_t' /\
    G s' = G' /\ generator s' = generator'' /\
    (curr_first = [] /\ curr_second = [] -> recorded_after s s' []) /\
    (~ (curr_first = [] /\ curr_second = []) ->
       recorded_after s s' [(Double.add (t s) tau, curr_first, curr_second)]) /\
    (forall fuel s_end,
       simulate (S fuel) apply_event total_rate single_rates t_run_total tmax s
         = Some (Ok s_end) ->
       exists later, recorded_after s' s_end later).
Proof.
  intros Hnow Hdraw Hlt Happly.
  destruct (step_applied apply_event total_rate single_rates t_run_total tmax s
              _ _ _ _ _ _ _ _ Hdraw Hlt Happly)
    as (s' & Hstep & Ht & Hi & HG & Hg & Hempty & Hfull).
  assert (forall fuel,
       simulate (S fuel) apply_event total_rate single_rates t_run_total tmax s
       = simulate fuel apply_event total_rate single_rates t_run_total tmax s')
    as Hnext.
  { intros fuel. simpl. by rewrite (Qlt_bool_true _ _ Hnow), Hstep. }
  exists s'. repeat (split; [done|]).
  intros fuel s_end Hend. rewrite Hnext in Hend. by eapply simulate_extends.
Qed.

(** C9, as amended.  The scheduler waiting a positive time for each event,
    the record that any of the four variants returns has [t0 = 0],
    [tmax = t_run_total], the node count and the initial edges as
    supplied, and event times that do not decrease and lie before
    [t_run_total], the last one hence not after [tmax].  And when each
    draw of its run moves the clock by some [delta] at least, a variant
    does return, or raise, and the event times of its record increase
    strictly. *)
Theorem result_record (E : list edge) (N : nat)
    (reconnection_rate : list (Q * Q)) (disconnection_rate : list Q)
    (reconnection_rates : list (Q * list Q)) (disconnection_rates : list (list Q))
    (neighbor_affinity : list (list nat * list Q))
    (t_run_total tmax : Q) (use_random_rewiring : bool) (seed : nat) :
  waits_positive ->
  (forall fuel r,
     flockwork_alpha_beta_varying_rates E N reconnection_rate
       disconnection_rate t_run_total tmax use_random_rewiring seed fuel
       = Some (Ok r) \/
     flockwork_alpha_beta_varying_rates_for_each_node E N reconnection_rates
       disconnection_rates t_run_total tmax use_random_rewiring seed fuel
       = Some (Ok r) \/
     flockwork_alpha_beta_varying_rates_with_neighbor_affinity E N
       reconnection_rate disconnection_rate neighbor_affinity
       t_run_total tmax use_random_rewiring seed fuel
       = Some (Ok r) \/
     flockwork_alpha_beta_varying_rates_for_each_node_with_neighbor_affinity
       E N reconnection_rates disconnection_rates neighbor_affinity
       t_run_total tmax use_random_rewiring seed fuel
       = Some (Ok r) ->
     record_ok E N t_run_total r) /\
  forall delta, (0 < delta)%Q ->
    (run_moves rewire_global E N
       (global_rates N reconnection_rate disconnection_rate)
       (first_time reconnection_rate) t_run_total tmax seed delta ->
     ends_increasing
       (flockwork_alpha_beta_varying_rates E N reconnection_rate
          disconnection_rate t_run_total tmax use_random_rewiring seed)) /\
    (run_moves (rewire_for_each_node N) E N
       (node_rates reconnection_rates disconnection_rates)
       (first_time reconnection_rates) t_run_total tmax seed delta ->
     ends_increasing
       (flockwork_alpha_beta_varying_rates_for_each_node E N
          reconnection_rates disconnection_rates t_run_total tmax
          use_random_rewiring seed)) /\
    (run_moves (rewire_global_affinity N neighbor_affinity) E N
       (global_rates N reconnection_rate disconnection_rate)
       (first_time reconnection_rate) t_run_total tmax seed delta ->
     ends_increasing
       (flockwork_alpha_beta_varying_rates_with_neighbor_affinity E N
          reconnection_rate disconnection_rate neighbor_affinity
          t_run_total tmax use_random_rewiring seed)) /\
    (run_moves (rewire_for_each_node_affinity N neighbor_affinity) E N
       (node_rates reconnection_rates disconnection_rates)
       (first_time reconnection_rates) t_run_total tmax seed delta ->
     ends_increasing
       (flockwork_alpha_beta_varying_rates_for_each_node_with_neighbor_affinity
          E N reconnection_rates disconnection_rates neighbor_affinity
          t_run_total tmax use_random_rewiring seed)).
Proof.
  intros Hwait. split.
  - intros fuel r [H | [H | [H | H]]];
      apply assert_same_size_Ok in H; by eapply run_record_ok.
  - intros delta Hdelta.
    unfold flockwork_alpha_beta_varying_rates,
      flockwork_alpha_beta_varying_rates_for_each_node,
      flockwork_alpha_beta_varying_rates_with_neighbor_affinity,
      flockwork_alpha_beta_varying_rates_for_each_node_with_neighbor_affinity.
    split; [|split; [|split]]; intros Hmoves.
    all: split;
      [apply (assert_same_size_ends _ _
                (fun fuel => run fuel _ E N _ _ t_run_total tmax seed));
       by apply (run_ends _ _ _ _ _ _ _ _ delta)
      |intros fuel r H; apply assert_same_size_Ok in H;
       by destruct (run_ascending _ _ _ _ _ _ _ _ _ _ delta Hdelta Hmoves H)
         as (_ & _ & ? & _)].
Qed.

End Simulation.

(** *** The claims at an example *)

Lemma ticking_waits : waits_positive nat ticking.
Proof.
  intros rates total_rate single_rates t tmax i_t generator tau event i_t'
    generator' H.
  unfold ticking in H. injection H as <- _ _ _. reflexivity.
Qed.

(** Below 4, the sum of a clock that is not negative and a wait of one
    unit is a double within a half of the exact sum. *)
Lemma ticking_moves total_rate single_rates (t_run_total tmax : Q) :
  (t_run_total <= 4)%Q ->
  clock_moves nat ticking total_rate single_rates 0 t_run_total tmax (1 # 2).
Proof.
  intros Hrun t i_t generator tau event i_t' generator' Hfirst Hlt H.
  unfold ticking in H. injection H as <- _ _ _.
  unfold Double.add.
  set (k := Qfloor ((t + 1) * 2)).
  pose proof (Qfloor_le ((t + 1) * 2)) as Hlo.
  pose proof (Qlt_floor ((t + 1) * 2)) as Hhi. fold k in Hlo, Hhi.
  rewrite inject_Z_plus in Hhi. change (inject_Z 1) with 1%Q in Hhi.
  assert (0 <= k < 10)%Z as Hk.
  { split.
    - apply Z.lt_succ_r. unfold Z.succ. rewrite Zlt_Qlt, inject_Z_plus.
      change (inject_Z 0) with 0%Q. change (inject_Z 1) with 1%Q. lra.
    - rewrite Zlt_Qlt. change (inject_Z 10) with 10%Q. lra. }
  assert (Double.round (inject_Z k * 2 ^ (-1)) == inject_Z k * 2 ^ (-1))%Q as Hexact.
  { apply Double.round_exact; [|done]. unfold Double.prec. lia. }
  change (2 ^ (-1))%Q with (1 # 2)%Q in Hexact.
  assert (inject_Z k * (1 # 2) <= Double.round (t + 1))%Q as Hle.
  { rewrite <- Hexact. apply Double.round_le. lra. }
  lra.
Qed.

Lemma rates_handed_to_scheduler_witness :
  global_rates 2 [(0%Q, 1%Q)] [1%Q] =
    Ok ([(0%Q, [(1 * inject_Z 2)%Q; (1 * inject_Z 2)%Q])],
        [(0%Q, (1 * inject_Z 2 + 1 * inject_Z 2)%Q)]) /\
  node_rates [(0%Q, [1%Q; 1%Q])] [[1%Q; 1%Q]] =
    Ok ([(0%Q, [1%Q; 1%Q; 1%Q; 1%Q])],
        [(0%Q, (sum_rates [1%Q; 1%Q] + sum_rates [1%Q; 1%Q])%Q)]).
Proof.
  destruct (rates_handed_to_scheduler nat (fun seed => seed) ticking toggle
              toggle_node toggle_affinity first_node
              Trajectories.graph_from_edgelist
              [(0, 1)] 2 [(0%Q, 1%Q)] [1%Q] [(0%Q, [1%Q; 1%Q])] [[1%Q; 1%Q]]
              [] (7 # 2)%Q 10%Q false 0 5 eq_refl eq_refl)
    as (Hglobal & Hnode & _).
  split; [exact Hglobal|exact Hnode].
Defined.

(** C2 as stated fails for the per-node variants: with two nodes, the four
    rates handed to the scheduler are the supplied ones, each 1, and not
    their doubles. *)
Lemma per_node_rates_are_not_scaled :
  node_rates [(0%Q, [1%Q; 1%Q])] [[1%Q; 1%Q]] =
    Ok ([(0%Q, [1%Q; 1%Q; 1%Q; 1%Q])], [(0%Q, (0 + 1 + 1 + (0 + 1 + 1))%Q)]) /\
  ~ Forall2 Qeq [1%Q; 1%Q; 1%Q; 1%Q]
      ((fun rate => (rate * inject_Z (Z.of_nat 2))%Q) <$> [1%Q; 1%Q; 1%Q; 1%Q]).
Proof.
  split; [reflexivity|]. intros H. apply Forall2_cons_1 in H as (H & _).
  discriminate H.
Qed.

Lemma empty_diff_is_consumed_unrecorded_witness :
  exists s',
    simulate nat ticking 5 (rewire_global nat toggle) [] [] (7 # 2)%Q 10%Q linked_start
      = simulate nat ticking 4 (rewire_global nat toggle) [] [] (7 # 2)%Q 10%Q s' /\
    t s' = 1%Q /\ time s' = [] /\ edges_out s' = [] /\ edges_in s' = [] /\
    exists s_end,
      simulate nat ticking 5 (rewire_global nat toggle) [] [] (7 # 2)%Q 10%Q
        linked_start = Some (Ok s_end) /\
      time s_end = [2%Q; 3%Q].
Proof.
  destruct (empty_diff_is_consumed_unrecorded nat ticking
              (rewire_global nat toggle) [] [] (7 # 2)%Q 10%Q linked_start
              1%Q 1 0 1 [] [] [{[1]}; {[0]}] 1)
    as (s' & Hnext & Ht & _ & _ & _ & Hempty & _).
  - reflexivity.
  - reflexivity.
  - reflexivity.
  - reflexivity.
  - destruct Hempty as (Htime & Hout & Hin); [by split|].
    exists s'. split; [exact (Hnext 4)|]. split; [exact Ht|].
    split; [exact Htime|]. split; [exact Hout|]. split; [exact Hin|].
    eexists. split; [vm_compute; reflexivity|reflexivity].
Defined.

Lemma result_record_witness :
  (exists r,
     flockwork_alpha_beta_varying_rates nat (fun seed => seed) ticking toggle
       Trajectories.graph_from_edgelist
       [(0, 1)] 2 [(0%Q, 1%Q)] [1%Q] (7 # 2)%Q 10%Q false 0 5 = Some (Ok r) /\
     record_ok [(0, 1)] 2 (7 # 2)%Q r /\
     increasing (edge_changes.t r) /\
     edge_changes.t r = [2%Q; 3%Q] /\
     edge_changes.edges_out r = [[(0, 1)]; []] /\
     edge_changes.edges_in r = [[]; [(0, 1)]]) /\
  (exists fuel res,
     flockwork_alpha_beta_varying_rates nat (fun seed => seed) ticking toggle
       Trajectories.graph_from_edgelist
       [(0, 1)] 2 [(0%Q, 1%Q)] [1%Q] (7 # 2)%Q 10%Q false 0 fuel = Some res).
Proof.
  destruct (result_record nat (fun seed => seed) ticking toggle
              toggle_node toggle_affinity first_node
              Trajectories.graph_from_edgelist
              [(0, 1)] 2 [(0%Q, 1%Q)] [1%Q] [(0%Q, [1%Q; 1%Q])] [[1%Q; 1%Q]]
              [] (7 # 2)%Q 10%Q false 0 ticking_waits)
    as (Hrecord & Hends).
  destruct (Hends (1 # 2)%Q eq_refl) as (Hglobal & _).
  destruct Hglobal as (Hreturns & Hincreasing).
  { apply clock_moves_run_moves; [discriminate|].
    intros single_rates total_rate t_first _ [= <-].
    apply ticking_moves. discriminate. }
  split; [|exact Hreturns].
  eexists. split; [vm_compute; reflexivity|].
  split; [|split; [|repeat split; reflexivity]].
  - apply (Hrecord 5). left. vm_compute. reflexivity.
  - apply (Hincreasing 5). vm_compute. reflexivity.
Defined.

(** C9 as stated fails on the code.  The clock is advanced by [t = t + tau]
    in double arithmetic, where a positive [tau] that is small for [t] is
    absorbed: with two nodes, no edge, and waiting times 1, [2 ^ -60] and
    5, the first variant links the nodes at time 1 and parts them at
    [1 + 2 ^ -60], which is 1 again, and returns the times [1; 1]. *)
Lemma equal_times_are_recorded :
  waits_positive nat absorbed /\
  exists r,
    flockwork_alpha_beta_varying_rates nat (fun seed => seed) absorbed toggle
      Trajectories.graph_from_edgelist
      [] 2 [(0%Q, 1%Q)] [1%Q] 2%Q 10%Q false 0 3 = Some (Ok r) /\
    edge_changes.t r = [1%Q; 1%Q] /\
    edge_changes.edges_in r = [[(0, 1)]; []] /\
    edge_changes.edges_out r = [[]; [(0, 1)]] /\
    ~ increasing (edge_changes.t r).
Proof.
  split.
  - intros rates total_rate single_rates t tmax i_t generator tau event i_t'
      generator' H.
    unfold absorbed in H. injection H as <- _ _ _.
    by destruct generator as [|[|?]].
  - eexists. split; [vm_compute; reflexivity|]. repeat (split; [reflexivity|]).
    intros Hinc. specialize (Hinc 0 1 1%Q 1%Q).
    assert (1 < 1)%Q as H by (apply Hinc; [lia|reflexivity..]).
    by apply Qlt_irrefl in H.
Qed.

End Flockwork.


(** ** SIRS.cpp: the rates, the rebuilt cache, the observables and the
    compartments *)

Module SIRS_rates.
Import SIRS SIRS_cache.

(** The three rate constants of [class SIRS]. *)
Record parameters : Type := {
  infection_rate : Q;
  recovery_rate : Q;
  becoming_susceptible_rate : Q
}.

(** [SIRS::get_rates_and_Lambda(_rates, _Lambda)]: the rates of the three
    channels and their sum, accumulated from [0.0]. *)
Definition get_rates_and_Lambda (p : parameters) (s : t) : list Q * Q :=
  let rates :=
    [ (infection_rate p * inject_Z (Z.of_nat (length (SI_edges s))))%Q;
      (recovery_rate p * inject_Z (Z.of_nat (length (infected s))))%Q;
      (becoming_susceptible_rate p * inject_Z (Z.of_nat (length (recovered s))))%Q ] in
  (rates, fold_left Qplus rates 0%Q).

(** The size of the collection that the handler of a channel draws from. *)
Definition collection_size (s : t) (event : nat) : nat :=
  match event with
  | 0 => length (SI_edges s)
  | 1 => length (infected s)
  | _ => length (recovered s)
  end.

(** The number of nodes of one status. *)
Definition count_status (x : EPI.t) (status : list EPI.t) : nat :=
  length (filter (fun y => y = x) status).

(** The time that an operation passes to [update_observables]. *)
Definition op_time (o : operation) : Q :=
  match o with
  | NetworkChange _ _ _ now => now
  | Event _ _ now => now
  end.

(** Three nodes on a path: one susceptible, one infected, one recovered. *)
Definition path_graph : graph := [{[1]}; {[0; 2]}; {[1]}].
Definition mixed : t :=
  {| N := 3; G := path_graph; node_status := [EPI.S; EPI.I; EPI.R];
     infected := [1]; recovered := [2]; SI_edges := [(1, 0)];
     SI := [1]; I := [1]; R := [1]; time := [0%Q] |}.
(** The same state with a cache that went stale. *)
Definition mixed_stale : t :=
  {| N := 3; G := path_graph; node_status := [EPI.S; EPI.I; EPI.R];
     infected := [1]; recovered := [2]; SI_edges := [(1, 2); (1, 2)];
     SI := [1]; I := [1]; R := [1]; time := [0%Q] |}.
Definition unit_rates : parameters :=
  {| infection_rate := 1; recovery_rate := 1; becoming_susceptible_rate := 1 |}.

Ltac bind_cases :=
  repeat match goal with
  | |- context [mbind _ ?c] => destruct c; simpl; [|discriminate]
  end.

Lemma size_Q_cases (n : nat) :
  (n = 0 /\ (inject_Z (Z.of_nat n) == 0)%Q) \/
  (n <> 0 /\ (1 <= inject_Z (Z.of_nat n))%Q).
Proof.
  destruct n as [|n]; [by left|right]. split; [done|].
  change 1%Q with (inject_Z 1). rewrite <- Zle_Qle. lia.
Qed.

Lemma length_zero_nil {A : Type} (l : list A) : length l = 0 <-> l = [].
Proof. destruct l; simpl; split; intros; (done || lia). Qed.

Lemma is_edge_path_graph i j :
  is_edge path_graph i j <->
    (i = 0 /\ j = 1) \/ (i = 1 /\ j = 0) \/ (i = 1 /\ j = 2) \/ (i = 2 /\ j = 1).
Proof.
  unfold is_edge, path_graph. split.
  - intros (nb & Hnb & Hj). destruct i as [|[|[|i]]]; simpl in Hnb; [| | |done];
      injection Hnb as <-; set_unfold; lia.
  - intros [(-> & ->) | [(-> & ->) | [(-> & ->) | (-> & ->)]]];
      eexists; (split; [reflexivity|]); set_solver.
Qed.

Lemma graph_ok_path_graph : graph_ok 3 path_graph.
Proof.
  constructor; [done| |]; intros i j; rewrite !is_edge_path_graph; lia.
Qed.

Lemma wf_mixed : wf mixed.
Proof.
  constructor; simpl.
  - done.
  - apply graph_ok_path_graph.
  - intros i. rewrite list_elem_of_singleton.
    destruct i as [|[|[|i]]]; simpl; split; (done || lia || discriminate).
  - intros i. rewrite list_elem_of_singleton.
    destruct i as [|[|[|i]]]; simpl; split; (done || lia || discriminate).
  - apply NoDup_singleton.
  - apply NoDup_singleton.
Qed.

Lemma consistent_mixed : SI_consistent mixed.
Proof.
  intros i j. unfold SI_pair. simpl.
  rewrite list_elem_of_singleton, is_edge_path_graph. split.
  - intros [= -> ->]. simpl. repeat split; try done. right. by left.
  - intros (Hi & Hj & He).
    destruct i as [|[|[|i]]]; simpl in Hi; try done.
    destruct j as [|[|[|j]]]; simpl in Hj; try done.
Qed.

Lemma wf_mixed_stale : wf mixed_stale.
Proof. destruct wf_mixed. by constructor. Qed.

(** *** The rates *)

Lemma infected_empty_no_pair s :
  wf s -> SI_consistent s -> infected s = [] -> SI_edges s = [].
Proof.
  intros Hwf Hc Hinf. destruct (SI_edges s) as [|[i j] rest] eqn:Hsi; [done|].
  exfalso. assert (SI_pair s i j) as (Hi & _).
  { apply Hc. rewrite Hsi. left. }
  apply (wf_infected _ Hwf) in Hi. rewrite Hinf in Hi. by apply elem_of_nil in Hi.
Qed.

(** X1.  A channel of [get_rates_and_Lambda] whose rate is not zero has
    something to draw from: on a state whose bookkeeping is in order, the
    event of that channel, with a draw that its distribution can return,
    is handled without error and leaves the bookkeeping and the cache in
    order.  The rate vector has three entries, so that [make_event] does
    not meet a channel without a handler. *)
Theorem event_of_nonzero_rate_returns p s event rate draw now :
  wf s -> SI_consistent s ->
  (get_rates_and_Lambda p s).1 !! event = Some rate -> ~ (rate == 0)%Q ->
  draw_over (collection_size s event) draw ->
  event < 3 /\
  exists s', make_event s event draw now = Ok s' /\ wf s' /\ SI_consistent s'.
Proof.
  intros Hwf Hc Hrate Hnz Hdraw.
  assert (forall c l, ~ (c * inject_Z (Z.of_nat (@length nat l)) == 0)%Q -> l <> [])
    as Hnat.
  { intros c l H ->. apply H. simpl. apply Qmult_0_r. }
  assert (forall c (l : list edge), ~ (c * inject_Z (Z.of_nat (length l)) == 0)%Q -> l <> [])
    as Hedge.
  { intros c l H ->. apply H. simpl. apply Qmult_0_r. }
  destruct event as [|[|[|event]]]; simpl in Hrate; [| | |done];
    injection Hrate as <-; (split; [lia|]); apply make_event_preserves; try done.
  - apply adm_infection; [by eapply Hedge|done].
  - apply adm_recovery; [by eapply Hnat|done].
  - apply adm_susceptible; [by eapply Hnat|done].
Qed.

Lemma event_of_nonzero_rate_returns_witness :
  exists s', make_event mixed 1 0 1 = Ok s' /\ wf s' /\ SI_consistent s'.
Proof.
  destruct (event_of_nonzero_rate_returns unit_rates mixed 1 (1 * inject_Z 1)%Q 0 1%Q
              wf_mixed consistent_mixed eq_refl) as (_ & H).
  - discriminate.
  - vm_compute. split; discriminate.
  - exact H.
Defined.

(** X2.  With positive rate constants the total rate is not negative, and
    it is zero exactly when nobody is infected and nobody recovered: the
    epidemic has died out and the scheduler has no event left to draw. *)
Theorem total_rate_zero_iff_died_out p s :
  (0 < infection_rate p)%Q -> (0 < recovery_rate p)%Q ->
  (0 < becoming_susceptible_rate p)%Q ->
  wf s -> SI_consistent s ->
  (0 <= (get_rates_and_Lambda p s).2)%Q /\
  (((get_rates_and_Lambda p s).2 == 0)%Q <-> infected s = [] /\ recovered s = []).
Proof.
  intros Hi Hr Hs Hwf Hc. unfold get_rates_and_Lambda. simpl.
  pose proof (infected_empty_no_pair s Hwf Hc) as Hnone.
  rewrite <- !length_zero_nil in *.
  destruct (size_Q_cases (length (SI_edges s))) as [(N1 & E1) | (N1 & E1)];
    destruct (size_Q_cases (length (infected s))) as [(N2 & E2) | (N2 & E2)];
    destruct (size_Q_cases (length (recovered s))) as [(N3 & E3) | (N3 & E3)];
    revert E1 E2 E3;
    generalize (inject_Z (Z.of_nat (length (SI_edges s))));
    generalize (inject_Z (Z.of_nat (length (infected s))));
    generalize (inject_Z (Z.of_nat (length (recovered s))));
    intros c b a E1 E2 E3;
    (split; [nra|]); split;
    first [ intros (? & ?); (lia || nra)
          | intros H; exfalso; nra
          | intros H; split; lia ].
Qed.

Lemma total_rate_zero_iff_died_out_witness :
  (0 <= (get_rates_and_Lambda unit_rates mixed).2)%Q /\
  (((get_rates_and_Lambda unit_rates mixed).2 == 0)%Q <->
   infected mixed = [] /\ recovered mixed = []).
Proof.
  apply (total_rate_zero_iff_died_out unit_rates mixed).
  - reflexivity.
  - reflexivity.
  - reflexivity.
  - exact wf_mixed.
  - exact consistent_mixed.
Defined.

(** *** The cache rebuilt from scratch *)

(** X3.  The first overload of [update_network] does not read the old
    cache: whatever [SI_edges] held, on a state whose lists of infected and
    recovered nodes are in order and for any graph over the same nodes it
    returns with [SI_edges] holding exactly the pairs of an infected node
    and a susceptible neighbor in the new graph, each once. *)
Theorem update_network_scan_rebuilds s _G now :
  wf s -> graph_ok (N s) _G ->
  exists s', update_network_scan s _G now = Ok s' /\
    G s' = _G /\ node_status s' = node_status s /\
    wf s' /\ SI_consistent s' /\ NoDup (SI_edges s').
Proof.
  intros Hwf Hg.
  destruct (scan_infected_spec (N s) _G (node_status s) (infected s) [])
    as (r & Hr & Hmem).
  - exact Hg.
  - apply Hwf.
  - intros i Hi. apply (wf_infected _ Hwf) in Hi.
    rewrite <- (wf_status _ Hwf). by eapply lookup_status_lt.
  - unfold update_network_scan. rewrite Hr. simpl.
    eexists. split; [reflexivity|]. simpl. split; [done|]. split; [done|].
    split; [|split].
    + constructor; simpl; try apply Hwf. exact Hg.
    + intros i j. unfold SI_pair. simpl. rewrite Hmem. split.
      * intros [Hn | (i' & j' & Hi & He & Hs & Heq)]; [by apply elem_of_nil in Hn|].
        injection Heq as -> ->. split; [by apply (wf_infected _ Hwf)|done].
      * intros (Hi & Hj & He). right. exists i, j.
        split; [by apply (wf_infected _ Hwf)|done].
    + apply (scan_infected_NoDup _ _ _ _ _ Hr).
      * apply Hwf.
      * constructor.
      * by intros e ?%elem_of_nil.
Qed.

Lemma update_network_scan_rebuilds_witness :
  exists s', update_network_scan mixed_stale path_graph 1 = Ok s' /\
    G s' = path_graph /\ node_status s' = node_status mixed_stale /\
    wf s' /\ SI_consistent s' /\ NoDup (SI_edges s').
Proof.
  apply (update_network_scan_rebuilds mixed_stale path_graph 1%Q).
  - exact wf_mixed_stale.
  - exact graph_ok_path_graph.
Defined.

(** *** The observables *)

Lemma infection_event_keeps s draw s' :
  infection_event s draw = Ok s' ->
  N s' = N s /\ SI s' = SI s /\ I s' = I s /\ R s' = R s /\ time s' = time s.
Proof.
  unfold infection_event. bind_cases. by intros [= <-].
Qed.

Lemma recovery_event_keeps s draw s' :
  recovery_event s draw = Ok s' ->
  N s' = N s /\ SI s' = SI s /\ I s' = I s /\ R s' = R s /\ time s' = time s.
Proof.
  unfold recovery_event. bind_cases. by intros [= <-].
Qed.

Lemma susceptible_event_keeps s draw s' :
  susceptible_event s draw = Ok s' ->
  N s' = N s /\ SI s' = SI s /\ I s' = I s /\ R s' = R s /\ time s' = time s.
Proof.
  unfold susceptible_event. bind_cases. by intros [= <-].
Qed.

Lemma apply_appends s o s' :
  apply s o = Ok s' ->
  N s' = N s /\
  SI s' = SI s ++ [length (SI_edges s')] /\
  I s' = I s ++ [length (infected s')] /\
  R s' = R s ++ [length (recovered s')] /\
  time s' = time s ++ [op_time o].
Proof.
  destruct o as [g ein eout now | event draw now]; simpl.
  - unfold update_network. bind_cases. by intros [= <-].
  - unfold make_event.
    destruct event as [|[|[|event]]]; simpl; [| | |done].
    + destruct (infection_event s draw) as [s1|] eqn:H1; [|done].
      apply infection_event_keeps in H1 as (HN & HSI & HI & HR & Ht).
      simpl. intros [= <-]. simpl. by rewrite HN, HSI, HI, HR, Ht.
    + destruct (recovery_event s draw) as [s1|] eqn:H1; [|done].
      apply recovery_event_keeps in H1 as (HN & HSI & HI & HR & Ht).
      simpl. intros [= <-]. simpl. by rewrite HN, HSI, HI, HR, Ht.
    + destruct (susceptible_event s draw) as [s1|] eqn:H1; [|done].
      apply susceptible_event_keeps in H1 as (HN & HSI & HI & HR & Ht).
      simpl. intros [= <-]. simpl. by rewrite HN, HSI, HI, HR, Ht.
Qed.

Lemma run_appends s ops s' :
  run s ops = Ok s' ->
  N s' = N s /\
  time s' = time s ++ (op_time <$> ops) /\
  (exists si, SI s' = SI s ++ si /\ length si = length ops) /\
  (exists i, I s' = I s ++ i /\ length i = length ops) /\
  (exists r, R s' = R s ++ r /\ length r = length ops).
Proof.
  revert s. induction ops as [|o rest IH]; intros s; simpl.
  - intros [= <-]. rewrite app_nil_r. split; [done|]. split; [done|].
    repeat split; exists []; by rewrite app_nil_r.
  - destruct (apply s o) as [s1|] eqn:H1; [|done]. simpl. intros Hrest.
    apply apply_appends in H1 as (HN & HSI & HI & HR & Ht).
    destruct (IH s1 Hrest) as (-> & -> & (si & -> & Hsi) & (i & -> & Hi) & (r & -> & Hr)).
    rewrite HN, Ht, HSI, HI, HR, <- !app_assoc. simpl.
    split; [done|]. split; [done|].
    repeat split; eexists; (split; [reflexivity|]); simpl; lia.
Qed.

Lemma run_snoc s ops o :
  run s (ops ++ [o]) = (s1 ← run s ops; apply s1 o).
Proof.
  revert s. induction ops as [|o' rest IH]; intros s; simpl.
  - by destruct (apply s o).
  - destruct (apply s o') as [s1|]; simpl; [apply IH|done].
Qed.

(** X4.  The observables are a log.  A run of operations that returns
    leaves every value recorded before it in place and appends one value
    per operation to each of [SI], [I], [R] and [time]; the times appended
    are the times passed to the operations, in order; and the last values
    are the sizes of [SI_edges], [infected] and [recovered] as the run
    leaves them. *)
Theorem observables_are_a_log s ops s' :
  run s ops = Ok s' ->
  time s' = time s ++ (op_time <$> ops) /\
  (exists si, SI s' = SI s ++ si /\ length si = length ops) /\
  (exists i, I s' = I s ++ i /\ length i = length ops) /\
  (exists r, R s' = R s ++ r /\ length r = length ops) /\
  (ops <> [] ->
   last (SI s') = Some (length (SI_edges s')) /\
   last (I s') = Some (length (infected s')) /\
   last (R s') = Some (length (recovered s'))).
Proof.
  intros Hrun.
  destruct (run_appends s ops s' Hrun) as (_ & Ht & HSI & HI & HR).
  split; [done|]. split; [done|]. split; [done|]. split; [done|].
  intros Hne. destruct (exists_last Hne) as (ops' & o & ->).
  rewrite run_snoc in Hrun.
  destruct (run s ops') as [s1|]; [|done]. simpl in Hrun.
  apply apply_appends in Hrun as (_ & -> & -> & -> & _).
  by rewrite !last_snoc.
Qed.

Lemma observables_are_a_log_witness :
  exists s',
    run mixed [Event 1 0 (1 # 2); Event 2 0 2] = Ok s' /\
    time s' = [0; 1 # 2; 2]%Q /\
    last (I s') = Some (length (infected s')).
Proof.
  eexists. split; [reflexivity|].
  destruct (observables_are_a_log mixed [Event 1 0 (1 # 2); Event 2 0 2]%Q _ eq_refl)
    as (Ht & _ & _ & _ & Hlast).
  split; [exact Ht|]. by destruct Hlast as (_ & ? & _).
Defined.

(** *** The compartments *)

Lemma count_status_total (status : list EPI.t) :
  count_status EPI.S status + count_status EPI.I status
    + count_status EPI.R status = length status.
Proof.
  unfold count_status. induction status as [|x l IH]; [done|].
  rewrite !filter_cons. destruct x; repeat case_decide; try done; simpl; lia.
Qed.

Lemma count_status_snoc (status : list EPI.t) (x y : EPI.t) :
  count_status x (status ++ [y]) =
    count_status x status + (if decide (y = x) then 1 else 0).
Proof.
  unfold count_status. rewrite filter_app, length_app. f_equal.
  rewrite filter_cons, filter_nil. by case_decide.
Qed.

(** A list that holds each node of status [x] once is as long as the
    number of nodes of that status. *)
Lemma length_indices (status : list EPI.t) (x : EPI.t) :
  forall l : list nat,
    NoDup l -> (forall i, i ∈ l <-> status !! i = Some x) ->
    length l = count_status x status.
Proof.
  induction status as [|y status IH] using rev_ind; intros l Hnd Hl.
  - destruct l as [|i l]; [done|]. exfalso.
    assert (i ∈ i :: l) as Hi by left. by apply Hl in Hi.
  - rewrite count_status_snoc. case_decide as Hy.
    + subst y. assert (length status ∈ l) as Hn.
      { apply Hl. by rewrite lookup_app_r, Nat.sub_diag by lia. }
      apply elem_of_Permutation in Hn as (k & Hk).
      rewrite Hk in Hnd. apply NoDup_cons in Hnd as (Hnk & Hndk).
      rewrite Hk. simpl. rewrite (IH k Hndk); [lia|].
      intros i. split.
      * intros Hi. assert (i ∈ l) as Hil by (rewrite Hk; by right).
        apply Hl in Hil. apply lookup_app_Some in Hil as [? | (Hge & Hil)]; [done|].
        apply list_lookup_singleton_Some in Hil as (Hil & _).
        exfalso. apply Hnk. by replace (length status) with i by lia.
      * intros Hi. assert (i ∈ l) as Hil.
        { apply Hl. by apply lookup_app_l_Some. }
        rewrite Hk in Hil. apply elem_of_cons in Hil as [-> | ?]; [|done].
        apply lookup_lt_Some in Hi. lia.
    + rewrite Nat.add_0_r. apply IH; [done|]. intros i. rewrite Hl. split.
      * intros [? | (_ & Hi)]%lookup_app_Some; [done|].
        apply list_lookup_singleton_Some in Hi as (_ & ?). done.
      * apply lookup_app_l_Some.
Qed.

Lemma wf_compartments s :
  wf s ->
  length (infected s) = count_status EPI.I (node_status s) /\
  length (recovered s) = count_status EPI.R (node_status s) /\
  count_status EPI.S (node_status s) + length (infected s)
    + length (recovered s) = N s.
Proof.
  intros Hwf.
  pose proof (length_indices (node_status s) EPI.I (infected s)
                (wf_infected_nodup _ Hwf) (wf_infected _ Hwf)) as HI.
  pose proof (length_indices (node_status s) EPI.R (recovered s)
                (wf_recovered_nodup _ Hwf) (wf_recovered _ Hwf)) as HR.
  pose proof (count_status_total (node_status s)) as Htot.
  rewrite (wf_status _ Hwf) in Htot. lia.
Qed.

(** X5.  The compartments partition the population.  Along a run of
    admissible operations from a state whose bookkeeping is in order, the
    number of nodes stays what it was, [infected] and [recovered] are as
    long as there are nodes of status I and R, and the susceptible, the
    infected and the recovered nodes add up to [N]. *)
Theorem compartments_partition_population s ops :
  wf s -> SI_consistent s -> admissible_run s ops ->
  forall k, exists s',
    run s (take k ops) = Ok s' /\ N s' = N s /\
    length (infected s') = count_status EPI.I (node_status s') /\
    length (recovered s') = count_status EPI.R (node_status s') /\
    count_status EPI.S (node_status s') + length (infected s')
      + length (recovered s') = N s.
Proof.
  intros Hwf Hc Hrun k.
  destruct (run_preserves s ops Hwf Hc Hrun k) as (s' & Hs' & Hwf' & _).
  exists s'. split; [done|].
  destruct (run_appends _ _ _ Hs') as (HN & _). split; [done|].
  rewrite <- HN. by apply wf_compartments.
Qed.

Lemma compartments_partition_population_witness :
  exists s',
    run mixed (take 2 [Event 1 0 (1 # 2); Event 2 0 2]) = Ok s' /\ N s' = 3 /\
    length (infected s') = count_status EPI.I (node_status s') /\
    length (recovered s') = count_status EPI.R (node_status s') /\
    count_status EPI.S (node_status s') + length (infected s')
      + length (recovered s') = 3.
Proof.
  apply (compartments_partition_population mixed
           [Event 1 0 (1 # 2); Event 2 0 2]%Q wf_mixed consistent_mixed).
  apply run_cons.
  - apply adm_recovery; [done|]. vm_compute. split; discriminate.
  - intros s' Hs'. vm_compute in Hs'. injection Hs' as <-.
    apply run_cons.
    + apply adm_susceptible; [done|]. vm_compute. split; discriminate.
    + intros s'' _. apply run_nil.
Defined.

End SIRS_rates.

(** ** social_trajectories.cpp: the labels of edges *)

Module Edge_labels.

(** [hash_edge(p, N)]: [N * p.first + p.second], in [size_t]. *)
Definition hash_edge (p : edge) (N : nat) : Z :=
  ((Z.of_nat N * Z.of_nat p.1 + Z.of_nat p.2) mod size_t_modulus)%Z.

(** [get_edge_integer(N, edge, hash_to_int)]: the label and the registry
    after the call. *)
Definition get_edge_integer (N : nat) (e : edge) (hash_to_int : gmap Z nat)
  : nat * gmap Z nat :=
  let N_hashes := size hash_to_int in
  let this_hash := hash_edge e N in
  match hash_to_int !! this_hash with
  | Some label => (label, hash_to_int)
  | None => (N_hashes, <[this_hash := N_hashes]> hash_to_int)
  end.

(** A sequence of calls on one registry: the labels returned, in order,
    and the registry at the end. *)
Fixpoint edge_labels (N : nat) (edges : list edge) (hash_to_int : gmap Z nat)
  : list nat * gmap Z nat :=
  match edges with
  | [] => ([], hash_to_int)
  | e :: rest =>
      let '(label, hash_to_int') := get_edge_integer N e hash_to_int in
      let '(labels, hash_to_int'') := edge_labels N rest hash_to_int' in
      (label :: labels, hash_to_int'')
  end.

(** Both ends of the edge are nodes. *)
Definition between_nodes (N : nat) (e : edge) : Prop := e.1 < N /\ e.2 < N.

(** What holds of a registry [m] that started empty and has served the
    edges [es], returning the labels [ls]. *)
Record edge_registry (N : nat) (es : list edge) (ls : list nat)
    (m : gmap Z nat) : Prop := {
  reg_length : length ls = length es;
  reg_label : forall i e, es !! i = Some e ->
    exists l, ls !! i = Some l /\ m !! hash_edge e N = Some l;
  reg_origin : forall h l, m !! h = Some l ->
    exists i e, es !! i = Some e /\ h = hash_edge e N /\ ls !! i = Some l;
  reg_below : forall h l, m !! h = Some l -> l < size m;
  reg_inj : forall h h' l, m !! h = Some l -> m !! h' = Some l -> h = h'
}.

Lemma hash_edge_exact (N i j : nat) :
  (Z.of_nat N * Z.of_nat N <= size_t_modulus)%Z -> i < N -> j < N ->
  hash_edge (i, j) N = (Z.of_nat N * Z.of_nat i + Z.of_nat j)%Z.
Proof.
  intros HN Hi Hj. unfold hash_edge. simpl. apply Z.mod_small. nia.
Qed.

(** X6.  On edges between nodes, and with [N * N] within [size_t],
    [hash_edge] loses nothing: the quotient and the remainder by [N] give
    the two ends back, so that two such edges with one hash are one edge,
    direction included.  An end that is not a node breaks this: the pair
    (0, N) has the hash of the pair (1, 0). *)
Theorem hash_edge_decodes (N : nat) :
  (Z.of_nat N * Z.of_nat N <= size_t_modulus)%Z ->
  (forall i j, i < N -> j < N ->
     (hash_edge (i, j) N / Z.of_nat N)%Z = Z.of_nat i /\
     (hash_edge (i, j) N mod Z.of_nat N)%Z = Z.of_nat j) /\
  (forall e e', between_nodes N e -> between_nodes N e' ->
     hash_edge e N = hash_edge e' N -> e = e') /\
  hash_edge (0, N) N = hash_edge (1, 0) N.
Proof.
  intros HN.
  assert (forall i j, i < N -> j < N ->
     (hash_edge (i, j) N / Z.of_nat N)%Z = Z.of_nat i /\
     (hash_edge (i, j) N mod Z.of_nat N)%Z = Z.of_nat j) as Hdec.
  { intros i j Hi Hj. rewrite (hash_edge_exact N i j HN Hi Hj).
    rewrite Z.mul_comm. split.
    - rewrite Z.div_add_l by lia. rewrite Z.div_small by lia. lia.
    - rewrite Z.add_comm, Z.mod_add by lia. apply Z.mod_small. lia. }
  split; [exact Hdec|]. split.
  - intros [i j] [i' j'] (Hi & Hj) (Hi' & Hj') Heq. simpl in *.
    destruct (Hdec i j Hi Hj) as (H1 & H2).
    destruct (Hdec i' j' Hi' Hj') as (H1' & H2').
    rewrite Heq in H1, H2. f_equal; lia.
  - unfold hash_edge. simpl. f_equal. lia.
Qed.

Lemma hash_edge_decodes_witness :
  (hash_edge (2%nat, 1%nat) 3%nat / 3 = 2)%Z /\
  (hash_edge (2%nat, 1%nat) 3%nat mod 3 = 1)%Z.
Proof.
  destruct (hash_edge_decodes 3) as (Hdec & _).
  - vm_compute. discriminate.
  - apply (Hdec 2 1); lia.
Defined.

Lemma hash_edge_inj (N : nat) (e e' : edge) :
  (Z.of_nat N * Z.of_nat N <= size_t_modulus)%Z ->
  between_nodes N e -> between_nodes N e' ->
  hash_edge e N = hash_edge e' N -> e = e'.
Proof.
  intros HN (Hi & Hj) (Hi' & Hj'). destruct e as [i j], e' as [i' j'].
  simpl in *. rewrite !hash_edge_exact by done. intros Heq.
  assert (Z.of_nat i = Z.of_nat i') by nia.
  f_equal; lia.
Qed.

Lemma edge_labels_app (N : nat) (es1 es2 : list edge) (m : gmap Z nat) :
  edge_labels N (es1 ++ es2) m =
    let '(ls1, m1) := edge_labels N es1 m in
    let '(ls2, m2) := edge_labels N es2 m1 in
    (ls1 ++ ls2, m2).
Proof.
  revert m. induction es1 as [|e es1 IH]; intros m; simpl.
  - by destruct (edge_labels N es2 m).
  - destruct (get_edge_integer N e m) as [l m']. rewrite IH.
    destruct (edge_labels N es1 m') as [ls1 m1].
    by destruct (edge_labels N es2 m1).
Qed.

Lemma edge_registry_empty (N : nat) : edge_registry N [] [] ∅.
Proof.
  constructor; done.
Qed.

Lemma edge_registry_step (N : nat) es ls m e :
  edge_registry N es ls m ->
  edge_registry N (es ++ [e]) (ls ++ [(get_edge_integer N e m).1])
    (get_edge_integer N e m).2.
Proof.
  intros Hinv. pose proof (reg_length _ _ _ _ Hinv) as Hlen.
  unfold get_edge_integer.
  destruct (m !! hash_edge e N) as [l|] eqn:Hl; simpl; constructor.
  - rewrite !length_app. simpl. lia.
  - intros i e' Hi. apply lookup_app_Some in Hi as [Hi | (Hge & Hi)].
    + destruct (reg_label _ _ _ _ Hinv i e' Hi) as (l' & Hl' & Hm).
      exists l'. split; [|done]. by apply lookup_app_l_Some.
    + apply list_lookup_singleton_Some in Hi as (Hi & <-).
      exists l. split; [|done]. rewrite lookup_app_r by lia.
      by replace (i - length ls) with 0 by lia.
  - intros h l' Hm.
    destruct (reg_origin _ _ _ _ Hinv h l' Hm) as (i & e' & Hi & -> & Hl').
    exists i, e'. split; [by apply lookup_app_l_Some|].
    split; [done|]. by apply lookup_app_l_Some.
  - apply Hinv.
  - apply Hinv.
  - rewrite !length_app. simpl. lia.
  - intros i e' Hi. apply lookup_app_Some in Hi as [Hi | (Hge & Hi)].
    + destruct (reg_label _ _ _ _ Hinv i e' Hi) as (l' & Hl' & Hm).
      exists l'. split; [by apply lookup_app_l_Some|].
      rewrite lookup_insert_ne; [done|]. congruence.
    + apply list_lookup_singleton_Some in Hi as (Hi & <-).
      exists (size m). split; [|by rewrite lookup_insert_eq].
      rewrite lookup_app_r by lia.
      by replace (i - length ls) with 0 by lia.
  - intros h l' Hm. apply lookup_insert_Some in Hm as [(<- & <-) | (Hne & Hm)].
    + exists (length es), e. split; [|split; [done|]].
      * rewrite lookup_app_r by lia. by rewrite Nat.sub_diag.
      * rewrite lookup_app_r by lia. by rewrite Hlen, Nat.sub_diag.
    + destruct (reg_origin _ _ _ _ Hinv h l' Hm) as (i & e' & Hi & -> & Hl').
      exists i, e'. split; [by apply lookup_app_l_Some|].
      split; [done|]. by apply lookup_app_l_Some.
  - intros h l' Hm. rewrite map_size_insert_None by done.
    apply lookup_insert_Some in Hm as [(_ & <-) | (_ & Hm)]; [lia|].
    apply (reg_below _ _ _ _ Hinv) in Hm. lia.
  - intros h h' l' Hm Hm'.
    apply lookup_insert_Some in Hm as [(<- & <-) | (Hne & Hm)];
      apply lookup_insert_Some in Hm' as [(<- & Heq) | (Hne' & Hm')]; try done.
    + apply (reg_below _ _ _ _ Hinv) in Hm'. lia.
    + apply (reg_below _ _ _ _ Hinv) in Hm. lia.
    + by apply (reg_inj _ _ _ _ Hinv h h' l').
Qed.

Lemma edge_labels_inv (N : nat) (es : list edge) :
  edge_registry N es (edge_labels N es ∅).1 (edge_labels N es ∅).2.
Proof.
  induction es as [|e es IH] using rev_ind; [apply edge_registry_empty|].
  rewrite edge_labels_app. destruct (edge_labels N es ∅) as [ls m]. simpl in *.
  destruct (get_edge_integer N e m) as [l m'] eqn:He. simpl.
  pose proof (edge_registry_step N es ls m e IH) as Hstep.
  by rewrite He in Hstep.
Qed.

(** The registry holds one entry for each edge that it has seen. *)
Lemma edge_labels_size (N : nat) (es : list edge) :
  (Z.of_nat N * Z.of_nat N <= size_t_modulus)%Z ->
  Forall (between_nodes N) es ->
  size (edge_labels N es ∅).2 = size (list_to_set es : gset edge).
Proof.
  intros HN. induction es as [|e es IH] using rev_ind; intros Hes.
  - cbn. by rewrite map_size_empty, size_empty.
  - apply Forall_app in Hes as (Hes & He). rewrite Forall_singleton in He.
    specialize (IH Hes). pose proof (edge_labels_inv N es) as Hinv.
    rewrite edge_labels_app.
    destruct (edge_labels N es ∅) as [ls m]. simpl in *.
    unfold get_edge_integer.
    destruct (m !! hash_edge e N) as [l|] eqn:Hl; simpl.
    + rewrite IH.
      destruct (reg_origin _ _ _ _ Hinv _ _ Hl) as (i & e' & Hi & Hh & _).
      assert (e' = e) as ->.
      { rewrite Forall_forall in Hes.
        apply (hash_edge_inj N e' e HN); [|done|by symmetry].
        apply Hes. by eapply list_elem_of_lookup_2. }
      f_equal. apply set_eq. intros x.
      rewrite !elem_of_list_to_set, elem_of_app, list_elem_of_singleton.
      split; [by left|]. intros [? | ->]; [done|].
      by eapply list_elem_of_lookup_2.
    + rewrite map_size_insert_None by done. rewrite IH.
      rewrite list_to_set_app_L. simpl.
      rewrite size_union, size_union, size_singleton, size_empty; [lia| |].
      * apply disjoint_empty_r.
      * apply elem_of_disjoint. intros x Hx1 Hx2.
        apply elem_of_list_to_set in Hx1.
        apply elem_of_union in Hx2 as [->%elem_of_singleton | Hx2];
          [|by apply not_elem_of_empty in Hx2].
        apply list_elem_of_lookup in Hx1 as (i & Hi).
        destruct (reg_label _ _ _ _ Hinv i e Hi) as (l & _ & Hm). congruence.
Qed.

(** X7.  Along any sequence of calls of [get_edge_integer] on a registry
    that started empty, with the edges between nodes and [N * N] within
    [size_t]: two calls return the same label exactly when they are given
    the same edge, in the same direction; and an edge not seen before
    receives the number of distinct edges seen before it, so that the
    labels are 0, 1, 2, ... in the order of first appearance. *)
Theorem edge_labels_first_seen (N : nat) (es : list edge) :
  (Z.of_nat N * Z.of_nat N <= size_t_modulus)%Z ->
  Forall (between_nodes N) es ->
  let ls := (edge_labels N es ∅).1 in
  length ls = length es /\
  (forall i j e e', es !! i = Some e -> es !! j = Some e' ->
     (ls !! i = ls !! j <-> e = e')) /\
  (forall j e, es !! j = Some e -> e ∉ take j es ->
     ls !! j = Some (size (list_to_set (take j es) : gset edge))).
Proof.
  intros HN Hes ls. pose proof (edge_labels_inv N es) as Hinv. fold ls in Hinv.
  split; [apply Hinv|]. split.
  - intros i j e e' Hi Hj.
    destruct (reg_label _ _ _ _ Hinv i e Hi) as (l & Hl & Hm).
    destruct (reg_label _ _ _ _ Hinv j e' Hj) as (l' & Hl' & Hm').
    rewrite Hl, Hl'. rewrite Forall_forall in Hes. split.
    + intros [= <-]. apply (hash_edge_inj N e e' HN).
      * apply Hes. by eapply list_elem_of_lookup_2.
      * apply Hes. by eapply list_elem_of_lookup_2.
      * by apply (reg_inj _ _ _ _ Hinv _ _ l).
    + intros <-. congruence.
  - intros j e Hj Hnew.
    pose proof (take_drop_middle es j e Hj) as Hsplit.
    pose proof (edge_labels_inv N (take j es)) as Hinv1.
    assert (Forall (between_nodes N) (take j es)) as Hes1.
    { rewrite Forall_forall in *. intros x Hx. apply Hes. by eapply elem_of_take_1. }
    pose proof (edge_labels_size N _ HN Hes1) as Hsize.
    subst ls. rewrite <- Hsplit at 1. rewrite edge_labels_app.
    destruct (edge_labels N (take j es) ∅) as [ls1 m1] eqn:H1. simpl in *.
    assert (m1 !! hash_edge e N = None) as Hnone.
    { destruct (m1 !! hash_edge e N) as [l|] eqn:Hl; [|done]. exfalso.
      destruct (reg_origin _ _ _ _ Hinv1 _ _ Hl) as (i & e' & Hi & Hh & _).
      apply Hnew. replace e with e'; [by eapply list_elem_of_lookup_2|].
      rewrite Forall_forall in Hes, Hes1.
      apply (hash_edge_inj N e' e HN); [| |done].
      - apply Hes1. by eapply list_elem_of_lookup_2.
      - apply Hes. by eapply list_elem_of_lookup_2. }
    unfold get_edge_integer. rewrite Hnone.
    destruct (edge_labels N (drop (S j) es) _) as [ls2 m2]. simpl.
    assert (length ls1 = j) as Hlen1.
    { rewrite (reg_length _ _ _ _ Hinv1), length_take.
      apply lookup_lt_Some in Hj. lia. }
    rewrite lookup_app_r by lia. rewrite Hlen1, Nat.sub_diag. simpl.
    by rewrite Hsize.
Qed.

Lemma edge_labels_first_seen_witness :
  let ls := (edge_labels 3 [(0, 1); (1, 0); (0, 1); (1, 2)] ∅).1 in
  length ls = 4 /\ ls !! 0 = ls !! 2 /\ ls !! 0 <> ls !! 1 /\ ls !! 3 = Some 2.
Proof.
  destruct (edge_labels_first_seen 3 [(0, 1); (1, 0); (0, 1); (1, 2)])
    as (Hlen & Hsame & Hnew).
  - vm_compute. discriminate.
  - repeat constructor.
  - split; [exact Hlen|]. split; [|split].
    + apply (Hsame 0 2 (0, 1) (0, 1)); reflexivity.
    + intros H. apply (Hsame 0 1 (0, 1) (1, 0)) in H; [discriminate|done|done].
    + apply (Hnew 3 (1, 2)); [reflexivity|]. simpl.
      intros H. repeat (apply elem_of_cons in H as [H | H]; [discriminate|]).
      by apply elem_of_nil in H.
Defined.

End Edge_labels.

(** ** social_trajectories.cpp: the graph under the edge lists of an event *)

Module Graph_updates.
Import Trajectories.

(** The two ways in which the extraction functions apply the lists of an
    event to the graph: the interval mode erases the leaving edges and then
    inserts the entering ones, each put smaller id first; the binned mode
    inserts the entering edges as they are and then erases the leaving
    ones. *)
Definition interval_update (G : graph) (these_edges_in these_edges_out : list edge)
  : outcome graph :=
  G1 ← erase_edges G (sort_edge <$> these_edges_out);
  insert_edges G1 (sort_edge <$> these_edges_in).

Definition binned_update (G : graph) (these_edges_in these_edges_out : list edge)
  : outcome graph :=
  G1 ← insert_edges G these_edges_in;
  erase_edges G1 these_edges_out.

Definition ends_are_nodes (G : graph) (e : edge) : Prop :=
  e.1 < length G /\ e.2 < length G.

Lemma is_edge_insert (G : graph) (i : nat) (s s' : gset nat) (a b : nat) :
  G !! i = Some s ->
  SIRS_cache.is_edge (<[i := s']> G) a b <->
    (a = i /\ b ∈ s') \/ (a <> i /\ SIRS_cache.is_edge G a b).
Proof.
  intros Hi. pose proof (lookup_lt_Some _ _ _ Hi) as Hlt.
  unfold SIRS_cache.is_edge. destruct (decide (a = i)) as [-> | Hne].
  - rewrite list_lookup_insert_eq by done. split.
    + intros (nb & [= <-] & Hb). by left.
    + intros [(_ & Hb) | (? & _)]; [|done]. by exists s'.
  - rewrite list_lookup_insert_ne by done. split.
    + intros H. by right.
    + intros [(? & _) | (_ & H)]; done.
Qed.

Lemma listed_cons (i j : nat) (es : list edge) (a b : nat) :
  SIRS_cache.listed ((i, j) :: es) a b <->
    (a = i /\ b = j) \/ (a = j /\ b = i) \/ SIRS_cache.listed es a b.
Proof.
  unfold SIRS_cache.listed. rewrite !elem_of_cons. split.
  - intros [[[= -> ->] | ?] | [[= -> ->] | ?]]; auto.
  - intros [(-> & ->) | [(-> & ->) | [? | ?]]]; auto.
Qed.

Lemma listed_nil (a b : nat) : ~ SIRS_cache.listed [] a b.
Proof. by intros [?%elem_of_nil | ?%elem_of_nil]. Qed.

Lemma insert_edges_spec (es : list edge) :
  forall G : graph,
    Forall (ends_are_nodes G) es ->
    exists G', insert_edges G es = Ok G' /\ length G' = length G /\
      forall a b, SIRS_cache.is_edge G' a b <->
        SIRS_cache.is_edge G a b \/ SIRS_cache.listed es a b.
Proof.
  induction es as [|[i j] rest IH]; intros G Hes.
  - exists G. split; [done|]. split; [done|]. intros a b. split; [by left|].
    intros [? | ?%listed_nil]; done.
  - apply Forall_cons in Hes as ((Hi & Hj) & Hrest). simpl in Hi, Hj.
    destruct (lookup_lt_is_Some_2 G i Hi) as [si Hsi].
    set (G1 := <[i := si ∪ {[j]}]> G).
    destruct (lookup_lt_is_Some_2 G1 j) as [sj Hsj].
    { subst G1. by rewrite length_insert. }
    set (G2 := <[j := sj ∪ {[i]}]> G1).
    destruct (IH G2) as (G' & HG' & Hlen & Hedge).
    { eapply Forall_impl; [exact Hrest|]. intros e (? & ?).
      subst G2 G1. unfold ends_are_nodes. by rewrite !length_insert. }
    exists G'. split.
    { simpl. unfold set_insert at 2, at_. rewrite Hsi. simpl. fold G1.
      unfold set_insert, at_. rewrite Hsj. simpl. exact HG'. }
    split; [subst G2 G1; by rewrite Hlen, !length_insert|].
    intros a b. rewrite Hedge, listed_cons. subst G2.
    rewrite (is_edge_insert G1 j sj _ a b Hsj). subst G1.
    rewrite (is_edge_insert G i si _ a b Hsi).
    assert (b ∈ sj <-> SIRS_cache.is_edge (<[i := si ∪ {[j]}]> G) j b) as Hsj'.
    { symmetry. by apply SIRS_cache.is_edge_lookup. }
    rewrite (is_edge_insert G i si _ j b Hsi) in Hsj'.
    assert (forall x, x ∈ si <-> SIRS_cache.is_edge G i x) as Hsi'.
    { intros x. symmetry. by apply SIRS_cache.is_edge_lookup. }
    rewrite !elem_of_union, !elem_of_singleton, Hsj', elem_of_union,
      elem_of_singleton, !Hsi'.
    clear. destruct (decide (a = i)); destruct (decide (a = j)); subst;
      intuition congruence.
Qed.

Lemma erase_edges_spec (es : list edge) :
  forall G : graph,
    Forall (ends_are_nodes G) es ->
    exists G', erase_edges G es = Ok G' /\ length G' = length G /\
      forall a b, SIRS_cache.is_edge G' a b <->
        SIRS_cache.is_edge G a b /\ ~ SIRS_cache.listed es a b.
Proof.
  induction es as [|[i j] rest IH]; intros G Hes.
  - exists G. split; [done|]. split; [done|]. intros a b.
    split; [|by intros (? & _)]. intros H. split; [done|apply listed_nil].
  - apply Forall_cons in Hes as ((Hi & Hj) & Hrest). simpl in Hi, Hj.
    destruct (lookup_lt_is_Some_2 G i Hi) as [si Hsi].
    set (G1 := <[i := si ∖ {[j]}]> G).
    destruct (lookup_lt_is_Some_2 G1 j) as [sj Hsj].
    { subst G1. by rewrite length_insert. }
    set (G2 := <[j := sj ∖ {[i]}]> G1).
    destruct (IH G2) as (G' & HG' & Hlen & Hedge).
    { eapply Forall_impl; [exact Hrest|]. intros e (? & ?).
      subst G2 G1. unfold ends_are_nodes. by rewrite !length_insert. }
    exists G'. split.
    { simpl. unfold set_erase at 2, at_. rewrite Hsi. simpl. fold G1.
      unfold set_erase, at_. rewrite Hsj. simpl. exact HG'. }
    split; [subst G2 G1; by rewrite Hlen, !length_insert|].
    intros a b. rewrite Hedge, listed_cons. subst G2.
    rewrite (is_edge_insert G1 j sj _ a b Hsj). subst G1.
    rewrite (is_edge_insert G i si _ a b Hsi).
    assert (b ∈ sj <-> SIRS_cache.is_edge (<[i := si ∖ {[j]}]> G) j b) as Hsj'.
    { symmetry. by apply SIRS_cache.is_edge_lookup. }
    rewrite (is_edge_insert G i si _ j b Hsi) in Hsj'.
    assert (forall x, x ∈ si <-> SIRS_cache.is_edge G i x) as Hsi'.
    { intros x. symmetry. by apply SIRS_cache.is_edge_lookup. }
    rewrite !elem_of_difference, !elem_of_singleton, Hsj', elem_of_difference,
      elem_of_singleton, !Hsi'.
    clear. destruct (decide (a = i)); destruct (decide (a = j));
      destruct (decide (b = i)); destruct (decide (b = j)); subst;
      intuition congruence.
Qed.

Lemma insert_edges_Ok_between (es : list edge) :
  forall G G' : graph, insert_edges G es = Ok G' -> Forall (ends_are_nodes G) es.
Proof.
  induction es as [|[i j] rest IH]; intros G G'; simpl; [constructor|].
  destruct (set_insert G i j) as [G1|] eqn:H1; [|done]. simpl.
  destruct (set_insert G1 j i) as [G2|] eqn:H2; [|done]. simpl.
  intros Hrest.
  apply set_insert_Ok in H1 as (s1 & Hs1 & ->).
  apply set_insert_Ok in H2 as (s2 & Hs2 & ->).
  apply lookup_lt_Some in Hs1, Hs2. rewrite length_insert in Hs2.
  constructor; [by split|].
  eapply Forall_impl; [exact (IH _ _ Hrest)|].
  intros e. unfold ends_are_nodes. by rewrite !length_insert.
Qed.

Lemma erase_edges_Ok_between (es : list edge) :
  forall G G' : graph, erase_edges G es = Ok G' -> Forall (ends_are_nodes G) es.
Proof.
  induction es as [|[i j] rest IH]; intros G G'; simpl; [constructor|].
  destruct (set_erase G i j) as [G1|] eqn:H1; [|done]. simpl.
  destruct (set_erase G1 j i) as [G2|] eqn:H2; [|done]. simpl.
  intros Hrest.
  apply set_erase_Ok in H1 as (s1 & Hs1 & ->).
  apply set_erase_Ok in H2 as (s2 & Hs2 & ->).
  apply lookup_lt_Some in Hs1, Hs2. rewrite length_insert in Hs2.
  constructor; [by split|].
  eapply Forall_impl; [exact (IH _ _ Hrest)|].
  intros e. unfold ends_are_nodes. by rewrite !length_insert.
Qed.

Lemma insert_edges_Err (es : list edge) :
  forall (G : graph) e, insert_edges G es = Err e -> e = undefined_behaviour.
Proof.
  induction es as [|[i j] rest IH]; intros G e; simpl; [done|].
  unfold set_insert at 2, at_. destruct (G !! i) as [si|]; simpl; [|by intros [= <-]].
  unfold set_insert, at_. destruct (_ !! j) as [sj|]; simpl; [|by intros [= <-]].
  apply IH.
Qed.

Lemma erase_edges_Err (es : list edge) :
  forall (G : graph) e, erase_edges G es = Err e -> e = undefined_behaviour.
Proof.
  induction es as [|[i j] rest IH]; intros G e; simpl; [done|].
  unfold set_erase at 2, at_. destruct (G !! i) as [si|]; simpl; [|by intros [= <-]].
  unfold set_erase, at_. destruct (_ !! j) as [sj|]; simpl; [|by intros [= <-]].
  apply IH.
Qed.

Lemma listed_sort_edge (es : list edge) (a b : nat) :
  SIRS_cache.listed (sort_edge <$> es) a b <-> SIRS_cache.listed es a b.
Proof.
  induction es as [|[i j] rest IH]; [done|].
  rewrite fmap_cons. unfold sort_edge at 1. simpl.
  destruct (j <? i); rewrite !listed_cons, IH; tauto.
Qed.

Lemma between_sort_edge (G : graph) (es : list edge) :
  Forall (ends_are_nodes G) es -> Forall (ends_are_nodes G) (sort_edge <$> es).
Proof.
  intros H. apply Forall_fmap. eapply Forall_impl; [exact H|].
  intros [i j] (Hi & Hj). unfold sort_edge, ends_are_nodes. simpl in *.
  destruct (j <? i); simpl; lia.
Qed.

(** X8.  The loop that inserts the edges of a list returns normally when
    both ends of every edge are nodes, and then it adds each listed edge in
    both directions and nothing else; with an end that is not a node it
    writes outside the graph, and raises nothing. *)
Theorem insert_edges_adds_both_directions (G : graph) (es : list edge) :
  match insert_edges G es with
  | Ok G' =>
      Forall (ends_are_nodes G) es /\ length G' = length G /\
      forall a b, SIRS_cache.is_edge G' a b <->
        SIRS_cache.is_edge G a b \/ SIRS_cache.listed es a b
  | Err e => e = undefined_behaviour /\ ~ Forall (ends_are_nodes G) es
  end.
Proof.
  destruct (insert_edges G es) as [G'|e] eqn:Hrun.
  - pose proof (insert_edges_Ok_between es G G' Hrun) as Hes.
    split; [done|].
    destruct (insert_edges_spec es G Hes) as (G'' & Hrun' & Hlen & Hedge).
    rewrite Hrun in Hrun'. injection Hrun' as <-. done.
  - split; [by eapply insert_edges_Err|]. intros Hes.
    destruct (insert_edges_spec es G Hes) as (G'' & Hrun' & _). congruence.
Qed.

(** X9.  The loop that erases the edges of a list returns normally when
    both ends of every edge are nodes, and then it removes each listed edge
    in both directions, whether it was there or not, and nothing else; with
    an end that is not a node it reads outside the graph, and raises
    nothing. *)
Theorem erase_edges_removes_both_directions (G : graph) (es : list edge) :
  match erase_edges G es with
  | Ok G' =>
      Forall (ends_are_nodes G) es /\ length G' = length G /\
      forall a b, SIRS_cache.is_edge G' a b <->
        SIRS_cache.is_edge G a b /\ ~ SIRS_cache.listed es a b
  | Err e => e = undefined_behaviour /\ ~ Forall (ends_are_nodes G) es
  end.
Proof.
  destruct (erase_edges G es) as [G'|e] eqn:Hrun.
  - pose proof (erase_edges_Ok_between es G G' Hrun) as Hes.
    split; [done|].
    destruct (erase_edges_spec es G Hes) as (G'' & Hrun' & Hlen & Hedge).
    rewrite Hrun in Hrun'. injection Hrun' as <-. done.
  - split; [by eapply erase_edges_Err|]. intros Hes.
    destruct (erase_edges_spec es G Hes) as (G'' & Hrun' & _). congruence.
Qed.

(** X10.  The two modes apply the lists of an event in opposite orders.
    The interval mode leaves the graph with the old edges that are not
    leaving and with all entering ones, which is the change that
    [SIRS::update_network] takes its lists to describe; the binned mode
    leaves it with the old and the entering edges that are not leaving.
    The two graphs are the same exactly when no edge is listed both as
    entering and as leaving. *)
Theorem modes_apply_lists_in_opposite_orders (G : graph)
    (these_edges_in these_edges_out : list edge) :
  Forall (ends_are_nodes G) these_edges_in ->
  Forall (ends_are_nodes G) these_edges_out ->
  exists G_interval G_binned,
    interval_update G these_edges_in these_edges_out = Ok G_interval /\
    binned_update G these_edges_in these_edges_out = Ok G_binned /\
    (forall a b, SIRS_cache.is_edge G_interval a b <->
       (SIRS_cache.is_edge G a b /\ ~ SIRS_cache.listed these_edges_out a b) \/
       SIRS_cache.listed these_edges_in a b) /\
    (forall a b, SIRS_cache.is_edge G_binned a b <->
       (SIRS_cache.is_edge G a b \/ SIRS_cache.listed these_edges_in a b) /\
       ~ SIRS_cache.listed these_edges_out a b) /\
    ((forall a b, SIRS_cache.is_edge G_interval a b <-> SIRS_cache.is_edge G_binned a b)
     <->
     (forall a b, SIRS_cache.listed these_edges_in a b ->
                  ~ SIRS_cache.listed these_edges_out a b)).
Proof.
  intros Hin Hout. unfold interval_update, binned_update.
  destruct (erase_edges_spec _ G (between_sort_edge G _ Hout))
    as (G1 & -> & Hlen1 & Hedge1).
  destruct (insert_edges_spec (sort_edge <$> these_edges_in) G1)
    as (G2 & HG2 & Hlen2 & Hedge2).
  { eapply Forall_impl; [exact (between_sort_edge G _ Hin)|].
    intros e. unfold ends_are_nodes. by rewrite Hlen1. }
  destruct (insert_edges_spec _ G Hin) as (G3 & -> & Hlen3 & Hedge3).
  destruct (erase_edges_spec these_edges_out G3) as (G4 & HG4 & Hlen4 & Hedge4).
  { eapply Forall_impl; [exact Hout|].
    intros e. unfold ends_are_nodes. by rewrite Hlen3. }
  simpl. exists G2, G4. split; [done|]. split; [done|].
  assert (forall a b, SIRS_cache.is_edge G2 a b <->
       (SIRS_cache.is_edge G a b /\ ~ SIRS_cache.listed these_edges_out a b) \/
       SIRS_cache.listed these_edges_in a b) as H2.
  { intros a b. by rewrite Hedge2, Hedge1, !listed_sort_edge. }
  assert (forall a b, SIRS_cache.is_edge G4 a b <->
       (SIRS_cache.is_edge G a b \/ SIRS_cache.listed these_edges_in a b) /\
       ~ SIRS_cache.listed these_edges_out a b) as H4.
  { intros a b. by rewrite Hedge4, Hedge3. }
  split; [done|]. split; [done|]. split.
  - intros Hsame a b Ha Hb.
    assert (SIRS_cache.is_edge G4 a b) as H; [|apply H4 in H; tauto].
    apply Hsame, H2. by right.
  - intros Hdis a b. rewrite H2, H4. specialize (Hdis a b). tauto.
Qed.

Lemma modes_apply_lists_in_opposite_orders_witness :
  exists G_interval G_binned,
    interval_update [∅; ∅] [(0, 1)] [(1, 0)] = Ok G_interval /\
    binned_update [∅; ∅] [(0, 1)] [(1, 0)] = Ok G_binned /\
    SIRS_cache.is_edge G_interval 0 1 /\ ~ SIRS_cache.is_edge G_binned 0 1.
Proof.
  destruct (modes_apply_lists_in_opposite_orders [∅; ∅] [(0, 1)] [(1, 0)])
    as (G_interval & G_binned & Hi & Hb & Hedge_i & Hedge_b & _).
  - repeat constructor.
  - repeat constructor.
  - exists G_interval, G_binned. split; [exact Hi|]. split; [exact Hb|]. split.
    + apply Hedge_i. right. left. left.
    + intros H. apply Hedge_b in H as (_ & H). apply H. right. left.
Defined.

End Graph_updates.

(** ** social_trajectories.cpp: the bounds of [get_group_integer] *)

Module Group_labels.
Import Trajectories.

Section Bounds.

(** [std::hash<vector<bool>>], of the C++ library. *)
Variable hash_calculator : list bool -> Z.

Lemma mark_members_Ok (nodes : list nat) :
  forall g g' : list bool,
    mark_members g nodes = Ok g' -> forall x, x ∈ nodes -> x < length g.
Proof.
  induction nodes as [|y rest IH]; intros g g'; simpl.
  - intros _ x Hx. by apply elem_of_nil in Hx.
  - unfold assign. case_decide as Hy; [|done]. simpl. intros Hrest x Hx.
    apply elem_of_cons in Hx as [-> | Hx]; [done|].
    specialize (IH _ _ Hrest x Hx). by rewrite length_insert in IH.
Qed.

Lemma mark_members_Err (nodes : list nat) :
  forall (g : list bool) e, mark_members g nodes = Err e -> e = undefined_behaviour.
Proof.
  induction nodes as [|y rest IH]; intros g e; simpl; [done|].
  unfold assign. case_decide; simpl; [apply IH|by intros [= <-]].
Qed.

(** X11.  [get_group_integer] returns normally exactly when every member
    of the component is a node: it then returns the hash of the membership
    indicator over the [N] nodes and the label filed under that hash, in a
    registry that holds all the entries it held.  A member that is not
    below [N] is written outside the indicator: nothing is raised. *)
Theorem get_group_integer_bounds (N : nat) (component : gset nat)
    (hash_to_int : gmap Z nat) :
  match get_group_integer hash_calculator N component hash_to_int with
  | Ok (label, hash_to_int', this_hash) =>
      in_range N component /\
      this_hash = hash_calculator (indicator N component) /\
      hash_to_int' !! this_hash = Some label /\
      hash_to_int ⊆ hash_to_int' /\
      size hash_to_int' <= S (size hash_to_int)
  | Err e => e = undefined_behaviour /\ ~ in_range N component
  end.
Proof.
  destruct (get_group_integer hash_calculator N component hash_to_int)
    as [[[label m'] h]|e] eqn:Hrun.
  - assert (in_range N component) as Hr.
    { unfold get_group_integer in Hrun.
      destruct (mark_members (replicate N false) (set_iter component))
        as [g|] eqn:Hg; [|done].
      intros x Hx. apply set_iter_elem in Hx.
      apply (mark_members_Ok _ _ _ Hg) in Hx.
      by rewrite length_replicate in Hx. }
    split; [done|].
    rewrite (get_group_integer_eq hash_calculator N component hash_to_int Hr) in Hrun.
    unfold group_hash in Hrun.
    destruct (hash_to_int !! hash_calculator (indicator N component)) as [l|] eqn:Hl.
    + injection Hrun as <- <- <-. split; [done|]. split; [done|]. split; [done|].
      lia.
    + injection Hrun as <- <- <-. split; [done|].
      split; [by rewrite lookup_insert_eq|]. split; [by apply insert_subseteq|].
      rewrite map_size_insert_None by done. lia.
  - unfold get_group_integer in Hrun.
    destruct (mark_members (replicate N false) (set_iter component))
      as [g|] eqn:Hg.
    + simpl in Hrun.
      by destruct (hash_to_int !! hash_calculator g).
    + simpl in Hrun. injection Hrun as <-.
      split; [by eapply mark_members_Err|]. intros Hr.
      rewrite (mark_members_set N component Hr) in Hg. done.
Qed.

End Bounds.

End Group_labels.

(** ** social_trajectories.cpp: the interval mode on snapshots, and what
    both interval functions return *)

Module Interval_mode.
Import Trajectories.

Section Intervals.

Variable hash_calculator : list bool -> Z.
Variable component_of : nat -> graph -> gset nat.
Variable from_edgelist : graph -> list edge -> outcome graph.

(** The [while] loop of [social_trajectory_from_edge_lists]; the two
    iterators advance together and the loop ends with the first that
    does. *)
Fixpoint social_lists_loop (N node : nat) (t0 tmax : Q)
    (time : list Q) (all_edges : list (list edge))
    (G : graph) (last_time_active : Q) (old_component : gset nat)
    (hash_to_int : gmap Z nat)
    (social_trajectory : list social_trajectory_entry.record)
  : outcome (list social_trajectory_entry.record) :=
  match time, all_edges with
  | t :: time', these_edges :: edges' =>
      G' ← from_edgelist G these_edges;
      let new_component := component_of node G' in
      let component_changed := negb (bool_decide (old_component = new_component)) in
      '(hash_to_int1, social_trajectory1) ←
         (if (1 <? size old_component) && component_changed && Qlt_bool t0 t
          then close_interval hash_calculator N old_component hash_to_int
                 social_trajectory last_time_active t
          else Ok (hash_to_int, social_trajectory));
      let last_time_active1 := if component_changed then t else last_time_active in
      let old_component1 := new_component in
      '(hash_to_int2, social_trajectory2, last_time_active2) ←
         (match time' with
          | [] =>
              if 1 <? size old_component1
              then '(h, s) ← close_interval hash_calculator N old_component1
                                hash_to_int1 social_trajectory1
                                last_time_active1 tmax;
                   Ok (h, s, tmax)
              else Ok (hash_to_int1, social_trajectory1, last_time_active1)
          | _ :: _ => Ok (hash_to_int1, social_trajectory1, last_time_active1)
          end);
      social_lists_loop N node t0 tmax time' edges' G' last_time_active2
        old_component1 hash_to_int2 social_trajectory2
  | _, _ => Ok social_trajectory
  end.

(** [social_trajectory_from_edge_lists(list_of_edge_lists, node, verbose)]. *)
Definition social_trajectory_from_edge_lists
    (list_of_edge_lists : edge_lists.record) (node : nat)
  : outcome (list social_trajectory_entry.record) :=
  let all_edges := edge_lists.edges list_of_edge_lists in
  let time := edge_lists.t list_of_edge_lists in
  let N := edge_lists.N list_of_edge_lists in
  let G := replicate N ∅ in
  t0 ← at_ time 0;
  let tmax := edge_lists.tmax list_of_edge_lists in
  time_back ← back time;
  if Qlt_bool tmax time_back
  then Err (domain_error
              "The value tmax is smaller than the last time in the time list.")
  else
    let last_time_active := t0 in
    let old_component := component_of node G in
    social_lists_loop N node t0 tmax time all_edges G
      last_time_active old_component ∅ [].

(** The graph of each snapshot, as the loop builds it. *)
Fixpoint snapshots (G : graph) (all_edges : list (list edge))
  : outcome (list graph) :=
  match all_edges with
  | [] => Ok []
  | these_edges :: edges' =>
      G' ← from_edgelist G these_edges;
      gs ← snapshots G' edges';
      Ok (G' :: gs)
  end.

(** What the interval functions keep of the registry and the trajectory:
    as many entries as labels, the entry of label [k] at position [k]
    under the hash that the registry files [k] under, with at least one
    interval, for a component of more than one node. *)
Definition entries_ok (m : gmap Z nat)
    (traj : list social_trajectory_entry.record) : Prop :=
  length traj = size m /\ registry_ok m /\
  forall k e, traj !! k = Some e ->
    m !! social_trajectory_entry.hash e = Some k /\
    social_trajectory_entry.time_pairs e <> [] /\
    1 < social_trajectory_entry.size e.

(** What every entry of a returned trajectory satisfies. *)
Definition trajectory_ok (traj : list social_trajectory_entry.record) : Prop :=
  NoDup (social_trajectory_entry.hash <$> traj) /\
  Forall (fun e => social_trajectory_entry.time_pairs e <> [] /\
                   1 < social_trajectory_entry.size e) traj.

(** *** The intervals of a snapshot stream tile the run *)

Lemma social_lists_loop_tiles N node t0 tmax :
  forall time edges G gs last lo old m traj l,
    length edges = length time -> time <> [] ->
    snapshots G edges = Ok gs ->
    Forall (component_ok component_of N node) gs ->
    1 < size old -> in_range N old ->
    ascending_from lo time tmax -> (t0 <= lo)%Q -> (last <= lo)%Q ->
    registry_ok m -> length traj = size m ->
    l ≡ₚ all_pairs traj -> chain t0 last l ->
    exists traj',
      social_lists_loop N node t0 tmax time edges G last old m traj = Ok traj' /\
      tiles t0 tmax traj'.
Proof.
  induction time as [|t time' IH];
    intros edges G gs last lo old m traj l Hedges Hne Hsnap Hgs
           Hsize Hr Hasc Hlo Hlast Hok Hlen Hl Hchain; [done|].
  destruct edges as [|these_edges edges']; [done|].
  simpl in Hedges, Hasc. destruct Hasc as (Hlt & Hasc).
  simpl in Hsnap. simpl.
  destruct (from_edgelist G these_edges) as [G'|]; [|done].
  simpl in Hsnap |- *.
  destruct (snapshots G' edges') as [gs'|] eqn:Hsnap'; [|done].
  simpl in Hsnap. injection Hsnap as <-.
  apply Forall_cons in Hgs as ((Hsize2 & Hr2) & Hgs').
  assert (t0 < t)%Q as Ht0 by (by eapply Qle_lt_trans).
  assert (last <= t)%Q as Hlast_t.
  { apply Qlt_le_weak. by eapply Qle_lt_trans. }
  destruct (close_on_change hash_calculator N t0 t last old m traj l
              (negb (bool_decide (old = component_of node G'))))
    as (m1 & traj1 & l1 & -> & Hok1 & Hlen1 & Hl1 & Hchain1); try done.
  simpl.
  set (last1 := if negb (bool_decide (old = component_of node G')) then t else last)
    in *.
  assert (last1 <= t)%Q as Hlast1.
  { subst last1. destruct (negb _); [apply Qle_refl|done]. }
  destruct time' as [|t' time''].
  - rewrite (proj2 (Nat.ltb_lt 1 _) Hsize2).
    destruct (close_interval_spec hash_calculator N (component_of node G') m1 traj1
                last1 tmax Hok1 Hlen1 Hr2) as (m2 & traj2 & -> & Hok2 & Hlen2 & Hp2).
    simpl. destruct edges'; (exists traj2; split; [done|]);
      (exists (l1 ++ [(last1, tmax)]); split; [by rewrite Hp2, Hl1|]);
      (apply chain_snoc; [done|]); simpl in Hasc; by eapply Qle_trans.
  - simpl (mbind _ (Ok _)).
    apply (IH edges' G' gs' last1 t (component_of node G') m1 traj1 l1);
      try done; try lia.
    by apply Qlt_le_weak.
Qed.

Lemma ascending_last_cons t0 rest tmax tb :
  ascending_from t0 rest tmax -> last (t0 :: rest) = Some tb -> (tb <= tmax)%Q.
Proof.
  destruct rest as [|t rest'].
  - simpl. by intros ? [= <-].
  - intros Hasc Hlast. by apply (ascending_last t0 (t :: rest') tmax tb).
Qed.

(** X12.  For a snapshot stream with as many edge lists as times, the
    times ascending from the first one and ending at or before [tmax], and
    a focal node whose component in every snapshot has more than one node,
    all of them nodes, the interval mode returns, and the intervals it
    returns, taken over all labels, follow one another from the time of
    the first snapshot to [tmax]: no gap, no overlap.  Whatever held before
    the first snapshot yields no interval. *)
Theorem snapshot_intervals_tile (el : edge_lists.record) (node : nat)
    (t0 : Q) (rest : list Q) (gs : list graph) :
  edge_lists.t el = t0 :: rest ->
  length (edge_lists.edges el) = length (edge_lists.t el) ->
  ascending_from t0 rest (edge_lists.tmax el) ->
  snapshots (replicate (edge_lists.N el) ∅) (edge_lists.edges el) = Ok gs ->
  Forall (component_ok component_of (edge_lists.N el) node) gs ->
  exists traj,
    social_trajectory_from_edge_lists el node = Ok traj /\
    tiles t0 (edge_lists.tmax el) traj.
Proof.
  intros Ht Hedges Hasc Hsnap Hgs.
  unfold social_trajectory_from_edge_lists. rewrite Ht in *. simpl at_. simpl.
  destruct (last (t0 :: rest)) as [tb|] eqn:Hlast.
  2: { by apply last_None in Hlast. }
  unfold back. rewrite Hlast. simpl.
  rewrite (Qlt_bool_false _ _ (ascending_last_cons _ _ _ _ Hasc Hlast)).
  destruct (edge_lists.edges el) as [|these_edges edges']; [done|].
  simpl in Hedges, Hsnap. simpl.
  destruct (from_edgelist _ these_edges) as [G'|]; [|done]. simpl in Hsnap |- *.
  destruct (snapshots G' edges') as [gs'|] eqn:Hsnap'; [|done].
  simpl in Hsnap. injection Hsnap as <-.
  apply Forall_cons in Hgs as ((Hsize & Hr) & Hgs').
  rewrite (Qlt_bool_false t0 t0 (Qle_refl _)), andb_false_r. simpl.
  set (old0 := component_of node (replicate (edge_lists.N el) ∅)).
  assert ((if negb (bool_decide (old0 = component_of node G')) then t0 else t0) = t0)
    as -> by (by destruct (negb _)).
  destruct rest as [|t rest'].
  - rewrite (proj2 (Nat.ltb_lt 1 _) Hsize).
    destruct (close_interval_spec hash_calculator (edge_lists.N el)
                (component_of node G') ∅ [] t0 (edge_lists.tmax el))
      as (m2 & traj2 & -> & _ & _ & Hp2); try done.
    simpl. destruct edges'; (exists traj2; split; [done|]);
      (exists [(t0, edge_lists.tmax el)]; split; [by rewrite Hp2|]);
      (apply chain_cons; [exact Hasc|apply chain_nil]).
  - remember (t :: rest') as time' eqn:Htime'. simpl (mbind _ (Ok _)).
    subst time'.
    apply (social_lists_loop_tiles _ _ _ _ _ _ G' gs' _ t0 _ _ _ []);
      try done; try lia; try apply Qle_refl.
    apply chain_nil.
Qed.

(** *** What a returned trajectory is made of *)

Lemma entries_ok_empty : entries_ok ∅ [].
Proof.
  split; [by rewrite map_size_empty|]. split.
  - by intros h l ?%lookup_empty_Some.
  - by intros k e ?.
Qed.

Lemma close_interval_entries (N : nat) (c : gset nat) (m : gmap Z nat)
    traj a b m' traj' :
  1 < size c -> entries_ok m traj ->
  close_interval hash_calculator N c m traj a b = Ok (m', traj') ->
  entries_ok m' traj'.
Proof.
  intros Hc (Hlen & Hok & Hent). unfold close_interval, get_group_integer.
  destruct (mark_members _ _) as [g|]; [|done]. simpl.
  destruct (m !! hash_calculator g) as [l|] eqn:Hl; simpl.
  - pose proof (Hok _ _ Hl) as Hlt.
    rewrite (proj2 (Nat.eqb_neq l (length traj))) by lia.
    destruct (lookup_lt_is_Some_2 traj l) as [e He]; [lia|].
    unfold at_. rewrite He. simpl. intros [= <- <-].
    split; [by rewrite length_insert|]. split; [done|].
    intros k e' Hk. destruct (decide (k = l)) as [-> | Hne].
    + rewrite list_lookup_insert_eq in Hk by lia. injection Hk as <-. simpl.
      destruct (Hent l e He) as (? & _ & ?). split; [done|]. split; [|done].
      intros Happ. by apply app_eq_nil in Happ as (_ & ?).
    + rewrite list_lookup_insert_ne in Hk by done. by apply Hent.
  - rewrite <- Hlen, Nat.eqb_refl.
    unfold at_. rewrite lookup_app_r, Nat.sub_diag by lia. simpl.
    intros [= <- <-].
    rewrite insert_app_r_alt, Nat.sub_diag by lia. simpl.
    split; [|split].
    + rewrite length_app, map_size_insert_None by done. simpl. lia.
    + intros h l Hm. rewrite map_size_insert_None by done.
      apply lookup_insert_Some in Hm as [(_ & <-) | (_ & Hm)]; [lia|].
      apply Hok in Hm. lia.
    + intros k e' Hk. apply lookup_app_Some in Hk as [Hk | (Hge & Hk)].
      * destruct (Hent k e' Hk) as (Hm & ? & ?). split; [|done].
        rewrite lookup_insert_ne; [done|]. congruence.
      * apply list_lookup_singleton_Some in Hk as (Hk & <-). simpl.
        split; [|done]. rewrite lookup_insert_eq. f_equal. lia.
Qed.

Lemma entries_trajectory_ok m traj : entries_ok m traj -> trajectory_ok traj.
Proof.
  intros (_ & _ & Hent). split.
  - apply NoDup_alt. intros i j h Hi Hj.
    rewrite list_lookup_fmap in Hi, Hj.
    destruct (traj !! i) as [ei|] eqn:Hei; [|done].
    destruct (traj !! j) as [ej|] eqn:Hej; [|done].
    simpl in Hi, Hj. injection Hi as Hi. injection Hj as Hj.
    destruct (Hent i ei Hei) as (Hmi & _). destruct (Hent j ej Hej) as (Hmj & _).
    congruence.
  - apply Forall_forall. intros e He.
    apply list_elem_of_lookup in He as (k & Hk).
    by destruct (Hent k e Hk) as (_ & ? & ?).
Qed.

Lemma social_loop_entries N node t0 tmax :
  forall time ins outs G last old m traj traj',
    social_loop hash_calculator component_of N node t0 tmax time ins outs G
      last old m traj = Ok traj' ->
    entries_ok m traj -> exists m', entries_ok m' traj'.
Proof.
  induction time as [|t time' IH]; intros ins outs G last old m traj traj'.
  { simpl. intros [= <-] H. by exists m. }
  destruct ins as [|these_in ins']; [simpl; intros [= <-] H; by exists m|].
  destruct outs as [|these_out outs']; [simpl; intros [= <-] H; by exists m|].
  simpl. destruct (erase_edges G _) as [G1|]; [|done]. simpl.
  destruct (insert_edges G1 _) as [G2|]; [|done]. simpl.
  intros Hrun Hent.
  destruct (if (1 <? size old) && negb (bool_decide (old = component_of node G2))
               && Qlt_bool t0 t
            then close_interval hash_calculator N old m traj last t
            else Ok (m, traj)) as [[m1 traj1]|] eqn:Hfirst; [|done].
  assert (entries_ok m1 traj1) as Hent1.
  { destruct ((1 <? size old) && _ && _) eqn:Hcond.
    - apply andb_true_iff in Hcond as (Hcond & _).
      apply andb_true_iff in Hcond as (Hcond & _). apply Nat.ltb_lt in Hcond.
      by apply (close_interval_entries N old m traj last t).
    - by injection Hfirst as <- <-. }
  simpl in Hrun.
  destruct (match time' with
            | [] => _
            | _ :: _ => _
            end) as [[[m2 traj2] last2]|] eqn:Hsecond; [|done].
  assert (entries_ok m2 traj2) as Hent2.
  { destruct time' as [|t' time''].
    - destruct (1 <? size (component_of node G2)) eqn:Hsize.
      + apply Nat.ltb_lt in Hsize.
        destruct (close_interval _ _ (component_of node G2) _ _ _ _)
          as [[h s]|] eqn:Hclose; simpl in Hsecond; [|done].
        injection Hsecond as <- <- <-.
        by apply close_interval_entries in Hclose.
      + by injection Hsecond as <- <- <-.
    - by injection Hsecond as <- <- <-. }
  simpl in Hrun. by apply IH in Hrun.
Qed.

Lemma social_lists_loop_entries N node t0 tmax :
  forall time edges G last old m traj traj',
    social_lists_loop N node t0 tmax time edges G last old m traj = Ok traj' ->
    entries_ok m traj -> exists m', entries_ok m' traj'.
Proof.
  induction time as [|t time' IH]; intros edges G last old m traj traj'.
  { simpl. intros [= <-] H. by exists m. }
  destruct edges as [|these_edges edges']; [simpl; intros [= <-] H; by exists m|].
  simpl. destruct (from_edgelist G _) as [G2|]; [|done]. simpl.
  intros Hrun Hent.
  destruct (if (1 <? size old) && negb (bool_decide (old = component_of node G2))
               && Qlt_bool t0 t
            then close_interval hash_calculator N old m traj last t
            else Ok (m, traj)) as [[m1 traj1]|] eqn:Hfirst; [|done].
  assert (entries_ok m1 traj1) as Hent1.
  { destruct ((1 <? size old) && _ && _) eqn:Hcond.
    - apply andb_true_iff in Hcond as (Hcond & _).
      apply andb_true_iff in Hcond as (Hcond & _). apply Nat.ltb_lt in Hcond.
      by apply (close_interval_entries N old m traj last t).
    - by injection Hfirst as <- <-. }
  simpl in Hrun.
  destruct (match time' with
            | [] => _
            | _ :: _ => _
            end) as [[[m2 traj2] last2]|] eqn:Hsecond; [|done].
  assert (entries_ok m2 traj2) as Hent2.
  { destruct time' as [|t' time''].
    - destruct (1 <? size (component_of node G2)) eqn:Hsize.
      + apply Nat.ltb_lt in Hsize.
        destruct (close_interval _ _ (component_of node G2) _ _ _ _)
          as [[h s]|] eqn:Hclose; simpl in Hsecond; [|done].
        injection Hsecond as <- <- <-.
        by apply close_interval_entries in Hclose.
      + by injection Hsecond as <- <- <-.
    - by injection Hsecond as <- <- <-. }
  simpl in Hrun. by apply IH in Hrun.
Qed.

(** X13.  Whatever the stream, a trajectory that an interval function
    returns holds each group once: its entries have pairwise different
    hashes, each entry has at least one interval, and each stands for a
    component of more than one node. *)
Theorem interval_entries_are_distinct_groups (ec : edge_changes.record)
    (el : edge_lists.record) (node : nat) :
  (forall traj,
     social_trajectory_from_edge_changes hash_calculator component_of
       from_edgelist ec node = Ok traj ->
     trajectory_ok traj) /\
  (forall traj,
     social_trajectory_from_edge_lists el node = Ok traj -> trajectory_ok traj).
Proof.
  split; intros traj.
  - unfold social_trajectory_from_edge_changes.
    destruct (from_edgelist _ _) as [G0|]; [|done]. simpl.
    destruct (back _) as [tb|]; [|done]. simpl.
    destruct (Qlt_bool _ tb); [done|]. intros Hrun.
    apply social_loop_entries in Hrun as (m' & Hent); [|apply entries_ok_empty].
    by eapply entries_trajectory_ok.
  - unfold social_trajectory_from_edge_lists.
    destruct (at_ _ 0) as [t0|]; [|done]. simpl.
    destruct (back _) as [tb|]; [|done]. simpl.
    destruct (Qlt_bool _ tb); [done|]. intros Hrun.
    apply social_lists_loop_entries in Hrun as (m' & Hent); [|apply entries_ok_empty].
    by eapply entries_trajectory_ok.
Qed.

End Intervals.

Lemma late_meeting_lists_trajectory :
  social_trajectory_from_edge_lists binary_value get_component_of_node
    graph_from_edgelist late_meeting_lists 0 =
  Ok [social_trajectory_entry.mk 2 3 [(0, 5 # 2)%Q];
      social_trajectory_entry.mk 3 7 [(5 # 2, 4)%Q]].
Proof. reflexivity. Qed.

Lemma snapshot_intervals_tile_witness :
  exists traj,
    social_trajectory_from_edge_lists binary_value get_component_of_node
      graph_from_edgelist late_meeting_lists 0 = Ok traj /\
    tiles 0 4 traj.
Proof.
  apply (snapshot_intervals_tile binary_value get_component_of_node
           graph_from_edgelist late_meeting_lists 0 0%Q [(5 # 2)%Q]
           [[{[1]}; {[0]}; ∅]; [{[1]}; {[0; 2]}; {[1]}]]).
  - reflexivity.
  - reflexivity.
  - simpl. split; reflexivity || discriminate.
  - reflexivity.
  - constructor; [|constructor; [|constructor]].
    + unfold component_ok.
      change (get_component_of_node 0 [{[1]}; {[0]}; ∅]) with ({[0; 1]} : gset nat).
      split; [vm_compute; lia|]. intros x Hx. simpl. set_unfold. lia.
    + unfold component_ok.
      change (get_component_of_node 0 [{[1]}; {[0; 2]}; {[1]}])
        with ({[0; 1; 2]} : gset nat).
      split; [vm_compute; lia|]. intros x Hx. simpl. set_unfold. lia.
Defined.

Lemma interval_entries_are_distinct_groups_witness :
  trajectory_ok
    [social_trajectory_entry.mk 2 3 [(0, 5 # 2)%Q];
     social_trajectory_entry.mk 3 7 [(5 # 2, 4)%Q]].
Proof.
  destruct (interval_entries_are_distinct_groups binary_value
              get_component_of_node graph_from_edgelist late_meeting
              late_meeting_lists 0) as (_ & H).
  apply H. exact late_meeting_lists_trajectory.
Defined.

End Interval_mode.

(** ** social_trajectories.cpp: the bins of the binned mode *)

Module Binned_mode.
Import Trajectories.

(** The graph after all the events of an edge-diff stream, as the binned
    mode applies them. *)
Fixpoint binned_replay (G : graph) (all_edges_in all_edges_out : list (list edge))
  : outcome graph :=
  match all_edges_in, all_edges_out with
  | these_edges_in :: ins', these_edges_out :: outs' =>
      G' ← Graph_updates.binned_update G these_edges_in these_edges_out;
      binned_replay G' ins' outs'
  | _, _ => Ok G
  end.

(** Two nodes that meet at the end of the span, in an edge-diff stream. *)
Definition meet_at_end : edge_changes.record :=
  edge_changes.mk 2 0 1 [] [1%Q] [[(0, 1)]] [[]].

(** The focal node has a neighbor in [G]. *)
Definition has_neighbor (G : graph) (node : nat) : Prop :=
  exists nb, G !! node = Some nb /\ nb <> ∅.

(** The bin [k] of the trajectory holds a label. *)
Definition bin_filled (trajectory : list (gset nat)) (k : nat) : Prop :=
  exists s, trajectory !! k = Some s /\ s <> ∅.

(** The graph after each event of an edge-diff stream, as the binned mode
    applies them. *)
Fixpoint binned_graphs (G : graph) (all_edges_in all_edges_out : list (list edge))
  : outcome (list graph) :=
  match all_edges_in, all_edges_out with
  | these_edges_in :: ins', these_edges_out :: outs' =>
      G' ← Graph_updates.binned_update G these_edges_in these_edges_out;
      gs ← binned_graphs G' ins' outs';
      Ok (G' :: gs)
  | _, _ => Ok []
  end.

(** The times do not descend from [lo] and do not pass [tmax]. *)
Fixpoint not_descending (lo : Q) (time : list Q) (tmax : Q) : Prop :=
  match time with
  | [] => (lo <= tmax)%Q
  | t :: rest => (lo <= t)%Q /\ not_descending t rest tmax
  end.

(** One of the events falls into the bin [k] of [n] and leaves the focal
    node with a neighbor: [gs] holds the graph after each event. *)
Definition event_in_bin (t0 tmax : Q) (n node : nat) (time : list Q)
    (gs : list graph) (k : nat) : Prop :=
  exists i t Gi,
    time !! i = Some t /\ gs !! i = Some Gi /\
    bin_of t t0 tmax n = Ok k /\ has_neighbor Gi node.

(** The test [t0 + bin_number * dt > this_time] of the loop that steps to
    the bin of an event. *)
Definition bin_start_after (t0 dt this_time : Q) (bin_number : nat) : Prop :=
  (this_time < Double.add t0 (Double.mul (Double.of_size_t bin_number) dt))%Q.

(** The bin [k] lies after the bin of one event, or of the start [lo], and
    not after the bin of the next event; the focal node has a neighbor
    between the two, in [G] at the start; and the test holds at the next
    event. *)
Definition swept_bin (t0 tmax dt : Q) (n node : nat) (lo : Q) (G : graph)
    (time : list Q) (gs : list graph) (k : nat) : Prop :=
  exists i t t_prev G_prev b b_prev,
    time !! i = Some t /\ (lo :: time) !! i = Some t_prev /\
    (G :: gs) !! i = Some G_prev /\
    bin_of t_prev t0 tmax n = Ok b_prev /\ bin_of t t0 tmax n = Ok b /\
    b_prev < k <= b /\ has_neighbor G_prev node /\ bin_start_after t0 dt t b.

(** Nodes 0 and 1 are linked from 0 on and node 2 joins them at the double
    nearest to 7/10, in a span of 1. *)
Definition late_by_rounding : edge_changes.record :=
  edge_changes.mk 3 0 1 [(0, 1)] [Double.round (7 # 10)] [[(1, 2)]] [[]].

Section Bins.

Variable hash_calculator : list bool -> Z.
Variable component_of : nat -> graph -> gset nat.
Variable from_edgelist : graph -> list edge -> outcome graph.

Lemma set_insert_length (G : graph) (i j : nat) (G' : graph) :
  set_insert G i j = Ok G' -> length G' = length G.
Proof.
  intros (s & _ & ->)%set_insert_Ok. by rewrite length_insert.
Qed.

Lemma advance_bins_shape (bin_difference : nat) (G : graph) (node : nat)
    (bin_start_after : bool) (current_group_integer : nat)
    (hash_to_int : gmap Z nat) :
  forall trajectory current_trajectory_bin trajectory' current_trajectory_bin',
    advance_bins bin_difference G node bin_start_after current_group_integer
      hash_to_int trajectory current_trajectory_bin
      = Ok (trajectory', current_trajectory_bin') ->
    length trajectory' = length trajectory /\
    current_trajectory_bin' = current_trajectory_bin + bin_difference.
Proof.
  induction bin_difference as [|n IH]; intros traj cur traj' cur'; simpl.
  - intros [= <- <-]. split; [done|lia].
  - destruct (at_ G node) as [nb|]; [|done]. simpl.
    destruct ((0 <? size nb) && bin_start_after);
      [destruct (current_group_integer <? size hash_to_int)|].
    + destruct (set_insert traj (S cur) current_group_integer) as [traj1|] eqn:H1;
        [|done].
      simpl. intros Hrest. apply IH in Hrest as (-> & ->).
      apply set_insert_length in H1. split; [done|lia].
    + simpl. intros Hrest. apply IH in Hrest as (-> & ->). split; [done|lia].
    + simpl. intros Hrest. apply IH in Hrest as (-> & ->). split; [done|lia].
Qed.

Lemma advance_to_shape (node : nat) (t0 tmax dt : Q) (N_time_steps : nat)
    (this_time : Q) (G : graph) (current_group_integer : nat)
    (hash_to_int : gmap Z nat) (trajectory : list (gset nat))
    (current_trajectory_bin old_bin_number : nat)
    trajectory' current_trajectory_bin' bin_number :
  advance_to node t0 tmax dt N_time_steps this_time G current_group_integer
    hash_to_int trajectory current_trajectory_bin old_bin_number
    = Ok (trajectory', current_trajectory_bin', bin_number) ->
  bin_of this_time t0 tmax N_time_steps = Ok bin_number /\
  length trajectory' = length trajectory /\
  current_trajectory_bin' =
    current_trajectory_bin
    + Z.to_nat (size_t_sub (Z.of_nat bin_number) (Z.of_nat old_bin_number)).
Proof.
  unfold advance_to.
  destruct (bin_of this_time t0 tmax N_time_steps) as [b|]; [|done]. simpl.
  destruct (advance_bins _ _ _ _ _ _ _ _) as [[traj1 cur1]|] eqn:Hadv; [|done].
  simpl. intros [= <- <- <-]. apply advance_bins_shape in Hadv as (? & ?).
  done.
Qed.

Lemma label_current_bin_shape (N node : nat) (G : graph)
    (current_group_integer : nat) (hash_to_int : gmap Z nat)
    (trajectory : list (gset nat)) (current_trajectory_bin : nat)
    label hash_to_int' trajectory' :
  label_current_bin hash_calculator component_of N node G current_group_integer
    hash_to_int trajectory current_trajectory_bin
    = Ok (label, hash_to_int', trajectory') ->
  length trajectory' = length trajectory /\
  (forall nb, G !! node = Some nb -> nb <> ∅ ->
     current_trajectory_bin < length trajectory).
Proof.
  unfold label_current_bin, at_.
  destruct (G !! node) as [nb|] eqn:Hnb; [|done]. simpl.
  destruct (0 <? size nb) eqn:Hsize.
  - destruct (get_group_integer _ _ _ _) as [[[l m'] h]|]; [|done]. simpl.
    destruct (set_insert trajectory current_trajectory_bin l) as [traj1|] eqn:H1;
      [|done].
    simpl. intros [= <- <- <-].
    split; [by eapply set_insert_length|]. intros _ _ _.
    apply set_insert_Ok in H1 as (s & Hs & _). by eapply lookup_lt_Some.
  - intros [= <- <- <-]. split; [done|]. intros nb' [= <-] Hne.
    apply Nat.ltb_ge in Hsize. assert (size nb = 0) as H0 by lia.
    by apply size_empty_inv, leibniz_equiv in H0.
Qed.

Lemma binned_lists_loop_length (N node : nat) (t0 tmax dt : Q) (N_time_steps : nat)
    (time : list Q) :
  forall all_edges G trajectory hash_to_int current_trajectory_bin
         old_bin_number current_group_integer trajectory',
    binned_lists_loop hash_calculator component_of from_edgelist
      N node t0 tmax dt N_time_steps time all_edges G trajectory hash_to_int
      current_trajectory_bin old_bin_number current_group_integer = Ok trajectory' ->
    length trajectory' = length trajectory.
Proof.
  induction time as [|this_time time' IH];
    intros all_edges G traj m cur old cgi traj'; simpl.
  - by intros [= <-].
  - destruct (advance_to _ _ _ _ _ _ _ _ _ _ _ _) as [[[traj1 cur1] old1]|] eqn:Hadv;
      [|done].
    simpl. destruct (at_ all_edges 0) as [these_edges|]; [|done]. simpl.
    destruct (from_edgelist G these_edges) as [G'|]; [|done]. simpl.
    destruct (label_current_bin _ _ _ _ _ _ _ _ _) as [[[cgi' m'] traj2]|] eqn:Hlab;
      [|done].
    simpl. intros Hrest. apply IH in Hrest as ->.
    apply label_current_bin_shape in Hlab as (-> & _).
    by apply advance_to_shape in Hadv as (_ & -> & _).
Qed.

Lemma binned_changes_loop_length (N node : nat) (t0 tmax dt : Q)
    (N_time_steps : nat) (time : list Q) :
  forall all_edges_in all_edges_out G trajectory hash_to_int
         current_trajectory_bin old_bin_number current_group_integer trajectory',
    binned_changes_loop hash_calculator component_of
      N node t0 tmax dt N_time_steps time all_edges_in all_edges_out G trajectory
      hash_to_int current_trajectory_bin old_bin_number current_group_integer
      = Ok trajectory' ->
    length trajectory' = length trajectory.
Proof.
  induction time as [|this_time time' IH];
    intros ins outs G traj m cur old cgi traj'; simpl.
  - by intros [= <-].
  - destruct (advance_to _ _ _ _ _ _ _ _ _ _ _ _) as [[[traj1 cur1] old1]|] eqn:Hadv;
      [|done].
    simpl. destruct (at_ ins 0) as [these_in|]; [|done]. simpl.
    destruct (insert_edges G these_in) as [G1|]; [|done]. simpl.
    destruct (at_ outs 0) as [these_out|]; [|done]. simpl.
    destruct (erase_edges G1 these_out) as [G2|]; [|done]. simpl.
    destruct (label_current_bin _ _ _ _ _ _ _ _ _) as [[[cgi' m'] traj2]|] eqn:Hlab;
      [|done].
    simpl. intros Hrest. apply IH in Hrest as ->.
    apply label_current_bin_shape in Hlab as (-> & _).
    by apply advance_to_shape in Hadv as (_ & -> & _).
Qed.

Lemma Qtruncate_integer (x : Q) (z : Z) : (x == inject_Z z)%Q -> Qtruncate x = z.
Proof.
  unfold Qeq, Qtruncate. simpl. intros H. rewrite Z.mul_1_r in H. rewrite H.
  by apply Z.quot_mul.
Qed.

Lemma Qtruncate_nonneg (x : Q) : (0 <= x)%Q -> (0 <= Qtruncate x)%Z.
Proof.
  intros Hx. unfold Qtruncate. apply Z.quot_pos; [|lia].
  destruct x as [n d]. unfold Qle in Hx. simpl in *. lia.
Qed.

(** What the check returns when it does: the bins asked for, or, for a
    positive [dt], as many bins as the quotient of the doubles
    [tmax - front] and [dt], which is a whole number then. *)
Lemma check_bins_Ok (front tmax dt : Q) (N_time_steps : nat) (dt' : Q) (n : nat) :
  check_bins front tmax dt N_time_steps = Ok (dt', n) ->
  (0 < N_time_steps -> n = N_time_steps) /\
  ((0 < dt)%Q ->
   dt' = dt /\
   (inject_Z (Z.of_nat n) == Double.div (Double.sub tmax front) dt)%Q) /\
  (~ (0 < dt)%Q -> n = N_time_steps).
Proof.
  unfold check_bins.
  destruct (Qlt_le_dec 0 dt) as [Hpos | Hneg].
  - rewrite (Qlt_bool_true _ _ Hpos).
    assert (Qeq_bool dt 0 = false) as ->.
    { apply not_true_is_false. rewrite Qeq_bool_iff. intros Heq.
      rewrite Heq in Hpos. by apply Qlt_irrefl in Hpos. }
    destruct N_time_steps as [|k]; simpl; [|done].
    destruct (Qeq_bool (modf (Double.div (Double.sub tmax front) dt)) 0) eqn:Hm;
      simpl; [|done].
    apply Qeq_bool_iff in Hm. unfold modf in Hm.
    unfold double_to_size_t. case_decide as Hz; simpl; [|done].
    intros [= <- <-]. split; [lia|]. split; [|done]. intros _. split; [done|].
    rewrite Z2Nat.id by lia. lra.
  - rewrite (Qlt_bool_false _ _ Hneg). simpl.
    assert (~ (0 < dt)%Q) as Hno by (by apply Qle_not_lt).
    destruct (Qeq_bool dt 0) eqn:Hz; destruct N_time_steps as [|k]; simpl; try done;
      intros [= <- <-]; done.
Qed.

(** X14.  When a binned function returns, its trajectory has as many bins
    as the check of [dt] and [N_time_steps] settled on: [N_time_steps]
    when that was given, and otherwise, for a positive [dt], the quotient
    of the doubles [tmax - t0] and [dt], which the check found to be a
    whole number. *)
Theorem binned_trajectory_has_the_bins (el : edge_lists.record)
    (ec : edge_changes.record) (node : nat) (dt : Q) (N_time_steps : nat) :
  (forall trajectory,
     binned_social_trajectory_from_edge_lists hash_calculator component_of
       from_edgelist el node dt N_time_steps = Ok trajectory ->
     exists t0 dt' n,
       edge_lists.t el !! 0 = Some t0 /\
       check_bins t0 (edge_lists.tmax el) dt N_time_steps = Ok (dt', n) /\
       length trajectory = n /\ (0 < N_time_steps -> n = N_time_steps) /\
       ((0 < dt)%Q ->
        (inject_Z (Z.of_nat n)
         == Double.div (Double.sub (edge_lists.tmax el) t0) dt)%Q)) /\
  (forall trajectory,
     binned_social_trajectory_from_edge_changes hash_calculator component_of
       from_edgelist ec node dt N_time_steps = Ok trajectory ->
     exists dt' n,
       check_bins (edge_changes.t0 ec) (edge_changes.tmax ec) dt N_time_steps
         = Ok (dt', n) /\
       length trajectory = n /\ (0 < N_time_steps -> n = N_time_steps) /\
       ((0 < dt)%Q ->
        (inject_Z (Z.of_nat n)
         == Double.div (Double.sub (edge_changes.tmax ec) (edge_changes.t0 ec)) dt)%Q)).
Proof.
  split; intros trajectory.
  - unfold binned_social_trajectory_from_edge_lists, at_.
    destruct (edge_lists.t el !! 0) as [t0|]; [|done]. simpl.
    destruct (back (edge_lists.t el)) as [tb|]; [|done]. simpl.
    destruct (Qlt_bool (edge_lists.tmax el) tb); [done|].
    destruct (check_bins t0 (edge_lists.tmax el) dt N_time_steps)
      as [[dt' n]|] eqn:Hcheck; [|done].
    simpl. intros Hloop. apply binned_lists_loop_length in Hloop.
    rewrite length_replicate in Hloop.
    apply check_bins_Ok in Hcheck as Hbins. destruct Hbins as (? & Hdt & _).
    exists t0, dt', n. repeat (split; [done|]). intros Hpos. by apply Hdt.
  - unfold binned_social_trajectory_from_edge_changes.
    destruct (from_edgelist _ _) as [G0|]; [|done]. simpl.
    destruct (check_bins (edge_changes.t0 ec) (edge_changes.tmax ec) dt N_time_steps)
      as [[dt' n]|] eqn:Hcheck; [|done].
    simpl.
    destruct (label_current_bin _ _ _ _ _ _ _ _ _) as [[[cgi m] traj0]|] eqn:Hlab;
      [|done].
    simpl. destruct (back (edge_changes.t ec)) as [tb|]; [|done]. simpl.
    destruct (Qlt_bool (edge_changes.tmax ec) tb); [done|].
    intros Hloop. apply binned_changes_loop_length in Hloop.
    apply label_current_bin_shape in Hlab as (Hlen0 & _).
    rewrite Hlen0, length_replicate in Hloop.
    apply check_bins_Ok in Hcheck as Hbins. destruct Hbins as (? & Hdt & _).
    exists dt', n. repeat (split; [done|]). intros Hpos. by apply Hdt.
Qed.

(** *** An event at [tmax] *)

Lemma check_bins_Err (front tmax dt : Q) (N_time_steps : nat) (e : error) :
  check_bins front tmax dt N_time_steps = Err e ->
  throws (Err e : outcome (Q * nat)) \/ e = undefined_behaviour.
Proof.
  unfold check_bins.
  repeat match goal with
  | |- context [if ?b then _ else _] => destruct b; simpl
  end; try (intros [= <-]; simpl; by auto); try done.
  unfold double_to_size_t. case_decide; simpl; [done|]. intros [= <-]. by right.
Qed.

(** The number of bins that the check returns is one that a double
    holds, when the [N_time_steps] asked for is. *)
Lemma check_bins_exact (front tmax dt : Q) (N_time_steps : nat) (dt' : Q) (n : nat) :
  check_bins front tmax dt N_time_steps = Ok (dt', n) ->
  (Z.of_nat N_time_steps <= 2 ^ 53)%Z ->
  (Double.of_size_t n == inject_Z (Z.of_nat n))%Q.
Proof.
  intros Hcheck HN. apply check_bins_Ok in Hcheck as (_ & Hpos & Hno).
  unfold Double.of_size_t.
  destruct (Qlt_le_dec 0 dt) as [Hdt | Hdt].
  - destruct (Hpos Hdt) as (_ & Hn). rewrite Hn at 2.
    rewrite (Double.round_comp _ _ Hn). unfold Double.div.
    apply Double.round_idem.
  - rewrite Hno by (by apply Qle_not_lt). apply Double.round_Z.
    unfold Double.prec. lia.
Qed.

Lemma bin_of_tmax (t0 tmax : Q) (N_time_steps b : nat) :
  (Double.of_size_t N_time_steps == inject_Z (Z.of_nat N_time_steps))%Q ->
  bin_of tmax t0 tmax N_time_steps = Ok b -> b = N_time_steps.
Proof.
  intros Hexact. unfold bin_of, double_div.
  destruct (Qeq_bool (Double.sub tmax t0) 0) eqn:Hz; [done|]. simpl.
  unfold double_to_size_t. case_decide; [|done]. intros [= <-].
  rewrite (Qtruncate_integer _ (Z.of_nat N_time_steps)); [lia|].
  assert (Double.div (Double.sub tmax t0) (Double.sub tmax t0) = 1%Q) as ->.
  { unfold Double.div.
    rewrite (Double.round_comp _ 1%Q); [done|]. field.
    intros H0. apply Qeq_bool_iff in H0. congruence. }
  unfold Double.mul.
  rewrite (Double.round_comp _ (Double.of_size_t N_time_steps)) by ring.
  rewrite <- Hexact. unfold Double.of_size_t. apply Double.round_idem.
Qed.

Lemma bin_of_size_t (this_time t0 tmax : Q) (N_time_steps b : nat) :
  bin_of this_time t0 tmax N_time_steps = Ok b -> (Z.of_nat b < size_t_modulus)%Z.
Proof.
  unfold bin_of. destruct (double_div _ _) as [ratio|]; [|done]. simpl.
  unfold double_to_size_t. case_decide; [|done]. intros [= <-]. lia.
Qed.

(** The iterator is not behind the bin of the last event. *)
Lemma bin_iterator_ahead (cur old b : nat) :
  old <= cur -> (Z.of_nat b < size_t_modulus)%Z ->
  b <= cur + Z.to_nat (size_t_sub (Z.of_nat b) (Z.of_nat old)).
Proof.
  intros Hcur Hb. unfold size_t_sub, size_t_modulus in *.
  destruct (decide (old <= b)) as [Hle | Hgt].
  - rewrite Z.mod_small by lia. lia.
  - pose proof (Z.mod_pos_bound (Z.of_nat b - Z.of_nat old) (2 ^ 64)). lia.
Qed.

Lemma binned_changes_loop_at_tmax (N node : nat) (t0 tmax dt : Q)
    (N_time_steps : nat) (time : list Q) :
  forall all_edges_in all_edges_out G trajectory hash_to_int
         current_trajectory_bin old_bin_number current_group_integer Gf nb,
    (Double.of_size_t N_time_steps == inject_Z (Z.of_nat N_time_steps))%Q ->
    last time = Some tmax ->
    length all_edges_in = length time -> length all_edges_out = length time ->
    binned_replay G all_edges_in all_edges_out = Ok Gf ->
    Gf !! node = Some nb -> nb <> ∅ ->
    length trajectory = N_time_steps ->
    old_bin_number <= current_trajectory_bin ->
    forall trajectory',
      binned_changes_loop hash_calculator component_of
        N node t0 tmax dt N_time_steps time all_edges_in all_edges_out G
        trajectory hash_to_int current_trajectory_bin old_bin_number
        current_group_integer <> Ok trajectory'.
Proof.
  induction time as [|this_time time' IH];
    intros ins outs G traj m cur old cgi Gf nb Hexact Hlast Hins Houts Hrep Hnb
           Hne Hlen Hcur traj'; [done|].
  destruct ins as [|these_in ins']; [done|].
  destruct outs as [|these_out outs']; [done|].
  simpl in Hins, Houts, Hrep. simpl.
  destruct (advance_to _ _ _ _ _ _ _ _ _ _ _ _) as [[[traj1 cur1] old1]|] eqn:Hadv;
    [|done].
  apply advance_to_shape in Hadv as (Hbin & Hlen1 & Hcur1). simpl.
  unfold Graph_updates.binned_update in Hrep.
  destruct (insert_edges G these_in) as [G1|]; [|done]. simpl in Hrep |- *.
  destruct (erase_edges G1 these_out) as [G2|]; [|done]. simpl in Hrep |- *.
  destruct (label_current_bin _ _ _ _ _ _ _ _ _) as [[[cgi' m'] traj2]|] eqn:Hlab;
    [|done].
  apply label_current_bin_shape in Hlab as (Hlen2 & Hin). simpl.
  pose proof (bin_of_size_t _ _ _ _ _ Hbin) as Hold1.
  pose proof (bin_iterator_ahead cur old old1 Hcur Hold1) as Hahead.
  rewrite <- Hcur1 in Hahead.
  destruct time' as [|t' time''].
  - simpl in Hlast. injection Hlast as ->.
    apply bin_of_tmax in Hbin; [|done]. subst old1.
    destruct ins' as [|? ?]; [|done]. simpl in Hrep. injection Hrep as ->.
    specialize (Hin nb Hnb Hne). lia.
  - apply (IH ins' outs' G2 traj2 m' cur1 old1 cgi' Gf nb); try done; try lia.
Qed.

Lemma no_exception_Err {A : Type} (e : error) :
  SIRS_cache.no_exception (Err e : outcome A) -> e = undefined_behaviour.
Proof. by destruct e. Qed.

Lemma no_exception_set_insert (G : graph) (i j : nat) :
  SIRS_cache.no_exception (set_insert G i j).
Proof.
  unfold set_insert. apply SIRS_cache.no_exception_bind;
    [apply SIRS_cache.no_exception_at|done].
Qed.

Lemma no_exception_set_erase (G : graph) (i j : nat) :
  SIRS_cache.no_exception (set_erase G i j).
Proof.
  unfold set_erase. apply SIRS_cache.no_exception_bind;
    [apply SIRS_cache.no_exception_at|done].
Qed.

Lemma no_exception_insert_edges (es : list edge) :
  forall G : graph, SIRS_cache.no_exception (insert_edges G es).
Proof.
  induction es as [|[i j] rest IH]; intros G; simpl; [done|].
  apply SIRS_cache.no_exception_bind; [apply no_exception_set_insert|]. intros G1.
  apply SIRS_cache.no_exception_bind; [apply no_exception_set_insert|]. intros G2.
  apply IH.
Qed.

Lemma no_exception_erase_edges (es : list edge) :
  forall G : graph, SIRS_cache.no_exception (erase_edges G es).
Proof.
  induction es as [|[i j] rest IH]; intros G; simpl; [done|].
  apply SIRS_cache.no_exception_bind; [apply no_exception_set_erase|]. intros G1.
  apply SIRS_cache.no_exception_bind; [apply no_exception_set_erase|]. intros G2.
  apply IH.
Qed.

Lemma no_exception_mark_members (nodes : list nat) :
  forall g : list bool, SIRS_cache.no_exception (mark_members g nodes).
Proof.
  induction nodes as [|x rest IH]; intros g; simpl; [done|].
  apply SIRS_cache.no_exception_bind; [apply SIRS_cache.no_exception_assign|].
  intros g'. apply IH.
Qed.

Lemma no_exception_get_group_integer (N : nat) (c : gset nat) (m : gmap Z nat) :
  SIRS_cache.no_exception (get_group_integer hash_calculator N c m).
Proof.
  unfold get_group_integer.
  apply SIRS_cache.no_exception_bind; [apply no_exception_mark_members|].
  intros g. by destruct (m !! hash_calculator g).
Qed.

Lemma no_exception_advance_bins (bin_difference : nat) (G : graph) (node : nat)
    (bin_start_after : bool) (cgi : nat) (m : gmap Z nat) :
  forall traj cur,
    SIRS_cache.no_exception
      (advance_bins bin_difference G node bin_start_after cgi m traj cur).
Proof.
  induction bin_difference as [|n IH]; intros traj cur; simpl; [done|].
  apply SIRS_cache.no_exception_bind; [apply SIRS_cache.no_exception_at|].
  intros nb. apply SIRS_cache.no_exception_bind; [|intros traj1; apply IH].
  destruct ((0 <? size nb) && bin_start_after); [|done].
  destruct (cgi <? size m); [apply no_exception_set_insert|done].
Qed.

Lemma no_exception_advance_to (node : nat) (t0 tmax dt : Q) (N_time_steps : nat)
    (this_time : Q) (G : graph) (cgi : nat) (m : gmap Z nat)
    (traj : list (gset nat)) (cur old : nat) :
  SIRS_cache.no_exception
    (advance_to node t0 tmax dt N_time_steps this_time G cgi m traj cur old).
Proof.
  unfold advance_to. apply SIRS_cache.no_exception_bind.
  - unfold bin_of, double_div, double_to_size_t.
    destruct (Qeq_bool (Double.sub tmax t0) 0); simpl; [done|]. by case_decide.
  - intros b. apply SIRS_cache.no_exception_bind;
      [apply no_exception_advance_bins|]. by intros [traj1 cur1].
Qed.

Lemma no_exception_label_current_bin (N node : nat) (G : graph) (cgi : nat)
    (m : gmap Z nat) (traj : list (gset nat)) (cur : nat) :
  SIRS_cache.no_exception
    (label_current_bin hash_calculator component_of N node G cgi m traj cur).
Proof.
  unfold label_current_bin.
  apply SIRS_cache.no_exception_bind; [apply SIRS_cache.no_exception_at|].
  intros nb. destruct (0 <? size nb); [|done].
  apply SIRS_cache.no_exception_bind; [apply no_exception_get_group_integer|].
  intros [[l m'] h].
  apply SIRS_cache.no_exception_bind; [apply no_exception_set_insert|]. done.
Qed.

Lemma no_exception_binned_changes_loop (N node : nat) (t0 tmax dt : Q)
    (N_time_steps : nat) (time : list Q) :
  forall ins outs G traj m cur old cgi,
    SIRS_cache.no_exception
      (binned_changes_loop hash_calculator component_of
         N node t0 tmax dt N_time_steps time ins outs G traj m cur old cgi).
Proof.
  induction time as [|this_time time' IH]; intros ins outs G traj m cur old cgi;
    simpl; [done|].
  apply SIRS_cache.no_exception_bind; [apply no_exception_advance_to|].
  intros [[traj1 cur1] old1].
  apply SIRS_cache.no_exception_bind; [apply SIRS_cache.no_exception_at|].
  intros these_in.
  apply SIRS_cache.no_exception_bind; [apply no_exception_insert_edges|].
  intros G1.
  apply SIRS_cache.no_exception_bind; [apply SIRS_cache.no_exception_at|].
  intros these_out.
  apply SIRS_cache.no_exception_bind; [apply no_exception_erase_edges|].
  intros G2.
  apply SIRS_cache.no_exception_bind; [apply no_exception_label_current_bin|].
  intros [[cgi' m'] traj2]. apply IH.
Qed.

(** X15.  An event at [tmax] passes the check of the last time, which
    rejects only times after [tmax], and is counted into the bin after the
    last one: the quotient [(tmax - t0) / (tmax - t0)] is 1, and its
    product with a number of bins that a double holds (any up to [2 ^ 53])
    is that number.  When the focal node has a neighbor once the events
    are applied, the edge-diff variant then writes its label past the end
    of the trajectory: unless the check of [dt] and [N_time_steps] raises,
    the function neither returns nor raises. *)
Theorem event_at_tmax_is_past_the_bins (ec : edge_changes.record) (node : nat)
    (dt : Q) (N_time_steps : nat) (G0 Gf : graph) (nb : gset nat) :
  (Z.of_nat N_time_steps <= 2 ^ 53)%Z ->
  last (edge_changes.t ec) = Some (edge_changes.tmax ec) ->
  length (edge_changes.edges_in ec) = length (edge_changes.t ec) ->
  length (edge_changes.edges_out ec) = length (edge_changes.t ec) ->
  from_edgelist (replicate (edge_changes.N ec) ∅) (edge_changes.edges_initial ec)
    = Ok G0 ->
  binned_replay G0 (edge_changes.edges_in ec) (edge_changes.edges_out ec) = Ok Gf ->
  Gf !! node = Some nb -> nb <> ∅ ->
  binned_social_trajectory_from_edge_changes hash_calculator component_of
    from_edgelist ec node dt N_time_steps = Err undefined_behaviour \/
  throws (check_bins (edge_changes.t0 ec) (edge_changes.tmax ec) dt N_time_steps).
Proof.
  intros HN Hlast Hins Houts HG0 Hrep Hnb Hne.
  unfold binned_social_trajectory_from_edge_changes. rewrite HG0. simpl.
  destruct (check_bins (edge_changes.t0 ec) (edge_changes.tmax ec) dt N_time_steps)
    as [[dt' n]|e] eqn:Hcheck; simpl.
  2: { apply check_bins_Err in Hcheck as [? | ->]; [by right|by left]. }
  left.
  destruct (label_current_bin _ _ _ _ _ _ _ _ _) as [[[cgi m] traj0]|e] eqn:Hlab;
    simpl.
  2: { f_equal. apply (@no_exception_Err (nat * gmap Z nat * list (gset nat))).
       rewrite <- Hlab. apply no_exception_label_current_bin. }
  apply label_current_bin_shape in Hlab as (Hlen0 & _).
  rewrite length_replicate in Hlen0.
  unfold back. rewrite Hlast. simpl.
  rewrite (Qlt_bool_false _ _ (Qle_refl _)).
  destruct (binned_changes_loop _ _ _ _ _ _ _ _ _ _ _ _ _ _ _ _ _) as [traj|e]
    eqn:Hloop.
  - exfalso. revert Hloop.
    apply (binned_changes_loop_at_tmax _ _ _ _ _ _ _ _ _ _ _ _ _ _ _ Gf nb);
      try done.
    by eapply check_bins_exact.
  - f_equal. apply (@no_exception_Err (list (gset nat))).
    rewrite <- Hloop. apply no_exception_binned_changes_loop.
Qed.

End Bins.

(** *** The bins that hold a label *)

Lemma Qtruncate_mono (x y : Q) :
  (0 <= x)%Q -> (x <= y)%Q -> (Qtruncate x <= Qtruncate y)%Z.
Proof.
  intros Hx Hxy. unfold Qtruncate.
  assert (0 <= Qnum x)%Z as Hnx.
  { destruct x as [n d]. unfold Qle in Hx. simpl in *. lia. }
  assert (0 <= Qnum y)%Z as Hny.
  { assert (0 <= y)%Q as Hy by (by eapply Qle_trans).
    destruct y as [n d]. unfold Qle in Hy. simpl in *. lia. }
  rewrite !Z.quot_div_nonneg by lia.
  pose proof (Qfloor_resp_le x y Hxy) as H. by destruct x, y.
Qed.

Lemma Qlt_bool_iff (a b : Q) : Qlt_bool a b = true <-> (a < b)%Q.
Proof.
  split; [|apply Qlt_bool_true]. intros H.
  destruct (Qlt_le_dec a b) as [|Hle]; [done|].
  rewrite (Qlt_bool_false _ _ Hle) in H. done.
Qed.

Lemma bin_of_defined (this_time t0 tmax : Q) (n b : nat) :
  bin_of this_time t0 tmax n = Ok b -> Qeq_bool (Double.sub tmax t0) 0 = false.
Proof. unfold bin_of, double_div. by destruct (Qeq_bool _ _). Qed.

(** The bin of an event is computed in doubles, and each operation keeps
    the order: a later event is not in an earlier bin. *)
Lemma bin_of_mono (lo this_time t0 tmax : Q) (n a b : nat) :
  (t0 < tmax)%Q -> (t0 <= lo)%Q -> (lo <= this_time)%Q ->
  bin_of lo t0 tmax n = Ok a -> bin_of this_time t0 tmax n = Ok b -> a <= b.
Proof.
  intros Hspan Hlo Ht Ha. pose proof (bin_of_defined _ _ _ _ _ Ha) as Hz.
  revert Ha. unfold bin_of, double_div. rewrite Hz. simpl.
  unfold double_to_size_t. do 2 (case_decide; [|done]).
  intros [= <-] [= <-]. apply Z2Nat.inj_le; try lia.
  unfold Double.mul, Double.div, Double.sub, Double.of_size_t in *.
  set (d := Double.round (tmax - t0)) in *.
  set (N := Double.round (inject_Z (Z.of_nat n))).
  assert (0 < d)%Q as Hd.
  { assert (0 <= d)%Q by (apply Double.round_nonneg; lra).
    assert (~ d == 0)%Q by (rewrite <- Qeq_bool_iff; congruence). lra. }
  assert (0 <= N)%Q as HN.
  { apply Double.round_nonneg. change 0%Q with (inject_Z 0).
    rewrite <- Zle_Qle. lia. }
  assert (0 <= Double.round (lo - t0))%Q as Hx by (apply Double.round_nonneg; lra).
  assert (Double.round (lo - t0) <= Double.round (this_time - t0))%Q as Hxy
    by (apply Double.round_le; lra).
  assert (0 <= Double.round (Double.round (lo - t0) / d))%Q as Hr.
  { apply Double.round_nonneg. apply Qle_shift_div_l; lra. }
  assert (Double.round (Double.round (lo - t0) / d)
          <= Double.round (Double.round (this_time - t0) / d))%Q as Hrs.
  { apply Double.round_le. apply Qmult_le_compat_r; [done|].
    apply Qinv_le_0_compat. lra. }
  apply Qtruncate_mono.
  - apply Double.round_nonneg. by apply Qmult_le_0_compat.
  - apply Double.round_le. by apply Qmult_le_compat_r.
Qed.

Lemma bin_of_start (t0 tmax : Q) (n : nat) :
  Qeq_bool (Double.sub tmax t0) 0 = false -> bin_of t0 t0 tmax n = Ok 0.
Proof.
  intros Hz. unfold bin_of, double_div. rewrite Hz. simpl.
  assert (Double.mul (Double.div (Double.sub t0 t0) (Double.sub tmax t0))
            (Double.of_size_t n) = 0%Q) as ->; [|done].
  unfold Double.mul, Double.div. unfold Double.sub at 1.
  rewrite (Double.round_comp (t0 - t0)%Q 0%Q) by ring.
  change (Double.round 0) with 0%Q.
  rewrite (Double.round_comp (0 / Double.sub tmax t0)%Q 0%Q)
    by (unfold Qdiv; ring).
  change (Double.round 0) with 0%Q.
  by rewrite (Double.round_comp (0 * Double.of_size_t n)%Q 0%Q) by ring.
Qed.

Lemma has_neighbor_size (G : graph) (node : nat) (nb : gset nat) :
  G !! node = Some nb -> has_neighbor G node <-> (0 <? size nb) = true.
Proof.
  intros Hnb. unfold has_neighbor. rewrite Nat.ltb_lt. split.
  - intros (nb' & Hnb' & Hne). rewrite Hnb in Hnb'. injection Hnb' as <-.
    destruct (decide (size nb = 0)) as [H0|]; [|lia].
    by apply size_empty_inv, leibniz_equiv in H0.
  - intros Hsize. exists nb. split; [done|]. intros ->.
    rewrite size_empty in Hsize. lia.
Qed.

Lemma bin_filled_replicate (n k : nat) : ~ bin_filled (replicate n ∅) k.
Proof. intros (s & (-> & _)%lookup_replicate & Hs). done. Qed.

Lemma bin_filled_insert (traj : list (gset nat)) (b l : nat) traj' :
  set_insert traj b l = Ok traj' ->
  forall k, bin_filled traj' k <-> bin_filled traj k \/ k = b.
Proof.
  intros (s & Hs & ->)%set_insert_Ok k.
  pose proof (lookup_lt_Some _ _ _ Hs) as Hlt. unfold bin_filled.
  destruct (decide (k = b)) as [-> | Hkb].
  - rewrite list_lookup_insert_eq by done. split; [by right|].
    intros _. exists (s ∪ {[l]}). split; [done|]. set_solver.
  - rewrite list_lookup_insert_ne by done. split; [by left|].
    by intros [? | ?].
Qed.

Lemma label_current_bin_fills (hash_calculator : list bool -> Z)
    (component_of : nat -> graph -> gset nat) (N node : nat) (G : graph)
    (cgi : nat) (m : gmap Z nat) (traj : list (gset nat)) (b : nat)
    label m' traj' :
  label_current_bin hash_calculator component_of N node G cgi m traj b
    = Ok (label, m', traj') ->
  forall k, bin_filled traj' k <->
            bin_filled traj k \/ (k = b /\ has_neighbor G node).
Proof.
  unfold label_current_bin, at_.
  destruct (G !! node) as [nb|] eqn:Hnb; [|done]. simpl.
  pose proof (has_neighbor_size G node nb Hnb) as Hsize.
  destruct (0 <? size nb).
  - destruct (get_group_integer _ _ _ _) as [[[l m1] h]|]; [|done]. simpl.
    destruct (set_insert traj b l) as [traj1|] eqn:H1; [|done].
    simpl. intros [= <- <- <-] k.
    rewrite (bin_filled_insert _ _ _ _ H1). intuition.
  - intros [= <- <- <-] k. intuition congruence.
Qed.

(** The label in use is one of the registry whenever the node has a
    neighbor. *)
Lemma label_current_bin_label (hash_calculator : list bool -> Z)
    (component_of : nat -> graph -> gset nat) (N node : nat) (G : graph)
    (cgi : nat) (m : gmap Z nat) (traj : list (gset nat)) (b : nat)
    label m' traj' :
  registry_ok m ->
  label_current_bin hash_calculator component_of N node G cgi m traj b
    = Ok (label, m', traj') ->
  registry_ok m' /\ (has_neighbor G node -> label < size m').
Proof.
  intros Hm. unfold label_current_bin, at_.
  destruct (G !! node) as [nb|] eqn:Hnb; [|done]. simpl.
  pose proof (has_neighbor_size G node nb Hnb) as Hsize.
  destruct (0 <? size nb).
  - unfold get_group_integer.
    destruct (mark_members _ _) as [g|]; [|done]. simpl.
    destruct (m !! hash_calculator g) as [l1|] eqn:Hl; simpl.
    + destruct (set_insert traj b l1); [|done]. simpl. intros [= <- <- <-].
      split; [done|]. intros _. by eapply Hm.
    + destruct (set_insert traj b (size m)); [|done]. simpl. intros [= <- <- <-].
      split; [|rewrite map_size_insert_None by done; lia].
      intros h l Hin. rewrite map_size_insert_None by done.
      apply lookup_insert_Some in Hin as [(_ & <-) | (_ & Hin)]; [lia|].
      apply Hm in Hin. lia.
  - intros [= <- <- <-]. split; [done|]. intuition congruence.
Qed.

(** The loop over the bins up to the bin of an event puts the label in
    use into each of them, or into none. *)
Lemma advance_bins_fills (G : graph) (node : nat) (bin_start_after : bool)
    (cgi : nat) (m : gmap Z nat) (bin_difference : nat) :
  forall traj cur traj1 cur1,
    advance_bins bin_difference G node bin_start_after cgi m traj cur
      = Ok (traj1, cur1) ->
    forall k, bin_filled traj1 k <->
      bin_filled traj k \/
      (cur < k <= cur + bin_difference /\ has_neighbor G node /\
       bin_start_after = true /\ cgi < size m).
Proof.
  induction bin_difference as [|rest IH]; intros traj cur traj1 cur1; simpl.
  { intros [= <- <-] k. split; [by left|]. intros [? | (? & _)]; [done|lia]. }
  unfold at_. destruct (G !! node) as [nb|] eqn:Hnb; [|done]. simpl.
  pose proof (has_neighbor_size G node nb Hnb) as Hsize.
  destruct (0 <? size nb); simpl.
  - destruct bin_start_after; simpl.
    + destruct (cgi <? size m) eqn:Hcgi.
      * apply Nat.ltb_lt in Hcgi.
        destruct (set_insert traj (S cur) cgi) as [traj'|] eqn:Hins; [|done].
        simpl. intros Hrest k. rewrite (IH _ _ _ _ Hrest k).
        rewrite (bin_filled_insert _ _ _ _ Hins k).
        assert (has_neighbor G node) by (by apply Hsize).
        split.
        -- intros [[? | ->] | (? & ?)]; [by left|right|right]; intuition lia.
        -- intros [? | (Hk & ?)]; [by left; left|].
           destruct (decide (k = S cur)) as [-> | ?]; [left; by right|].
           right. intuition lia.
      * apply Nat.ltb_ge in Hcgi. intros Hrest k. rewrite (IH _ _ _ _ Hrest k).
        intuition lia.
    + intros Hrest k. rewrite (IH _ _ _ _ Hrest k). intuition congruence.
  - intros Hrest k. rewrite (IH _ _ _ _ Hrest k). intuition congruence.
Qed.

(** The step to the bin of an event that is not before the bin that the
    iterator is at. *)
Lemma advance_to_fills (node : nat) (t0 tmax dt : Q) (n : nat)
    (this_time : Q) (G : graph) (cgi : nat) (m : gmap Z nat)
    (traj : list (gset nat)) (cur : nat) traj1 cur1 b :
  advance_to node t0 tmax dt n this_time G cgi m traj cur cur
    = Ok (traj1, cur1, b) ->
  cur <= b ->
  cur1 = b /\
  forall k, bin_filled traj1 k <->
    bin_filled traj k \/
    (cur < k <= b /\ has_neighbor G node /\
     bin_start_after t0 dt this_time b /\ cgi < size m).
Proof.
  intros Hadv Hle. pose proof Hadv as Hshape.
  apply advance_to_shape in Hshape as (Hbin & _ & Hcur1).
  assert (Z.to_nat (size_t_sub (Z.of_nat b) (Z.of_nat cur)) = b - cur) as Hdiff.
  { pose proof (bin_of_size_t _ _ _ _ _ Hbin) as Hlt.
    unfold size_t_sub, size_t_modulus in *. rewrite Z.mod_small by lia. lia. }
  split; [lia|]. intros k.
  unfold advance_to in Hadv. rewrite Hbin in Hadv. simpl in Hadv.
  rewrite Hdiff in Hadv.
  destruct (advance_bins _ _ _ _ _ _ _ _) as [[traj1' cur1']|] eqn:Hbins; [|done].
  simpl in Hadv. injection Hadv as <- _.
  rewrite (advance_bins_fills _ _ _ _ _ _ _ _ _ _ Hbins k).
  unfold bin_start_after. rewrite Qlt_bool_iff.
  replace (cur + (b - cur)) with b by lia. done.
Qed.

Lemma event_in_bin_cons (t0 tmax : Q) (n node : nat) (t : Q) (time : list Q)
    (G : graph) (gs : list graph) (k : nat) :
  event_in_bin t0 tmax n node (t :: time) (G :: gs) k <->
    (bin_of t t0 tmax n = Ok k /\ has_neighbor G node) \/
    event_in_bin t0 tmax n node time gs k.
Proof.
  unfold event_in_bin. split.
  - intros (i & t' & Gi & Ht & HG & Hbin & Hnb). destruct i as [|i]; simpl in *.
    + injection Ht as <-. injection HG as <-. by left.
    + right. by exists i, t', Gi.
  - intros [(Hbin & Hnb) | (i & t' & Gi & Ht & HG & Hbin & Hnb)].
    + by exists 0, t, G.
    + by exists (S i), t', Gi.
Qed.

Lemma swept_bin_cons (t0 tmax dt : Q) (n node : nat) (lo : Q) (G : graph)
    (t : Q) (time : list Q) (G' : graph) (gs : list graph) (k : nat) :
  swept_bin t0 tmax dt n node lo G (t :: time) (G' :: gs) k <->
    (exists b b_prev,
       bin_of lo t0 tmax n = Ok b_prev /\ bin_of t t0 tmax n = Ok b /\
       b_prev < k <= b /\ has_neighbor G node /\ bin_start_after t0 dt t b) \/
    swept_bin t0 tmax dt n node t G' time gs k.
Proof.
  unfold swept_bin. split.
  - intros (i & t1 & tp & Gp & b & bp & Ht & Htp & HG & H).
    destruct i as [|i]; simpl in *.
    + injection Ht as <-. injection Htp as <-. injection HG as <-.
      left. by exists b, bp.
    + right. by exists i, t1, tp, Gp, b, bp.
  - intros [(b & bp & H) | (i & t1 & tp & Gp & b & bp & Ht & Htp & HG & H)].
    + by exists 0, t, lo, G, b, bp.
    + by exists (S i), t1, tp, Gp, b, bp.
Qed.

Lemma swept_bin_nil (t0 tmax dt : Q) (n node : nat) (lo : Q) (G : graph)
    (gs : list graph) (k : nat) :
  ~ swept_bin t0 tmax dt n node lo G [] gs k.
Proof. by intros (i & t & ? & ? & ? & ? & ? & _). Qed.

Lemma event_in_bin_nil (t0 tmax : Q) (n node : nat) (gs : list graph) (k : nat) :
  ~ event_in_bin t0 tmax n node [] gs k.
Proof. by intros (i & t & ? & ? & _). Qed.

(** One pass through either loop: the step to the bin of the event, in
    the graph [G] before it, and the label of the node in the graph [G2]
    after it. *)
Lemma binned_pass_fills (hash_calculator : list bool -> Z)
    (component_of : nat -> graph -> gset nat)
    (N node : nat) (t0 tmax dt : Q) (n : nat) (lo t : Q) (G G2 : graph)
    (traj : list (gset nat)) (m : gmap Z nat) (cur cgi : nat)
    traj1 cur1 old1 cgi' m' traj2 :
  (t0 < tmax)%Q -> (t0 <= lo)%Q -> (lo <= t)%Q ->
  bin_of lo t0 tmax n = Ok cur ->
  registry_ok m -> (has_neighbor G node -> cgi < size m) ->
  advance_to node t0 tmax dt n t G cgi m traj cur cur = Ok (traj1, cur1, old1) ->
  label_current_bin hash_calculator component_of N node G2 cgi m traj1 cur1
    = Ok (cgi', m', traj2) ->
  cur1 = old1 /\ bin_of t t0 tmax n = Ok old1 /\
  registry_ok m' /\ (has_neighbor G2 node -> cgi' < size m') /\
  forall k, bin_filled traj2 k <->
    bin_filled traj k \/
    (bin_of t t0 tmax n = Ok k /\ has_neighbor G2 node) \/
    (exists b b_prev,
       bin_of lo t0 tmax n = Ok b_prev /\ bin_of t t0 tmax n = Ok b /\
       b_prev < k <= b /\ has_neighbor G node /\ bin_start_after t0 dt t b).
Proof.
  intros Hspan Hlo Ht Hcur Hm Hcgi Hadv Hlab.
  pose proof Hadv as Hbin. apply advance_to_shape in Hbin as (Hbin & _ & _).
  pose proof (bin_of_mono _ _ _ _ _ _ _ Hspan Hlo Ht Hcur Hbin) as Hle.
  apply advance_to_fills in Hadv as (-> & Hfill1); [|done].
  destruct (label_current_bin_label _ _ _ _ _ _ _ _ _ _ _ _ Hm Hlab) as (Hm' & Hcgi').
  split; [done|]. split; [done|]. split; [done|]. split; [done|].
  intros k.
  rewrite (label_current_bin_fills _ _ _ _ _ _ _ _ _ _ _ _ Hlab k), (Hfill1 k).
  split.
  - intros [[? | (Hk & Hnb & Hafter & _)] | (-> & Hnb)].
    + by left.
    + right. right. by exists old1, cur.
    + right. left. done.
  - intros [? | [(Hk & Hnb) | (b & bp & Hbp & Hb & Hk & Hnb & Hafter)]].
    + left. by left.
    + right. split; [congruence|done].
    + left. right. rewrite Hcur in Hbp. rewrite Hbin in Hb.
      injection Hbp as <-. injection Hb as <-. auto.
Qed.

Lemma binned_changes_loop_fills (hash_calculator : list bool -> Z)
    (component_of : nat -> graph -> gset nat)
    (N node : nat) (t0 tmax dt : Q) (n : nat) (time : list Q) :
  (t0 < tmax)%Q ->
  forall ins outs G gs traj m cur cgi lo traj',
    (t0 <= lo)%Q -> bin_of lo t0 tmax n = Ok cur ->
    not_descending lo time tmax ->
    registry_ok m -> (has_neighbor G node -> cgi < size m) ->
    binned_graphs G ins outs = Ok gs ->
    binned_changes_loop hash_calculator component_of N node t0 tmax dt n
      time ins outs G traj m cur cur cgi = Ok traj' ->
    forall k, bin_filled traj' k <->
              bin_filled traj k \/ event_in_bin t0 tmax n node time gs k \/
              swept_bin t0 tmax dt n node lo G time gs k.
Proof.
  intros Hspan. induction time as [|t time' IH];
    intros ins outs G gs traj m cur cgi lo traj' Hlo Hcur Hasc Hm Hcgi Hgs Hloop k.
  { simpl in Hloop. injection Hloop as <-.
    pose proof (event_in_bin_nil t0 tmax n node gs k).
    pose proof (swept_bin_nil t0 tmax dt n node lo G gs k). intuition. }
  simpl in Hasc, Hloop. destruct Hasc as (Hlt & Hasc).
  destruct (advance_to _ _ _ _ _ _ _ _ _ _ _ _) as [[[traj1 cur1] old1]|] eqn:Hadv;
    [|done].
  simpl in Hloop.
  destruct ins as [|these_in ins']; [done|]. simpl in Hloop.
  destruct (insert_edges G these_in) as [G1|] eqn:HG1; [|done]. simpl in Hloop.
  destruct outs as [|these_out outs']; [done|]. simpl in Hloop.
  destruct (erase_edges G1 these_out) as [G2|] eqn:HG2; [|done]. simpl in Hloop.
  simpl in Hgs. unfold Graph_updates.binned_update in Hgs.
  rewrite HG1 in Hgs. simpl in Hgs. rewrite HG2 in Hgs. simpl in Hgs.
  destruct (binned_graphs G2 ins' outs') as [gs'|] eqn:Hgs'; [|done].
  simpl in Hgs. injection Hgs as <-.
  destruct (label_current_bin _ _ _ _ _ _ _ _ _) as [[[cgi' m'] traj2]|] eqn:Hlab;
    [|done].
  simpl in Hloop.
  destruct (binned_pass_fills _ _ _ _ _ _ _ _ _ _ _ _ _ _ _ _ _ _ _ _ _ _
              Hspan Hlo Hlt Hcur Hm Hcgi Hadv Hlab)
    as (-> & Hbin & Hm' & Hcgi' & Hpass).
  rewrite (IH ins' outs' G2 gs' traj2 m' old1 cgi' t traj'); try done.
  2: { by eapply Qle_trans. }
  rewrite (Hpass k), event_in_bin_cons, swept_bin_cons. clear. intuition.
Qed.

Lemma binned_lists_loop_fills (hash_calculator : list bool -> Z)
    (component_of : nat -> graph -> gset nat)
    (from_edgelist : graph -> list edge -> outcome graph)
    (N node : nat) (t0 tmax dt : Q) (n : nat) (time : list Q) :
  (t0 < tmax)%Q ->
  forall edges G gs traj m cur cgi lo traj',
    (t0 <= lo)%Q -> bin_of lo t0 tmax n = Ok cur ->
    not_descending lo time tmax ->
    registry_ok m -> (has_neighbor G node -> cgi < size m) ->
    Interval_mode.snapshots from_edgelist G edges = Ok gs ->
    binned_lists_loop hash_calculator component_of from_edgelist
      N node t0 tmax dt n time edges G traj m cur cur cgi = Ok traj' ->
    forall k, bin_filled traj' k <->
              bin_filled traj k \/ event_in_bin t0 tmax n node time gs k \/
              swept_bin t0 tmax dt n node lo G time gs k.
Proof.
  intros Hspan. induction time as [|t time' IH];
    intros edges G gs traj m cur cgi lo traj' Hlo Hcur Hasc Hm Hcgi Hgs Hloop k.
  { simpl in Hloop. injection Hloop as <-.
    pose proof (event_in_bin_nil t0 tmax n node gs k).
    pose proof (swept_bin_nil t0 tmax dt n node lo G gs k). intuition. }
  simpl in Hasc, Hloop. destruct Hasc as (Hlt & Hasc).
  destruct (advance_to _ _ _ _ _ _ _ _ _ _ _ _) as [[[traj1 cur1] old1]|] eqn:Hadv;
    [|done].
  simpl in Hloop.
  destruct edges as [|these_edges edges']; [done|]. simpl in Hloop.
  destruct (from_edgelist G these_edges) as [G2|] eqn:HG2; [|done]. simpl in Hloop.
  simpl in Hgs. rewrite HG2 in Hgs. simpl in Hgs.
  destruct (Interval_mode.snapshots from_edgelist G2 edges') as [gs'|] eqn:Hgs';
    [|done].
  simpl in Hgs. injection Hgs as <-.
  destruct (label_current_bin _ _ _ _ _ _ _ _ _) as [[[cgi' m'] traj2]|] eqn:Hlab;
    [|done].
  simpl in Hloop.
  destruct (binned_pass_fills _ _ _ _ _ _ _ _ _ _ _ _ _ _ _ _ _ _ _ _ _ _
              Hspan Hlo Hlt Hcur Hm Hcgi Hadv Hlab)
    as (-> & Hbin & Hm' & Hcgi' & Hpass).
  rewrite (IH edges' G2 gs' traj2 m' old1 cgi' t traj'); try done.
  2: { by eapply Qle_trans. }
  rewrite (Hpass k), event_in_bin_cons, swept_bin_cons. clear. intuition.
Qed.

Lemma binned_changes_loop_defined (hash_calculator : list bool -> Z)
    (component_of : nat -> graph -> gset nat)
    (N node : nat) (t0 tmax dt : Q) (n : nat) (t : Q) (time : list Q)
    ins outs G traj m cur old cgi traj' :
  binned_changes_loop hash_calculator component_of N node t0 tmax dt n
    (t :: time) ins outs G traj m cur old cgi = Ok traj' ->
  Qeq_bool (Double.sub tmax t0) 0 = false.
Proof.
  simpl.
  destruct (advance_to _ _ _ _ _ _ _ _ _ _ _ _) as [[[traj1 cur1] old1]|] eqn:Hadv;
    [|done].
  intros _. apply advance_to_shape in Hadv as (Hbin & _). by eapply bin_of_defined.
Qed.

Lemma binned_lists_loop_defined (hash_calculator : list bool -> Z)
    (component_of : nat -> graph -> gset nat)
    (from_edgelist : graph -> list edge -> outcome graph)
    (N node : nat) (t0 tmax dt : Q) (n : nat) (t : Q) (time : list Q)
    edges G traj m cur old cgi traj' :
  binned_lists_loop hash_calculator component_of from_edgelist N node t0 tmax dt n
    (t :: time) edges G traj m cur old cgi = Ok traj' ->
  Qeq_bool (Double.sub tmax t0) 0 = false.
Proof.
  simpl.
  destruct (advance_to _ _ _ _ _ _ _ _ _ _ _ _) as [[[traj1 cur1] old1]|] eqn:Hadv;
    [|done].
  intros _. apply advance_to_shape in Hadv as (Hbin & _). by eapply bin_of_defined.
Qed.

Lemma registry_ok_empty : registry_ok ∅.
Proof. by intros h l ?%lookup_empty_Some. Qed.

(** X16.  Which bins of the binned trajectory hold a label.  With [t0]
    before [tmax] and the times of the events not descending from [t0],
    a bin of the trajectory that the edge-diff variant returns holds a
    label exactly in three cases: it is the first bin and the focal node
    has a neighbor from the start; an event that leaves the node with a
    neighbor falls into it; or it lies after the bin of one event and not
    after the bin of the next while the node has a neighbor, and the test
    [t0 + bin_number * dt > this_time] holds at that next event.  The bins
    are those of the double arithmetic of the code, and [dt] is the width
    that the check settled on.  No other bin holds a label: none after
    the bin of the last event, whatever group the node is in until
    [tmax]. *)
Theorem filled_bins_hold_an_event (hash_calculator : list bool -> Z)
    (component_of : nat -> graph -> gset nat)
    (from_edgelist : graph -> list edge -> outcome graph)
    (ec : edge_changes.record) (node : nat) (dt : Q) (N_time_steps : nat)
    (G0 : graph) (gs : list graph) (trajectory : list (gset nat)) :
  (edge_changes.t0 ec < edge_changes.tmax ec)%Q ->
  not_descending (edge_changes.t0 ec) (edge_changes.t ec) (edge_changes.tmax ec) ->
  from_edgelist (replicate (edge_changes.N ec) ∅) (edge_changes.edges_initial ec)
    = Ok G0 ->
  binned_graphs G0 (edge_changes.edges_in ec) (edge_changes.edges_out ec) = Ok gs ->
  binned_social_trajectory_from_edge_changes hash_calculator component_of
    from_edgelist ec node dt N_time_steps = Ok trajectory ->
  exists dt',
    check_bins (edge_changes.t0 ec) (edge_changes.tmax ec) dt N_time_steps
      = Ok (dt', length trajectory) /\
    forall k,
      bin_filled trajectory k <->
        (k = 0 /\ has_neighbor G0 node) \/
        event_in_bin (edge_changes.t0 ec) (edge_changes.tmax ec)
          (length trajectory) node (edge_changes.t ec) gs k \/
        swept_bin (edge_changes.t0 ec) (edge_changes.tmax ec) dt'
          (length trajectory) node (edge_changes.t0 ec) G0
          (edge_changes.t ec) gs k.
Proof.
  intros Hspan Hasc HG0 Hgs Hrun.
  unfold binned_social_trajectory_from_edge_changes in Hrun.
  rewrite HG0 in Hrun. simpl in Hrun.
  destruct (check_bins _ _ dt N_time_steps) as [[dt' n]|] eqn:Hcheck; [|done].
  simpl in Hrun.
  destruct (label_current_bin _ _ _ _ _ _ _ _ _) as [[[cgi m] traj0]|] eqn:Hlab;
    [|done].
  simpl in Hrun.
  destruct (back (edge_changes.t ec)) as [tb|] eqn:Hback; [|done]. simpl in Hrun.
  destruct (Qlt_bool _ tb); [done|].
  assert (Qeq_bool (Double.sub (edge_changes.tmax ec) (edge_changes.t0 ec)) 0 = false)
    as Hz.
  { destruct (edge_changes.t ec) as [|t1 time']; [done|].
    by eapply binned_changes_loop_defined. }
  pose proof Hrun as Hlen. apply binned_changes_loop_length in Hlen.
  apply label_current_bin_shape in Hlab as Hlen0. destruct Hlen0 as (Hlen0 & _).
  rewrite Hlen0, length_replicate in Hlen. subst n.
  destruct (label_current_bin_label _ _ _ _ _ _ _ _ _ _ _ _ registry_ok_empty Hlab)
    as (Hm & Hcgi).
  exists dt'. split; [done|]. intros k.
  rewrite (binned_changes_loop_fills hash_calculator component_of _ node _ _ _ _ _
             Hspan _ _ G0 gs traj0 m 0 cgi (edge_changes.t0 ec) trajectory
             (Qle_refl _) (bin_of_start _ _ _ Hz) Hasc Hm Hcgi Hgs Hrun k).
  rewrite (label_current_bin_fills _ _ _ _ _ _ _ _ _ _ _ _ Hlab k).
  pose proof (bin_filled_replicate (length trajectory) k) as Hno.
  clear -Hno. intuition.
Qed.

(** X17.  The same for the snapshot variant of the binned mode, which
    starts from the empty graph at the first time of the list: a bin of
    the returned trajectory holds a label exactly when a snapshot in which
    the focal node has a neighbor falls into it, or when it lies after the
    bin of one snapshot and not after the bin of the next, the node has a
    neighbor in the first of the two, and the test
    [t0 + bin_number * dt > this_time] holds at the second. *)
Theorem filled_bins_hold_a_snapshot (hash_calculator : list bool -> Z)
    (component_of : nat -> graph -> gset nat)
    (from_edgelist : graph -> list edge -> outcome graph)
    (el : edge_lists.record) (node : nat) (dt : Q) (N_time_steps : nat)
    (t0 : Q) (gs : list graph) (trajectory : list (gset nat)) :
  edge_lists.t el !! 0 = Some t0 -> (t0 < edge_lists.tmax el)%Q ->
  not_descending t0 (edge_lists.t el) (edge_lists.tmax el) ->
  Interval_mode.snapshots from_edgelist (replicate (edge_lists.N el) ∅)
    (edge_lists.edges el) = Ok gs ->
  binned_social_trajectory_from_edge_lists hash_calculator component_of
    from_edgelist el node dt N_time_steps = Ok trajectory ->
  exists dt',
    check_bins t0 (edge_lists.tmax el) dt N_time_steps
      = Ok (dt', length trajectory) /\
    forall k,
      bin_filled trajectory k <->
        event_in_bin t0 (edge_lists.tmax el) (length trajectory) node
          (edge_lists.t el) gs k \/
        swept_bin t0 (edge_lists.tmax el) dt' (length trajectory) node t0
          (replicate (edge_lists.N el) ∅) (edge_lists.t el) gs k.
Proof.
  intros Ht0 Hspan Hasc Hgs Hrun.
  unfold binned_social_trajectory_from_edge_lists, at_ in Hrun.
  rewrite Ht0 in Hrun. simpl in Hrun.
  destruct (back (edge_lists.t el)) as [tb|] eqn:Hback; [|done]. simpl in Hrun.
  destruct (Qlt_bool _ tb); [done|].
  destruct (check_bins _ _ dt N_time_steps) as [[dt' n]|] eqn:Hcheck; [|done].
  simpl in Hrun.
  assert (Qeq_bool (Double.sub (edge_lists.tmax el) t0) 0 = false) as Hz.
  { destruct (edge_lists.t el) as [|t1 time']; [done|].
    by eapply binned_lists_loop_defined. }
  pose proof Hrun as Hlen. apply binned_lists_loop_length in Hlen.
  rewrite length_replicate in Hlen. subst n.
  exists dt'. split; [done|]. intros k.
  rewrite (binned_lists_loop_fills hash_calculator component_of from_edgelist
             (edge_lists.N el) node t0 (edge_lists.tmax el) dt'
             (length trajectory) (edge_lists.t el) Hspan
             (edge_lists.edges el) (replicate (edge_lists.N el) ∅) gs
             (replicate (length trajectory) ∅) ∅ 0 1 t0 trajectory
             (Qle_refl _) (bin_of_start _ _ _ Hz) Hasc registry_ok_empty);
    [| |done|done].
  - pose proof (bin_filled_replicate (length trajectory) k) as Hno.
    clear -Hno. intuition.
  - intros (nb & (-> & _)%lookup_replicate & Hne). done.
Qed.

Lemma binned_trajectory_has_the_bins_witness :
  exists dt' n,
    check_bins 0 4 1 0 = Ok (dt', n) /\
    length [({[0]} : gset nat); ∅; {[1]}; ∅] = n /\
    (inject_Z (Z.of_nat n) == Double.div (Double.sub 4 0) 1)%Q.
Proof.
  destruct (binned_trajectory_has_the_bins binary_value get_component_of_node
              graph_from_edgelist late_meeting_lists late_meeting 0 1 0)
    as (_ & H).
  destruct (H [{[0]}; ∅; {[1]}; ∅]) as (dt' & n & Hcheck & Hlen & _ & Hn).
  - reflexivity.
  - exists dt', n. split; [exact Hcheck|]. split; [exact Hlen|].
    apply Hn. reflexivity.
Defined.

Lemma event_at_tmax_is_past_the_bins_witness :
  binned_social_trajectory_from_edge_changes binary_value get_component_of_node
    graph_from_edgelist meet_at_end 0 0 2 = Err undefined_behaviour.
Proof.
  destruct (event_at_tmax_is_past_the_bins binary_value get_component_of_node
              graph_from_edgelist meet_at_end 0 0 2 [∅; ∅] [{[1]}; {[0]}] {[1]})
    as [H | H].
  - vm_compute. discriminate.
  - reflexivity.
  - reflexivity.
  - reflexivity.
  - reflexivity.
  - reflexivity.
  - reflexivity.
  - intros H. assert (1 ∈ (∅ : gset nat)) as H1 by (rewrite <- H; set_solver).
    set_solver.
  - exact H.
  - exfalso. exact H.
Defined.

(** With ten bins over a span of 1 and the only event at the double
    nearest to 7/10, the event falls into bin 7, and seven times the
    double nearest to 1/10 is more than that: the bins 1 to 7 are filled
    on the way, with the label of the group of nodes 0 and 1. *)
Lemma filled_bins_hold_an_event_witness :
  binned_social_trajectory_from_edge_changes binary_value get_component_of_node
    graph_from_edgelist late_by_rounding 0 0 10
    = Ok [{[0]}; {[0]}; {[0]}; {[0]}; {[0]}; {[0]}; {[0]}; {[0; 1]}; ∅; ∅] /\
  exists dt',
    check_bins 0 1 0 10 = Ok (dt', 10) /\
    (bin_filled [{[0]}; {[0]}; {[0]}; {[0]}; {[0]}; {[0]}; {[0]}; {[0; 1]}; ∅; ∅] 3 <->
       (3 = 0 /\ has_neighbor [{[1]}; {[0]}; ∅] 0) \/
       event_in_bin 0 1 10 0 [Double.round (7 # 10)] [[{[1]}; {[0; 2]}; {[1]}]] 3 \/
       swept_bin 0 1 dt' 10 0 0 [{[1]}; {[0]}; ∅] [Double.round (7 # 10)]
         [[{[1]}; {[0; 2]}; {[1]}]] 3).
Proof.
  split; [reflexivity|].
  destruct (filled_bins_hold_an_event binary_value get_component_of_node
              graph_from_edgelist late_by_rounding 0 0 10
              [{[1]}; {[0]}; ∅] [[{[1]}; {[0; 2]}; {[1]}]]
              [{[0]}; {[0]}; {[0]}; {[0]}; {[0]}; {[0]}; {[0]}; {[0; 1]}; ∅; ∅])
    as (dt' & Hcheck & Hk).
  - reflexivity.
  - simpl. split; vm_compute; discriminate.
  - reflexivity.
  - reflexivity.
  - reflexivity.
  - exists dt'. split; [exact Hcheck|exact (Hk 3)].
Defined.

Lemma filled_bins_hold_a_snapshot_witness :
  exists dt',
    check_bins 0 4 0 4 = Ok (dt', 4) /\
    (bin_filled [({[0]} : gset nat); ∅; {[1]}; ∅] 2 <->
       event_in_bin 0 4 4 0 [0%Q; (5 # 2)%Q]
         [[{[1]}; {[0]}; ∅]; [{[1]}; {[0; 2]}; {[1]}]] 2 \/
       swept_bin 0 4 dt' 4 0 0 [∅; ∅; ∅] [0%Q; (5 # 2)%Q]
         [[{[1]}; {[0]}; ∅]; [{[1]}; {[0; 2]}; {[1]}]] 2).
Proof.
  destruct (filled_bins_hold_a_snapshot binary_value get_component_of_node
              graph_from_edgelist late_meeting_lists 0 0 4 0
              [[{[1]}; {[0]}; ∅]; [{[1]}; {[0; 2]}; {[1]}]] [{[0]}; ∅; {[1]}; ∅])
    as (dt' & Hcheck & Hk).
  - reflexivity.
  - reflexivity.
  - simpl. repeat split; discriminate.
  - reflexivity.
  - reflexivity.
  - exists dt'. split; [exact Hcheck|exact (Hk 2)].
Defined.

End Binned_mode.

(** ** FW_P_varying_alpha_beta.cpp: the channels and the stream returned *)

Module Flockwork_stream.
Import Flockwork.

(** The diff arrays are as long as the time array, and no recorded diff
    is empty. *)
Definition diffs_ok (r : edge_changes.record) : Prop :=
  length (edge_changes.edges_in r) = length (edge_changes.t r) /\
  length (edge_changes.edges_out r) = length (edge_changes.t r) /\
  forall i removed added,
    edge_changes.edges_out r !! i = Some removed ->
    edge_changes.edges_in r !! i = Some added ->
    removed <> [] \/ added <> [].

(** The record of a simulation during which nothing was recorded. *)
Definition empty_record (E : list edge) (N : nat) (t_run_total : Q)
  : edge_changes.record :=
  {| edge_changes.t := [];
     edge_changes.tmax := t_run_total;
     edge_changes.t0 := 0;
     edge_changes.edges_initial := E;
     edge_changes.edges_out := [];
     edge_changes.edges_in := [];
     edge_changes.N := N |}.

(** The record of the example run: two linked nodes, a scheduler that
    waits one unit of time, until 7/2. *)
Definition ticking_record : edge_changes.record :=
  {| edge_changes.t := [2%Q; 3%Q];
     edge_changes.tmax := (7 # 2)%Q;
     edge_changes.t0 := 0;
     edge_changes.edges_initial := [(0, 1)];
     edge_changes.edges_out := [[(0, 1)]; []];
     edge_changes.edges_in := [[]; [(0, 1)]];
     edge_changes.N := 2 |}.

Section Stream.

Variable mt19937_64 : Type.
Variable seed_engine : nat -> mt19937_64.
Variable get_gillespie_tau_and_event_with_varying_gamma_for_each_node :
  list Q -> list (Q * Q) -> list (Q * list Q) -> Q -> Q -> nat -> mt19937_64 ->
  outcome (Q * nat * nat * mt19937_64).
Variable rewire_P_without_SI_checking :
  graph -> Q -> mt19937_64 ->
  outcome (list edge * list edge * graph * mt19937_64).
Variable rewire_P_without_SI_checking_single_node :
  nat -> graph -> Q -> mt19937_64 ->
  outcome (list edge * list edge * graph * mt19937_64).
Variable rewire_P_without_SI_checking_single_node_neighbor_affinity :
  nat -> graph -> Q -> list (list nat * list Q) -> mt19937_64 ->
  outcome (list edge * list edge * graph * mt19937_64).
Variable random_node : nat -> mt19937_64 -> nat * mt19937_64.
Variable graph_from_edgelist : graph -> list edge -> outcome graph.

(** One of the four variants returns the record [r]. *)
Definition returned (E : list edge) (N : nat)
    (reconnection_rate : list (Q * Q)) (disconnection_rate : list Q)
    (reconnection_rates : list (Q * list Q)) (disconnection_rates : list (list Q))
    (neighbor_affinity : list (list nat * list Q))
    (t_run_total tmax : Q) (use_random_rewiring : bool) (seed : nat)
    (r : edge_changes.record) : Prop :=
  exists fuel,
    flockwork_alpha_beta_varying_rates mt19937_64 seed_engine
      get_gillespie_tau_and_event_with_varying_gamma_for_each_node
      rewire_P_without_SI_checking graph_from_edgelist
      E N reconnection_rate disconnection_rate
      t_run_total tmax use_random_rewiring seed fuel = Some (Ok r) \/
    flockwork_alpha_beta_varying_rates_for_each_node mt19937_64 seed_engine
      get_gillespie_tau_and_event_with_varying_gamma_for_each_node
      rewire_P_without_SI_checking_single_node graph_from_edgelist
      E N reconnection_rates disconnection_rates
      t_run_total tmax use_random_rewiring seed fuel = Some (Ok r) \/
    flockwork_alpha_beta_varying_rates_with_neighbor_affinity mt19937_64 seed_engine
      get_gillespie_tau_and_event_with_varying_gamma_for_each_node
      rewire_P_without_SI_checking_single_node_neighbor_affinity random_node
      graph_from_edgelist
      E N reconnection_rate disconnection_rate neighbor_affinity
      t_run_total tmax use_random_rewiring seed fuel = Some (Ok r) \/
    flockwork_alpha_beta_varying_rates_for_each_node_with_neighbor_affinity
      mt19937_64 seed_engine
      get_gillespie_tau_and_event_with_varying_gamma_for_each_node
      rewire_P_without_SI_checking_single_node_neighbor_affinity
      graph_from_edgelist
      E N reconnection_rates disconnection_rates neighbor_affinity
      t_run_total tmax use_random_rewiring seed fuel = Some (Ok r).

(** What the loop keeps of the three arrays. *)
Definition arrays_ok (s : simulation mt19937_64) : Prop :=
  length (edges_in s) = length (time s) /\
  length (edges_out s) = length (time s) /\
  forall i removed added,
    edges_out s !! i = Some removed -> edges_in s !! i = Some added ->
    removed <> [] \/ added <> [].

Local Abbreviation step' :=
  (step mt19937_64 get_gillespie_tau_and_event_with_varying_gamma_for_each_node).
Local Abbreviation simulate' :=
  (simulate mt19937_64 get_gillespie_tau_and_event_with_varying_gamma_for_each_node).
Local Abbreviation run' :=
  (run mt19937_64 seed_engine
     get_gillespie_tau_and_event_with_varying_gamma_for_each_node
     graph_from_edgelist).
Local Abbreviation run_moves' :=
  (run_moves mt19937_64 seed_engine
     get_gillespie_tau_and_event_with_varying_gamma_for_each_node
     graph_from_edgelist).

(** *** The three arrays of the record *)

Lemma step_arrays (apply_event : handler mt19937_64) total_rate single_rates
    t_run_total tmax (s s' : simulation mt19937_64) :
  step' apply_event total_rate single_rates t_run_total tmax s = Ok s' ->
  arrays_ok s -> arrays_ok s'.
Proof.
  intros Hstep (Hin & Hout & Hne). unfold step in Hstep.
  destruct (get_gillespie_tau_and_event_with_varying_gamma_for_each_node _ _ _ _ _ _ _)
    as [[[[tau event] i_t'] generator']|]; [|done].
  simpl in Hstep. destruct (Qlt_bool (Double.add (t s) tau) t_run_total).
  - destruct (apply_event event (G s) generator')
      as [[[[curr_first curr_second] G'] generator'']|]; [|done].
    simpl in Hstep.
    destruct ((0 <? length curr_first) || (0 <? length curr_second)) eqn:Hsome;
      injection Hstep as <-; [|done].
    split; [|split]; simpl.
    + rewrite !length_app. simpl. lia.
    + rewrite !length_app. simpl. lia.
    + intros i removed added Hr Ha.
      apply lookup_app_Some in Hr as [Hr | (Hge & Hr)].
      * apply lookup_app_Some in Ha as [Ha | (Hge' & Ha)]; [by eapply Hne|].
        apply lookup_lt_Some in Hr. lia.
      * apply list_lookup_singleton_Some in Hr as (Hi & <-).
        apply lookup_app_Some in Ha as [Ha | (_ & Ha)].
        { apply lookup_lt_Some in Ha. lia. }
        apply list_lookup_singleton_Some in Ha as (_ & <-).
        apply orb_true_iff in Hsome as [H | H]; apply Nat.ltb_lt in H;
          [left|right]; intros ->; simpl in H; lia.
  - by injection Hstep as <-.
Qed.

Lemma simulate_arrays (apply_event : handler mt19937_64) total_rate single_rates
    t_run_total tmax (fuel : nat) :
  forall s s' : simulation mt19937_64,
    simulate' fuel apply_event total_rate single_rates t_run_total tmax s
      = Some (Ok s') ->
    arrays_ok s -> arrays_ok s'.
Proof.
  induction fuel as [|fuel IH]; intros s s' Hsim Hinv; simpl in Hsim.
  - destruct (Qlt_bool (t s) t_run_total); [done|]. by injection Hsim as <-.
  - destruct (Qlt_bool (t s) t_run_total); [|by injection Hsim as <-].
    destruct (step' apply_event total_rate single_rates t_run_total tmax s)
      as [s1|] eqn:Hstep; [|done].
    apply (IH s1 s' Hsim). by eapply step_arrays.
Qed.

Lemma run_diffs_ok (apply_event : handler mt19937_64) (E : list edge) (N : nat)
    prepared first_breakpoint t_run_total tmax seed fuel r :
  run' fuel apply_event E N prepared first_breakpoint t_run_total tmax seed
    = Some (Ok r) ->
  diffs_ok r.
Proof.
  unfold run.
  destruct (graph_from_edgelist (replicate N ∅) E) as [G0|]; [|done].
  destruct prepared as [[single_rates total_rate]|]; [|done].
  destruct first_breakpoint as [t_first|]; [|done].
  destruct (simulate' fuel apply_event total_rate single_rates t_run_total tmax _)
    as [[s'|]|] eqn:Hsim; [|done..].
  intros [= <-]. apply simulate_arrays in Hsim; [exact Hsim|].
  split; [done|]. split; [done|]. by intros i removed added ?.
Qed.

(** X18.  In the record that any of the four variants returns, [t],
    [edges_in] and [edges_out] have the same length, and no recorded event
    is empty: at each position an edge was removed or an edge was added. *)
Theorem recorded_diffs_are_aligned (E : list edge) (N : nat)
    (reconnection_rate : list (Q * Q)) (disconnection_rate : list Q)
    (reconnection_rates : list (Q * list Q)) (disconnection_rates : list (list Q))
    (neighbor_affinity : list (list nat * list Q))
    (t_run_total tmax : Q) (use_random_rewiring : bool) (seed : nat)
    (r : edge_changes.record) :
  returned E N reconnection_rate disconnection_rate reconnection_rates
    disconnection_rates neighbor_affinity t_run_total tmax use_random_rewiring
    seed r ->
  diffs_ok r.
Proof.
  intros (fuel & [H | [H | [H | H]]]);
    apply assert_same_size_Ok in H; by eapply run_diffs_ok.
Qed.

(** *** The record as an edge-diff stream *)

Lemma increasing_tail (x : Q) (l : list Q) :
  increasing (x :: l) -> increasing l /\ Forall (fun y => (x < y)%Q) l.
Proof.
  intros Hinc. split.
  - intros i j a b Hij Hi Hj. by apply (Hinc (S i) (S j)); [lia|..].
  - apply Forall_forall. intros y Hy.
    apply list_elem_of_lookup in Hy as (j & Hj).
    by apply (Hinc 0 (S j)); [lia|..].
Qed.

Lemma increasing_ascending (l : list Q) :
  forall lo hi : Q,
    increasing l -> Forall (fun x => (lo < x)%Q) l ->
    Forall (fun x => (x < hi)%Q) l -> (lo <= hi)%Q ->
    Trajectories.ascending_from lo l hi.
Proof.
  induction l as [|x l IH]; intros lo hi Hinc Hlo Hhi Hle; [done|].
  apply Forall_cons in Hlo as (Hx & _). apply Forall_cons in Hhi as (Hxhi & Hhi).
  apply increasing_tail in Hinc as (Hinc & Hafter).
  split; [done|]. apply IH; try done. by apply Qlt_le_weak.
Qed.

(** X19.  When each draw of its run moves the clock by some [delta] at
    least (so that no waiting time is absorbed by the double sum
    [t + tau]), the first breakpoint of the rates not being negative and
    neither [t_run_total], the record that any of the four variants
    returns is an edge-diff stream as the extraction functions read one:
    the event times ascend strictly from [t0] and end at or before
    [tmax]. *)
Theorem record_is_an_ascending_stream (E : list edge) (N : nat)
    (reconnection_rate : list (Q * Q)) (disconnection_rate : list Q)
    (reconnection_rates : list (Q * list Q)) (disconnection_rates : list (list Q))
    (neighbor_affinity : list (list nat * list Q))
    (t_run_total tmax : Q) (use_random_rewiring : bool) (seed : nat)
    (r : edge_changes.record) (delta : Q) :
  (0 < delta)%Q ->
  run_moves' (rewire_global mt19937_64 rewire_P_without_SI_checking) E N
    (global_rates N reconnection_rate disconnection_rate)
    (first_time reconnection_rate) t_run_total tmax seed delta ->
  run_moves'
    (rewire_for_each_node mt19937_64 rewire_P_without_SI_checking_single_node N)
    E N (node_rates reconnection_rates disconnection_rates)
    (first_time reconnection_rates) t_run_total tmax seed delta ->
  run_moves'
    (rewire_global_affinity mt19937_64
       rewire_P_without_SI_checking_single_node_neighbor_affinity random_node
       N neighbor_affinity)
    E N (global_rates N reconnection_rate disconnection_rate)
    (first_time reconnection_rate) t_run_total tmax seed delta ->
  run_moves'
    (rewire_for_each_node_affinity mt19937_64
       rewire_P_without_SI_checking_single_node_neighbor_affinity
       N neighbor_affinity)
    E N (node_rates reconnection_rates disconnection_rates)
    (first_time reconnection_rates) t_run_total tmax seed delta ->
  (forall a, reconnection_rate !! 0 = Some a -> (0 <= a.1)%Q) ->
  (forall a, reconnection_rates !! 0 = Some a -> (0 <= a.1)%Q) ->
  (0 <= t_run_total)%Q ->
  returned E N reconnection_rate disconnection_rate reconnection_rates
    disconnection_rates neighbor_affinity t_run_total tmax use_random_rewiring
    seed r ->
  Trajectories.ascending_from (edge_changes.t0 r) (edge_changes.t r)
    (edge_changes.tmax r).
Proof.
  intros Hdelta H1 H2 H3 H4 Hrate Hrates Htotal (fuel & H).
  assert (forall A (rate : list (Q * A)),
            (forall a, rate !! 0 = Some a -> (0 <= a.1)%Q) ->
            forall t_first, first_time rate = Ok t_first -> (0 <= t_first)%Q)
    as Hfirst.
  { intros A rate Hr t_first. unfold first_time, at_.
    destruct (rate !! 0) as [a|] eqn:Ha; simpl; [|done].
    intros [= <-]. by apply Hr. }
  assert (forall apply_event prepared first_breakpoint,
            run_moves' apply_event E N prepared first_breakpoint t_run_total
              tmax seed delta ->
            (forall t_first, first_breakpoint = Ok t_first -> (0 <= t_first)%Q) ->
            run' fuel apply_event E N prepared first_breakpoint t_run_total
              tmax seed = Some (Ok r) ->
            Trajectories.ascending_from (edge_changes.t0 r) (edge_changes.t r)
              (edge_changes.tmax r)) as Hrun.
  { intros apply_event prepared first_breakpoint Hmoves Hpos Hr.
    destruct (run_ascending _ _ _ _ _ _ _ _ _ _ _ _ _ _ delta Hdelta Hmoves Hr)
      as (Ht0 & Htmax & Hinc & t_first & Hb & Hall).
    rewrite Ht0, Htmax. specialize (Hpos t_first Hb).
    apply increasing_ascending; try done.
    - eapply Forall_impl; [exact Hall|]. intros x (? & _). simpl in *. lra.
    - eapply Forall_impl; [exact Hall|]. by intros x (_ & ?). }
  destruct H as [H | [H | [H | H]]]; apply assert_same_size_Ok in H.
  - exact (Hrun _ _ _ H1 (Hfirst _ _ Hrate) H).
  - exact (Hrun _ _ _ H2 (Hfirst _ _ Hrates) H).
  - exact (Hrun _ _ _ H3 (Hfirst _ _ Hrate) H).
  - exact (Hrun _ _ _ H4 (Hfirst _ _ Hrates) H).
Qed.

(** *** The channels of the per-node variants *)

(** X20.  In the per-node variants the channels 1, ..., N reconnect the
    nodes 0, ..., N - 1 and the channels N + 1, ..., 2N disconnect them:
    the channel is one more than the position of the rate of its node and
    kind in the rate vector that the loop over the rates prepared, the
    reconnection rates first.  The channel 0 and the channels above 2N
    raise the [length_error]; with no node every channel does, so that the
    node is never computed modulo zero. *)
Theorem per_node_channels_decode (N channel : nat)
    (reconnection_rates : list (Q * list Q)) (disconnection_rates : list (list Q)) :
  (2 * Z.of_nat N + 1 < size_t_modulus)%Z ->
  length reconnection_rates = length disconnection_rates ->
  let node := (channel - 1) mod N in
  let event := (channel - 1) / N in
  (0 < channel <= 2 * N ->
   node < N /\ event < 2 /\ channel = 1 + event * N + node /\
   (forall G generator,
      rewire_for_each_node mt19937_64 rewire_P_without_SI_checking_single_node
        N channel G generator =
      rewire_P_without_SI_checking_single_node node G
        (if event =? 0 then 1%Q else 0%Q) generator) /\
   (forall i a b single_rates total_rate,
      node_rates reconnection_rates disconnection_rates
        = Ok (single_rates, total_rate) ->
      reconnection_rates !! i = Some a -> disconnection_rates !! i = Some b ->
      length a.2 = N -> length b = N ->
      exists this_vec,
        single_rates !! i = Some (a.1, this_vec) /\
        this_vec !! (channel - 1) = (if event =? 0 then a.2 else b) !! node)) /\
  (channel = 0 \/ 2 * N < channel ->
   forall G generator,
     rewire_for_each_node mt19937_64 rewire_P_without_SI_checking_single_node
       N channel G generator = Err other_event).
Proof.
  intros HN Hlen node event. unfold size_t_modulus in HN. split.
  - intros (Hpos & Hle). assert (N <> 0) as HN0 by lia.
    pose proof (Nat.mod_upper_bound (channel - 1) N HN0) as Hnode.
    pose proof (Nat.div_mod_eq (channel - 1) N) as Hdm.
    assert (event < 2) as Hevent.
    { apply Nat.Div0.div_lt_upper_bound. lia. }
    fold node event in Hnode, Hdm.
    split; [done|]. split; [done|]. split; [nia|]. split.
    + intros G generator. unfold rewire_for_each_node, size_t_modulus.
      rewrite (proj2 (Nat.ltb_lt 0 channel) Hpos).
      rewrite Z.mod_small by lia.
      rewrite (proj2 (Z.ltb_lt _ _)) by lia. done.
    + intros i a b single_rates total_rate Hrates Ha Hb Hla Hlb.
      rewrite (node_rates_spec _ _ Hlen) in Hrates. injection Hrates as <- _.
      exists (a.2 ++ b). split.
      { rewrite lookup_zip_with, Ha. simpl. by rewrite Hb. }
      destruct event as [|[|e]] eqn:He; [| |lia]; simpl.
      * rewrite lookup_app_l by lia. f_equal. lia.
      * rewrite lookup_app_r by lia. f_equal. lia.
  - intros Hout G generator. unfold rewire_for_each_node, size_t_modulus.
    destruct Hout as [-> | Hbig]; [done|].
    rewrite Z.mod_small by lia.
    rewrite (proj2 (Z.ltb_ge _ _)) by lia. by rewrite andb_false_r.
Qed.

(** *** Simulations without an event *)

Lemma simulate_past (apply_event : handler mt19937_64) total_rate single_rates
    t_run_total tmax (fuel : nat) (s : simulation mt19937_64) :
  (t_run_total <= t s)%Q ->
  simulate' fuel apply_event total_rate single_rates t_run_total tmax s
    = Some (Ok s).
Proof.
  intros Hle. destruct fuel; simpl; by rewrite (Qlt_bool_false _ _ Hle).
Qed.

Lemma run_without_rates (apply_event : handler mt19937_64) (E : list edge)
    (N : nat) single_rates total_rate t_run_total tmax seed fuel G0 :
  graph_from_edgelist (replicate N ∅) E = Ok G0 ->
  run' fuel apply_event E N (Ok (single_rates, total_rate))
    (Err undefined_behaviour) t_run_total tmax seed
    = Some (Err undefined_behaviour).
Proof. intros HG0. unfold run. by rewrite HG0. Qed.

Lemma run_past (apply_event : handler mt19937_64) (E : list edge)
    (N : nat) single_rates total_rate t_first t_run_total tmax seed fuel G0 :
  graph_from_edgelist (replicate N ∅) E = Ok G0 ->
  (t_run_total <= t_first)%Q ->
  run' fuel apply_event E N (Ok (single_rates, total_rate))
    (Ok t_first) t_run_total tmax seed
    = Some (Ok (empty_record E N t_run_total)).
Proof.
  intros HG0 Hle. unfold run. rewrite HG0. by rewrite simulate_past.
Qed.

(** X21.  Two inputs for which a variant does not draw an event.  With
    empty lists of rates the sizes agree, the loop over the rates does
    nothing, and the start of the clock is read from the first entry of an
    empty vector: nothing is raised.  With [t_run_total] at or before the
    first breakpoint the loop is not entered, and the record returned has
    no event, whatever the scheduler would have drawn. *)
Theorem simulations_without_an_event (E : list edge) (N : nat)
    (reconnection_rate : list (Q * Q)) (disconnection_rate : list Q)
    (reconnection_rates : list (Q * list Q)) (disconnection_rates : list (list Q))
    (neighbor_affinity : list (list nat * list Q))
    (t_run_total tmax : Q) (use_random_rewiring : bool) (seed fuel : nat)
    (G0 : graph) :
  graph_from_edgelist (replicate N ∅) E = Ok G0 ->
  (flockwork_alpha_beta_varying_rates mt19937_64 seed_engine
     get_gillespie_tau_and_event_with_varying_gamma_for_each_node
     rewire_P_without_SI_checking graph_from_edgelist
     E N [] [] t_run_total tmax use_random_rewiring seed fuel
     = Some (Err undefined_behaviour) /\
   flockwork_alpha_beta_varying_rates_for_each_node mt19937_64 seed_engine
     get_gillespie_tau_and_event_with_varying_gamma_for_each_node
     rewire_P_without_SI_checking_single_node graph_from_edgelist
     E N [] [] t_run_total tmax use_random_rewiring seed fuel
     = Some (Err undefined_behaviour) /\
   flockwork_alpha_beta_varying_rates_with_neighbor_affinity mt19937_64 seed_engine
     get_gillespie_tau_and_event_with_varying_gamma_for_each_node
     rewire_P_without_SI_checking_single_node_neighbor_affinity random_node
     graph_from_edgelist
     E N [] [] neighbor_affinity t_run_total tmax use_random_rewiring seed fuel
     = Some (Err undefined_behaviour) /\
   flockwork_alpha_beta_varying_rates_for_each_node_with_neighbor_affinity
     mt19937_64 seed_engine
     get_gillespie_tau_and_event_with_varying_gamma_for_each_node
     rewire_P_without_SI_checking_single_node_neighbor_affinity
     graph_from_edgelist
     E N [] [] neighbor_affinity t_run_total tmax use_random_rewiring seed fuel
     = Some (Err undefined_behaviour)) /\
  (length reconnection_rate = length disconnection_rate ->
   forall a, reconnection_rate !! 0 = Some a -> (t_run_total <= a.1)%Q ->
     flockwork_alpha_beta_varying_rates mt19937_64 seed_engine
       get_gillespie_tau_and_event_with_varying_gamma_for_each_node
       rewire_P_without_SI_checking graph_from_edgelist
       E N reconnection_rate disconnection_rate
       t_run_total tmax use_random_rewiring seed fuel
       = Some (Ok (empty_record E N t_run_total)) /\
     flockwork_alpha_beta_varying_rates_with_neighbor_affinity mt19937_64
       seed_engine
       get_gillespie_tau_and_event_with_varying_gamma_for_each_node
       rewire_P_without_SI_checking_single_node_neighbor_affinity random_node
       graph_from_edgelist
       E N reconnection_rate disconnection_rate neighbor_affinity
       t_run_total tmax use_random_rewiring seed fuel
       = Some (Ok (empty_record E N t_run_total))) /\
  (length reconnection_rates = length disconnection_rates ->
   forall a, reconnection_rates !! 0 = Some a -> (t_run_total <= a.1)%Q ->
     flockwork_alpha_beta_varying_rates_for_each_node mt19937_64 seed_engine
       get_gillespie_tau_and_event_with_varying_gamma_for_each_node
       rewire_P_without_SI_checking_single_node graph_from_edgelist
       E N reconnection_rates disconnection_rates
       t_run_total tmax use_random_rewiring seed fuel
       = Some (Ok (empty_record E N t_run_total)) /\
     flockwork_alpha_beta_varying_rates_for_each_node_with_neighbor_affinity
       mt19937_64 seed_engine
       get_gillespie_tau_and_event_with_varying_gamma_for_each_node
       rewire_P_without_SI_checking_single_node_neighbor_affinity
       graph_from_edgelist
       E N reconnection_rates disconnection_rates neighbor_affinity
       t_run_total tmax use_random_rewiring seed fuel
       = Some (Ok (empty_record E N t_run_total))).
Proof.
  intros HG0. split; [|split].
  - unfold flockwork_alpha_beta_varying_rates,
      flockwork_alpha_beta_varying_rates_for_each_node,
      flockwork_alpha_beta_varying_rates_with_neighbor_affinity,
      flockwork_alpha_beta_varying_rates_for_each_node_with_neighbor_affinity,
      assert_same_size.
    simpl. repeat split; by eapply run_without_rates.
  - intros Hlen a Ha Hle.
    unfold flockwork_alpha_beta_varying_rates,
      flockwork_alpha_beta_varying_rates_with_neighbor_affinity.
    rewrite !(assert_same_size_pass _ _ _ Hlen), (global_rates_spec _ _ _ Hlen).
    unfold first_time, at_. rewrite Ha. simpl.
    split; by eapply run_past.
  - intros Hlen a Ha Hle.
    unfold flockwork_alpha_beta_varying_rates_for_each_node,
      flockwork_alpha_beta_varying_rates_for_each_node_with_neighbor_affinity.
    rewrite !(assert_same_size_pass _ _ _ Hlen), (node_rates_spec _ _ Hlen).
    unfold first_time, at_. rewrite Ha. simpl.
    split; by eapply run_past.
Qed.

End Stream.

Lemma ticking_run_returned :
  returned nat (fun seed => seed) ticking toggle toggle_node toggle_affinity
    first_node Trajectories.graph_from_edgelist
    [(0, 1)] 2 [(0%Q, 1%Q)] [1%Q] [(0%Q, [1%Q; 1%Q])] [[1%Q; 1%Q]] []
    (7 # 2)%Q 10%Q false 0
    ticking_record.
Proof. exists 5. left. vm_compute. reflexivity. Qed.

Lemma recorded_diffs_are_aligned_witness :
  diffs_ok
    ticking_record.
Proof.
  exact (recorded_diffs_are_aligned nat (fun seed => seed) ticking toggle
           toggle_node toggle_affinity first_node Trajectories.graph_from_edgelist
           [(0, 1)] 2 [(0%Q, 1%Q)] [1%Q] [(0%Q, [1%Q; 1%Q])] [[1%Q; 1%Q]] []
           (7 # 2)%Q 10%Q false 0 ticking_record ticking_run_returned).
Defined.

Lemma record_is_an_ascending_stream_witness :
  Trajectories.ascending_from (edge_changes.t0 ticking_record)
    (edge_changes.t ticking_record) (edge_changes.tmax ticking_record).
Proof.
  apply (record_is_an_ascending_stream nat (fun seed => seed) ticking toggle
           toggle_node toggle_affinity first_node Trajectories.graph_from_edgelist
           [(0, 1)] 2 [(0%Q, 1%Q)] [1%Q] [(0%Q, [1%Q; 1%Q])] [[1%Q; 1%Q]] []
           (7 # 2)%Q 10%Q false 0 ticking_record (1 # 2)%Q).
  - reflexivity.
  - apply clock_moves_run_moves; [discriminate|].
    intros single_rates total_rate t_first _ [= <-].
    apply ticking_moves. discriminate.
  - apply clock_moves_run_moves; [discriminate|].
    intros single_rates total_rate t_first _ [= <-].
    apply ticking_moves. discriminate.
  - apply clock_moves_run_moves; [discriminate|].
    intros single_rates total_rate t_first _ [= <-].
    apply ticking_moves. discriminate.
  - apply clock_moves_run_moves; [discriminate|].
    intros single_rates total_rate t_first _ [= <-].
    apply ticking_moves. discriminate.
  - intros a [= <-]. discriminate.
  - intros a [= <-]. discriminate.
  - discriminate.
  - exact ticking_run_returned.
Defined.

Lemma per_node_channels_decode_witness :
  (3 - 1) mod 2 = 0 /\ (3 - 1) / 2 = 1 /\
  forall G generator,
    rewire_for_each_node nat toggle_node 2 3 G generator =
    toggle_node 0 G 0%Q generator.
Proof.
  destruct (per_node_channels_decode nat toggle_node 2 3
              [(0%Q, [1%Q; 1%Q])] [[1%Q; 1%Q]]) as (H & _).
  - vm_compute. reflexivity.
  - reflexivity.
  - destruct H as (_ & _ & _ & Hrewire & _); [lia|].
    split; [reflexivity|]. split; [reflexivity|]. exact Hrewire.
Defined.

Lemma simulations_without_an_event_witness :
  flockwork_alpha_beta_varying_rates nat (fun seed => seed) ticking toggle
    Trajectories.graph_from_edgelist
    [(0, 1)] 2 [] [] (7 # 2)%Q 10%Q false 0 5 = Some (Err undefined_behaviour) /\
  flockwork_alpha_beta_varying_rates nat (fun seed => seed) ticking toggle
    Trajectories.graph_from_edgelist
    [(0, 1)] 2 [(4%Q, 1%Q)] [1%Q] (7 # 2)%Q 10%Q false 0 5
    = Some (Ok (empty_record [(0, 1)] 2 (7 # 2))).
Proof.
  destruct (simulations_without_an_event nat (fun seed => seed) ticking toggle
              toggle_node toggle_affinity first_node
              Trajectories.graph_from_edgelist
              [(0, 1)] 2 [(4%Q, 1%Q)] [1%Q] [(4%Q, [1%Q; 1%Q])] [[1%Q; 1%Q]]
              [] (7 # 2)%Q 10%Q false 0 5 [{[1]}; {[0]}] eq_refl)
    as ((Hempty & _) & Hpast & _).
  split; [exact Hempty|].
  destruct (Hpast eq_refl (4%Q, 1%Q) eq_refl) as (H & _); [discriminate|exact H].
Defined.

End Flockwork_stream.
